(** * document-fmt: field extraction, property trees and the S006 cross-check

    A shallow embedding of the documentation tooling under
    [internal/tools/document-fmt]: the field parser ([parser/field_parser.go]),
    the scan of the arguments section and the structured parser
    ([markdown]), the property tree, its block linking and the conversions
    into it ([data]) and rule S006 ([rule], arguments exist in document).

    Go strings are byte strings: they are modelled as [string] (one [ascii]
    per byte), indices are [Z] as Go's [int], and a run-time panic (a slice
    expression out of range) is a value of the [Go] result type. *)

From Stdlib Require Import ZArith List String Ascii Bool Lia Permutation Sorted.
Import ListNotations.

Local Open Scope bool_scope.
Local Open Scope list_scope.
Local Open Scope string_scope.
Local Open Scope Z_scope.

(** ** Results of Go code that may panic *)

Inductive Go (A : Type) : Type :=
| Ok (a : A)
| Panic (msg : string).
Arguments Ok {A} a.
Arguments Panic {A} msg.

Definition bind {A B : Type} (c : Go A) (k : A -> Go B) : Go B :=
  match c with
  | Ok a => k a
  | Panic msg => Panic msg
  end.

Notation "x <- c ;; k" := (bind c (fun x => k))
  (at level 61, c at next level, right associativity).
Notation "' p <- c ;; k" := (bind c (fun p => k))
  (at level 61, p pattern, c at next level, right associativity).

Definition returned {A : Type} (c : Go A) : bool :=
  match c with Ok _ => true | Panic _ => false end.

(** ** Bytes *)

Definition byte_of (c : ascii) : Z := Z.of_N (N_of_ascii c).
Definition ascii_of (b : Z) : ascii := ascii_of_N (Z.to_N b).

Definition dquote : ascii := ascii_of 34.

Fixpoint bytes (l : list Z) : string :=
  match l with
  | [] => EmptyString
  | b :: l' => String (ascii_of b) (bytes l')
  end.

Fixpoint byte_list (s : string) : list Z :=
  match s with
  | EmptyString => []
  | String c s' => byte_of c :: byte_list s'
  end.

(** ** unicode/utf8 and unicode: what [strings.ToLower] uses *)

Module utf8.

Definition RuneError : Z := 65533.
Definition RuneSelf : Z := 128.
Definition MaxRune : Z := 1114111.

Definition cont (b : Z) : bool := (128 <=? b) && (b <=? 191).

(** [DecodeRuneInString]: the rune at the head of [l] and its width in
    bytes; an invalid or truncated encoding is [RuneError] of width 1. *)
Definition DecodeRune (l : list Z) : Z * nat :=
  match l with
  | [] => (RuneError, 0%nat)
  | b0 :: l1 =>
    if b0 <? 128 then (b0, 1%nat)
    else if (194 <=? b0) && (b0 <=? 223) then
      match l1 with
      | b1 :: _ =>
        if cont b1 then (Z.lor (Z.shiftl (Z.land b0 31) 6) (Z.land b1 63), 2%nat)
        else (RuneError, 1%nat)
      | _ => (RuneError, 1%nat)
      end
    else if (224 <=? b0) && (b0 <=? 239) then
      match l1 with
      | b1 :: b2 :: _ =>
        let lo := if b0 =? 224 then 160 else 128 in
        let hi := if b0 =? 237 then 159 else 191 in
        if (lo <=? b1) && (b1 <=? hi) && cont b2 then
          (Z.lor (Z.shiftl (Z.land b0 15) 12)
                 (Z.lor (Z.shiftl (Z.land b1 63) 6) (Z.land b2 63)), 3%nat)
        else (RuneError, 1%nat)
      | _ => (RuneError, 1%nat)
      end
    else if (240 <=? b0) && (b0 <=? 244) then
      match l1 with
      | b1 :: b2 :: b3 :: _ =>
        let lo := if b0 =? 240 then 144 else 128 in
        let hi := if b0 =? 244 then 143 else 191 in
        if (lo <=? b1) && (b1 <=? hi) && cont b2 && cont b3 then
          (Z.lor (Z.shiftl (Z.land b0 7) 18)
                 (Z.lor (Z.shiftl (Z.land b1 63) 12)
                        (Z.lor (Z.shiftl (Z.land b2 63) 6) (Z.land b3 63))), 4%nat)
        else (RuneError, 1%nat)
      | _ => (RuneError, 1%nat)
      end
    else (RuneError, 1%nat)
  end.

(** [EncodeRune] / [Builder.WriteRune]. *)
Definition EncodeRune (r : Z) : list Z :=
  if (0 <=? r) && (r <? 128) then [r]
  else if (0 <=? r) && (r <? 2048) then
    [Z.lor 192 (Z.shiftr r 6); Z.lor 128 (Z.land r 63)]
  else if (r <? 0) || (MaxRune <? r) || ((55296 <=? r) && (r <=? 57343)) then
    [239; 191; 189]
  else if r <? 65536 then
    [Z.lor 224 (Z.shiftr r 12); Z.lor 128 (Z.land (Z.shiftr r 6) 63);
     Z.lor 128 (Z.land r 63)]
  else
    [Z.lor 240 (Z.shiftr r 18); Z.lor 128 (Z.land (Z.shiftr r 12) 63);
     Z.lor 128 (Z.land (Z.shiftr r 6) 63); Z.lor 128 (Z.land r 63)].

(** The runes a [for _, c := range s] loop yields. *)
Fixpoint runes (fuel : nat) (l : list Z) : list Z :=
  match fuel with
  | O => []
  | S fuel' =>
    match l with
    | [] => []
    | _ :: _ =>
      let '(r, w) := DecodeRune l in
      r :: runes fuel' (skipn w l)
    end
  end.

Definition RuneStart (b : Z) : bool := negb (Z.land b 192 =? 128).

Fixpoint firstStart (l : list Z) (j : nat) : option nat :=
  match l with
  | [] => None
  | b :: l' => if RuneStart b then Some j else firstStart l' (S j)
  end.

(** [DecodeLastRuneInString]: the rune at the end of [l]. The start of its
    encoding is looked for among the three bytes before the last one; the
    bytes from there on have to decode to one rune that ends with [l]. *)
Definition DecodeLastRune (l : list Z) : Z * nat :=
  match rev l with
  | [] => (RuneError, 0%nat)
  | b :: before =>
    if b <? RuneSelf then (b, 1%nat)
    else
      let width := match firstStart (firstn 3 before) 0 with
                   | Some j => (j + 2)%nat
                   | None => Nat.min (List.length l) 5
                   end in
      let '(r, size) := DecodeRune (skipn (List.length l - width) l) in
      if Nat.eqb size width then (r, size) else (RuneError, 1%nat)
  end.

End utf8.

Module unicode.

(** A run of [unicode.CaseRanges], restricted to the lower-case column:
    either every code point of [lo..hi] moves by a fixed delta, or the run
    alternates upper- and lower-case letters ([UpperLower]). *)
Inductive caseDelta : Type :=
| Delta (d : Z)
| UpperLower.

Definition lowerRanges : list (Z * Z * caseDelta) := [
(192, 214, Delta (32)); (216, 222, Delta (32)); (256, 303, UpperLower);
(304, 304, Delta (-199)); (306, 311, UpperLower); (313, 328, UpperLower);
(330, 375, UpperLower); (376, 376, Delta (-121)); (377, 382, UpperLower);
(385, 385, Delta (210)); (386, 389, UpperLower); (390, 390, Delta (206));
(391, 392, UpperLower); (393, 394, Delta (205)); (395, 396, UpperLower);
(398, 398, Delta (79)); (399, 399, Delta (202)); (400, 400, Delta (203));
(401, 402, UpperLower); (403, 403, Delta (205)); (404, 404, Delta (207));
(406, 406, Delta (211)); (407, 407, Delta (209)); (408, 409, UpperLower);
(412, 412, Delta (211)); (413, 413, Delta (213)); (415, 415, Delta (214));
(416, 421, UpperLower); (422, 422, Delta (218)); (423, 424, UpperLower);
(425, 425, Delta (218)); (428, 429, UpperLower); (430, 430, Delta (218));
(431, 432, UpperLower); (433, 434, Delta (217)); (435, 438, UpperLower);
(439, 439, Delta (219)); (440, 441, UpperLower); (444, 445, UpperLower);
(452, 452, Delta (2)); (453, 454, UpperLower); (455, 455, Delta (2)); (456, 457, UpperLower);
(458, 458, Delta (2)); (459, 476, UpperLower); (478, 495, UpperLower); (497, 497, Delta (2));
(498, 501, UpperLower); (502, 502, Delta (-97)); (503, 503, Delta (-56));
(504, 543, UpperLower); (544, 544, Delta (-130)); (546, 563, UpperLower);
(570, 570, Delta (10795)); (571, 572, UpperLower); (573, 573, Delta (-163));
(574, 574, Delta (10792)); (577, 578, UpperLower); (579, 579, Delta (-195));
(580, 580, Delta (69)); (581, 581, Delta (71)); (582, 591, UpperLower);
(880, 883, UpperLower); (886, 887, UpperLower); (895, 895, Delta (116));
(902, 902, Delta (38)); (904, 906, Delta (37)); (908, 908, Delta (64));
(910, 911, Delta (63)); (913, 929, Delta (32)); (931, 939, Delta (32));
(975, 975, Delta (8)); (984, 1007, UpperLower); (1012, 1012, Delta (-60));
(1015, 1016, UpperLower); (1017, 1017, Delta (-7)); (1018, 1019, UpperLower);
(1021, 1023, Delta (-130)); (1024, 1039, Delta (80)); (1040, 1071, Delta (32));
(1120, 1153, UpperLower); (1162, 1215, UpperLower); (1216, 1216, Delta (15));
(1217, 1230, UpperLower); (1232, 1327, UpperLower); (1329, 1366, Delta (48));
(4256, 4293, Delta (7264)); (4295, 4295, Delta (7264)); (4301, 4301, Delta (7264));
(5024, 5103, Delta (38864)); (5104, 5109, Delta (8)); (7312, 7354, Delta (-3008));
(7357, 7359, Delta (-3008)); (7680, 7829, UpperLower); (7838, 7838, Delta (-7615));
(7840, 7935, UpperLower); (7944, 7951, Delta (-8)); (7960, 7965, Delta (-8));
(7976, 7983, Delta (-8)); (7992, 7999, Delta (-8)); (8008, 8013, Delta (-8));
(8025, 8025, Delta (-8)); (8027, 8027, Delta (-8)); (8029, 8029, Delta (-8));
(8031, 8031, Delta (-8)); (8040, 8047, Delta (-8)); (8072, 8079, Delta (-8));
(8088, 8095, Delta (-8)); (8104, 8111, Delta (-8)); (8120, 8121, Delta (-8));
(8122, 8123, Delta (-74)); (8124, 8124, Delta (-9)); (8136, 8139, Delta (-86));
(8140, 8140, Delta (-9)); (8152, 8153, Delta (-8)); (8154, 8155, Delta (-100));
(8168, 8169, Delta (-8)); (8170, 8171, Delta (-112)); (8172, 8172, Delta (-7));
(8184, 8185, Delta (-128)); (8186, 8187, Delta (-126)); (8188, 8188, Delta (-9));
(8486, 8486, Delta (-7517)); (8490, 8490, Delta (-8383)); (8491, 8491, Delta (-8262));
(8498, 8498, Delta (28)); (8544, 8559, Delta (16)); (8579, 8580, UpperLower);
(9398, 9423, Delta (26)); (11264, 11311, Delta (48)); (11360, 11361, UpperLower);
(11362, 11362, Delta (-10743)); (11363, 11363, Delta (-3814));
(11364, 11364, Delta (-10727)); (11367, 11372, UpperLower); (11373, 11373, Delta (-10780));
(11374, 11374, Delta (-10749)); (11375, 11375, Delta (-10783));
(11376, 11376, Delta (-10782)); (11378, 11379, UpperLower); (11381, 11382, UpperLower);
(11390, 11391, Delta (-10815)); (11392, 11491, UpperLower); (11499, 11502, UpperLower);
(11506, 11507, UpperLower); (42560, 42605, UpperLower); (42624, 42651, UpperLower);
(42786, 42799, UpperLower); (42802, 42863, UpperLower); (42873, 42876, UpperLower);
(42877, 42877, Delta (-35332)); (42878, 42887, UpperLower); (42891, 42892, UpperLower);
(42893, 42893, Delta (-42280)); (42896, 42899, UpperLower); (42902, 42921, UpperLower);
(42922, 42922, Delta (-42308)); (42923, 42923, Delta (-42319));
(42924, 42924, Delta (-42315)); (42925, 42925, Delta (-42305));
(42926, 42926, Delta (-42308)); (42928, 42928, Delta (-42258));
(42929, 42929, Delta (-42282)); (42930, 42930, Delta (-42261)); (42931, 42931, Delta (928));
(42932, 42947, UpperLower); (42948, 42948, Delta (-48)); (42949, 42949, Delta (-42307));
(42950, 42950, Delta (-35384)); (42951, 42954, UpperLower); (42960, 42961, UpperLower);
(42966, 42969, UpperLower); (42997, 42998, UpperLower); (65313, 65338, Delta (32));
(66560, 66599, Delta (40)); (66736, 66771, Delta (40)); (66928, 66938, Delta (39));
(66940, 66954, Delta (39)); (66956, 66962, Delta (39)); (66964, 66965, Delta (39));
(68736, 68786, Delta (64)); (71840, 71871, Delta (32)); (93760, 93791, Delta (32));
(125184, 125217, Delta (34))
].

Fixpoint to_lower (ranges : list (Z * Z * caseDelta)) (r : Z) : Z :=
  match ranges with
  | [] => r
  | (lo, hi, d) :: rest =>
    if (lo <=? r) && (r <=? hi) then
      match d with
      | Delta d => r + d
      | UpperLower => lo + Z.lor (Z.land (r - lo) (Z.lnot 1)) 1
      end
    else to_lower rest r
  end.

(** [unicode.ToLower]. *)
Definition ToLower (r : Z) : Z :=
  if r <=? 127 then
    if (65 <=? r) && (r <=? 90) then r + 32 else r
  else to_lower lowerRanges r.

(** [unicode.IsSpace] *)
Definition IsSpace (r : Z) : bool :=
  if (0 <=? r) && (r <=? 255) then
    ((9 <=? r) && (r <=? 13)) || (r =? 32) || (r =? 133) || (r =? 160)
  else
    (r =? 5760) || ((8192 <=? r) && (r <=? 8202)) || (r =? 8232) || (r =? 8233)
    || (r =? 8239) || (r =? 8287) || (r =? 12288).

End unicode.

(** ** The [strings] package *)

Module strings.

Definition len (s : string) : Z := Z.of_nat (String.length s).

Fixpoint drop (n : nat) (s : string) : string :=
  match n, s with
  | O, _ => s
  | S n', String _ s' => drop n' s'
  | S _, EmptyString => EmptyString
  end.

Fixpoint take (n : nat) (s : string) : string :=
  match n, s with
  | O, _ => EmptyString
  | S n', String c s' => String c (take n' s')
  | S _, EmptyString => EmptyString
  end.

(** [s[lo:hi]]; Go panics unless [0 <= lo <= hi <= len(s)]. *)
Definition slice (s : string) (lo hi : Z) : Go string :=
  if (0 <=? lo) && (lo <=? hi) && (hi <=? len s)
  then Ok (take (Z.to_nat (hi - lo)) (drop (Z.to_nat lo) s))
  else Panic "slice bounds out of range".

(** [s[lo:]] *)
Definition slice_from (s : string) (lo : Z) : Go string := slice s lo (len s).

Fixpoint HasPrefix (s prefix : string) : bool :=
  match prefix, s with
  | EmptyString, _ => true
  | String p prefix', String c s' => Ascii.eqb p c && HasPrefix s' prefix'
  | String _ _, EmptyString => false
  end.

Fixpoint index_from (s sep : string) (i : Z) : Z :=
  if HasPrefix s sep then i
  else match s with
       | EmptyString => -1
       | String _ s' => index_from s' sep (i + 1)
       end.

(** [strings.Index]: offset of the first occurrence of [sep], or -1. *)
Definition Index (s sep : string) : Z := index_from s sep 0.

Definition Contains (s substr : string) : bool := 0 <=? Index s substr.

Fixpoint mem (c : ascii) (cutset : string) : bool :=
  match cutset with
  | EmptyString => false
  | String d cutset' => Ascii.eqb c d || mem c cutset'
  end.

Fixpoint TrimLeft (s cutset : string) : string :=
  match s with
  | EmptyString => EmptyString
  | String c s' => if mem c cutset then TrimLeft s' cutset else s
  end.

Fixpoint TrimRight (s cutset : string) : string :=
  match s with
  | EmptyString => EmptyString
  | String c s' =>
    match TrimRight s' cutset with
    | EmptyString => if mem c cutset then EmptyString else String c EmptyString
    | r => String c r
    end
  end.

(** [strings.Trim] with a cutset of ASCII characters (the only use here). *)
Definition Trim (s cutset : string) : string := TrimLeft (TrimRight s cutset) cutset.

Fixpoint isASCII (s : string) : bool :=
  match s with
  | EmptyString => true
  | String c s' => (byte_of c <? utf8.RuneSelf) && isASCII s'
  end.

Fixpoint lowerASCII (s : string) : string :=
  match s with
  | EmptyString => EmptyString
  | String c s' =>
    let b := byte_of c in
    String (if (65 <=? b) && (b <=? 90) then ascii_of (b + 32) else c) (lowerASCII s')
  end.

(** [strings.Map]: every rune of [s] is replaced by its image, re-encoded;
    a byte that is not part of a valid encoding decodes to [RuneError]
    and is written back as the three bytes of U+FFFD. *)
Definition Map (mapping : Z -> Z) (s : string) : string :=
  bytes (flat_map (fun c => let r := mapping c in
                            if 0 <=? r then utf8.EncodeRune r else [])
                  (utf8.runes (String.length s) (byte_list s))).

(** [strings.ToLower]: bytewise on ASCII input, [Map(unicode.ToLower, s)]
    otherwise. *)
Definition ToLower (s : string) : string :=
  if isASCII s then lowerASCII s else Map unicode.ToLower s.

(** [indexFunc(s, f, false)]: the offset of the first rune that [f]
    rejects. *)
Fixpoint indexNot (fuel : nat) (f : Z -> bool) (l : list Z) (i : nat) : option nat :=
  match fuel with
  | O => None
  | S fuel' =>
    match l with
    | [] => None
    | _ :: _ =>
      let '(r, w) := utf8.DecodeRune l in
      if f r then indexNot fuel' f (skipn w l) (i + w) else Some i
    end
  end.

(** [lastIndexFunc(s, f, false)]: the offset of the last rune that [f]
    rejects, looking at the first [i] bytes. *)
Fixpoint lastIndexNot (fuel : nat) (f : Z -> bool) (l : list Z) (i : nat) : option nat :=
  match fuel with
  | O => None
  | S fuel' =>
    match i with
    | O => None
    | S _ =>
      let '(r, size) := utf8.DecodeLastRune (firstn i l) in
      if f r then lastIndexNot fuel' f l (i - size) else Some (i - size)%nat
    end
  end.

(** [TrimLeftFunc] *)
Definition TrimLeftFunc (s : string) (f : Z -> bool) : string :=
  match indexNot (String.length s) f (byte_list s) 0 with
  | None => EmptyString
  | Some i => drop i s
  end.

(** [TrimRightFunc] *)
Definition TrimRightFunc (s : string) (f : Z -> bool) : string :=
  let l := byte_list s in
  match lastIndexNot (String.length s) f l (String.length s) with
  | Some i =>
    if utf8.RuneSelf <=? nth i l 0
    then take (i + snd (utf8.DecodeRune (skipn i l))) s
    else take (S i) s
  | None => EmptyString
  end.

Definition asciiSpace (b : Z) : bool := ((9 <=? b) && (b <=? 13)) || (b =? 32).

(** The first loop of [TrimSpace]: [inl] is the text from the first byte
    that is no ASCII space, [inr] the text from the first byte that is not
    ASCII. *)
Fixpoint trimSpaceLeft (s : string) : string + string :=
  match s with
  | EmptyString => inl EmptyString
  | String c s' =>
    if utf8.RuneSelf <=? byte_of c then inr s
    else if asciiSpace (byte_of c) then trimSpaceLeft s'
    else inl s
  end.

(** The second loop, on the text the first loop left: [inl] is the text
    without the ASCII spaces at its end, [inr n] says that the last [n]
    bytes are ASCII spaces and that the byte before them is not ASCII. *)
Fixpoint trimSpaceRight (s : string) : string + nat :=
  match s with
  | EmptyString => inl EmptyString
  | String c s' =>
    match trimSpaceRight s' with
    | inl EmptyString =>
      if utf8.RuneSelf <=? byte_of c then inr (String.length s')
      else if asciiSpace (byte_of c) then inl EmptyString
      else inl (String c EmptyString)
    | inl r => inl (String c r)
    | inr n => inr n
    end
  end.

(** [strings.TrimSpace] *)
Definition TrimSpace (s : string) : string :=
  match trimSpaceLeft s with
  | inr rest => TrimRightFunc (TrimLeftFunc rest unicode.IsSpace) unicode.IsSpace
  | inl rest =>
    match trimSpaceRight rest with
    | inl r => r
    | inr n => TrimRightFunc (take (String.length rest - n) rest) unicode.IsSpace
    end
  end.

End strings.

(** ** The [regexp] package

    Go's [regexp] gives the leftmost match and, among the matches that start
    there, the one a backtracking search would find first. The matcher below
    is that backtracking search, in continuation-passing style.

    The matcher works on bytes where Go works on runes. For the patterns of
    this program the two agree: [.] and the negated classes occur only
    under [*] or [+] and are followed by an ASCII literal, an ASCII class
    or the end of the pattern, so a match never ends inside a multi-byte
    encoding; no repeated sub-pattern matches the empty string. *)

Module regexp.

Inductive Regexp : Type :=
| Empty                                       (* the empty pattern *)
| Lit (s : string)                            (* literal text *)
| Class (neg : bool) (rs : list (ascii * ascii))  (* [a-z_] and [^a-z_] *)
| AnyNotNL                                    (* . *)
| Bol                                         (* ^ *)
| Eol                                         (* $ *)
| Cat (a b : Regexp)
| Alt (a b : Regexp)                          (* a|b, a tried first *)
| Star (greedy : bool) (a : Regexp)           (* a* and a*? *)
| Cap (n : nat) (a : Regexp).                 (* the n-th ( ) group *)

Definition Plus (a : Regexp) : Regexp := Cat a (Star true a).
Definition Quest (a : Regexp) : Regexp := Alt a Empty.
Definition Chr (c : ascii) : Regexp := Class false [(c, c)].
Definition OneOf (s : string) : Regexp :=
  Class false (map (fun c => (c, c)) (list_ascii_of_string s)).
Definition NoneOf (s : string) : Regexp :=
  Class true (map (fun c => (c, c)) (list_ascii_of_string s)).
Fixpoint Seq (l : list Regexp) : Regexp :=
  match l with
  | [] => Empty
  | [a] => a
  | a :: l' => Cat a (Seq l')
  end.
Fixpoint Alts (l : list Regexp) : Regexp :=
  match l with
  | [] => Empty
  | [a] => a
  | a :: l' => Alt a (Alts l')
  end.

Definition in_class (neg : bool) (rs : list (ascii * ascii)) (c : ascii) : bool :=
  xorb neg (existsb (fun r => (byte_of (fst r) <=? byte_of c)
                              && (byte_of c <=? byte_of (snd r))) rs).

(** Submatch positions, group 0 first; [None] for a group that took no
    part in the match (Go's -1, -1). *)
Definition captures : Type := list (option (Z * Z)).

Fixpoint set_cap (n : nat) (v : Z * Z) (caps : captures) : captures :=
  match n, caps with
  | O, _ :: caps' => Some v :: caps'
  | O, [] => [Some v]
  | S n', c :: caps' => c :: set_cap n' v caps'
  | S n', [] => None :: set_cap n' v []
  end.

Definition orelse {A : Type} (a b : option A) : option A :=
  match a with Some _ => a | None => b end.

Definition cont : Type := Z -> string -> captures -> option captures.

(** The iterations of [a*]: [step] matches [a] once; an iteration has to
    move forward; a greedy star tries one more iteration before it goes on
    with [k], a lazy one after. *)
Fixpoint star (greedy : bool) (step : Z -> string -> captures -> cont -> option captures)
         (k : cont) (fuel : nat) (pos : Z) (rest : string) (caps : captures)
  {struct fuel} : option captures :=
  match fuel with
  | O => k pos rest caps
  | S fuel' =>
    let again :=
      step pos rest caps
           (fun pos' rest' caps' =>
              if pos <? pos' then star greedy step k fuel' pos' rest' caps' else None) in
    if greedy then orelse again (k pos rest caps)
    else orelse (k pos rest caps) again
  end.

(** [exec r pos rest caps k]: match [r] at offset [pos], where [rest] is
    the text from [pos] on, then continue with [k]. *)
Fixpoint exec (r : Regexp) (pos : Z) (rest : string) (caps : captures) (k : cont)
  {struct r} : option captures :=
  match r with
  | Empty => k pos rest caps
  | Lit s =>
    if strings.HasPrefix rest s
    then k (pos + strings.len s) (strings.drop (String.length s) rest) caps
    else None
  | Class neg rs =>
    match rest with
    | String c rest' => if in_class neg rs c then k (pos + 1) rest' caps else None
    | EmptyString => None
    end
  | AnyNotNL =>
    match rest with
    | String c rest' => if byte_of c =? 10 then None else k (pos + 1) rest' caps
    | EmptyString => None
    end
  | Bol => if pos =? 0 then k pos rest caps else None
  | Eol => match rest with EmptyString => k pos rest caps | _ => None end
  | Cat a b => exec a pos rest caps (fun pos' rest' caps' => exec b pos' rest' caps' k)
  | Alt a b => orelse (exec a pos rest caps k) (exec b pos rest caps k)
  | Star greedy a => star greedy (exec a) k (String.length rest) pos rest caps
  | Cap n a =>
    exec a pos rest caps
         (fun pos' rest' caps' => k pos' rest' (set_cap n (pos, pos') caps'))
  end.

Fixpoint groups (r : Regexp) : nat :=
  match r with
  | Cat a b | Alt a b => Nat.max (groups a) (groups b)
  | Star _ a => groups a
  | Cap n a => Nat.max n (groups a)
  | _ => 0%nat
  end.

(** The leftmost match that starts at [pos] or later. *)
Fixpoint search (r : Regexp) (pos : Z) (rest : string) : option captures :=
  match exec r pos rest (repeat None (S (groups r)))
             (fun pos' _ caps => Some (set_cap 0 (pos, pos') caps)) with
  | Some caps => Some caps
  | None =>
    match rest with
    | EmptyString => None
    | String _ rest' => search r (pos + 1) rest'
    end
  end.

Definition FindStringSubmatchIndex (r : Regexp) (s : string) : option captures :=
  search r 0 s.

Definition MatchString (r : Regexp) (s : string) : bool :=
  match FindStringSubmatchIndex r s with Some _ => true | None => false end.

Definition substr (s : string) (c : option (Z * Z)) : string :=
  match c with
  | Some (lo, hi) => strings.take (Z.to_nat (hi - lo)) (strings.drop (Z.to_nat lo) s)
  | None => EmptyString
  end.

(** [FindStringSubmatch]: the text of the match and of every group, or
    the nil slice when there is no match. *)
Definition FindStringSubmatch (r : Regexp) (s : string) : list string :=
  match FindStringSubmatchIndex r s with
  | Some caps => map (substr s) caps
  | None => []
  end.

(** [FindAllStringSubmatchIndex(s, -1)]: successive non-overlapping
    matches. After an empty match the search moves on by one position,
    and an empty match right after the previous match is not reported. *)
Fixpoint find_all (fuel : nat) (r : Regexp) (pos : Z) (rest : string) (prevEnd : Z)
  : list captures :=
  match fuel with
  | O => []
  | S fuel' =>
    match search r pos rest with
    | None => []
    | Some caps =>
      match nth 0 caps None with
      | None => []
      | Some (lo, hi) =>
        if hi =? pos then
          let more :=
            match rest with
            | EmptyString => []
            | String _ rest' => find_all fuel' r (pos + 1) rest' hi
            end in
          if lo =? prevEnd then more else caps :: more
        else
          caps :: find_all fuel' r hi (strings.drop (Z.to_nat (hi - pos)) rest) hi
      end
    end
  end.

Definition FindAllStringSubmatchIndex (r : Regexp) (s : string) : list captures :=
  find_all (S (String.length s)) r 0 s (-1).

Definition FindAllStringIndex (r : Regexp) (s : string) : list (Z * Z) :=
  flat_map (fun caps => match nth 0 caps None with
                        | Some m => [m]
                        | None => []
                        end)
           (FindAllStringSubmatchIndex r s).

Definition FindAllString (r : Regexp) (s : string) : list string :=
  map (fun m => substr s (Some m)) (FindAllStringIndex r s).

End regexp.

(** ** [types]: positions and requirement flags *)

Module types.

Inductive PositionType : Type :=
| PosDefault | PosExample | PosArgs | PosAttr | PosTimeout | PosImport | PosOther.

(** [RequiredType] is a set of bit flags. *)
Definition RequiredType : Type := Z.
Definition RequiredDefault : RequiredType := 0.
Definition RequiredOptional : RequiredType := Z.shiftl 1 1.
Definition RequiredRequired : RequiredType := Z.shiftl 1 2.
Definition RequiredComputed : RequiredType := Z.shiftl 1 3.

(** The integer a position constant stands for: [iota] counts the first
    six, [PosOther] is 100. *)
Definition code (p : PositionType) : Z :=
  match p with
  | PosDefault => 0
  | PosExample => 1
  | PosArgs => 2
  | PosAttr => 3
  | PosTimeout => 4
  | PosImport => 5
  | PosOther => 100
  end.

Definition positionNames : list string :=
  ["Default"; "Example"; "Args"; "Attr"; "Timeout"; "Import"].

(** [PositionType.String], on the integer the receiver is. The test
    [int(p) < len(names)] lets a negative value through to [names[p]],
    where indexing panics. *)
Definition PositionType_String (p : Z) : Go string :=
  if p =? code PosOther then Ok "Other"
  else if p <? Z.of_nat (List.length positionNames) then
    if 0 <=? p then Ok (nth (Z.to_nat p) positionNames "")
    else Panic "index out of range"
  else Ok "Unknown".

(** [PositionType.IsArgOrAttr] *)
Definition IsArgOrAttr (p : Z) : bool := (p =? code PosArgs) || (p =? code PosAttr).

(** [RequiredType.String] *)
Definition RequiredType_String (r : RequiredType) : string :=
  if r =? RequiredDefault then "Default"
  else if r =? RequiredOptional then "Optional"
  else if r =? RequiredRequired then "Required"
  else if r =? RequiredComputed then "Computed"
  else "Unknown".

(** [RequiredType.IsRequired], [IsOptional] and [IsComputed] *)
Definition IsRequired (r : RequiredType) : bool := negb (Z.land r RequiredRequired =? 0).
Definition IsOptional (r : RequiredType) : bool := negb (Z.land r RequiredOptional =? 0).
Definition IsComputed (r : RequiredType) : bool := negb (Z.land r RequiredComputed =? 0).

End types.

(** ** Go maps with string keys

    A [map[string]*T] is a list of bindings with pairwise distinct keys.
    Assignment replaces the binding of a key that is present. The order of
    the list stands for the order in which a [range] loop happens to visit
    the map; Go leaves that order unspecified, so a statement about a loop
    over a map is made for every such list. *)

Module gomap.
Section Map.
Context {V : Type}.

Fixpoint get (m : list (string * V)) (k : string) : option V :=
  match m with
  | [] => None
  | (k', v) :: m' => if String.eqb k' k then Some v else get m' k
  end.

Fixpoint set (m : list (string * V)) (k : string) (v : V) : list (string * V) :=
  match m with
  | [] => [(k, v)]
  | (k', v') :: m' =>
    if String.eqb k' k then (k, v) :: m' else (k', v') :: set m' k v
  end.

Definition keys (m : list (string * V)) : list string := map fst m.

Definition wf (m : list (string * V)) : Prop := NoDup (keys m).
End Map.
End gomap.

(** The shape shared by [parser.ParsedProperties] and [data.Properties]:
    the names in insertion order next to the map from names to entries. *)
Record PropertiesOf (P : Type) : Type := mkProperties {
  Names : list string;
  Objects : list (string * P)
}.
Arguments mkProperties {P}.
Arguments Names {P}.
Arguments Objects {P}.

Set Warnings "-register-all".

(** ** [parser]: extraction of one documentation line *)

Module parser.
Import regexp types.

Definition len {A : Type} (l : list A) : Z := Z.of_nat (List.length l).

Record ParsedField : Type := mkParsedField {
  Name : string;
  Line : Z;
  Position : PositionType;
  RequiredStatus : RequiredType;
  Required : bool;
  Optional : bool;
  Content : string;
  DefaultValue : option string;
  ForceNew : bool;
  PossibleValues : list string;
  GuessEnums : list string;
  EnumStart : Z;
  EnumEnd : Z;
  ParseErrors : list string;
  Block : bool;
  BlockTypeName : string
}.

Definition set_Name (v : string) (f : ParsedField) : ParsedField :=
  mkParsedField v (Line f) (Position f) (RequiredStatus f) (Required f) (Optional f)
    (Content f) (DefaultValue f) (ForceNew f) (PossibleValues f) (GuessEnums f)
    (EnumStart f) (EnumEnd f) (ParseErrors f) (Block f) (BlockTypeName f).
Definition set_Required (st : RequiredType) (f : ParsedField) : ParsedField :=
  mkParsedField (Name f) (Line f) (Position f) st true (Optional f)
    (Content f) (DefaultValue f) (ForceNew f) (PossibleValues f) (GuessEnums f)
    (EnumStart f) (EnumEnd f) (ParseErrors f) (Block f) (BlockTypeName f).
Definition set_Optional (st : RequiredType) (f : ParsedField) : ParsedField :=
  mkParsedField (Name f) (Line f) (Position f) st (Required f) true
    (Content f) (DefaultValue f) (ForceNew f) (PossibleValues f) (GuessEnums f)
    (EnumStart f) (EnumEnd f) (ParseErrors f) (Block f) (BlockTypeName f).
Definition set_DefaultValue (v : option string) (f : ParsedField) : ParsedField :=
  mkParsedField (Name f) (Line f) (Position f) (RequiredStatus f) (Required f) (Optional f)
    (Content f) v (ForceNew f) (PossibleValues f) (GuessEnums f)
    (EnumStart f) (EnumEnd f) (ParseErrors f) (Block f) (BlockTypeName f).
Definition set_ForceNew (v : bool) (f : ParsedField) : ParsedField :=
  mkParsedField (Name f) (Line f) (Position f) (RequiredStatus f) (Required f) (Optional f)
    (Content f) (DefaultValue f) v (PossibleValues f) (GuessEnums f)
    (EnumStart f) (EnumEnd f) (ParseErrors f) (Block f) (BlockTypeName f).
Definition set_PossibleValues (v : list string) (f : ParsedField) : ParsedField :=
  mkParsedField (Name f) (Line f) (Position f) (RequiredStatus f) (Required f) (Optional f)
    (Content f) (DefaultValue f) (ForceNew f) v (GuessEnums f)
    (EnumStart f) (EnumEnd f) (ParseErrors f) (Block f) (BlockTypeName f).
Definition set_GuessEnums (v : list string) (f : ParsedField) : ParsedField :=
  mkParsedField (Name f) (Line f) (Position f) (RequiredStatus f) (Required f) (Optional f)
    (Content f) (DefaultValue f) (ForceNew f) (PossibleValues f) v
    (EnumStart f) (EnumEnd f) (ParseErrors f) (Block f) (BlockTypeName f).
Definition set_EnumStart (v : Z) (f : ParsedField) : ParsedField :=
  mkParsedField (Name f) (Line f) (Position f) (RequiredStatus f) (Required f) (Optional f)
    (Content f) (DefaultValue f) (ForceNew f) (PossibleValues f) (GuessEnums f)
    v (EnumEnd f) (ParseErrors f) (Block f) (BlockTypeName f).
Definition set_EnumEnd (v : Z) (f : ParsedField) : ParsedField :=
  mkParsedField (Name f) (Line f) (Position f) (RequiredStatus f) (Required f) (Optional f)
    (Content f) (DefaultValue f) (ForceNew f) (PossibleValues f) (GuessEnums f)
    (EnumStart f) v (ParseErrors f) (Block f) (BlockTypeName f).
Definition add_ParseError (e : string) (f : ParsedField) : ParsedField :=
  mkParsedField (Name f) (Line f) (Position f) (RequiredStatus f) (Required f) (Optional f)
    (Content f) (DefaultValue f) (ForceNew f) (PossibleValues f) (GuessEnums f)
    (EnumStart f) (EnumEnd f) (ParseErrors f ++ [e])%list (Block f) (BlockTypeName f).
Definition set_Block (typeName : string) (f : ParsedField) : ParsedField :=
  mkParsedField (Name f) (Line f) (Position f) (RequiredStatus f) (Required f) (Optional f)
    (Content f) (DefaultValue f) (ForceNew f) (PossibleValues f) (GuessEnums f)
    (EnumStart f) (EnumEnd f) (ParseErrors f) true typeName.

(** *** The patterns *)

Definition sp : Regexp := Lit " ".

(** The Go patterns are quoted above their trees; a star that a closing
    parenthesis follows is written [{0,}] there. *)

(** [^[*-] *`(.*?)` +\- +(\(Required\)|\(Optional\))? ?(.{0,})] *)
Definition fieldReg : Regexp :=
  Seq [Bol; OneOf "*-"; Star true sp; Lit "`"; Cap 1 (Star false AnyNotNL); Lit "`";
       Plus sp; Lit "-"; Plus sp;
       Quest (Cap 2 (Alt (Lit "(Required)") (Lit "(Optional)")));
       Quest sp; Cap 3 (Star true AnyNotNL)].

(** [`([^`]+)`] *)
Definition codeReg : Regexp :=
  Seq [Lit "`"; Cap 1 (Plus (NoneOf "`")); Lit "`"].

Definition word : Regexp :=
  Class false [("a", "z"); ("A", "Z"); ("0", "9"); ("_", "_")]%char.

(** [^(an?|An?|The)[^`]+(`[a-zA-Z0-9_]+`[, and]{0,})+.*blocks?.*$] *)
Definition blockHeadReg : Regexp :=
  Seq [Bol;
       Cap 1 (Alts [Cat (Lit "a") (Quest (Lit "n")); Cat (Lit "A") (Quest (Lit "n"));
                    Lit "The"]);
       Plus (NoneOf "`");
       Plus (Cap 2 (Seq [Lit "`"; Plus word; Lit "`"; Star true (OneOf ", and")]));
       Star true AnyNotNL; Lit "block"; Quest (Lit "s"); Star true AnyNotNL; Eol].

(** [`([a-zA-Z0-9_]+)`] *)
Definition blockTypeReg : Regexp :=
  Seq [Lit "`"; Cap 1 (Plus word); Lit "`"].

Definition quotes : string := String "'" (String dquote "`").

(** [[.,?;](?: *[Tt]he)? *[Dd]efaults?[^`'".]+(?:to|is) ('[^']+'|`[^`]+`|"[^"]+")[ .,]?] *)
Definition DefaultsReg : Regexp :=
  Seq [OneOf ".,?;";
       Quest (Seq [Star true sp; OneOf "Tt"; Lit "he"]);
       Star true sp; OneOf "Dd"; Lit "efault"; Quest (Lit "s");
       Plus (NoneOf (String "." quotes));
       Alt (Lit "to") (Lit "is"); sp;
       Cap 1 (Alts [Seq [Lit "'"; Plus (NoneOf "'"); Lit "'"];
                    Seq [Lit "`"; Plus (NoneOf "`"); Lit "`"];
                    Seq [Chr dquote; Plus (Class true [(dquote, dquote)]); Chr dquote]]);
       Quest (OneOf " .,")].

(** [ ?Changing.*forces? a [^.]*(\.|$)] *)
Definition ForceNewReg : Regexp :=
  Seq [Quest sp; Lit "Changing"; Star true AnyNotNL; Lit "force"; Quest (Lit "s");
       Lit " a "; Star true (NoneOf "."); Cap 1 (Alt (Lit ".") Eol)].

(** [ ?Changing.*forces? a [^.]* created when [^.]*(\.|$)] *)
Definition partForceNewReg : Regexp :=
  Seq [Quest sp; Lit "Changing"; Star true AnyNotNL; Lit "force"; Quest (Lit "s");
       Lit " a "; Star true (NoneOf "."); Lit " created when "; Star true (NoneOf ".");
       Cap 1 (Alt (Lit ".") Eol)].

(** [(?:[Oo]ne|[Ee]ach|more(?: \(.*\))?|[Tt]he|as|of|[Aa]n?) ['"`]([^ ]+)['"`] (?:block|object)[^.]+(?:below|above)] *)
Definition blockPropRegs : list Regexp :=
  [Seq [Alts [Cat (OneOf "Oo") (Lit "ne"); Cat (OneOf "Ee") (Lit "ach");
              Cat (Lit "more") (Quest (Seq [Lit " ("; Star true AnyNotNL; Lit ")"]));
              Cat (OneOf "Tt") (Lit "he"); Lit "as"; Lit "of";
              Cat (OneOf "Aa") (Quest (Lit "n"))];
        sp; OneOf quotes; Cap 1 (Plus (NoneOf " ")); OneOf quotes; sp;
        Alt (Lit "block") (Lit "object"); Plus (NoneOf "."); Alt (Lit "below") (Lit "above")]].

(** *** Helpers of the extraction *)

Definition trimSet : string := String "`" (String dquote "'").

(** [getDefaultValue] *)
Definition getDefaultValue (line : string) : string :=
  let vals := FindStringSubmatch DefaultsReg line in
  if 0 <? len vals then
    let val := nth 1 vals "" in
    if 2 <? strings.len val
    then strings.take (Z.to_nat (strings.len val - 2)) (strings.drop 1 val)
    else ""
  else "".

(** [isForceNew] *)
Definition isForceNew (line : string) : bool :=
  MatchString ForceNewReg line && negb (MatchString partForceNewReg line).

(** [FirstCodeValue] *)
Definition FirstCodeValue (line : string) : string :=
  let matches := FindStringSubmatch codeReg line in
  if 1 <? len matches then nth 1 matches "" else "".

(** [IsBlockHead] *)
Definition IsBlockHead (line : string) : bool := MatchString blockHeadReg line.

(** [ExtractBlockNames]; the nil slice is the empty list. *)
Definition ExtractBlockNames (line : string) : list string :=
  if negb (MatchString blockHeadReg line) then []
  else
    let idx := strings.Index line "block" in
    if idx <=? 0 then []
    else
      filter (fun name => negb (String.eqb name ""))
             (map (fun m => strings.Trim m "`'")
                  (FindAllString codeReg (strings.take (Z.to_nat idx) line))).

(** [guessBlockProperty] *)
Definition guessBlockProperty (line : string) : bool :=
  existsb (fun reg => MatchString reg line) blockPropRegs
  || strings.Contains line "A block to".

(** [extractBlockTypeName]: the positions come from the lower-cased line
    and are used to slice the line itself. *)
Definition extractBlockTypeName (line fieldName : string) : Go string :=
  match FindAllStringSubmatchIndex blockTypeReg (strings.ToLower line) with
  | [] => Ok fieldName
  | m :: _ =>
    match nth 1 m None with
    | Some (lo, hi) => strings.slice line lo hi
    | None => strings.slice line (-1) (-1)
    end
  end.

(** [ProcessBlockDefinition] *)
Definition ProcessBlockDefinition (line : string) (position : PositionType) (lineNumber : Z)
  : Go (list string * string) :=
  let blockNames := ExtractBlockNames line in
  let idxOf := strings.Index line " of " in
  let idxWithin := strings.Index line " within " in
  if 0 <? idxOf then
    rest <- strings.slice_from line idxOf ;; Ok (blockNames, FirstCodeValue rest)
  else if 0 <? idxWithin then
    rest <- strings.slice_from line idxWithin ;; Ok (blockNames, FirstCodeValue rest)
  else Ok (blockNames, "").

(** [ParsedField.AddEnum] *)
Definition AddEnum (f : ParsedField) (values : list string) : ParsedField :=
  fold_left (fun f value =>
               let trimmed := strings.Trim value trimSet in
               if negb (String.eqb trimmed "")
                  && negb (existsb (String.eqb trimmed) (PossibleValues f))
               then set_PossibleValues (PossibleValues f ++ [trimmed])%list f
               else f)
            values f.

(** [ParsedField.SetGuessEnums] *)
Definition SetGuessEnums (f : ParsedField) (values : list string) : ParsedField :=
  set_GuessEnums
    (fold_left (fun result val =>
                  let val := strings.Trim val trimSet in
                  if negb (String.eqb val "") && negb (existsb (String.eqb val) result)
                  then (result ++ [val])%list else result)
               values [])
    f.

(** *** [extractPossibleValues] *)

Definition enumPhrases : list string :=
  ["possible value"; "must be one of"; "be one of"; "allowed value"; "valid value";
   "supported value"; "valid option"; "accepted value"].

Fixpoint firstPhrase (lower : string) (seps : list string) : Z :=
  match seps with
  | [] => -1
  | sep :: seps' =>
    let sepIdx := strings.Index lower sep in
    if 0 <=? sepIdx then sepIdx else firstPhrase lower seps'
  end.

(** The closure [possibleValueSep]. *)
Definition possibleValueSep (line : string) : Z :=
  firstPhrase (strings.ToLower line) enumPhrases.

(** The loop over the code spans of [subStr]; [Ok] is returned both when
    the spans are used up and at the [break]. *)
Fixpoint enumLoop (subStr : string) (sepIdx : Z) (enumIndex : list (Z * Z))
         (pointEnd : Z) (enums : list string) (field : ParsedField)
  : Go (list string * ParsedField) :=
  match enumIndex with
  | [] => Ok (enums, field)
  | (start, end_) :: rest =>
    pointEnd <- (if (start <? pointEnd) && (pointEnd <? end_) then
                   tail <- strings.slice_from subStr end_ ;;
                   let newPointEnd := strings.Index tail "." in
                   Ok (if 0 <=? newPointEnd then end_ + newPointEnd
                       else strings.len subStr)
                 else Ok pointEnd) ;;
    if pointEnd <? start then Ok (enums, field)
    else
      tok <- strings.slice subStr start end_ ;;
      enumLoop subStr sepIdx rest pointEnd
               (enums ++ [strings.Trim tok trimSet])%list
               (set_EnumEnd (sepIdx + end_) field)
  end.

Definition multipleSections : string :=
  "multiple possible value sections detected, skipping enum extraction".

Definition extractPossibleValues (line : string) (field : ParsedField)
  : Go (list string * ParsedField) :=
  let sepIdx := possibleValueSep line in
  if sepIdx <=? 0 then Ok ([], field)
  else
    subStr <- strings.slice_from line sepIdx ;;
    let field := set_EnumStart sepIdx field in
    let pointEnd := strings.Index subStr "." in
    let pointEnd := if pointEnd <? 0 then strings.len subStr else pointEnd in
    let enumIndex := FindAllStringIndex codeReg subStr in
    '(enums, field) <- enumLoop subStr sepIdx enumIndex pointEnd [] field ;;
    after <- strings.slice_from line (sepIdx + 1) ;;
    if 0 <=? possibleValueSep after
    then Ok (enums, add_ParseError multipleSections field)
    else Ok (enums, field).

(** *** [ExtractFieldFromLine] *)

Definition newField (line : string) (lineNumber : Z) (position : PositionType)
  : ParsedField :=
  mkParsedField "" lineNumber position RequiredDefault false false line None false
                [] [] 0 0 [] false "".

Definition requiredStatus (line : string) (field : ParsedField) : ParsedField :=
  if strings.Contains line "(Required)" then set_Required RequiredRequired field
  else if strings.Contains line "(Optional)" then set_Optional RequiredOptional field
  else if strings.Contains line "Required" then set_Required RequiredRequired field
  else if strings.Contains line "Optional" then set_Optional RequiredOptional field
  else field.

Definition ExtractFieldFromLine (line : string) (position : PositionType) (lineNumber : Z)
  : Go ParsedField :=
  let field := newField line lineNumber position in
  let defaultVal := getDefaultValue line in
  let field := if String.eqb defaultVal "" then field
               else set_DefaultValue (Some defaultVal) field in
  let field := set_ForceNew (isForceNew line) field in
  let res := FindStringSubmatch fieldReg line in
  let field := if (len res <=? 1) || String.eqb (nth 1 res "") ""
               then set_Name (FirstCodeValue line) field
               else set_Name (nth 1 res "") field in
  if ((len res <=? 1) || String.eqb (nth 1 res "") "") && String.eqb (Name field) ""
  then Ok (add_ParseError "no field name found" field)
  else
    let field := if String.eqb (Name field) ""
                 then add_ParseError "field name is empty" field else field in
    let field := if 2 <? len res then requiredStatus line field else field in
    field <- (if 3 <? len res then
                '(enums, field) <- extractPossibleValues line field ;;
                let field := AddEnum field enums in
                if (len (PossibleValues field) =? 0)
                   && (0 <? strings.Index (nth 3 res "") "`")
                then Ok (SetGuessEnums field (FindAllString codeReg (nth 3 res "")))
                else Ok field
              else Ok field) ;;
    if guessBlockProperty line then
      typeName <- extractBlockTypeName line (Name field) ;;
      Ok (set_Block typeName field)
    else Ok field.

(** *** Parsed properties *)

(** [ParsedProperty]: the embedded [ParsedField] and the own fields;
    [BlockHasSection], [NestedType], [AdditionalLines] and the back pointer
    [SameNameAttr] are left out, nothing modelled here sets or reads
    them. *)
Inductive ParsedProperty : Type :=
  mkParsedProperty (Field : ParsedField) (Type_ Description : string)
                   (Computed Deprecated : bool) (Path : string) (Count : Z)
                   (Nested : option (PropertiesOf ParsedProperty)).

Definition ParsedProperties : Type := PropertiesOf ParsedProperty.

Definition Field (p : ParsedProperty) : ParsedField :=
  match p with mkParsedProperty f _ _ _ _ _ _ _ => f end.
Definition Type_ (p : ParsedProperty) : string :=
  match p with mkParsedProperty _ t _ _ _ _ _ _ => t end.
Definition Description (p : ParsedProperty) : string :=
  match p with mkParsedProperty _ _ d _ _ _ _ _ => d end.
Definition Computed (p : ParsedProperty) : bool :=
  match p with mkParsedProperty _ _ _ c _ _ _ _ => c end.
Definition Deprecated (p : ParsedProperty) : bool :=
  match p with mkParsedProperty _ _ _ _ d _ _ _ => d end.
Definition Path (p : ParsedProperty) : string :=
  match p with mkParsedProperty _ _ _ _ _ path _ _ => path end.
Definition Count (p : ParsedProperty) : Z :=
  match p with mkParsedProperty _ _ _ _ _ _ c _ => c end.
Definition Nested (p : ParsedProperty) : option ParsedProperties :=
  match p with mkParsedProperty _ _ _ _ _ _ _ n => n end.

(** A [ParsedProperty] literal that sets the embedded field, the path and
    the nested collection. *)
Definition newProperty (f : ParsedField) (path : string) (nested : option ParsedProperties)
  : ParsedProperty :=
  mkParsedProperty f "" "" false false path 0 nested.

(** [NewParsedProperties] *)
Definition NewParsedProperties : ParsedProperties := mkProperties [] [].

(** [ParsedProperties.AddProperty]; a nil receiver or a nil property
    is [None]. *)
Definition AddProperty (props : option ParsedProperties) (p : option ParsedProperty)
  : option ParsedProperties :=
  match props, p with
  | None, _ => None
  | Some props, None => Some props
  | Some props, Some p =>
    if String.eqb (Name (Field p)) "" then Some props
    else Some (mkProperties (Names props ++ [Name (Field p)])%list
                            (gomap.set (Objects props) (Name (Field p)) p))
  end.

(** [ParsedProperties.AddField] *)
Definition AddField (props : option ParsedProperties) (f : option ParsedField)
  : option ParsedProperties :=
  match f with
  | None => props
  | Some f =>
    AddProperty props
      (Some (newProperty f "" (if Block f then Some NewParsedProperties else None)))
  end.

End parser.

(** ** [markdown]: the scan of the arguments section *)

Module markdown.
Import types parser.

(** [ArgumentsSection.ParseFields] is modelled in the revision that files
    field lines with [AddField] and blocks with [AddProperty], the two
    methods of [parser.ParsedProperties].

    The variables of its loop. The
    block under construction is a pointer in Go; when it is committed the
    map holds that pointer. The model keeps the block as a value and writes
    it into the map at every commit; a block that is changed after a commit
    is committed again before the scan ends. *)
Record scan : Type := mkScan {
  properties : ParsedProperties;
  currentBlock : option ParsedProperty;
  inBlock : bool
}.

Definition add (props : ParsedProperties) (p : ParsedProperty) : ParsedProperties :=
  match AddProperty (Some props) (Some p) with
  | Some props' => props'
  | None => props
  end.

Definition addField (props : ParsedProperties) (f : ParsedField) : ParsedProperties :=
  match AddField (Some props) (Some f) with
  | Some props' => props'
  | None => props
  end.

(** [if inBlock && currentBlock != nil { properties.AddProperty(currentBlock) }] *)
Definition commit (st : scan) : ParsedProperties :=
  match currentBlock st with
  | Some block => if inBlock st then add (properties st) block else properties st
  | None => properties st
  end.

(** The block a block head opens. *)
Definition openBlock (name blockOf line : string) (lineNum : Z) : ParsedProperty :=
  newProperty
    (mkParsedField name lineNum PosArgs RequiredDefault false false line None false
                   [] [] 0 0 [] true name)
    (if String.eqb blockOf "" then "" else blockOf ++ "." ++ name)
    (Some NewParsedProperties).

(** One turn of the loop. *)
Definition step (st : scan) (lineNum : Z) (line : string) : Go scan :=
  let trimmedLine := strings.TrimSpace line in
  if String.eqb trimmedLine "" || strings.HasPrefix trimmedLine "<!--" then Ok st
  else if strings.HasPrefix trimmedLine "->" || strings.HasPrefix trimmedLine "~>" then Ok st
  else if IsBlockHead trimmedLine then
    let props := commit st in
    '(blockNames, blockOf) <- ProcessBlockDefinition trimmedLine PosArgs lineNum ;;
    match blockNames with
    | name :: _ => Ok (mkScan props (Some (openBlock name blockOf line lineNum)) true)
    | [] => Ok (mkScan props (currentBlock st) (inBlock st))
    end
  else if String.eqb trimmedLine "---" then
    match currentBlock st with
    | Some block =>
      if inBlock st then Ok (mkScan (add (properties st) block) None false)
      else Ok (mkScan (properties st) (Some block) false)
    | None => Ok (mkScan (properties st) None false)
    end
  else if strings.HasPrefix trimmedLine "*" || strings.HasPrefix trimmedLine "-" then
    field <- ExtractFieldFromLine trimmedLine PosArgs lineNum ;;
    if String.eqb (Name field) "" then Ok st
    else
      match currentBlock st with
      | Some block =>
        if inBlock st then
          let nested := match Nested block with
                        | Some n => Some (addField n field)
                        | None => None
                        end in
          Ok (mkScan (properties st)
                     (Some (mkParsedProperty (Field block) (Type_ block) (Description block)
                                             (Computed block) (Deprecated block) (Path block)
                                             (Count block) nested))
                     true)
        else Ok (mkScan (addField (properties st) field) (Some block) false)
      | None => Ok (mkScan (addField (properties st) field) None (inBlock st))
      end
  else Ok st.

Fixpoint scanLines (st : scan) (lineNum : Z) (content : list string) : Go scan :=
  match content with
  | [] => Ok st
  | line :: content' =>
    st' <- step st lineNum line ;; scanLines st' (lineNum + 1) content'
  end.

(** [ArgumentsSection.ParseFields] on a section without cached result. *)
Definition ParseFields (content : list string) : Go ParsedProperties :=
  st <- scanLines (mkScan NewParsedProperties None false) 0 content ;;
  Ok (commit st).

End markdown.

(** ** [markdown]: the structured parser *)

Module structured.
Import regexp.

Definition len {A : Type} (l : list A) : Z := Z.of_nat (List.length l).

(** [strings.Split] for a separator that is not empty: the text is cut at
    every occurrence of [sep], found from left to right. *)
Fixpoint split (fuel : nat) (s sep : string) : list string :=
  match fuel with
  | O => [s]
  | S fuel' =>
    let m := strings.Index s sep in
    if m <? 0 then [s]
    else strings.take (Z.to_nat m) s
         :: split fuel' (strings.drop (Z.to_nat m + String.length sep) s) sep
  end.

Definition Split (s sep : string) : list string := split (String.length s) s sep.

(** [PositionType] and [RequiredType] of this package count from zero;
    [detectPosition] also returns -1. *)
Definition PositionType : Type := Z.
Definition PosArgs : PositionType := 0.
Definition PosAttributes : PositionType := 1.
Definition PosTimeouts : PositionType := 2.

Definition RequiredType : Type := Z.
Definition RequiredDefault : RequiredType := 0.
Definition RequiredOptional : RequiredType := 1.
Definition RequiredRequired : RequiredType := 2.
Definition RequiredComputed : RequiredType := 3.

(** [ParsedProperties]: the map and the order of insertion. *)
Record ParsedPropertiesOf (F : Type) : Type := mkParsedProperties {
  Fields : list (string * F);
  Order : list string
}.
Arguments mkParsedProperties {F}.
Arguments Fields {F}.
Arguments Order {F}.

Inductive ParsedField : Type := mkParsedField {
  Name : string;
  Path : string;
  Line : Z;
  Position : PositionType;
  Required : RequiredType;
  Default : string;
  ForceNew : bool;
  Content : string;
  Description : string;
  PossibleValues : list string;
  BlockType : string;
  Nested : option (ParsedPropertiesOf ParsedField)
}.

Definition ParsedProperties : Type := ParsedPropertiesOf ParsedField.

(** *** The patterns

    [fieldReg], [blockHeadReg], [defaultsReg], [forceNewReg],
    [partForceNewReg], [codeReg] and the pattern of [blockPropRegs] are
    compiled from the same texts as in package [parser]; [blockTypeReg] is
    the first of [blockPropRegs] here. *)
Definition fieldReg : Regexp := parser.fieldReg.
Definition blockHeadReg : Regexp := parser.blockHeadReg.
Definition defaultsReg : Regexp := parser.DefaultsReg.
Definition forceNewReg : Regexp := parser.ForceNewReg.
Definition partForceNewReg : Regexp := parser.partForceNewReg.
Definition codeReg : Regexp := parser.codeReg.
Definition blockPropRegs : list Regexp := parser.blockPropRegs.
Definition blockTypeReg : Regexp := nth 0 blockPropRegs Empty.

(** [## arguments? reference] *)
Definition argumentsReg : Regexp :=
  Seq [Lit "## argument"; Quest (Lit "s"); Lit " reference"].
(** [## attributes? reference] *)
Definition attributesReg : Regexp :=
  Seq [Lit "## attribute"; Quest (Lit "s"); Lit " reference"].
(** [## timeouts?] *)
Definition timeoutsReg : Regexp := Seq [Lit "## timeout"; Quest (Lit "s")].

Definition trimSet : string := String "`" (String "'" (String dquote EmptyString)).

(** [StructuredParser.detectPosition] *)
Definition detectPosition (line : string) : PositionType :=
  let lower := strings.ToLower line in
  if MatchString argumentsReg lower then PosArgs
  else if MatchString attributesReg lower then PosAttributes
  else if MatchString timeoutsReg lower then PosTimeouts
  else -1.

(** [StructuredParser.isBlockHeader] *)
Definition isBlockHeader (line : string) : bool := MatchString blockHeadReg line.

(** [StructuredParser.getDefaultValue] *)
Definition getDefaultValue (line : string) : string :=
  let vals := FindStringSubmatch defaultsReg line in
  if 0 <? len vals then
    let val := nth 1 vals "" in
    if 2 <? strings.len val
    then strings.take (Z.to_nat (strings.len val - 2)) (strings.drop 1 val)
    else ""
  else "".

(** [StructuredParser.isForceNew] *)
Definition isForceNew (line : string) : bool :=
  if MatchString forceNewReg line && negb (MatchString partForceNewReg line)
  then true else false.

(** The closure [possibleValueSep]. *)
Fixpoint firstPhrase (lower : string) (seps : list string) : Z :=
  match seps with
  | [] => -1
  | sep :: seps' =>
    let sepIdx := strings.Index lower sep in
    if 0 <=? sepIdx then sepIdx else firstPhrase lower seps'
  end.

Definition possibleValueSep (line : string) : Z :=
  firstPhrase (strings.ToLower line)
    ["possible value"; "must be one of"; "be one of"; "allowed value"; "valid value";
     "supported value"; "valid option"; "accepted value"].

(** The loop over the code spans; [Ok] is returned both when the spans
    are used up and at the [break]. *)
Fixpoint enumLoop (subStr : string) (enumIndex : list (Z * Z)) (pointEnd : Z)
         (enums : list string) : Go (list string) :=
  match enumIndex with
  | [] => Ok enums
  | (start, end_) :: rest =>
    pointEnd <- (if (start <? pointEnd) && (pointEnd <? end_) then
                   tail <- strings.slice_from subStr end_ ;;
                   let pointEnd := strings.Index tail "." in
                   Ok (if pointEnd <? 0 then strings.len subStr else pointEnd + end_)
                 else Ok pointEnd) ;;
    if pointEnd <? start then Ok enums
    else
      tok <- strings.slice subStr start end_ ;;
      enumLoop subStr rest pointEnd (enums ++ [strings.Trim tok trimSet])%list
  end.

(** [StructuredParser.extractPossibleValues]; the nil slice is the empty
    list. *)
Definition extractPossibleValues (line : string) : Go (list string) :=
  let sepIdx := possibleValueSep line in
  if 0 <? sepIdx then
    subStr <- strings.slice_from line sepIdx ;;
    let pointEnd := strings.Index subStr "." in
    let pointEnd := if pointEnd <? 0 then strings.len subStr else pointEnd in
    let enumIndex := FindAllStringIndex codeReg subStr in
    enums <- enumLoop subStr enumIndex pointEnd [] ;;
    after <- strings.slice_from line (sepIdx + 1) ;;
    if 0 <=? possibleValueSep after then Ok [] else Ok enums
  else Ok [].

(** [StructuredParser.guessBlockProperty] *)
Definition guessBlockProperty (line : string) : bool :=
  existsb (fun reg => MatchString reg line) blockPropRegs
  || strings.Contains line "A block to".

(** The switch on the words of the line. *)
Definition requiredOf (line : string) : RequiredType :=
  if strings.Contains line "(Required)" then RequiredRequired
  else if strings.Contains line "(Optional)" then RequiredOptional
  else if strings.Contains line "Required" then RequiredRequired
  else if strings.Contains line "Optional" then RequiredOptional
  else RequiredDefault.

(** [StructuredParser.parseFieldLine]; [None] is the nil field. The
    positions of the block type come from the lower-cased line and are
    used to slice the line itself. *)
Definition parseFieldLine (line : string) (lineNum : Z) (pos : PositionType)
  : Go (option ParsedField) :=
  let default := getDefaultValue line in
  let forceNew := isForceNew line in
  let res := FindStringSubmatch fieldReg line in
  if (len res <=? 1) || String.eqb (nth 1 res "") "" then Ok None
  else
    let name := nth 1 res "" in
    if String.eqb name "" then Ok None
    else
      let required := if 2 <? len res then requiredOf line else RequiredDefault in
      possibleValues <-
        (if 3 <? len res then
           possibleValues <- extractPossibleValues line ;;
           if (len possibleValues =? 0) && (0 <? strings.Index (nth 3 res "") "`")
           then Ok (map (fun val => strings.Trim val trimSet)
                        (FindAllString codeReg (nth 3 res "")))
           else Ok possibleValues
         else Ok []) ;;
      blockType <-
        (if guessBlockProperty line then
           match FindAllStringSubmatchIndex blockTypeReg (strings.ToLower line) with
           | [] => Ok name
           | m :: _ =>
             match nth 1 m None with
             | Some (lo, hi) => strings.slice line lo hi
             | None => strings.slice line (-1) (-1)
             end
           end
         else Ok "") ;;
      Ok (Some (mkParsedField name "" lineNum pos required default forceNew line ""
                              possibleValues blockType None)).

(** [StructuredParser.ParseFields]: the loop over the lines. *)
Fixpoint parseLines (lines : list string) (lineNum : Z) (currentPos : PositionType)
         (properties : ParsedProperties) : Go ParsedProperties :=
  match lines with
  | [] => Ok properties
  | line :: lines' =>
    let newPos := detectPosition line in
    if negb (newPos =? -1) then parseLines lines' (lineNum + 1) newPos properties
    else if isBlockHeader line then parseLines lines' (lineNum + 1) currentPos properties
    else
      field <- parseFieldLine line lineNum currentPos ;;
      match field with
      | Some field =>
        parseLines lines' (lineNum + 1) currentPos
                   (mkParsedProperties (gomap.set (Fields properties) (Name field) field)
                                       (Order properties ++ [Name field])%list)
      | None => parseLines lines' (lineNum + 1) currentPos properties
      end
  end.

(** [NewStructuredParser(content).ParseFields()] *)
Definition ParseFields (content : string) : Go ParsedProperties :=
  parseLines (Split content (String (ascii_of 10) EmptyString)) 0 PosArgs
             (mkParsedProperties [] []).

End structured.

(** ** [data]: the property tree *)

Module data.
Import types.

Definition len {A : Type} (l : list A) : Z := Z.of_nat (List.length l).

(** [Property]. The fields [BlockHasSection], [NestedType],
    [AdditionalLines], [EnumStart], [EnumEnd] and the back pointer
    [SameNameAttr] are left out: no function modelled here reads them. *)
Inductive Property : Type := mkProperty {
  Name : string;
  Type_ : string;
  Description : string;
  Required : bool;
  Optional : bool;
  Computed : bool;
  ForceNew : bool;
  Deprecated : bool;
  PossibleValues : list string;
  DefaultValue : option string;
  Nested : option (PropertiesOf Property);
  Block : bool;
  Count : Z;
  Path : string;
  Line : Z;
  Position : PositionType;
  Content : string;
  ParseErrors : list string;
  BlockTypeName : string;
  GuessEnums : list string
}.

Definition Properties : Type := PropertiesOf Property.

Definition set_Nested (n : option Properties) (p : Property) : Property :=
  mkProperty (Name p) (Type_ p) (Description p) (Required p) (Optional p) (Computed p)
    (ForceNew p) (Deprecated p) (PossibleValues p) (DefaultValue p) n (Block p)
    (Count p) (Path p) (Line p) (Position p) (Content p) (ParseErrors p)
    (BlockTypeName p) (GuessEnums p).

(** [existing.Count++] followed by the append to [existing.ParseErrors]. *)
Definition markDuplicate (p : Property) : Property :=
  mkProperty (Name p) (Type_ p) (Description p) (Required p) (Optional p) (Computed p)
    (ForceNew p) (Deprecated p) (PossibleValues p) (DefaultValue p) (Nested p) (Block p)
    (Count p + 1) (Path p) (Line p) (Position p) (Content p)
    (ParseErrors p ++ ["duplicate field in same section"])%list
    (BlockTypeName p) (GuessEnums p).

(** [NewProperties] *)
Definition NewProperties : Properties := mkProperties [] [].

(** [Properties.AddProperty]; a nil receiver or a nil property is
    [None]. The entry found under the name is a pointer: marking it
    updates the object the map holds. *)
Definition AddProperty (props : option Properties) (p : option Property)
  : option Properties :=
  match props, p with
  | None, _ => None
  | Some props, None => Some props
  | Some props, Some p =>
    if String.eqb (Name p) "" then Some props
    else
      match gomap.get (Objects props) (Name p) with
      | Some existing =>
        Some (mkProperties (Names props)
                           (gomap.set (Objects props) (Name p) (markDuplicate existing)))
      | None =>
        Some (mkProperties (Names props ++ [Name p])%list
                           (gomap.set (Objects props) (Name p) p))
      end
  end.

(** [Property.AddSubProperty] *)
Definition AddSubProperty (p sub : Property) : Property :=
  let nested := match Nested p with Some n => n | None => NewProperties end in
  set_Nested (Some (mkProperties (Names nested ++ [Name sub])%list
                                 (gomap.set (Objects nested) (Name sub) sub))) p.

(** *** [BuildBlockStructure]

    In Go a linked field shares the definition's [Nested] object, and the
    recursion then links the fields inside that object in place. A
    definition's own [Nested] pointer is never reassigned (only fields
    with an empty collection are linked), so what a field sees through
    the shared pointer when the pass is over is the definition's
    collection with its fields linked. The model copies the definition's
    collection into the field and links inside the copy, which unfolds to
    the same tree. The recursion does not end on a definition that
    refers to itself; [fuel] bounds the depth and [None] stands for a
    recursion that needs more. *)

(** [prop.Nested == nil || len(prop.Nested.Objects) == 0] *)
Definition emptyNested (prop : Property) : bool :=
  match Nested prop with
  | None => true
  | Some n => len (Objects n) =? 0
  end.

Definition isDefinition (prop : Property) : bool := Block prop && negb (emptyNested prop).

(** The first loop: the map [blockDefinitions]. *)
Definition blockDefinitions (objs : list (string * Property)) : list (string * Property) :=
  fold_left
    (fun defs np =>
       let name := fst np in
       let prop := snd np in
       if isDefinition prop then
         let defs := gomap.set defs name prop in
         if negb (String.eqb (BlockTypeName prop) "")
            && negb (String.eqb (BlockTypeName prop) name)
         then gomap.set defs (BlockTypeName prop) prop
         else defs
       else defs)
    objs [].

Definition blockName (prop : Property) : string :=
  if String.eqb (BlockTypeName prop) "" then Name prop else BlockTypeName prop.

(** The first statement of [fillBlockFields]. *)
Definition linkField (defs : list (string * Property)) (prop : Property) : Property :=
  if Block prop && emptyNested prop then
    match gomap.get defs (blockName prop) with
    | Some blockDef =>
      match Nested blockDef with
      | Some n => set_Nested (Some n) prop
      | None => prop
      end
    | None => prop
    end
  else prop.

Fixpoint traverse {A B : Type} (f : A -> option B) (l : list (string * A))
  : option (list (string * B)) :=
  match l with
  | [] => Some []
  | (k, a) :: l' =>
    match f a, traverse f l' with
    | Some b, Some r => Some ((k, b) :: r)
    | _, _ => None
    end
  end.

Definition joinPath (parentPath name : string) : string :=
  if String.eqb parentPath "" then name else parentPath ++ "." ++ name.

(** The closure [fillBlockFields]. *)
Fixpoint fillBlockFields (fuel : nat) (defs : list (string * Property))
         (prop : Property) (parentPath : string) : option Property :=
  match fuel with
  | O => None
  | S fuel' =>
    let prop := linkField defs prop in
    match Nested prop with
    | None => Some prop
    | Some n =>
      let nestedPath := joinPath parentPath (Name prop) in
      match traverse (fun nested => fillBlockFields fuel' defs nested nestedPath)
                     (Objects n) with
      | Some objs => Some (set_Nested (Some (mkProperties (Names n) objs)) prop)
      | None => None
      end
    end
  end.

(** [Properties.BuildBlockStructure]: the collection after the pass. *)
Definition BuildBlockStructure (fuel : nat) (props : option Properties)
  : option (option Properties) :=
  match props with
  | None => Some None
  | Some props =>
    let defs := blockDefinitions (Objects props) in
    match traverse (fun prop => fillBlockFields fuel defs prop "") (Objects props) with
    | Some objs => Some (Some (mkProperties (Names props) objs))
    | None => None
    end
  end.

(** *** Searches in the tree

    The loops below range over a map; the list order of [Objects] is the
    order in which the loop happens to visit it. The trees are finite:
    a collection that contains itself, which pointers allow, has no
    counterpart here. *)

(** The first entry, in the order of the loop, on which [f] finds
    something. *)
Fixpoint firstHit {A B : Type} (f : A -> option B) (l : list (string * A)) : option B :=
  match l with
  | [] => None
  | (_, a) :: l' =>
    match f a with
    | Some b => Some b
    | None => firstHit f l'
    end
  end.

(** [Property.FindProperty] *)
Fixpoint Property_FindProperty (name : string) (p : Property) {struct p} : option Property :=
  if String.eqb (Name p) name then Some p
  else
    match Nested p with
    | Some n => firstHit (Property_FindProperty name) (Objects n)
    | None => None
    end.

(** [Properties.FindProperty] *)
Definition FindProperty (props : option Properties) (name : string) : option Property :=
  match props with
  | None => None
  | Some props => firstHit (Property_FindProperty name) (Objects props)
  end.

(** [Property.FindAllSubBlocks] *)
Fixpoint Property_FindAllSubBlocks (name : string) (needBlock : bool) (p : Property)
         {struct p} : list Property :=
  if Block p && String.eqb (BlockTypeName p) name then [p]
  else if negb needBlock && String.eqb (BlockTypeName p) "" && String.eqb (Name p) name
  then [p]
  else
    match Nested p with
    | Some n =>
      flat_map (fun np => Property_FindAllSubBlocks name needBlock (snd np)) (Objects n)
    | None => []
    end.

(** [Properties.FindAllSubBlocks]; the nil slice is the empty list. *)
Definition FindAllSubBlocks (props : option Properties) (name : string) : list Property :=
  match props with
  | None => []
  | Some props =>
    let result :=
      flat_map (fun np => Property_FindAllSubBlocks name true (snd np)) (Objects props) in
    if len result =? 0
    then flat_map (fun np => Property_FindAllSubBlocks name false (snd np)) (Objects props)
    else result
  end.

(** [Property.HasCircularReference]. The map [visited] is shared by the
    calls: a block enters its name before it visits its fields and the
    deferred [delete] takes the name out when the call returns, so at
    every call the map holds the names of the blocks the call is nested
    in. [visited] is that set of names. *)
Fixpoint Property_HasCircularReference (visited : list string) (p : Property)
         {struct p} : bool :=
  if existsb (String.eqb (Name p)) visited then true
  else if Block p then
    match Nested p with
    | Some n =>
      existsb (fun np => Property_HasCircularReference (Name p :: visited) (snd np))
              (Objects n)
    | None => false
    end
  else false.

(** [Properties.HasCircularReference]: the key of the first entry, in the
    order of the loop, that is a block with a circular reference. *)
Fixpoint firstCircular (objs : list (string * Property)) : string :=
  match objs with
  | [] => ""
  | (name, prop) :: objs' =>
    if Block prop && Property_HasCircularReference [] prop then name
    else firstCircular objs'
  end.

Definition HasCircularReference (props : option Properties) : string :=
  match props with
  | None => ""
  | Some props => firstCircular (Objects props)
  end.

(** [Properties.Merge]. An entry of [other] whose name the receiver has is
    stored in the field [SameNameAttr] of the receiver's entry, which
    [Property] leaves out here: the second component lists these
    assignments, the receiver's name first. *)
Definition Merge (props other : option Properties)
  : option Properties * list (string * Property) :=
  match props, other with
  | Some props, Some other =>
    let r :=
      fold_left
        (fun acc np =>
           let '(props, links) := acc in
           match gomap.get (Objects props) (fst np) with
           | Some _ => (props, (links ++ [(fst np, snd np)])%list)
           | None =>
             (mkProperties (Names props ++ [fst np])%list
                           (gomap.set (Objects props) (fst np) (snd np)), links)
           end)
        (Objects other) (props, []) in
    (Some (fst r), snd r)
  | _, _ => (props, [])
  end.

(** *** From the parsed section to the document tree *)

(** The loop of [convertParsedPropertiesToProperties] over the names, on
    the converted entries. *)
Definition collectNames (names : list string) (converted : list (string * Property))
  : Properties :=
  fold_left (fun result name =>
               match gomap.get converted name with
               | Some prop =>
                 mkProperties (Names result ++ [name])%list
                              (gomap.set (Objects result) name prop)
               | None => result
               end)
            names NewProperties.

(** [convertParsedPropertyToProperty], on the fields that [Property] keeps
    here. The slices are copied element by element, which a value model
    does not see; [Count] is not set and stays zero. *)
Fixpoint convertParsedPropertyToProperty (parsed : parser.ParsedProperty) : Property :=
  match parsed with
  | parser.mkParsedProperty f type description computed deprecated path _ nested =>
    mkProperty (parser.Name f) type description (parser.Required f) (parser.Optional f)
      computed (parser.ForceNew f) deprecated (parser.PossibleValues f)
      (parser.DefaultValue f)
      (match nested with
       | Some n =>
         Some (collectNames (Names n)
                 (map (fun np => (fst np, convertParsedPropertyToProperty (snd np)))
                      (Objects n)))
       | None => None
       end)
      (parser.Block f) 0 path (parser.Line f) (parser.Position f) (parser.Content f)
      (parser.ParseErrors f) (parser.BlockTypeName f) (parser.GuessEnums f)
  end.

(** [convertParsedPropertiesToProperties] *)
Definition convertParsedPropertiesToProperties (parsed : option parser.ParsedProperties)
  : option Properties :=
  match parsed with
  | None => None
  | Some parsed =>
    Some (collectNames (Names parsed)
            (map (fun np => (fst np, convertParsedPropertyToProperty (snd np)))
                 (Objects parsed)))
  end.

(** The document tree of an arguments section, as
    [populateDocumentProperties] builds it. *)
Definition DocumentArguments (content : list string) : Go (option Properties) :=
  parsedProps <- markdown.ParseFields content ;;
  Ok (convertParsedPropertiesToProperties (Some parsedProps)).

End data.

(** ** [data]: the structured view of a document *)

Module enhanced.
Import types data.

(** *** [ParseDocumentStructure]

    The structured view of a document: the fields of
    [StructuredParser.ParseFields] filed by position. A read through a nil
    pointer is a panic. *)
Record StructuredDocumentData : Type := mkStructuredDocumentData {
  Arguments : structured.ParsedProperties;
  Attributes : structured.ParsedProperties;
  Timeouts : structured.ParsedProperties;
  Blocks : list (string * structured.ParsedProperties)
}.

(** The fields of [EnhancedTerraformNodeData] that [ParseDocumentStructure]
    sets, those of the embedded node data included. *)
Record EnhancedTerraformNodeData : Type := mkEnhanced {
  ParsedDocument : structured.ParsedProperties;
  StructuredData : StructuredDocumentData;
  DocumentArguments : Properties;
  DocumentAttributes : Properties
}.

Definition nilDereference : string := "invalid memory address or nil pointer dereference".

(** [props.Fields[name] = field] and the append to [props.Order]. *)
Definition fileUnder (props : structured.ParsedProperties) (name : string)
           (field : structured.ParsedField) : structured.ParsedProperties :=
  structured.mkParsedProperties (gomap.set (structured.Fields props) name field)
                                (structured.Order props ++ [name])%list.

(** The body of the loop over [parsedFields.Order]. *)
Definition fileField (parsedFields : structured.ParsedProperties)
           (sd : StructuredDocumentData) (name : string) : Go StructuredDocumentData :=
  match gomap.get (structured.Fields parsedFields) name with
  | None => Panic nilDereference
  | Some field =>
    let sd :=
      if structured.Position field =? structured.PosArgs then
        mkStructuredDocumentData (fileUnder (Arguments sd) name field) (Attributes sd)
                                 (Timeouts sd) (Blocks sd)
      else if structured.Position field =? structured.PosAttributes then
        mkStructuredDocumentData (Arguments sd) (fileUnder (Attributes sd) name field)
                                 (Timeouts sd) (Blocks sd)
      else if structured.Position field =? structured.PosTimeouts then
        mkStructuredDocumentData (Arguments sd) (Attributes sd)
                                 (fileUnder (Timeouts sd) name field) (Blocks sd)
      else sd in
    if negb (String.eqb (structured.BlockType field) "") then
      let block :=
        match gomap.get (Blocks sd) (structured.BlockType field) with
        | Some block => block
        | None => structured.mkParsedProperties [] []
        end in
      let block :=
        match structured.Nested field with
        | Some nested =>
          fold_left (fun block entry => fileUnder block (fst entry) (snd entry))
                    (structured.Fields nested) block
        | None => block
        end in
      Ok (mkStructuredDocumentData (Arguments sd) (Attributes sd) (Timeouts sd)
            (gomap.set (Blocks sd) (structured.BlockType field) block))
    else Ok sd
  end.

Fixpoint fileFields (parsedFields : structured.ParsedProperties)
         (sd : StructuredDocumentData) (order : list string) : Go StructuredDocumentData :=
  match order with
  | [] => Ok sd
  | name :: order' =>
    sd' <- fileField parsedFields sd name ;; fileFields parsedFields sd' order'
  end.

(** The [Property] literal of [toProperties]. *)
Definition toProperty (field : structured.ParsedField) : Property :=
  mkProperty (structured.Name field) "" (structured.Description field)
    (structured.Required field =? structured.RequiredRequired)
    (structured.Required field =? structured.RequiredOptional)
    (structured.Required field =? structured.RequiredComputed)
    (structured.ForceNew field) false (structured.PossibleValues field)
    (if String.eqb (structured.Default field) "" then None
     else Some (structured.Default field))
    None (negb (String.eqb (structured.BlockType field) "")) 0 "" 0 PosDefault "" [] "" [].

(** The loop of [toProperties] over [parsed.Order]. *)
Fixpoint convertFields (parsed : structured.ParsedProperties) (order : list string)
         (props : Properties) : Go Properties :=
  match order with
  | [] => Ok props
  | name :: order' =>
    match gomap.get (structured.Fields parsed) name with
    | None => Panic nilDereference
    | Some field =>
      convertFields parsed order'
                    (mkProperties (Names props ++ [name])%list
                                  (gomap.set (Objects props) name (toProperty field)))
    end
  end.

(** [toProperties] *)
Definition toProperties (parsed : option structured.ParsedProperties) : Go Properties :=
  match parsed with
  | None => Ok NewProperties
  | Some parsed => convertFields parsed (structured.Order parsed) NewProperties
  end.

(** [TerraformNodeData.ParseDocumentStructure] on a document with the
    given content. *)
Definition ParseDocumentStructure (content : string) : Go EnhancedTerraformNodeData :=
  parsedFields <- structured.ParseFields content ;;
  let empty := structured.mkParsedProperties [] [] in
  structuredData <- fileFields parsedFields
                               (mkStructuredDocumentData empty empty empty [])
                               (structured.Order parsedFields) ;;
  documentArguments <- toProperties (Some (Arguments structuredData)) ;;
  documentAttributes <- toProperties (Some (Attributes structuredData)) ;;
  Ok (mkEnhanced parsedFields structuredData documentArguments documentAttributes).

End enhanced.

(** ** [rule]: S006, arguments exist in document *)

Module rule.
Import data.

(** The errors S006 reports, by their format strings. *)
Inductive finding : Type :=
| MissingFromDocs (path : string)
    (* argument `%s` exists in schema but is missing from documentation at line 0 *)
| ShouldBeBlock (path name : string) (line : Z)
    (* argument `%s` should be declared as a block (e.g., 'One or more `%s` block as
       defined below') at line %d *)
| BlockMissingFromDocs
    (* `%s` block is missing from documentation ..., formatted without operands *)
| NotInSchema (path : string) (line : Z).
    (* argument `%s` is documented at line %d but does not exist in schema *)

(** [firstCodeValue] *)
Definition firstCodeValue (text : string) : string :=
  let start := strings.Index text "`" in
  if start =? -1 then ""
  else
    let tail := strings.drop (Z.to_nat (start + 1)) text in
    let end_ := strings.Index tail "`" in
    if end_ =? -1 then "" else strings.take (Z.to_nat end_) tail.

(** One turn of the loop of [checkMissingInDoc], for the schema entry
    [name], [property]. *)
Fixpoint checkSchemaProperty (parentPath : string) (documentation : Properties)
         (name : string) (property : Property) {struct property} : list finding :=
  if negb (Optional property) && Computed property then []
  else if String.eqb name "id" then []
  else if Deprecated property then []
  else
    let fullPath := joinPath parentPath name in
    match gomap.get (Objects documentation) name with
    | None => [MissingFromDocs fullPath]
    | Some docProperty =>
      match Nested property with
      | None => []
      | Some nested =>
        if 0 <? len (Objects nested) then
          match Nested docProperty with
          | Some docNested =>
            if len (Objects docNested) =? 0 then
              if negb (Block docProperty)
              then [ShouldBeBlock fullPath name (Line docProperty)]
              else [BlockMissingFromDocs]
            else
              flat_map (fun np => checkSchemaProperty fullPath docNested (fst np) (snd np))
                       (Objects nested)
          | None =>
            if negb (Block docProperty)
            then [ShouldBeBlock fullPath name (Line docProperty)]
            else [BlockMissingFromDocs]
          end
        else []
      end
    end.

(** [S006.checkMissingInDoc]. Every call passes a documentation
    collection that is not nil: [Run] tests it and the recursion is
    guarded by [docProperty.Nested != nil]. *)
Definition checkMissingInDoc (parentPath : string) (schema : option Properties)
           (documentation : Properties) : list finding :=
  match schema with
  | None => []
  | Some schema =>
    flat_map (fun np => checkSchemaProperty parentPath documentation (fst np) (snd np))
             (Objects schema)
  end.

Fixpoint collect {A : Type} (f : A -> Go (list finding)) (l : list A) : Go (list finding) :=
  match l with
  | [] => Ok []
  | a :: l' => errs <- f a ;; more <- collect f l' ;; Ok (errs ++ more)%list
  end.

(** One turn of the loop of [checkMissingInSchema]. *)
Fixpoint checkDocProperty (parentPath : string) (schema : Properties)
         (name : string) (docProperty : Property) {struct docProperty}
  : Go (list finding) :=
  if String.eqb name "id" then Ok []
  else
    let fullPath := joinPath parentPath name in
    if String.eqb parentPath "" && Block docProperty && negb (emptyNested docProperty)
    then Ok []
    else if strings.Contains (strings.ToLower (Content docProperty)) "deprecated"
    then Ok []
    else
      match gomap.get (Objects schema) name with
      | None =>
        let idx := strings.Index (strings.ToLower (Content docProperty))
                                 "not available for" in
        excused <- (if 0 <? idx then
                      remaining <- strings.slice_from (Content docProperty) idx ;;
                      let codeValue := firstCodeValue remaining in
                      Ok (negb (String.eqb codeValue "")
                          && strings.Contains fullPath codeValue)
                    else Ok false) ;;
        if excused then Ok [] else Ok [NotInSchema fullPath (Line docProperty)]
      | Some schemaProperty =>
        if Block docProperty then Ok []
        else
          match Nested docProperty with
          | None => Ok []
          | Some docNested =>
            if 0 <? len (Objects docNested) then
              match Nested schemaProperty with
              | Some schemaNested =>
                collect (fun np => checkDocProperty fullPath schemaNested (fst np) (snd np))
                        (Objects docNested)
              | None => Ok []
              end
            else Ok []
          end
      end.

(** [S006.checkMissingInSchema]; the schema collection is not nil at any
    call. *)
Definition checkMissingInSchema (parentPath : string) (documentation : option Properties)
           (schema : Properties) : Go (list finding) :=
  match documentation with
  | None => Ok []
  | Some documentation =>
    collect (fun np => checkDocProperty parentPath schema (fst np) (snd np))
            (Objects documentation)
  end.

(** [S006.Run] on a resource whose document exists ([d.Document.Exists],
    [d.Type] is not a data source). *)
Definition Run (SchemaProperties DocumentArguments : option Properties) : Go (list finding) :=
  match SchemaProperties, DocumentArguments with
  | Some schema, Some documentation =>
    let errs := checkMissingInDoc "" (Some schema) documentation in
    more <- checkMissingInSchema "" (Some documentation) schema ;;
    Ok (errs ++ more)%list
  | _, _ => Ok []
  end.

End rule.

(** * Notions and inputs of the statements *)

(** ** What the extraction keeps and records *)

Section FieldNotions.
Import regexp types parser.

(** What the later steps of the extraction leave alone. *)
Definition keeps (f f' : ParsedField) : Prop :=
  DefaultValue f' = DefaultValue f /\
  ParseErrors f' = ParseErrors f /\ PossibleValues f' = PossibleValues f.

(** The messages the extraction can record. *)
Definition knownError (e : string) : Prop :=
  e = "no field name found" \/ e = "field name is empty" \/ e = multipleSections.

End FieldNotions.

(** ** Documentation lines *)

Section FieldInputs.
Import regexp types parser.

Definition unconditionalLine : string :=
  "Changing this forces a new resource to be created.".
Definition conditionalLine : string :=
  "Changing this forces a new resource to be created when X is set.".

Definition bareDefaultLine : string := "Defaults to `false`.".
Definition alwaysOnLine : string :=
  "* `always_on` - (Optional) Should the Function App be loaded at all times? Defaults to `false`.".

Definition nameLine : string := "* `name` - (Required) The name of the resource.".

Definition twoClauseLine : string :=
  "* `sku` - (Optional) The SKU. Possible values are `A`, `B`. Must be one of `C`, `D`.".

Definition versionsAtStart : string := "Possible values are `7.1`, `7.2` and `8.0`.".
Definition versionsLine : string :=
  "* `version` - (Required) The version. Possible values are `7.1`, `7.2` and `8.0`.".

(** The offset of the earliest occurrence of any trigger phrase in the
    lower-cased line, -1 when there is none. *)
Definition earliestTrigger (line : string) : Z :=
  fold_left (fun best sep =>
               let i := strings.Index (strings.ToLower line) sep in
               if (0 <=? i) && ((best <? 0) || (i <? best)) then i else best)
            enumPhrases (-1).

Definition strokedLine : string := "* A block to ȺȺȺȺȺȺ `ab`".
Definition invalidBytesLine : string := "* A block to " ++ bytes [255; 255; 255] ++ " `ab`".

End FieldInputs.

(** ** Schema and documentation trees *)

Section CrossCheckNotions.
Import types data rule.

Definition emptyProperty (name : string) : Property :=
  mkProperty name "" "" false false false false false [] None None false
             0 "" 0 PosDefault "" [] "" [].

Definition withFlags (required optional computed : bool) (p : Property) : Property :=
  mkProperty (Name p) (Type_ p) (Description p) required optional computed
    (ForceNew p) (Deprecated p) (PossibleValues p) (DefaultValue p) (Nested p) (Block p)
    (Count p) (Path p) (Line p) (Position p) (Content p) (ParseErrors p)
    (BlockTypeName p) (GuessEnums p).

Definition asBlock (typeName : string) (nested : list (string * Property)) (p : Property)
  : Property :=
  mkProperty (Name p) (Type_ p) (Description p) (Required p) (Optional p) (Computed p)
    (ForceNew p) (Deprecated p) (PossibleValues p) (DefaultValue p)
    (Some (mkProperties (map fst nested) nested)) true
    (Count p) (Path p) (Line p) (Position p) (Content p) (ParseErrors p)
    typeName (GuessEnums p).

(** The schema side of C2: a required [name] and a required block
    [identity] with a nested [type]. *)
Definition schemaName : Property := withFlags true false false (emptyProperty "name").
Definition schemaIdentity (typeProperty : Property) : Property :=
  asBlock "" [("type", typeProperty)] (withFlags true false false (emptyProperty "identity")).

(** The flags a schema property carries. [populateAllSchemaProperties]
    copies [Required], [Optional] and [Computed] from a field of the
    provider's schema, and a field of a provider schema is required,
    optional or computed, and a required field is neither optional nor
    computed. *)
Definition providerFlags (property : Property) : Prop :=
  (Required property = true \/ Optional property = true \/ Computed property = true) /\
  (Required property = true -> Optional property = false /\ Computed property = false).

(** The test that skips a schema property: [!Optional && Computed]. *)
Definition computedOnly (property : Property) : bool :=
  negb (Optional property) && Computed property.

(** The pairs of collections the check reaches from the root pair, with
    the dotted path of the block they belong to. *)
Inductive corresponds (rootSchema rootDoc : Properties)
  : string -> Properties -> Properties -> Prop :=
| corresponds_root : corresponds rootSchema rootDoc "" rootSchema rootDoc
| corresponds_nested path schema documentation name property docProperty nested docNested :
    corresponds rootSchema rootDoc path schema documentation ->
    In (name, property) (Objects schema) ->
    computedOnly property = false -> name <> "id" -> Deprecated property = false ->
    gomap.get (Objects documentation) name = Some docProperty ->
    Nested property = Some nested ->
    Nested docProperty = Some docNested ->
    Objects docNested <> [] ->
    corresponds rootSchema rootDoc (joinPath path name) nested docNested.

Definition docProperty (name : string) (line : Z) (content : string)
           (nested : option Properties) (block : bool) : Property :=
  mkProperty name "" "" false false false false false [] None nested block
             0 "" line PosArgs content [] (if block then name else "") [].

Definition witnessSchema : Properties :=
  mkProperties ["name"; "identity"]
    [("name", schemaName);
     ("identity", schemaIdentity (withFlags true false false (emptyProperty "type")))].

Definition witnessDoc : Properties :=
  mkProperties ["name"; "identity"]
    [("name", docProperty "name" 3 "* `name` - (Required) The name." None false);
     ("identity",
      docProperty "identity" 9 "An `identity` block supports the following:"
        (Some (mkProperties ["tenant_id"]
                 [("tenant_id", docProperty "tenant_id" 11 "* `tenant_id` - The tenant."
                                            None false)]))
        true)].

End CrossCheckNotions.

(** ** Insertions *)

Section InsertionNotions.
Import types.

Definition parsedIdentityField : parser.ParsedProperty :=
  parser.newProperty
    (parser.set_Block "identity"
       (parser.set_Name "identity"
          (parser.newField "* `identity` - (Optional) An `identity` block as defined below."
                           4 PosArgs)))
    "" (Some parser.NewParsedProperties).

Definition parsedIdentityBlock : parser.ParsedProperty :=
  parser.newProperty
    (parser.set_Block "identity"
       (parser.set_Name "identity"
          (parser.newField "An `identity` block supports the following:" 9 PosArgs)))
    ""
    (Some (mkProperties ["type"]
             [("type", parser.newProperty
                         (parser.set_Name "type"
                            (parser.newField "* `type` - (Required) The type." 11 PosArgs))
                         "" None)])).

(** One level of a [data.Properties] tree is in order when no name is
    listed twice and the names are the keys of the map. *)
Definition levelOk (props : data.Properties) : Prop :=
  NoDup (Names props) /\ Names props = gomap.keys (Objects props).

(** The tree after a sequence of insertions, starting from the empty
    collection. *)
Definition insertAll (l : list data.Property) : option data.Properties :=
  fold_left (fun props p => data.AddProperty props (Some p)) l (Some data.NewProperties).

End InsertionNotions.

(** ** Linked trees *)

Section LinkingNotions.
Import types data.

(** The keys under which the first loop of [BuildBlockStructure] files a
    root entry: its name and, when different, its block type name. *)
Definition definitionKeys (np : string * Property) : list (string * Property) :=
  if isDefinition (snd np) then
    (fst np, snd np)
      :: (if negb (String.eqb (BlockTypeName (snd np)) "")
             && negb (String.eqb (BlockTypeName (snd np)) (fst np))
          then [(BlockTypeName (snd np), snd np)] else [])
  else [].

(** No two root definitions are filed under one key. *)
Definition collisionFree (objs : list (string * Property)) : Prop :=
  NoDup (map fst (flat_map definitionKeys objs)).

(** [unfolds defs c p]: the recursion of [fillBlockFields] on [p] goes on
    to [c], a field of the collection [p] holds once it is linked. *)
Definition unfolds (defs : list (string * Property)) (c p : Property) : Prop :=
  exists n k, Nested (linkField defs p) = Some n /\ In (k, c) (Objects n).

(** A documentation field: [block] says whether the line describes a
    block, in which case the field starts with an empty collection. *)
Definition docField (name : string) (line : Z) (block : bool) : Property :=
  mkProperty name "" "" false false false false false [] None
             (if block then Some NewProperties else None) block
             0 "" line PosArgs "" [] (if block then name else "") [].

(** A committed block section with its fields. *)
Definition docBlock (name : string) (line : Z) (fields : list Property) : Property :=
  mkProperty name "" "" false false false false false [] None
             (Some (mkProperties (map Name fields) (map (fun f => (Name f, f)) fields))) true
             0 "" line PosArgs "" [] name [].

Definition identityDefinition : Property := docBlock "identity" 2 [docField "type" 3 false].
Definition siteBlock : Property := docBlock "site" 6 [docField "identity" 7 true].
Definition identityReference : Property := docField "identity" 1 true.

(** A block whose own section lists a field that refers to the block. *)
Definition selfReferring : Property := docBlock "rule" 1 [docField "rule" 2 true].

Definition linkedRoot : list (string * Property) :=
  [("identity", identityDefinition); ("site", siteBlock);
   ("assigned", mkProperty "assigned" "" "" false false false false false [] None
                           (Some NewProperties) true 0 "" 9 PosArgs "" [] "identity" [])].

End LinkingNotions.

(** ** Positions of matches *)

Section MatchNotions.
Import regexp.

(** From offset [pos] with text [rest] to offset [pos'] with text [rest']. *)
Definition advance (pos : Z) (rest : string) (pos' : Z) (rest' : string) : Prop :=
  exists n : nat,
    (n <= String.length rest)%nat /\ rest' = strings.drop n rest /\ pos' = pos + Z.of_nat n.

(** Code spans in increasing order between [lo] and [L]. *)
Fixpoint spansFrom (lo L : Z) (spans : list (Z * Z)) : Prop :=
  match spans with
  | [] => lo <= L
  | (s, e) :: rest => lo <= s /\ s <= e /\ e <= L /\ spansFrom e L rest
  end.

Definition advancing (step : Z -> string -> captures -> cont -> option captures) : Prop :=
  forall pos rest caps k c,
    step pos rest caps k = Some c ->
    exists pos' rest' caps', advance pos rest pos' rest' /\ k pos' rest' caps' = Some c.

Definition spansOf (matches : list captures) : list (Z * Z) :=
  flat_map (fun caps => match nth 0 caps None with
                        | Some m => [m]
                        | None => []
                        end) matches.

End MatchNotions.

(** ** The end of an enum clause *)

Section EnumClauseNotions.
Import regexp parser.

(** The offsets of the periods of [s], counted from [i]. *)
Fixpoint dotsFrom (s : string) (i : Z) : list Z :=
  match s with
  | EmptyString => []
  | String c s' =>
    if Ascii.eqb "." c then i :: dotsFrom s' (i + 1) else dotsFrom s' (i + 1)
  end.

(** [i] lies inside the code span, between its two backticks. *)
Definition inside (sp : Z * Z) (i : Z) : bool := (fst sp <? i) && (i <? snd sp).

Definition outside (spans : list (Z * Z)) (i : Z) : bool :=
  forallb (fun sp => negb (inside sp i)) spans.

(** The end of the clause: the first period that lies in no code span, the
    end of the text when there is none. *)
Definition terminator (subStr : string) (spans : list (Z * Z)) : Z :=
  hd (strings.len subStr) (filter (outside spans) (dotsFrom subStr 0)).

(** The value a code span stands for. *)
Definition spanValue (subStr : string) (sp : Z * Z) : string :=
  strings.Trim (substr subStr (Some sp)) trimSet.

(** The first period at or after [a]. *)
Definition nextDot (subStr : string) (a : Z) : Z :=
  hd (strings.len subStr) (filter (fun d => a <=? d) (dotsFrom subStr 0)).

(** The first period at or after [p] that lies in none of [spans]. *)
Definition clauseEnd (subStr : string) (spans : list (Z * Z)) (p : Z) : Z :=
  hd (strings.len subStr)
     (filter (fun d => (p <=? d) && outside spans d) (dotsFrom subStr 0)).

Definition dotOrEnd (subStr : string) (p : Z) : Prop := In p (dotsFrom subStr 0) \/ p = strings.len subStr.

(** What [extractPossibleValues] does with the enum clause [subStr], the
    text from the trigger phrase on: the search for the first period and
    the loop over the code spans of the clause. *)
Definition clauseValues (subStr : string) (sepIdx : Z) (field : ParsedField)
  : Go (list string * ParsedField) :=
  let pointEnd := strings.Index subStr "." in
  let pointEnd := if pointEnd <? 0 then strings.len subStr else pointEnd in
  enumLoop subStr sepIdx (FindAllStringIndex codeReg subStr) pointEnd [] field.

End EnumClauseNotions.

(** ** Whole sections *)

Section DocumentNotions.
Import types data.

(** An arguments section whose block definition follows the field that
    refers to it, and the same lines with the definition first. *)
Definition refsThenDef : list string :=
  ["* `name` - (Required) The name.";
   "* `identity` - (Optional) An `identity` block as defined below.";
   "";
   "---";
   "";
   "An `identity` block supports the following:";
   "";
   "* `type` - (Required) The type. Possible values are `SystemAssigned`, `UserAssigned`."].

Definition defThenRefs : list string :=
  ["An `identity` block supports the following:";
   "";
   "* `type` - (Required) The type. Possible values are `SystemAssigned`, `UserAssigned`.";
   "";
   "---";
   "";
   "* `name` - (Required) The name.";
   "* `identity` - (Optional) An `identity` block as defined below."].

(** The document tree of a section after linking. *)
Definition linkedDocument (fuel : nat) (content : list string)
  : Go (option (option Properties)) :=
  tree <- DocumentArguments content ;; Ok (BuildBlockStructure fuel tree).

(** The names listed below the root entry [name] of a tree. *)
Definition nestedNames (tree : option Properties) (name : string) : option (list string) :=
  match tree with
  | Some t =>
    match gomap.get (Objects t) name with
    | Some p =>
      match Nested p with
      | Some n => Some (Names n)
      | None => None
      end
    | None => None
    end
  | None => None
  end.

(** The source line of the root entry [name] of a tree. *)
Definition entryLine (tree : option Properties) (name : string) : option Z :=
  match tree with
  | Some t =>
    match gomap.get (Objects t) name with
    | Some p => Some (Line p)
    | None => None
    end
  | None => None
  end.

End DocumentNotions.

(** ** Positions and requirement flags *)

Section TypesNotions.
Import types.
Definition allPositions : list PositionType :=
  [PosDefault; PosExample; PosArgs; PosAttr; PosTimeout; PosImport; PosOther].
Definition flag (r : RequiredType) : bool :=
  (r =? RequiredOptional) || (r =? RequiredRequired) || (r =? RequiredComputed).
Definition statusOf (flags : list RequiredType) : RequiredType :=
  fold_right Z.lor RequiredDefault flags.
End TypesNotions.

(** ** Values without repetition *)

Section EnumNotions.
Import parser.

(** The first occurrence of every element, in order. *)
Fixpoint firstOccurrences (l : list string) : list string :=
  match l with
  | [] => []
  | a :: l' => a :: filter (fun b => negb (String.eqb b a)) (firstOccurrences l')
  end.

(** The values of a call, trimmed as [AddEnum] and [SetGuessEnums] trim them. *)
Definition trimmed (values : list string) : list string :=
  map (fun v => strings.Trim v trimSet) values.

(** Not empty and not among [seen]. *)
Definition unseen (seen : list string) (v : string) : bool :=
  negb (String.eqb v "") && negb (existsb (String.eqb v) seen).

End EnumNotions.

(** ** The steps of the extraction *)

Section FieldAnatomyNotions.
Import regexp types parser.

(** The field before the name is looked for. *)
Definition fieldStart (line : string) (position : PositionType) (lineNumber : Z)
  : ParsedField :=
  set_ForceNew (isForceNew line)
    (if String.eqb (getDefaultValue line) "" then newField line lineNumber position
     else set_DefaultValue (Some (getDefaultValue line)) (newField line lineNumber position)).

(** The name the extraction settles on: the first group of [fieldReg], the
    first code value of the line when that group is missing or empty. *)
Definition fieldName (line : string) : string :=
  let res := FindStringSubmatch fieldReg line in
  if (len res <=? 1) || String.eqb (nth 1 res "") "" then FirstCodeValue line
  else nth 1 res "".

(** [fieldReg] matches the line. *)
Definition wellFormed (line : string) : bool := MatchString fieldReg line.

(** Everything but the enum span and the parse errors is the same. *)
Definition sameButSpan (f g : ParsedField) : Prop :=
  Name g = Name f /\ Line g = Line f /\ Position g = Position f /\
  RequiredStatus g = RequiredStatus f /\ Required g = Required f /\
  Optional g = Optional f /\ Content g = Content f /\
  DefaultValue g = DefaultValue f /\ ForceNew g = ForceNew f /\
  PossibleValues g = PossibleValues f /\ GuessEnums g = GuessEnums f /\
  Block g = Block f /\ BlockTypeName g = BlockTypeName f.

End FieldAnatomyNotions.

(** ** The ways a pattern can match *)

Section PathNotions.
Import regexp.

(** [path r pos rest caps pos' rest' caps']: one way in which [r] can
    match from offset [pos] to offset [pos'], with the groups it sets on the
    way. Every result of [exec] follows such a path; which of the paths
    [exec] takes is a matter of its priorities. *)
Inductive path : Regexp -> Z -> string -> captures -> Z -> string -> captures -> Prop :=
| path_Empty pos rest caps : path Empty pos rest caps pos rest caps
| path_Lit s pos rest caps :
    strings.HasPrefix rest s = true ->
    path (Lit s) pos rest caps (pos + strings.len s) (strings.drop (String.length s) rest) caps
| path_Class neg rs pos c rest caps :
    in_class neg rs c = true ->
    path (Class neg rs) pos (String c rest) caps (pos + 1) rest caps
| path_AnyNotNL pos c rest caps :
    (byte_of c =? 10) = false ->
    path AnyNotNL pos (String c rest) caps (pos + 1) rest caps
| path_Bol rest caps : path Bol 0 rest caps 0 rest caps
| path_Eol pos caps : path Eol pos EmptyString caps pos EmptyString caps
| path_Cat a b p0 r0 c0 p1 r1 c1 p2 r2 c2 :
    path a p0 r0 c0 p1 r1 c1 -> path b p1 r1 c1 p2 r2 c2 ->
    path (Cat a b) p0 r0 c0 p2 r2 c2
| path_Alt_l a b p0 r0 c0 p1 r1 c1 :
    path a p0 r0 c0 p1 r1 c1 -> path (Alt a b) p0 r0 c0 p1 r1 c1
| path_Alt_r a b p0 r0 c0 p1 r1 c1 :
    path b p0 r0 c0 p1 r1 c1 -> path (Alt a b) p0 r0 c0 p1 r1 c1
| path_Star_stop greedy a pos rest caps : path (Star greedy a) pos rest caps pos rest caps
| path_Star_more greedy a p0 r0 c0 p1 r1 c1 p2 r2 c2 :
    path a p0 r0 c0 p1 r1 c1 -> p0 < p1 ->
    path (Star greedy a) p1 r1 c1 p2 r2 c2 ->
    path (Star greedy a) p0 r0 c0 p2 r2 c2
| path_Cap n a p0 r0 c0 p1 r1 c1 :
    path a p0 r0 c0 p1 r1 c1 ->
    path (Cap n a) p0 r0 c0 p1 r1 (set_cap n (p0, p1) c1).

End PathNotions.

(** ** The requirement a line states *)

Section StatusNotions.
Import regexp types parser.

(** The requirement a line states, by the four cases of the switch. *)
Definition statedRequired (line : string) : bool :=
  strings.Contains line "(Required)"
  || (negb (strings.Contains line "(Optional)") && strings.Contains line "Required").

Definition statedOptional (line : string) : bool :=
  negb (strings.Contains line "(Required)")
  && (strings.Contains line "(Optional)"
      || (negb (strings.Contains line "Required") && strings.Contains line "Optional")).

End StatusNotions.

(** ** Properties below a property *)
Section TreeNotions.
Import types data.

(** [within r p]: [r] is [p] or lies below it. *)
Inductive within (r : Property) : Property -> Prop :=
| within_self : within r r
| within_nested p n k c :
    Nested p = Some n -> In (k, c) (Objects n) -> within r c -> within r p.

(** [r] is an entry of the collection or lies below one. *)
Definition withinTree (r : Property) (props : Properties) : Prop :=
  exists k c, In (k, c) (Objects props) /\ within r c.

End TreeNotions.

(** ** What the searches look for *)
Section SearchNotions.
Import types data.

(** The two tests of [Property.FindAllSubBlocks]. *)
Definition isBlockOf (name : string) (r : Property) : bool :=
  Block r && String.eqb (BlockTypeName r) name.

Definition isPlainNamed (name : string) (r : Property) : bool :=
  String.eqb (BlockTypeName r) "" && String.eqb (Name r) name.

(** [descent visited p names r]: [r] is reached from [p] through the
    collections of blocks; [names] are [visited] and the names of the
    blocks passed on the way. *)
Inductive descent : list string -> Property -> list string -> Property -> Prop :=
| descent_here visited p : descent visited p visited p
| descent_below visited p n k c names r :
    Block p = true -> Nested p = Some n -> In (k, c) (Objects n) ->
    descent (Name p :: visited) c names r ->
    descent visited p names r.

(** A block named like one of its own fields, which is no block. *)
Definition plainIdentity : Property :=
  mkProperty "identity" "" "" false false false false false [] None None false
             0 "" 3 PosArgs "* `identity` - The identity." [] "" [].

Definition ownNameField : Property :=
  mkProperty "identity" "" "" false false false false false [] None
    (Some (mkProperties ["identity"] [("identity", plainIdentity)]))
    true 0 "" 1 PosArgs "An `identity` block exports the following:" [] "identity" [].

End SearchNotions.

(** ** Merging *)
Section MergeNotions.
Import types data.

Definition has (props : Properties) (np : string * Property) : bool :=
  match gomap.get (Objects props) (fst np) with Some _ => true | None => false end.

End MergeNotions.

(** ** What one turn of the cross-check reports *)
Section FindingNotions.
Import types data rule.

(** [property.Nested != nil && len(property.Nested.Objects) > 0] *)
Definition hasFields (property : Property) : bool := negb (emptyNested property).

(** What the turn of [checkMissingInDoc] for one schema entry reports by
    itself, the recursion apart. *)
Definition ownFinding (path : string) (documentation : Properties) (name : string)
           (property : Property) : option finding :=
  if computedOnly property || String.eqb name "id" || Deprecated property then None
  else
    match gomap.get (Objects documentation) name with
    | None => Some (MissingFromDocs (joinPath path name))
    | Some docProperty =>
      if hasFields property && emptyNested docProperty then
        Some (if Block docProperty then BlockMissingFromDocs
              else ShouldBeBlock (joinPath path name) name (Line docProperty))
      else None
    end.

End FindingNotions.

(** ** What the check against the schema reaches *)
Section SchemaCheckNotions.
Import types data rule.

(** A block definition section at the root level. *)
Definition isSection (path : string) (docProperty : Property) : bool :=
  String.eqb path "" && Block docProperty && negb (emptyNested docProperty).

Definition deprecatedNote (docProperty : Property) : bool :=
  strings.Contains (strings.ToLower (Content docProperty)) "deprecated".

(** The pairs of collections [checkMissingInSchema] reaches from the root
    pair, with the dotted path of the entry they belong to. *)
Inductive reaches (rootDoc rootSchema : Properties)
  : string -> Properties -> Properties -> Prop :=
| reaches_root : reaches rootDoc rootSchema "" rootDoc rootSchema
| reaches_nested path documentation schema name docProperty schemaProperty
                 docNested schemaNested :
    reaches rootDoc rootSchema path documentation schema ->
    In (name, docProperty) (Objects documentation) ->
    name <> "id" -> isSection path docProperty = false ->
    deprecatedNote docProperty = false ->
    gomap.get (Objects schema) name = Some schemaProperty ->
    Block docProperty = false ->
    Nested docProperty = Some docNested -> Objects docNested <> [] ->
    Nested schemaProperty = Some schemaNested ->
    reaches rootDoc rootSchema (joinPath path name) docNested schemaNested.

(** Every entry with fields of its own is a block: the shape of a
    collection that the scan of a section builds. *)
Definition blockShaped (documentation : Properties) : Prop :=
  forall k p, In (k, p) (Objects documentation) -> emptyNested p = false -> Block p = true.

(** Lower-casing does not lengthen the content of any property of the
    tree. *)
Definition calm (documentation : Properties) : Prop :=
  forall r, withinTree r documentation ->
            strings.len (strings.ToLower (Content r)) <= strings.len (Content r).

(** A documented property that the schema lacks, whose content grows by
    one byte when it is lower-cased. *)
Definition growingContent : string :=
  "ȺȺȺȺȺȺȺȺȺȺȺȺȺȺȺȺȺȺnot available for".

Definition growingDoc : Properties :=
  mkProperties ["zone"] [("zone", docProperty "zone" 4 growingContent None false)].

End SchemaCheckNotions.

Section SchemaCheckInputNotions.
Import types data rule.

(** A documented property the schema of [witnessSchema] does not have. *)
Definition typoDoc : Properties :=
  mkProperties ["zone"] [("zone", docProperty "zone" 4 "* `zone` - The zone." None false)].

End SchemaCheckInputNotions.

Section LinkedCheckNotions.
Import types data rule.

(** A schema block [assigned] with one field, and the documentation of
    [linkedRoot], where [assigned] refers to the section of [identity]. *)
Definition schemaAssigned : Property :=
  asBlock "" [("type", withFlags true false false (emptyProperty "type"))]
          (withFlags false true false (emptyProperty "assigned")).

Definition linkedRootDoc : Properties :=
  mkProperties ["identity"; "site"; "assigned"] linkedRoot.

(** The same documentation after the linking pass, and its entry
    [assigned]. *)
Definition linkedDoc : Properties :=
  match BuildBlockStructure 3 (Some linkedRootDoc) with
  | Some (Some linked) => linked
  | _ => linkedRootDoc
  end.

Definition entryOf (documentation : Properties) (name : string) : Property :=
  match gomap.get (Objects documentation) name with
  | Some p => p
  | None => emptyProperty name
  end.

End LinkedCheckNotions.

(** ** Collections built by the scan of a section *)
Section ScanNotions.
Import types parser markdown.

(** The names and the keys of the map are the same names, no key is
    empty, and every entry is filed under its own name. *)
Definition listed (props : ParsedProperties) : Prop :=
  (forall k, In k (Names props) <-> In k (gomap.keys (Objects props))) /\
  gomap.wf (Objects props) /\
  (forall k p, In (k, p) (Objects props) -> k <> "" /\ Name (Field p) = k).

(** [Line] is the index of a line of the content and [Content] is that
    line, as it is or trimmed. *)
Definition anchored (content : list string) (p : ParsedProperty) : Prop :=
  exists l,
    0 <= Line (Field p) /\
    nth_error content (Z.to_nat (Line (Field p))) = Some l /\
    (Content (Field p) = l \/ Content (Field p) = strings.TrimSpace l).

(** An entry as [AddField] makes it. *)
Definition fieldEntry (p : ParsedProperty) : Prop :=
  Nested p = (if Block (Field p) then Some NewParsedProperties else None).

(** A block section with the fields listed below its head. *)
Definition blockEntry (content : list string) (p : ParsedProperty) : Prop :=
  Block (Field p) = true /\
  exists n, Nested p = Some n /\ listed n /\
            forall k q, In (k, q) (Objects n) -> anchored content q /\ fieldEntry q.

Definition scanned (content : list string) (props : ParsedProperties) : Prop :=
  listed props /\
  forall k p, In (k, p) (Objects props) ->
              anchored content p /\ (fieldEntry p \/ blockEntry content p).

End ScanNotions.

Section ScanInvariantNotions.
Import types parser markdown.

(** What holds of the variables of the loop between two lines. *)
Definition scanInv (content : list string) (st : scan) : Prop :=
  scanned content (properties st) /\
  forall b, currentBlock st = Some b -> anchored content b /\ blockEntry content b.

End ScanInvariantNotions.

Section ConversionNotions.
Import types data.

Definition bound {V : Type} (m : list (string * V)) (k : string) : bool :=
  match gomap.get m k with Some _ => true | None => false end.

End ConversionNotions.

Section DocumentCheckNotions.
Import types data rule.

(** A section with one field, which [witnessSchema] does not have. *)
Definition zoneSection : list string := ["* `zone` - (Optional) The zone."].

Definition zoneDoc : Properties :=
  match DocumentArguments zoneSection with
  | Ok (Some doc) => doc
  | _ => NewProperties
  end.

End DocumentCheckNotions.

(** ** Runs of single characters *)
Section RunNotions.
Import regexp.

(** [a] matches exactly one character, the characters [accepts] takes. *)
Definition oneChar (a : Regexp) (accepts : ascii -> bool) : Prop :=
  (forall pos caps k, exec a pos EmptyString caps k = None) /\
  (forall pos ch rest caps k,
      exec a pos (String ch rest) caps k
      = if accepts ch then k (pos + 1) rest caps else None).

Fixpoint all (accepts : ascii -> bool) (w : string) : bool :=
  match w with
  | EmptyString => true
  | String ch w' => accepts ch && all accepts w'
  end.

(** The text does not go on with a character that [accepts] takes. *)
Definition stops (accepts : ascii -> bool) (tail : string) : bool :=
  match tail with
  | EmptyString => true
  | String ch _ => negb (accepts ch)
  end.

Definition isWord (ch : ascii) : bool :=
  in_class false [("a", "z"); ("A", "Z"); ("0", "9"); ("_", "_")]%char ch.

Definition notBacktick (ch : ascii) : bool := negb (Ascii.eqb ch "`").

Definition isSpace (ch : ascii) : bool := Ascii.eqb ch " ".

End RunNotions.

Section GroupNotions.
Import regexp.

(** The pattern has a group of index [n]. *)
Fixpoint sets (r : Regexp) (n : nat) : bool :=
  match r with
  | Cat a b | Alt a b => sets a n || sets b n
  | Star _ a => sets a n
  | Cap m a => Nat.eqb m n || sets a n
  | _ => false
  end.

End GroupNotions.

(** ** Lines of the documented shape *)
Section ShapeNotions.
Import regexp parser.

Fixpoint spaces (n : nat) : string :=
  match n with
  | O => EmptyString
  | S n' => String " " (spaces n')
  end.

Definition isBullet (ch : ascii) : bool := Ascii.eqb ch "*" || Ascii.eqb ch "-".

(** A bullet, a name in backticks, a dash between spaces and the
    description. *)
Definition fieldLine (bullet : ascii) (indent : nat) (name : string) (gap : nat)
           (description : string) : string :=
  String bullet
         (spaces indent
          ++ String "`" (name ++ String "`"
                              (spaces (S gap) ++ String "-" (String " " description)))).

(** The byte [lowerASCII] writes for [c]. *)
Definition lower (c : ascii) : ascii :=
  if (65 <=? byte_of c) && (byte_of c <=? 90) then ascii_of (byte_of c + 32) else c.

(** What follows the name group in [fieldReg]. *)
Definition afterName : Regexp :=
  Seq [Lit "`"; Plus sp; Lit "-"; Plus sp;
       Quest (Cap 2 (Alt (Lit "(Required)") (Lit "(Optional)")));
       Quest sp; Cap 3 (Star true AnyNotNL)].

End ShapeNotions.

Section StructuredNotions.
Import regexp structured.

(** The position in force at line [i]: that of the last heading above
    it, [current] when there is none. *)
Fixpoint positionAt (lines : list string) (i : nat) (current : PositionType)
  : PositionType :=
  match i, lines with
  | S i', line :: lines' =>
    positionAt lines' i' (if detectPosition line =? -1 then current else detectPosition line)
  | _, _ => current
  end.

Definition newline : string := String (ascii_of 10) EmptyString.

(** Line [i] is parsed as a field: it is no heading and no block header,
    and [parseFieldLine] returns [f] for it. *)
Definition parsedAt (lines : list string) (i : nat) (f : ParsedField) : Prop :=
  (i < List.length lines)%nat /\
  detectPosition (nth i lines "") = -1 /\ isBlockHeader (nth i lines "") = false /\
  parseFieldLine (nth i lines "") (Z.of_nat i) (positionAt lines i PosArgs) = Ok (Some f).

(** Among the first [k] lines, [f] is the field of the last line parsed
    under its name. *)
Definition lastOf (lines : list string) (k : nat) (f : ParsedField) : Prop :=
  exists i, (i < k)%nat /\ parsedAt lines i f /\
            forall j g, (i < j < k)%nat -> parsedAt lines j g -> Name g <> Name f.

Definition parsedUpTo (lines : list string) (k : nat) (p : ParsedProperties) : Prop :=
  gomap.wf (Fields p) /\
  (forall name, In name (Order p) <-> In name (gomap.keys (Fields p))) /\
  forall name f, gomap.get (Fields p) name = Some f ->
                 Name f = name /\ name <> "" /\ lastOf lines k f.

End StructuredNotions.

Section EnhancedNotions.
Import structured enhanced.

(** The entry of [name] has position [pos]. *)
Definition filedAs (parsed : ParsedProperties) (pos : PositionType) (name : string) : bool :=
  match gomap.get (Fields parsed) name with
  | Some f => Position f =? pos
  | None => false
  end.

(** The names of [props] are bound as in [parsed]. *)
Definition boundAs (parsed props : ParsedProperties) : Prop :=
  forall name, In name (Order props) ->
               gomap.get (Fields props) name = gomap.get (Fields parsed) name.

(** A section of the structured data together with its position. *)
Definition sectionOf (sec : StructuredDocumentData -> ParsedProperties)
           (pos : PositionType) : Prop :=
  forall parsed sd name f sd',
    gomap.get (Fields parsed) name = Some f ->
    fileField parsed sd name = Ok sd' ->
    sec sd' = if Position f =? pos then fileUnder (sec sd) name f else sec sd.

End EnhancedNotions.

(** ** The names of a block head *)
Section BlockHeadNotions.
Import regexp parser.

(** The first code span of [line] is the identifier [w]. *)
Definition firstSpan (line pre w post : string) : Prop :=
  line = pre ++ String "`" (w ++ String "`" post) /\
  all notBacktick pre = true /\ all isWord w = true /\ w <> "".

(** The offset behind the first code span. *)
Definition spanEnd (pre w : string) : Z := strings.len pre + strings.len w + 2.

Definition free (cutset : string) (ch : ascii) : bool := negb (strings.mem ch cutset).

End BlockHeadNotions.

Section AvoidNotions.
Import regexp.

(** The pattern matches no backtick. *)
Fixpoint avoids (r : Regexp) : bool :=
  match r with
  | Empty | Bol | Eol => true
  | Lit s => all notBacktick s
  | Class neg rs => negb (in_class neg rs "`")
  | AnyNotNL => false
  | Cat a b | Alt a b => avoids a && avoids b
  | Star _ a | Cap _ a => avoids a
  end.

End AvoidNotions.

(** ** The texts the force-new patterns match *)
Section ForceNewNotions.
Import regexp parser.

(** The force-new pattern in the words of the specification: [Changing],
    [forces], [resource] and [created] in this order, with any text
    between them. *)
Definition specForceNewPattern : Regexp :=
  Seq [Lit "Changing"; Star true AnyNotNL; Lit "forces"; Star true AnyNotNL;
       Lit "resource"; Star true AnyNotNL; Lit "created"].

Definition rebootLine : string := "Changing this forces a reboot.".

Definition noNewline (ch : ascii) : bool := negb (byte_of ch =? 10).

Definition notPeriod (ch : ascii) : bool := negb (Ascii.eqb ch ".").

(** The text goes on with a period or ends. *)
Definition closes (rest : string) : Prop :=
  rest = EmptyString \/ exists rest', rest = String "." rest'.

(** [Changing], text without a line break, [force] or [forces], [ a ],
    text without a period, and then a period or the end of the line. *)
Definition forceNewText (line : string) : Prop :=
  exists pre mid s t rest,
    line = pre ++ "Changing" ++ mid ++ "force" ++ s ++ " a " ++ t ++ rest /\
    all noNewline mid = true /\ (s = "" \/ s = "s") /\
    all notPeriod t = true /\ closes rest.

(** The same with [ created when ] inside the text without a period. *)
Definition conditionalText (line : string) : Prop :=
  exists pre mid s t u rest,
    line = pre ++ "Changing" ++ mid ++ "force" ++ s ++ " a " ++ t
               ++ " created when " ++ u ++ rest /\
    all noNewline mid = true /\ (s = "" \/ s = "s") /\
    all notPeriod t = true /\ all notPeriod u = true /\ closes rest.

End ForceNewNotions.

Section OrderNotions.
Import regexp structured.

(** The name line [i] adds to the order: that of its field, when the line
    is no heading and no block header and [parseFieldLine] returns one. *)
Definition nameAt (lines : list string) (i : nat) : list string :=
  let line := nth i lines "" in
  if (detectPosition line =? -1) && negb (isBlockHeader line) then
    match parseFieldLine line (Z.of_nat i) (positionAt lines i PosArgs) with
    | Ok (Some f) => [Name f]
    | _ => []
    end
  else [].

(** The names of the first [k] lines, line by line. *)
Definition parsedNames (lines : list string) (k : nat) : list string :=
  flat_map (nameAt lines) (seq 0 k).

End OrderNotions.

(** * Auxiliary facts *)

Ltac bind_ok H :=
  match type of H with
  | bind ?c _ = Ok _ =>
    let E := fresh "E" in destruct c eqn:E; cbn [bind] in H; [|discriminate H]
  end.

Section FieldFacts.
Import regexp types parser.

Lemma keeps_refl f : keeps f f.
Proof. repeat split. Qed.

Lemma keeps_trans f g h : keeps f g -> keeps g h -> keeps f h.
Proof.
  intros (B & C & D) (B' & C' & D').
  repeat split; congruence.
Qed.

Lemma enumLoop_keeps subStr sepIdx enumIndex :
  forall pointEnd enums field r f',
    enumLoop subStr sepIdx enumIndex pointEnd enums field = Ok (r, f') ->
    keeps field f'.
Proof.
  induction enumIndex as [|[start end_] rest IH]; intros pointEnd enums field r f' H.
  - cbn in H. inversion H; subst. apply keeps_refl.
  - cbn [enumLoop] in H. bind_ok H.
    destruct (a <? start).
    + inversion H; subst. apply keeps_refl.
    + bind_ok H. apply IH in H.
      eapply keeps_trans; [|exact H]. repeat split.
Qed.

Lemma extractPossibleValues_fields line field r f' :
  extractPossibleValues line field = Ok (r, f') ->
  DefaultValue f' = DefaultValue field /\
  PossibleValues f' = PossibleValues field /\
  (ParseErrors f' = ParseErrors field \/
   ParseErrors f' = (ParseErrors field ++ [multipleSections])%list).
Proof.
  unfold extractPossibleValues. intros H.
  destruct (possibleValueSep line <=? 0).
  - inversion H; subst. auto.
  - bind_ok H. bind_ok H. destruct a0 as [enums g]. bind_ok H.
    apply enumLoop_keeps in E0. destruct E0 as (B & C & D). cbn in B, C, D.
    destruct (0 <=? possibleValueSep a0); inversion H; subst; cbn;
      rewrite ?C; auto 6.
Qed.

Lemma AddEnum_keeps values :
  forall f, DefaultValue (AddEnum f values) = DefaultValue f /\
            ParseErrors (AddEnum f values) = ParseErrors f.
Proof.
  unfold AddEnum. induction values as [|v values IH]; intros f; cbn [fold_left].
  - auto.
  - match goal with |- context [fold_left _ values ?g] => destruct (IH g) as (B & C) end.
    rewrite B, C. destruct (_ && _); auto.
Qed.

Lemma requiredStatus_keeps line f : keeps f (requiredStatus line f).
Proof.
  unfold requiredStatus.
  repeat match goal with |- context [if ?c then _ else _] => destruct c end;
    repeat split.
Qed.

Lemma ExtractFieldFromLine_fields line position lineNumber f :
  ExtractFieldFromLine line position lineNumber = Ok f ->
  DefaultValue f = (if String.eqb (getDefaultValue line) "" then None
                    else Some (getDefaultValue line)) /\
  Forall knownError (ParseErrors f).
Proof.
  unfold ExtractFieldFromLine. cbv zeta.
  set (f0 := set_ForceNew _ _).
  assert (D0 : DefaultValue f0 = (if String.eqb (getDefaultValue line) "" then None
                                  else Some (getDefaultValue line)))
    by (subst f0; destruct (String.eqb (getDefaultValue line) ""); reflexivity).
  assert (P0 : ParseErrors f0 = [])
    by (subst f0; destruct (String.eqb (getDefaultValue line) ""); reflexivity).
  clearbody f0.
  set (res := FindStringSubmatch fieldReg line). clearbody res.
  set (f1 := if (len res <=? 1) || String.eqb (nth 1 res "") "" then _ else _).
  assert (K1 : keeps f0 f1)
    by (subst f1; destruct ((len res <=? 1) || String.eqb (nth 1 res "") "");
        repeat split).
  destruct K1 as (D1 & P1 & _). clearbody f1.
  destruct (((len res <=? 1) || String.eqb (nth 1 res "") "") && String.eqb (Name f1) "").
  { intros H. inversion H; subst. cbn. rewrite D1, P1, P0. split; [exact D0|].
    cbn. constructor; [left; reflexivity|constructor]. }
  set (f2 := if String.eqb (Name f1) "" then _ else _).
  assert (D2 : DefaultValue f2 = DefaultValue f1)
    by (subst f2; destruct (String.eqb (Name f1) ""); reflexivity).
  assert (P2 : Forall knownError (ParseErrors f2)).
  { subst f2; destruct (String.eqb (Name f1) ""); cbn; rewrite P1, P0.
    - cbn. constructor; [right; left; reflexivity|constructor].
    - constructor. }
  clearbody f2.
  set (f3 := if 2 <? len res then _ else _).
  assert (K3 : keeps f2 f3)
    by (subst f3; destruct (2 <? len res);
        [apply requiredStatus_keeps | apply keeps_refl]).
  destruct K3 as (D3 & P3 & _). clearbody f3.
  intros H. bind_ok H.
  assert (DA : DefaultValue a = DefaultValue f3 /\ Forall knownError (ParseErrors a)).
  { destruct (3 <? len res).
    - bind_ok E. destruct a0 as [enums g].
      apply extractPossibleValues_fields in E0. destruct E0 as (Dg & _ & Pg).
      destruct (AddEnum_keeps enums g) as (Da & Pa).
      assert (Pk : Forall knownError (ParseErrors (AddEnum g enums))).
      { rewrite Pa. destruct Pg as [Pg|Pg]; rewrite Pg, P3; [exact P2|].
        apply Forall_app. split; [exact P2|].
        constructor; [right; right; reflexivity|constructor]. }
      destruct (_ && _); inversion E; subst; cbn; rewrite ?Da, ?Dg; auto.
    - inversion E; subst. rewrite P3. auto. }
  destruct DA as [DA PA].
  destruct (guessBlockProperty line).
  - bind_ok H. inversion H; subst. cbn. split; [congruence|exact PA].
  - inversion H; subst. split; [congruence|exact PA].
Qed.

Lemma MatchString_false r s :
  MatchString r s = false -> FindStringSubmatch r s = [].
Proof.
  unfold MatchString, FindStringSubmatch.
  destruct (FindStringSubmatchIndex r s); [discriminate|reflexivity].
Qed.

End FieldFacts.

Section MapFacts.
Context {V : Type}.
Implicit Types (m : list (string * V)) (k : string) (v : V).

Lemma get_set_same m k v : gomap.get (gomap.set m k v) k = Some v.
Proof.
  induction m as [|[k' v'] m IH]; cbn.
  - rewrite String.eqb_refl. reflexivity.
  - destruct (String.eqb k' k) eqn:E; cbn.
    + rewrite String.eqb_refl. reflexivity.
    + rewrite E. exact IH.
Qed.

Lemma get_set_other m k k' v : k <> k' -> gomap.get (gomap.set m k v) k' = gomap.get m k'.
Proof.
  intros H. induction m as [|[k0 v0] m IH]; cbn.
  - apply String.eqb_neq in H. rewrite H. reflexivity.
  - destruct (String.eqb k0 k) eqn:E; cbn.
    + apply String.eqb_eq in E. subst k0.
      apply String.eqb_neq in H. rewrite H. reflexivity.
    + destruct (String.eqb k0 k'); [reflexivity|exact IH].
Qed.

Lemma get_none_keys m k : gomap.get m k = None <-> ~ In k (gomap.keys m).
Proof.
  induction m as [|[k' v'] m IH]; cbn.
  - tauto.
  - destruct (String.eqb k' k) eqn:E.
    + apply String.eqb_eq in E. split; [discriminate|]. intros H. exfalso. auto.
    + apply String.eqb_neq in E. rewrite IH. tauto.
Qed.

Lemma get_some_in m k v : gomap.get m k = Some v -> In (k, v) m.
Proof.
  induction m as [|[k' v'] m IH]; cbn; [discriminate|].
  destruct (String.eqb k' k) eqn:E.
  - apply String.eqb_eq in E. intros H. inversion H; subst. left. reflexivity.
  - intros H. right. exact (IH H).
Qed.

Lemma in_get_some m k v : gomap.wf m -> In (k, v) m -> gomap.get m k = Some v.
Proof.
  unfold gomap.wf, gomap.keys.
  induction m as [|[k' v'] m IH]; cbn; [contradiction|].
  intros ND [H|H].
  - inversion H; subst. rewrite String.eqb_refl. reflexivity.
  - inversion ND as [|? ? NI ND']; subst.
    destruct (String.eqb k' k) eqn:E.
    + apply String.eqb_eq in E. subst k'. exfalso. apply NI.
      change k with (fst (k, v)). apply in_map. exact H.
    + exact (IH ND' H).
Qed.

Lemma keys_set_present m k v :
  In k (gomap.keys m) -> gomap.keys (gomap.set m k v) = gomap.keys m.
Proof.
  unfold gomap.keys. induction m as [|[k' v'] m IH]; cbn; [contradiction|].
  intros H. destruct (String.eqb k' k) eqn:E; cbn.
  - apply String.eqb_eq in E. subst. reflexivity.
  - f_equal. apply IH. destruct H as [H|H]; [|exact H].
    subst. rewrite String.eqb_refl in E. discriminate.
Qed.

Lemma keys_set_absent m k v :
  ~ In k (gomap.keys m) -> gomap.keys (gomap.set m k v) = (gomap.keys m ++ [k])%list.
Proof.
  unfold gomap.keys. induction m as [|[k' v'] m IH]; cbn; [reflexivity|].
  intros H. destruct (String.eqb k' k) eqn:E; cbn.
  - apply String.eqb_eq in E. subst. exfalso. auto.
  - f_equal. apply IH. auto.
Qed.

End MapFacts.

(** * Properties of the field extraction *)

Section FieldExtraction.
Import regexp types parser.

(** C4, as stated, fails: on the bare line no sentence-boundary character
    precedes the clause, the pattern does not match and the value is
    empty. *)
Lemma getDefaultValue_bare_line : getDefaultValue bareDefaultLine <> "false".
Proof. vm_compute. discriminate. Qed.

(** C4, amended. After a sentence-boundary character the quoted default
    is returned without its quotes; the bare line yields nothing; a line
    the default pattern does not match yields the empty string, leaves
    the field's default unset, and the only errors the extraction ever
    records are the three about names and enum sections. *)
Theorem getDefaultValue_after_sentence_boundary :
  getDefaultValue alwaysOnLine = "false" /\
  getDefaultValue bareDefaultLine = "" /\
  (forall line, MatchString DefaultsReg line = false -> getDefaultValue line = "") /\
  (forall line position lineNumber f,
      MatchString DefaultsReg line = false ->
      ExtractFieldFromLine line position lineNumber = Ok f ->
      DefaultValue f = None /\ Forall knownError (ParseErrors f)).
Proof.
  split; [vm_compute; reflexivity|].
  split; [vm_compute; reflexivity|].
  assert (G : forall line, MatchString DefaultsReg line = false -> getDefaultValue line = "").
  { intros line H. unfold getDefaultValue.
    rewrite (MatchString_false _ _ H). reflexivity. }
  split; [exact G|].
  intros line position lineNumber f H E.
  destruct (ExtractFieldFromLine_fields _ _ _ _ E) as [D P].
  rewrite (G line H) in D. split; assumption.
Qed.

Lemma getDefaultValue_after_sentence_boundary_witness :
  getDefaultValue nameLine = "" /\
  exists f, ExtractFieldFromLine nameLine PosArgs 3 = Ok f /\ DefaultValue f = None.
Proof.
  split.
  - apply (proj1 (proj2 (proj2 getDefaultValue_after_sentence_boundary))).
    vm_compute. reflexivity.
  - eexists. split; [vm_compute; reflexivity|].
    refine (proj1 (proj2 (proj2 (proj2 getDefaultValue_after_sentence_boundary))
                         nameLine PosArgs 3 _ _ _)).
    + vm_compute. reflexivity.
    + vm_compute. reflexivity.
Defined.

(** C3. On a line with two trigger phrases the extraction records the
    error about multiple sections and still keeps the values of the first
    clause: the list is not emptied. *)
Theorem second_clause_keeps_first_values :
  exists f,
    ExtractFieldFromLine twoClauseLine PosArgs 1 = Ok f /\
    PossibleValues f = ["A"; "B"] /\
    ParseErrors f = [multipleSections].
Proof.
  eexists. split; [vm_compute; reflexivity|]. split; reflexivity.
Qed.

Lemma index_from_prefix s sep i :
  strings.HasPrefix s sep = true -> strings.index_from s sep i = i.
Proof.
  intros H. destruct s; unfold strings.index_from; fold strings.index_from;
    rewrite H; reflexivity.
Qed.

(** When the scan of the phrases, in their fixed order, yields offset 0,
    in particular when the line starts with "possible value" in any letter
    case, [extractPossibleValues] extracts nothing: no value, no enum
    offsets, no error. *)
Lemma trigger_at_offset_zero_ignored :
  forall line field,
    possibleValueSep line = 0 \/
    strings.HasPrefix (strings.ToLower line) "possible value" = true ->
    extractPossibleValues line field = Ok ([], field).
Proof.
  intros line field H.
  assert (Z0 : possibleValueSep line = 0).
  { destruct H as [H|H]; [exact H|].
    unfold possibleValueSep, enumPhrases. cbn [firstPhrase].
    unfold strings.Index. rewrite (index_from_prefix _ _ 0 H). reflexivity. }
  unfold extractPossibleValues. rewrite Z0. reflexivity.
Qed.

(** C9. [extractBlockTypeName] finds the positions of the type name in
    the lower-cased line and slices the line itself with them. Lower-casing
    lengthens the text when a letter has a longer lower-case encoding
    (U+023A takes two bytes, its lower case U+2C65 three) or when a byte
    is not valid UTF-8 (it becomes the three bytes of U+FFFD); the slice
    is then out of range and the extraction panics. *)
Theorem ExtractFieldFromLine_panics :
  strings.len strokedLine = 30 /\
  strings.len (strings.ToLower strokedLine) = 36 /\
  ExtractFieldFromLine strokedLine PosArgs 1 = Panic "slice bounds out of range" /\
  ExtractFieldFromLine invalidBytesLine PosArgs 1 = Panic "slice bounds out of range".
Proof. repeat split; vm_compute; reflexivity. Qed.

(** The part of C9 that holds: when neither the field pattern nor a code
    span gives a name, the result is a field without name that carries
    the error. *)
Lemma no_field_name_found (line : string) (position : PositionType) (lineNumber : Z) :
  FirstCodeValue line = "" ->
  nth 1 (FindStringSubmatch fieldReg line) "" = "" ->
  exists f,
    ExtractFieldFromLine line position lineNumber = Ok f /\
    Name f = "" /\ ParseErrors f = ["no field name found"].
Proof.
  intros HC HF. unfold ExtractFieldFromLine. cbv zeta.
  rewrite HF, HC. cbn [String.eqb]. rewrite orb_true_r. cbn [Name set_Name andb String.eqb].
  eexists. split; [reflexivity|].
  destruct (String.eqb (getDefaultValue line) ""); split; reflexivity.
Qed.

End FieldExtraction.

(** * Properties of rule S006 *)

Section CrossCheck.
Import types data rule.

Lemma eqb_id_false name : name <> "id" -> String.eqb name "id" = false.
Proof. intros H. apply String.eqb_neq. exact H. Qed.

Lemma len_pos_nonempty {A : Type} (l : list A) : l <> [] -> (0 <? len l) = true.
Proof.
  intros H. destruct l; [contradiction|].
  unfold len. cbn [List.length]. apply Z.ltb_lt. lia.
Qed.

Lemma len_zero_nonempty {A : Type} (l : list A) : l <> [] -> (len l =? 0) = false.
Proof.
  intros H. destruct l; [contradiction|].
  unfold len. cbn [List.length]. apply Z.eqb_neq. lia.
Qed.

(** The loop body of [checkMissingInDoc], unfolded once. *)
Lemma checkSchemaProperty_unfold parentPath documentation name property :
  checkSchemaProperty parentPath documentation name property =
  if computedOnly property then []
  else if String.eqb name "id" then []
  else if Deprecated property then []
  else
    match gomap.get (Objects documentation) name with
    | None => [MissingFromDocs (joinPath parentPath name)]
    | Some docProperty =>
      match Nested property with
      | None => []
      | Some nested =>
        if 0 <? len (Objects nested) then
          match Nested docProperty with
          | Some docNested =>
            if len (Objects docNested) =? 0 then
              if negb (Block docProperty)
              then [ShouldBeBlock (joinPath parentPath name) name (Line docProperty)]
              else [BlockMissingFromDocs]
            else checkMissingInDoc (joinPath parentPath name) (Some nested) docNested
          | None =>
            if negb (Block docProperty)
            then [ShouldBeBlock (joinPath parentPath name) name (Line docProperty)]
            else [BlockMissingFromDocs]
          end
        else []
      end
    end.
Proof. destruct property; reflexivity. Qed.

Lemma checkMissingInDoc_nested path schema documentation name property docProperty
      nested docNested :
  In (name, property) (Objects schema) ->
  computedOnly property = false -> name <> "id" -> Deprecated property = false ->
  gomap.get (Objects documentation) name = Some docProperty ->
  Nested property = Some nested ->
  Nested docProperty = Some docNested ->
  Objects docNested <> [] ->
  incl (checkMissingInDoc (joinPath path name) (Some nested) docNested)
       (checkMissingInDoc path (Some schema) documentation).
Proof.
  intros HIn HC HId HD HG HN HDN HNE e He.
  unfold checkMissingInDoc at 1. apply in_flat_map. exists (name, property).
  split; [exact HIn|]. cbn [fst snd].
  rewrite checkSchemaProperty_unfold, HC, (eqb_id_false _ HId), HD, HG, HN, HDN.
  rewrite (len_zero_nonempty _ HNE).
  destruct (Objects nested) eqn:EN.
  - unfold checkMissingInDoc in He. rewrite EN in He. contradiction.
  - rewrite <- EN. rewrite len_pos_nonempty by (rewrite EN; discriminate). exact He.
Qed.

Lemma corresponds_incl rootSchema rootDoc path schema documentation :
  corresponds rootSchema rootDoc path schema documentation ->
  incl (checkMissingInDoc path (Some schema) documentation)
       (checkMissingInDoc "" (Some rootSchema) rootDoc).
Proof.
  induction 1 as [|path schema documentation name property docProperty nested docNested
                   HC IH HIn HCo HId HD HG HN HDN HNE].
  - apply incl_refl.
  - eapply incl_tran; [|exact IH].
    eapply checkMissingInDoc_nested; eassumption.
Qed.

Lemma checkSchemaProperty_skips path documentation name property :
  computedOnly property = true \/ name = "id" \/ Deprecated property = true ->
  checkSchemaProperty path documentation name property = [].
Proof.
  intros H. rewrite checkSchemaProperty_unfold.
  destruct H as [H|[H|H]].
  - rewrite H. reflexivity.
  - subst name. destruct (computedOnly property); reflexivity.
  - rewrite H. destruct (computedOnly property); [reflexivity|].
    destruct (String.eqb name "id"); reflexivity.
Qed.

(** With the flags of a provider schema, the properties the check skips
    as computed-only are those that are neither required nor optional. *)
Lemma providerFlags_computedOnly property :
  providerFlags property ->
  (computedOnly property = false <-> Required property = true \/ Optional property = true).
Proof.
  unfold providerFlags, computedOnly. intros [One Req].
  destruct (Required property), (Optional property), (Computed property); cbn;
    intuition discriminate.
Qed.

(** C1. At every pair of collections the check reaches, a schema property
    (with the flags of a provider schema) that is required or optional, not
    deprecated and not named [id], and that the documentation collection
    does not hold, is reported as missing under its dotted path; a property
    that is neither required nor optional (computed-only), or deprecated,
    or named [id] yields no finding. *)
Theorem missing_from_docs_reported :
  forall rootSchema rootDoc path schema documentation name property,
    corresponds rootSchema rootDoc path schema documentation ->
    In (name, property) (Objects schema) ->
    providerFlags property ->
    (Required property = true \/ Optional property = true ->
     Deprecated property = false -> name <> "id" ->
     gomap.get (Objects documentation) name = None ->
     In (MissingFromDocs (joinPath path name))
        (checkMissingInDoc "" (Some rootSchema) rootDoc)) /\
    (~ (Required property = true \/ Optional property = true)
     \/ Deprecated property = true \/ name = "id" ->
     checkSchemaProperty path documentation name property = []).
Proof.
  intros rootSchema rootDoc path schema documentation name property HC HIn HF.
  pose proof (providerFlags_computedOnly property HF) as CO. split.
  - intros HR HD HId HG. apply CO in HR.
    apply (corresponds_incl _ _ _ _ _ HC).
    unfold checkMissingInDoc. apply in_flat_map. exists (name, property).
    split; [exact HIn|]. cbn [fst snd].
    rewrite checkSchemaProperty_unfold, HR, (eqb_id_false _ HId), HD, HG.
    left. reflexivity.
  - intros H. apply checkSchemaProperty_skips.
    destruct H as [H|[H|H]]; [left|right; right; exact H|right; left; exact H].
    destruct (computedOnly property) eqn:E; [reflexivity|].
    exfalso. apply H. apply CO. reflexivity.
Qed.

Lemma missing_from_docs_reported_witness :
  In (MissingFromDocs "identity.type") (checkMissingInDoc "" (Some witnessSchema) witnessDoc).
Proof.
  refine (proj1 (missing_from_docs_reported witnessSchema witnessDoc "identity"
                   (mkProperties ["type"]
                      [("type", withFlags true false false (emptyProperty "type"))])
                   (mkProperties ["tenant_id"]
                      [("tenant_id", docProperty "tenant_id" 11 "* `tenant_id` - The tenant."
                                                 None false)])
                   "type" (withFlags true false false (emptyProperty "type")) _ _ _)
                _ _ _ _).
  - refine (corresponds_nested witnessSchema witnessDoc "" witnessSchema witnessDoc "identity"
              _ _ _ _ (corresponds_root _ _) _ _ _ _ _ _ _ _).
    + right. left. reflexivity.
    + reflexivity.
    + discriminate.
    + reflexivity.
    + reflexivity.
    + reflexivity.
    + reflexivity.
    + discriminate.
  - left. reflexivity.
  - split; [left; reflexivity|]. intros _. split; reflexivity.
  - left. reflexivity.
  - reflexivity.
  - discriminate.
  - reflexivity.
Defined.

(** The loop body of [checkMissingInSchema], unfolded once. *)
Lemma checkDocProperty_unfold parentPath schema name docProperty :
  checkDocProperty parentPath schema name docProperty =
  if String.eqb name "id" then Ok []
  else
    if String.eqb parentPath "" && Block docProperty && negb (emptyNested docProperty)
    then Ok []
    else if strings.Contains (strings.ToLower (Content docProperty)) "deprecated"
    then Ok []
    else
      match gomap.get (Objects schema) name with
      | None =>
        let idx := strings.Index (strings.ToLower (Content docProperty))
                                 "not available for" in
        excused <- (if 0 <? idx then
                      remaining <- strings.slice_from (Content docProperty) idx ;;
                      let codeValue := firstCodeValue remaining in
                      Ok (negb (String.eqb codeValue "")
                          && strings.Contains (joinPath parentPath name) codeValue)
                    else Ok false) ;;
        if excused then Ok []
        else Ok [NotInSchema (joinPath parentPath name) (Line docProperty)]
      | Some schemaProperty =>
        if Block docProperty then Ok []
        else
          match Nested docProperty with
          | None => Ok []
          | Some docNested =>
            if 0 <? len (Objects docNested) then
              match Nested schemaProperty with
              | Some schemaNested =>
                checkMissingInSchema (joinPath parentPath name) (Some docNested) schemaNested
              | None => Ok []
              end
            else Ok []
          end
      end.
Proof. destruct docProperty; reflexivity. Qed.

Lemma schema_name_documented documentation d :
  gomap.get (Objects documentation) "name" = Some d ->
  checkSchemaProperty "" documentation "name" schemaName = [].
Proof. intros H. rewrite checkSchemaProperty_unfold. cbn. rewrite H. reflexivity. Qed.

Lemma schema_identity_not_a_block documentation typeProperty d :
  gomap.get (Objects documentation) "identity" = Some d ->
  Block d = false -> emptyNested d = true ->
  checkSchemaProperty "" documentation "identity" (schemaIdentity typeProperty)
  = [ShouldBeBlock "identity" "identity" (Line d)].
Proof.
  intros H HB HE. rewrite checkSchemaProperty_unfold. cbn. rewrite H, HB.
  unfold emptyNested in HE. destruct (Nested d); [rewrite HE|]; reflexivity.
Qed.

Lemma doc_name_in_schema schema d :
  gomap.get (Objects schema) "name" = Some schemaName ->
  checkDocProperty "" schema "name" d = Ok [].
Proof.
  intros H. rewrite checkDocProperty_unfold, H. cbn.
  repeat match goal with |- context [if ?c then _ else _] => destruct c end;
    try reflexivity.
  destruct (Nested d); [|reflexivity].
  destruct (0 <? len (Objects p)); reflexivity.
Qed.

Lemma doc_identity_in_schema schema s d :
  gomap.get (Objects schema) "identity" = Some s ->
  Block d = false -> emptyNested d = true ->
  checkDocProperty "" schema "identity" d = Ok [].
Proof.
  intros H HB HE. rewrite checkDocProperty_unfold, H, HB, HE. cbn.
  destruct (strings.Contains _ _); [reflexivity|].
  unfold emptyNested in HE. destruct (Nested d); [|reflexivity].
  apply Z.eqb_eq in HE. rewrite HE. reflexivity.
Qed.

(** C2. The schema holds a required [name] and a required block
    [identity] with a nested [type]; the documentation holds [name] and
    an [identity] entry that is not a block and has no nested content.
    Whatever the other attributes of the entries and in whatever order
    the two maps are visited, both directions together yield exactly one
    finding: [identity] should be declared as a block. *)
Theorem identity_should_be_block :
  forall (typeProperty nameDoc identityDoc : Property)
         (sNames dNames : list string) (sObjs dObjs : list (string * Property)),
    Block identityDoc = false ->
    emptyNested identityDoc = true ->
    Permutation [("name", schemaName); ("identity", schemaIdentity typeProperty)] sObjs ->
    Permutation [("name", nameDoc); ("identity", identityDoc)] dObjs ->
    Run (Some (mkProperties sNames sObjs)) (Some (mkProperties dNames dObjs))
    = Ok [ShouldBeBlock "identity" "identity" (Line identityDoc)].
Proof.
  intros typeProperty nameDoc identityDoc sNames dNames sObjs dObjs HB HE HS HD.
  apply Permutation_length_2_inv in HS. apply Permutation_length_2_inv in HD.
  unfold Run, checkMissingInDoc, checkMissingInSchema. cbn [Objects].
  destruct HS as [-> | ->]; destruct HD as [-> | ->];
    cbn [flat_map collect fst snd];
    erewrite schema_name_documented by reflexivity;
    erewrite schema_identity_not_a_block by (try reflexivity; assumption);
    erewrite doc_name_in_schema by reflexivity;
    erewrite doc_identity_in_schema by (try reflexivity; assumption);
    reflexivity.
Qed.

Lemma identity_should_be_block_witness :
  Run (Some witnessSchema)
      (Some (mkProperties ["name"; "identity"]
               [("name", docProperty "name" 3 "* `name` - (Required) The name." None false);
                ("identity", docProperty "identity" 4 "* `identity` - (Optional) The identity."
                                         None false)]))
  = Ok [ShouldBeBlock "identity" "identity" 4].
Proof.
  apply (identity_should_be_block (withFlags true false false (emptyProperty "type"))
           (docProperty "name" 3 "* `name` - (Required) The name." None false)
           (docProperty "identity" 4 "* `identity` - (Optional) The identity." None false)).
  - reflexivity.
  - reflexivity.
  - apply Permutation_refl.
  - apply Permutation_refl.
Defined.

End CrossCheck.

(** * Properties of the property tree *)

Section Insertion.
Import types.

(** C7. [ParsedProperties.AddProperty], the insertion the section
    parsers use, has no test for a name that is present: the name is
    appended a second time and the entry under it is replaced by the
    new property. *)
Theorem ParsedProperties_AddProperty_overwrites :
  forall (props : parser.ParsedProperties) (p q : parser.ParsedProperty),
    parser.Name (parser.Field q) <> "" ->
    In (parser.Name (parser.Field q)) (Names props) ->
    gomap.get (Objects props) (parser.Name (parser.Field q)) = Some p ->
    exists props',
      parser.AddProperty (Some props) (Some q) = Some props' /\
      Names props' = (Names props ++ [parser.Name (parser.Field q)])%list /\
      ~ NoDup (Names props') /\
      gomap.get (Objects props') (parser.Name (parser.Field q)) = Some q.
Proof.
  intros props p q HN HIn HG. unfold parser.AddProperty.
  apply String.eqb_neq in HN. rewrite HN.
  eexists. split; [reflexivity|]. cbn [Names Objects].
  split; [reflexivity|]. split.
  - intros ND. apply NoDup_remove_2 in ND. apply ND.
    rewrite app_nil_r. exact HIn.
  - apply get_set_same.
Qed.

Lemma ParsedProperties_AddProperty_overwrites_witness :
  exists props',
    parser.AddProperty
      (parser.AddProperty (Some parser.NewParsedProperties) (Some parsedIdentityField))
      (Some parsedIdentityBlock) = Some props' /\
    Names props' = ["identity"; "identity"] /\
    ~ NoDup (Names props') /\
    gomap.get (Objects props') "identity" = Some parsedIdentityBlock.
Proof.
  apply (ParsedProperties_AddProperty_overwrites
           (mkProperties ["identity"] [("identity", parsedIdentityField)])
           parsedIdentityField parsedIdentityBlock).
  - discriminate.
  - left. reflexivity.
  - reflexivity.
Defined.

(** The sibling [data.Properties.AddProperty] does what C7 says: a
    name that is present is not listed again, the entry under it is the
    old entry with its count raised and the error appended. *)
Lemma Properties_AddProperty_duplicate (props : data.Properties) (p existing : data.Property) :
  data.Name p <> "" ->
  gomap.get (Objects props) (data.Name p) = Some existing ->
  exists props',
    data.AddProperty (Some props) (Some p) = Some props' /\
    Names props' = Names props /\
    gomap.get (Objects props') (data.Name p) = Some (data.markDuplicate existing) /\
    (forall k, k <> data.Name p ->
               gomap.get (Objects props') k = gomap.get (Objects props) k).
Proof.
  intros HN HG. unfold data.AddProperty.
  apply String.eqb_neq in HN. rewrite HN, HG.
  eexists. split; [reflexivity|]. cbn [Names Objects].
  split; [reflexivity|]. split; [apply get_set_same|].
  intros k Hk. apply get_set_other. congruence.
Qed.

Lemma Properties_AddProperty_levelOk (props : data.Properties) (p : option data.Property) :
  levelOk props ->
  exists props', data.AddProperty (Some props) p = Some props' /\ levelOk props'.
Proof.
  intros [ND HK]. unfold data.AddProperty.
  destruct p as [p|]; [|eexists; split; [reflexivity|split; assumption]].
  destruct (String.eqb (data.Name p) ""); [eexists; split; [reflexivity|split; assumption]|].
  destruct (gomap.get (Objects props) (data.Name p)) eqn:HG.
  - eexists. split; [reflexivity|]. split; cbn [Names Objects]; [exact ND|].
    rewrite keys_set_present; [exact HK|].
    destruct (in_dec string_dec (data.Name p) (gomap.keys (Objects props))) as [I|NI];
      [exact I|].
    apply get_none_keys in NI. congruence.
  - apply get_none_keys in HG.
    eexists. split; [reflexivity|]. split; cbn [Names Objects].
    + apply NoDup_app; [exact ND|repeat constructor; auto|].
      intros k Hk [Hk'|[]]. subst k. rewrite HK in Hk. contradiction.
    + rewrite keys_set_absent by exact HG. rewrite HK. reflexivity.
Qed.

Lemma insertions_levelOk (l : list data.Property) :
  exists props, insertAll l = Some props /\ levelOk props.
Proof.
  unfold insertAll.
  assert (G : forall props, levelOk props ->
              exists props', fold_left (fun props p => data.AddProperty props (Some p))
                                       l (Some props) = Some props' /\ levelOk props').
  { induction l as [|p l IH]; intros props H; cbn [fold_left].
    - exists props. split; [reflexivity|exact H].
    - destruct (Properties_AddProperty_levelOk props (Some p) H) as (props1 & E & H1).
      rewrite E. apply IH. exact H1. }
  apply G. split; [constructor|reflexivity].
Qed.

End Insertion.

(** * Block linking *)

Section Linking.
Import types data.

Lemma traverse_ext {A B : Type} (f g : A -> option B) (l : list (string * A)) :
  (forall a, f a = g a) -> traverse f l = traverse g l.
Proof.
  intros H. induction l as [|[k a] l IH]; cbn; [reflexivity|].
  rewrite H, IH. reflexivity.
Qed.

Lemma traverse_weaken {A B : Type} (f g : A -> option B) (l : list (string * A)) r :
  (forall k a b, In (k, a) l -> f a = Some b -> g a = Some b) ->
  traverse f l = Some r -> traverse g l = Some r.
Proof.
  revert r. induction l as [|[k a] l IH]; intros r H E; cbn in *; [exact E|].
  destruct (f a) as [b|] eqn:Fa; [|discriminate].
  destruct (traverse f l) as [r'|] eqn:Tl; [|discriminate].
  rewrite (H k a b (or_introl eq_refl) Fa).
  rewrite (IH r'); [exact E| |reflexivity].
  intros k' a' b' I. apply (H k' a' b'). right. exact I.
Qed.

Lemma traverse_get {A B : Type} (f : A -> option B) (l : list (string * A)) r k :
  traverse f l = Some r ->
  gomap.get r k = match gomap.get l k with Some a => f a | None => None end.
Proof.
  revert r. induction l as [|[k0 a] l IH]; intros r E; cbn in *.
  - inversion E. reflexivity.
  - destruct (f a) as [b|] eqn:Fa; [|discriminate].
    destruct (traverse f l) as [r'|] eqn:Tl; [|discriminate].
    inversion E; subst. cbn. destruct (String.eqb k0 k); [congruence|].
    apply IH. reflexivity.
Qed.

Lemma traverse_keys {A B : Type} (f : A -> option B) (l : list (string * A)) r :
  traverse f l = Some r -> gomap.keys r = gomap.keys l.
Proof.
  revert r. induction l as [|[k0 a] l IH]; intros r E; cbn in *.
  - inversion E. reflexivity.
  - destruct (f a) as [b|] eqn:Fa; [|discriminate].
    destruct (traverse f l) as [r'|] eqn:Tl; [|discriminate].
    inversion E; subst. cbn. f_equal. apply IH. reflexivity.
Qed.

Lemma traverse_all {A B : Type} (f : A -> option B) (l : list (string * A)) :
  (forall k a, In (k, a) l -> exists b, f a = Some b) ->
  exists r, traverse f l = Some r.
Proof.
  induction l as [|[k a] l IH]; intros H; cbn.
  - eexists. reflexivity.
  - destruct (H k a (or_introl eq_refl)) as [b Fb]. rewrite Fb.
    destruct IH as [r Tr].
    + intros k' a' I. apply (H k' a'). right. exact I.
    + rewrite Tr. eexists. reflexivity.
Qed.

Lemma traverse_each {A B : Type} (f : A -> option B) (l : list (string * A)) r :
  traverse f l = Some r -> forall k a, In (k, a) l -> exists b, f a = Some b.
Proof.
  revert r. induction l as [|[k0 a0] l IH]; intros r E k a I; cbn in *; [contradiction|].
  destruct (f a0) as [b|] eqn:Fa; [|discriminate].
  destruct (traverse f l) as [r'|] eqn:Tl; [|discriminate].
  destruct I as [I|I].
  - inversion I; subst. eexists. exact Fa.
  - eapply IH; [reflexivity|exact I].
Qed.

Lemma get_perm {V : Type} (l1 l2 : list (string * V)) k :
  gomap.wf l1 -> Permutation l1 l2 -> gomap.get l1 k = gomap.get l2 k.
Proof.
  intros W P.
  assert (W2 : gomap.wf l2).
  { unfold gomap.wf, gomap.keys in *.
    eapply Permutation_NoDup; [|exact W]. apply Permutation_map. exact P. }
  destruct (gomap.get l1 k) as [v|] eqn:E.
  - symmetry. apply in_get_some; [exact W2|].
    eapply Permutation_in; [exact P|]. apply get_some_in. exact E.
  - symmetry. apply get_none_keys. apply get_none_keys in E.
    intros I. apply E. unfold gomap.keys in *.
    eapply Permutation_in; [|exact I]. apply Permutation_map. apply Permutation_sym. exact P.
Qed.

Lemma fillBlockFields_path fuel defs :
  forall prop path path',
    fillBlockFields fuel defs prop path = fillBlockFields fuel defs prop path'.
Proof.
  induction fuel as [|fuel IH]; intros prop path path'; cbn [fillBlockFields]; [reflexivity|].
  destruct (Nested (linkField defs prop)) as [n|]; [|reflexivity].
  rewrite (traverse_ext _ (fun nested => fillBlockFields fuel defs nested
                                           (joinPath path' (Name (linkField defs prop))))).
  - reflexivity.
  - intros a. apply IH.
Qed.

Lemma linkField_ext defs1 defs2 prop :
  (forall k, gomap.get defs1 k = gomap.get defs2 k) ->
  linkField defs1 prop = linkField defs2 prop.
Proof. intros H. unfold linkField. rewrite H. reflexivity. Qed.

Lemma fillBlockFields_ext fuel defs1 defs2 :
  (forall k, gomap.get defs1 k = gomap.get defs2 k) ->
  forall prop path,
    fillBlockFields fuel defs1 prop path = fillBlockFields fuel defs2 prop path.
Proof.
  intros H. induction fuel as [|fuel IH]; intros prop path; cbn [fillBlockFields];
    [reflexivity|].
  rewrite (linkField_ext defs1 defs2 prop H).
  destruct (Nested (linkField defs2 prop)) as [n|]; [|reflexivity].
  rewrite (traverse_ext _ (fun nested => fillBlockFields fuel defs2 nested
                                           (joinPath path (Name (linkField defs2 prop))))).
  - reflexivity.
  - intros a. apply IH.
Qed.

(** More fuel does not change a result. *)
Lemma fillBlockFields_more fuel defs :
  forall extra prop path r,
    fillBlockFields fuel defs prop path = Some r ->
    fillBlockFields (fuel + extra) defs prop path = Some r.
Proof.
  induction fuel as [|fuel IH]; intros extra prop path r E; [discriminate|].
  cbn [fillBlockFields Nat.add] in *.
  destruct (Nested (linkField defs prop)) as [n|]; [|exact E].
  destruct (traverse _ (Objects n)) as [objs|] eqn:T; [|discriminate].
  erewrite traverse_weaken; [exact E| |exact T].
  intros k a b _ Fa. apply IH. exact Fa.
Qed.

Lemma blockDefinitions_fold (objs : list (string * Property)) (m : list (string * Property)) :
  fold_left
    (fun defs np =>
       let name := fst np in
       let prop := snd np in
       if isDefinition prop then
         let defs := gomap.set defs name prop in
         if negb (String.eqb (BlockTypeName prop) "")
            && negb (String.eqb (BlockTypeName prop) name)
         then gomap.set defs (BlockTypeName prop) prop
         else defs
       else defs)
    objs m
  = fold_left (fun defs e => gomap.set defs (fst e) (snd e)) (flat_map definitionKeys objs) m.
Proof.
  revert m. induction objs as [|[name prop] objs IH]; intros m; cbn [fold_left flat_map];
    [reflexivity|].
  rewrite fold_left_app, IH. f_equal.
  unfold definitionKeys. cbn [fst snd].
  destruct (isDefinition prop); [|reflexivity].
  destruct (negb _ && negb _); reflexivity.
Qed.

Lemma fold_set_get {V : Type} (es m : list (string * V)) k :
  NoDup (map fst es) ->
  gomap.get (fold_left (fun defs e => gomap.set defs (fst e) (snd e)) es m) k
  = match gomap.get es k with Some v => Some v | None => gomap.get m k end.
Proof.
  revert m. induction es as [|[k0 v0] es IH]; intros m ND; cbn [fold_left]; [reflexivity|].
  inversion ND as [|? ? NI ND']; subst. rewrite (IH _ ND'). cbn [gomap.get fst snd].
  destruct (String.eqb k0 k) eqn:E.
  - apply String.eqb_eq in E. subst k0.
    replace (gomap.get es k) with (@None V) by (symmetry; apply get_none_keys; exact NI).
    apply get_set_same.
  - destruct (gomap.get es k); [reflexivity|].
    apply get_set_other. apply String.eqb_neq. exact E.
Qed.

Lemma blockDefinitions_get objs k :
  collisionFree objs ->
  gomap.get (blockDefinitions objs) k = gomap.get (flat_map definitionKeys objs) k.
Proof.
  intros CF. unfold blockDefinitions. rewrite blockDefinitions_fold, (fold_set_get _ _ _ CF).
  destruct (gomap.get _ k); reflexivity.
Qed.

(** What [blockDefinitions] holds are root entries that are definitions. *)
Lemma blockDefinitions_sound objs k def :
  collisionFree objs ->
  gomap.get (blockDefinitions objs) k = Some def ->
  isDefinition def = true /\ exists dk, In (dk, def) objs.
Proof.
  intros CF G. rewrite (blockDefinitions_get _ _ CF) in G.
  apply get_some_in in G. apply in_flat_map in G. destruct G as ([dk p] & I & IK).
  unfold definitionKeys in IK. cbn [fst snd] in IK.
  destruct (isDefinition p) eqn:D; [|contradiction].
  assert (def = p).
  { destruct IK as [IK|IK]; [inversion IK; reflexivity|].
    destruct (negb _ && negb _); [|contradiction].
    destruct IK as [IK|[]]. inversion IK. reflexivity. }
  subst p. split; [exact D|]. exists dk. exact I.
Qed.

Lemma blockDefinitions_perm objs1 objs2 k :
  collisionFree objs1 -> Permutation objs1 objs2 ->
  collisionFree objs2 /\
  gomap.get (blockDefinitions objs1) k = gomap.get (blockDefinitions objs2) k.
Proof.
  intros CF P.
  assert (PF : Permutation (flat_map definitionKeys objs1) (flat_map definitionKeys objs2))
    by (apply Permutation_flat_map; exact P).
  assert (CF2 : collisionFree objs2).
  { unfold collisionFree in *. eapply Permutation_NoDup; [|exact CF].
    apply Permutation_map. exact PF. }
  split; [exact CF2|].
  rewrite (blockDefinitions_get _ _ CF), (blockDefinitions_get _ _ CF2).
  apply get_perm; [exact CF|exact PF].
Qed.

(** A result needs the unfolding to be well-founded ... *)
Lemma fillBlockFields_acc fuel defs :
  forall prop path r, fillBlockFields fuel defs prop path = Some r -> Acc (unfolds defs) prop.
Proof.
  induction fuel as [|fuel IH]; intros prop path r E; [discriminate|].
  cbn [fillBlockFields] in E. constructor. intros c (n & k & HN & I).
  rewrite HN in E.
  destruct (traverse _ (Objects n)) as [objs|] eqn:T; [|discriminate].
  destruct (traverse_each _ _ _ T k c I) as [b Fb].
  eapply IH. exact Fb.
Qed.

Lemma common_fuel defs path (l : list (string * Property)) :
  (forall k c, In (k, c) l -> exists fuel r, fillBlockFields fuel defs c path = Some r) ->
  exists fuel, forall k c, In (k, c) l -> exists r, fillBlockFields fuel defs c path = Some r.
Proof.
  induction l as [|[k0 c0] l IH]; intros H.
  - exists 0%nat. intros k c [].
  - destruct (H k0 c0 (or_introl eq_refl)) as (f0 & r0 & E0).
    destruct IH as [f1 H1].
    { intros k c I. apply (H k c). right. exact I. }
    exists (f0 + f1)%nat. intros k c [I|I].
    + inversion I; subst. exists r0. apply fillBlockFields_more. exact E0.
    + destruct (H1 k c I) as [r E]. exists r.
      rewrite Nat.add_comm. apply fillBlockFields_more. exact E.
Qed.

(** ... and a well-founded unfolding gives a result with enough fuel. *)
Lemma fillBlockFields_terminates defs prop :
  Acc (unfolds defs) prop ->
  forall path, exists fuel r, fillBlockFields fuel defs prop path = Some r.
Proof.
  induction 1 as [prop _ IH]. intros path.
  destruct (Nested (linkField defs prop)) as [n|] eqn:HN.
  - destruct (common_fuel defs (joinPath path (Name (linkField defs prop))) (Objects n))
      as [fuel HF].
    { intros k c I. apply IH. exists n, k. split; assumption. }
    destruct (traverse_all _ _ HF) as [objs T].
    exists (S fuel). cbn [fillBlockFields]. rewrite HN, T. eexists. reflexivity.
  - exists 1%nat. cbn [fillBlockFields]. rewrite HN. eexists. reflexivity.
Qed.

(** A linked field holds what its definition holds after the pass. *)
Lemma linked_field_shares fuel defs ref def path path' ref' def' :
  Block ref = true -> emptyNested ref = true ->
  gomap.get defs (blockName ref) = Some def ->
  isDefinition def = true ->
  fillBlockFields fuel defs ref path = Some ref' ->
  fillBlockFields fuel defs def path' = Some def' ->
  Nested ref' = Nested def' /\ emptyNested ref' = false.
Proof.
  intros HB HE HG HD Er Ed.
  destruct fuel as [|fuel]; [discriminate|]. cbn [fillBlockFields] in Er, Ed.
  unfold isDefinition in HD. apply andb_true_iff in HD. destruct HD as [HDB HDE].
  apply negb_true_iff in HDE.
  assert (Ld : linkField defs def = def) by (unfold linkField; rewrite HDB, HDE; reflexivity).
  rewrite Ld in Ed.
  destruct (Nested def) as [n|] eqn:HN; [|unfold emptyNested in HDE; rewrite HN in HDE; discriminate].
  assert (Lr : linkField defs ref = set_Nested (Some n) ref)
    by (unfold linkField; rewrite HB, HE, HG, HN; reflexivity).
  rewrite Lr in Er. cbn [Nested set_Nested Name] in Er.
  destruct (traverse _ (Objects n)) as [objs|] eqn:T in Ed; [|discriminate].
  rewrite (traverse_ext _ (fun nested => fillBlockFields fuel defs nested
                                           (joinPath path' (Name def)))) in Er
    by (intros a; apply fillBlockFields_path).
  rewrite T in Er. inversion Er; subst. inversion Ed; subst. cbn [Nested set_Nested].
  split; [reflexivity|].
  unfold emptyNested. cbn [Nested set_Nested Objects].
  unfold emptyNested in HDE. rewrite HN in HDE.
  apply traverse_keys in T. unfold len in *.
  rewrite <- (length_map fst objs). fold (gomap.keys objs). rewrite T.
  unfold gomap.keys. rewrite length_map. exact HDE.
Qed.

(** On a definition that refers to itself the recursion does not end,
    whatever the fuel. *)
Lemma self_reference_never_ends fuel :
  BuildBlockStructure fuel (Some (mkProperties ["rule"] [("rule", selfReferring)])) = None.
Proof.
  unfold BuildBlockStructure. cbn [Objects traverse].
  set (defs := blockDefinitions [("rule", selfReferring)]).
  destruct (fillBlockFields fuel defs selfReferring "") as [r|] eqn:E; [|reflexivity].
  exfalso. apply fillBlockFields_acc in E.
  assert (U : unfolds defs (docField "rule" 2 true) (docField "rule" 2 true)).
  { eexists _, "rule". split; [vm_compute; reflexivity|]. left. reflexivity. }
  assert (A : Acc (unfolds defs) (docField "rule" 2 true)).
  { apply (Acc_inv E). eexists _, "rule". split; [vm_compute; reflexivity|].
    left. reflexivity. }
  clear E. induction A as [x _ IH]. exact (IH _ U U).
Qed.

Lemma BuildBlockStructure_more fuel extra props r :
  BuildBlockStructure fuel props = Some r ->
  BuildBlockStructure (fuel + extra) props = Some r.
Proof.
  unfold BuildBlockStructure. destruct props as [props|]; [|auto].
  destruct (traverse _ (Objects props)) as [objs|] eqn:T; [|discriminate].
  intros E. erewrite traverse_weaken; [exact E| |exact T].
  intros k a b _ Fa. apply fillBlockFields_more. exact Fa.
Qed.

(** The pass does not depend on the order in which the maps are visited.
    Two root collections that bind the same names to the same properties,
    in any order and with any lists of names, with no two definitions filed
    under one key and a well-founded unfolding: with enough fuel the pass
    ends on both, each tree keeps its own list of names, every name is bound
    to the same linked property in both, and a root field that refers to a
    block with a definition ends with the nested collection of the linked
    definition. *)
Theorem linking_order_independent :
  forall (names1 names2 : list string) (objs1 objs2 : list (string * Property)),
    gomap.wf objs1 ->
    collisionFree objs1 ->
    Permutation objs1 objs2 ->
    (forall k p, In (k, p) objs1 -> Acc (unfolds (blockDefinitions objs1)) p) ->
    exists fuel r1 r2,
      BuildBlockStructure fuel (Some (mkProperties names1 objs1)) = Some (Some r1) /\
      BuildBlockStructure fuel (Some (mkProperties names2 objs2)) = Some (Some r2) /\
      Names r1 = names1 /\ Names r2 = names2 /\
      (forall k, gomap.get (Objects r1) k = gomap.get (Objects r2) k) /\
      (forall k ref def,
          gomap.get objs1 k = Some ref ->
          Block ref = true -> emptyNested ref = true ->
          gomap.get (blockDefinitions objs1) (blockName ref) = Some def ->
          exists dk ref' def',
            gomap.get objs1 dk = Some def /\
            gomap.get (Objects r1) k = Some ref' /\
            gomap.get (Objects r1) dk = Some def' /\
            Nested ref' = Nested def' /\ emptyNested ref' = false).
Proof.
  intros names1 names2 objs1 objs2 W CF P HA.
  set (defs1 := blockDefinitions objs1) in *.
  set (defs2 := blockDefinitions objs2).
  assert (HD : forall k, gomap.get defs1 k = gomap.get defs2 k)
    by (intros k; apply (blockDefinitions_perm objs1 objs2 k CF P)).
  destruct (common_fuel defs1 "" objs1) as [fuel HF].
  { intros k c I. apply fillBlockFields_terminates. exact (HA k c I). }
  destruct (traverse_all _ _ HF) as [r1 T1].
  destruct (traverse_all (fun prop => fillBlockFields fuel defs2 prop "") objs2) as [r2 T2].
  { intros k a I. rewrite <- (fillBlockFields_ext fuel defs1 defs2 HD).
    apply (HF k). eapply Permutation_in; [apply Permutation_sym; exact P|exact I]. }
  exists fuel, (mkProperties names1 r1), (mkProperties names2 r2).
  unfold BuildBlockStructure. cbn [Objects Names]. fold defs1 defs2. rewrite T1, T2.
  repeat split.
  - intros k. rewrite (traverse_get _ _ _ k T1), (traverse_get _ _ _ k T2).
    rewrite <- (get_perm objs1 objs2 k W P).
    destruct (gomap.get objs1 k); [|reflexivity].
    apply fillBlockFields_ext. exact HD.
  - intros k ref def Gr HB HE Gd.
    destruct (blockDefinitions_sound objs1 _ _ CF Gd) as [Dd [dk Id]].
    assert (Gdk : gomap.get objs1 dk = Some def) by (apply in_get_some; assumption).
    destruct (HF k ref (get_some_in _ _ _ Gr)) as [ref' Er].
    destruct (HF dk def Id) as [def' Ed].
    exists dk, ref', def'. split; [exact Gdk|].
    rewrite (traverse_get _ _ _ k T1), Gr, (traverse_get _ _ _ dk T1), Gdk.
    split; [exact Er|]. split; [exact Ed|].
    eapply linked_field_shares; eassumption.
Qed.

Lemma linking_order_independent_witness :
  exists fuel r1 r2,
    BuildBlockStructure fuel (Some (mkProperties ["identity"; "site"; "assigned"] linkedRoot))
    = Some (Some r1) /\
    BuildBlockStructure fuel (Some (mkProperties ["assigned"; "site"; "identity"]
                                                 (rev linkedRoot)))
    = Some (Some r2) /\
    Names r1 = ["identity"; "site"; "assigned"] /\
    Names r2 = ["assigned"; "site"; "identity"] /\
    (forall k, gomap.get (Objects r1) k = gomap.get (Objects r2) k).
Proof.
  destruct (linking_order_independent ["identity"; "site"; "assigned"]
              ["assigned"; "site"; "identity"] linkedRoot (rev linkedRoot))
    as (fuel & r1 & r2 & E1 & E2 & N1 & N2 & G & _).
  - unfold gomap.wf. cbn. repeat constructor; cbn; intuition discriminate.
  - unfold collisionFree. cbn. repeat constructor; cbn; intuition discriminate.
  - apply Permutation_rev.
  - intros k p I.
    apply (fillBlockFields_acc 3 (blockDefinitions linkedRoot) p "")
      with (r := match fillBlockFields 3 (blockDefinitions linkedRoot) p "" with
                 | Some r => r
                 | None => p
                 end).
    cbn in I. decompose [or] I; try contradiction;
      match goal with H : (_, _) = (_, _) |- _ => inversion H; subst end;
      vm_compute; reflexivity.
  - exists fuel, r1, r2. repeat split; assumption.
Defined.

End Linking.

(** * Where matches lie *)

Section RegexpFacts.
Import regexp.

Lemma drop_length n : forall s,
  (n <= String.length s)%nat -> String.length (strings.drop n s) = (String.length s - n)%nat.
Proof.
  induction n as [|n IH]; intros s H; cbn.
  - lia.
  - destruct s as [|c s]; cbn in *; [lia|]. apply IH. lia.
Qed.

Lemma drop_drop n : forall m s, strings.drop m (strings.drop n s) = strings.drop (n + m) s.
Proof.
  induction n as [|n IH]; intros m s; cbn; [reflexivity|].
  destruct s as [|c s]; [destruct m; reflexivity|]. apply IH.
Qed.

Lemma advance_refl pos rest : advance pos rest pos rest.
Proof. exists 0%nat. cbn. repeat split; lia. Qed.

Lemma advance_trans p0 r0 p1 r1 p2 r2 :
  advance p0 r0 p1 r1 -> advance p1 r1 p2 r2 -> advance p0 r0 p2 r2.
Proof.
  intros (n & Hn & -> & ->) (m & Hm & -> & ->).
  rewrite drop_length in Hm by exact Hn.
  exists (n + m)%nat. rewrite drop_drop. repeat split; lia.
Qed.

Lemma HasPrefix_length p : forall s,
  strings.HasPrefix s p = true -> (String.length p <= String.length s)%nat.
Proof.
  induction p as [|c p IH]; intros s H; cbn in *; [lia|].
  destruct s as [|d s]; [discriminate|]. apply andb_true_iff in H. destruct H as [_ H].
  cbn. apply IH in H. lia.
Qed.

Lemma star_advancing greedy step k :
  advancing step ->
  forall fuel pos rest caps c,
    star greedy step k fuel pos rest caps = Some c ->
    exists pos' rest' caps', advance pos rest pos' rest' /\ k pos' rest' caps' = Some c.
Proof.
  intros HS. induction fuel as [|fuel IH]; intros pos rest caps c E; cbn [star] in E.
  - exists pos, rest, caps. split; [apply advance_refl|exact E].
  - assert (A : forall c', step pos rest caps
                     (fun pos' rest' caps' =>
                        if pos <? pos' then star greedy step k fuel pos' rest' caps' else None)
                   = Some c' ->
                 exists pos' rest' caps', advance pos rest pos' rest' /\ k pos' rest' caps' = Some c').
    { intros c' E'. apply HS in E'. destruct E' as (p1 & r1 & c1 & A1 & E1).
      destruct (pos <? p1); [|discriminate].
      apply IH in E1. destruct E1 as (p2 & r2 & c2 & A2 & E2).
      exists p2, r2, c2. split; [eapply advance_trans; eassumption|exact E2]. }
    assert (B : forall c', k pos rest caps = Some c' ->
                 exists pos' rest' caps', advance pos rest pos' rest' /\ k pos' rest' caps' = Some c').
    { intros c' E'. exists pos, rest, caps. split; [apply advance_refl|exact E']. }
    unfold orelse in E. destruct greedy.
    + destruct (step pos rest caps _) eqn:E1; [inversion E; subst; apply A; reflexivity|].
      apply B. exact E.
    + destruct (k pos rest caps) eqn:E1; [inversion E; subst; apply B; reflexivity|].
      apply A. exact E.
Qed.

Lemma exec_advancing r : advancing (exec r).
Proof.
  induction r as [|s|neg rs| | | |a IHa b IHb|a IHa b IHb|greedy a IHa|n a IHa];
    intros pos rest caps k c E; cbn [exec] in E.
  - exists pos, rest, caps. split; [apply advance_refl|exact E].
  - destruct (strings.HasPrefix rest s) eqn:HP; [|discriminate].
    eexists _, _, caps. split; [|exact E].
    exists (String.length s). split; [apply HasPrefix_length; exact HP|].
    split; [reflexivity|]. unfold strings.len. reflexivity.
  - destruct rest as [|ch rest]; [discriminate|].
    destruct (in_class neg rs ch); [|discriminate].
    eexists _, _, caps. split; [|exact E]. exists 1%nat. cbn. repeat split; lia.
  - destruct rest as [|ch rest]; [discriminate|].
    destruct (byte_of ch =? 10); [discriminate|].
    eexists _, _, caps. split; [|exact E]. exists 1%nat. cbn. repeat split; lia.
  - destruct (pos =? 0); [|discriminate].
    exists pos, rest, caps. split; [apply advance_refl|exact E].
  - destruct rest; [|discriminate].
    exists pos, EmptyString, caps. split; [apply advance_refl|exact E].
  - apply IHa in E. destruct E as (p1 & r1 & c1 & A1 & E1).
    apply IHb in E1. destruct E1 as (p2 & r2 & c2 & A2 & E2).
    exists p2, r2, c2. split; [eapply advance_trans; eassumption|exact E2].
  - unfold orelse in E. destruct (exec a pos rest caps k) eqn:E1.
    + inversion E; subst. apply IHa in E1. exact E1.
    + apply IHb in E. exact E.
  - eapply star_advancing; [exact IHa|exact E].
  - apply IHa in E. destruct E as (p1 & r1 & c1 & A1 & E1).
    eexists p1, r1, _. split; [exact A1|exact E1].
Qed.

Lemma nth_set_cap_0 v caps : nth 0 (set_cap 0 v caps) None = Some v.
Proof. destruct caps; reflexivity. Qed.

Lemma search_bounds r : forall rest pos caps,
  search r pos rest = Some caps ->
  exists lo hi, nth 0 caps None = Some (lo, hi) /\
                pos <= lo /\ lo <= hi /\ hi <= pos + strings.len rest.
Proof.
  induction rest as [|ch rest IH]; intros pos caps E; cbn [search] in E.
  - destruct (exec r pos EmptyString _ _) eqn:E1; [|discriminate].
    inversion E; subst. apply exec_advancing in E1.
    destruct E1 as (p1 & r1 & c1 & (n & Hn & _ & ->) & E1). inversion E1; subst.
    eexists _, _. split; [apply nth_set_cap_0|]. unfold strings.len. cbn in *. lia.
  - destruct (exec r pos (String ch rest) _ _) eqn:E1.
    + inversion E; subst. apply exec_advancing in E1.
      destruct E1 as (p1 & r1 & c1 & (n & Hn & _ & ->) & E1). inversion E1; subst.
      eexists _, _. split; [apply nth_set_cap_0|]. unfold strings.len. lia.
    + apply IH in E. destruct E as (lo & hi & N & A & B & C).
      exists lo, hi. split; [exact N|]. unfold strings.len in *. cbn [String.length]. lia.
Qed.

Lemma spansFrom_weaken lo lo' L spans :
  lo' <= lo -> spansFrom lo L spans -> spansFrom lo' L spans.
Proof. destruct spans as [|[s e] spans]; cbn; intros; intuition lia. Qed.

Lemma find_all_spans r : forall fuel pos rest prevEnd,
  spansFrom pos (pos + strings.len rest) (spansOf (find_all fuel r pos rest prevEnd)).
Proof.
  induction fuel as [|fuel IH]; intros pos rest prevEnd; cbn [find_all].
  - cbn. unfold strings.len. lia.
  - destruct (search r pos rest) as [caps|] eqn:E; [|cbn; unfold strings.len; lia].
    destruct (search_bounds _ _ _ _ E) as (lo & hi & N & A & B & C). rewrite N.
    destruct (hi =? pos) eqn:HP.
    + apply Z.eqb_eq in HP.
      assert (M : spansFrom pos (pos + strings.len rest)
                    (spansOf match rest with
                             | EmptyString => []
                             | String _ rest' => find_all fuel r (pos + 1) rest' hi
                             end)).
      { destruct rest as [|ch rest]; [cbn; unfold strings.len; cbn; lia|].
        eapply spansFrom_weaken; [|].
        2:{ replace (pos + strings.len (String ch rest)) with (pos + 1 + strings.len rest)
              by (unfold strings.len; cbn [String.length]; lia).
            apply IH. }
        lia. }
      destruct (lo =? prevEnd); [exact M|].
      unfold spansOf. cbn [flat_map]. rewrite N. cbn [app]. fold (spansOf).
      repeat split; try lia. eapply spansFrom_weaken; [|exact M]. lia.
    + apply Z.eqb_neq in HP.
      unfold spansOf. cbn [flat_map]. rewrite N. cbn [app].
      repeat split; try lia.
      replace (pos + strings.len rest)
        with (hi + strings.len (strings.drop (Z.to_nat (hi - pos)) rest)).
      * apply IH.
      * unfold strings.len in *. rewrite drop_length by lia. lia.
Qed.

Lemma FindAllStringIndex_spans r s :
  spansFrom 0 (strings.len s) (FindAllStringIndex r s).
Proof. apply (find_all_spans r (S (String.length s)) 0 s (-1)). Qed.

End RegexpFacts.

(** * The end of the enum clause *)

Section EnumClause.
Import regexp parser.

Lemma index_from_dots s : forall i,
  strings.index_from s "." i = hd (-1) (dotsFrom s i).
Proof.
  induction s as [|c s IH]; intros i;
    cbn [strings.index_from strings.HasPrefix dotsFrom]; [reflexivity|].
  replace (strings.HasPrefix s "") with true by (destruct s; reflexivity).
  rewrite andb_true_r.
  destruct (Ascii.eqb "." c); [reflexivity|]. apply IH.
Qed.

Lemma dotsFrom_bounds s : forall i,
  Forall (fun d => i <= d < i + strings.len s) (dotsFrom s i).
Proof.
  unfold strings.len.
  induction s as [|c s IH]; intros i; cbn [dotsFrom]; [constructor|].
  assert (T : Forall (fun d => i <= d < i + Z.of_nat (String.length (String c s)))
                     (dotsFrom s (i + 1))).
  { eapply Forall_impl; [|apply IH]. cbn [String.length]. intros d H. cbv beta in H. lia. }
  destruct (Ascii.eqb "." c); [|exact T].
  constructor; [cbn [String.length]; lia|exact T].
Qed.

Lemma dotsFrom_sorted s : forall i, StronglySorted Z.lt (dotsFrom s i).
Proof.
  induction s as [|c s IH]; intros i; cbn [dotsFrom]; [constructor|].
  destruct (Ascii.eqb "." c); [|apply IH].
  constructor; [apply IH|].
  eapply Forall_impl; [|apply dotsFrom_bounds]. intros d H. cbv beta in H. lia.
Qed.

Lemma dotsFrom_shift s : forall i a,
  dotsFrom s (i + a) = map (fun d => d + a) (dotsFrom s i).
Proof.
  induction s as [|c s IH]; intros i a; cbn [dotsFrom map]; [reflexivity|].
  replace (i + a + 1) with (i + 1 + a) by lia. rewrite IH.
  destruct (Ascii.eqb "." c); reflexivity.
Qed.

Lemma filter_all {A : Type} (f : A -> bool) (l : list A) :
  Forall (fun a => f a = true) l -> filter f l = l.
Proof.
  induction 1 as [|a l Ha _ IH]; cbn; [reflexivity|]. rewrite Ha, IH. reflexivity.
Qed.

Lemma filter_none {A : Type} (f : A -> bool) (l : list A) :
  Forall (fun a => f a = false) l -> filter f l = [].
Proof.
  induction 1 as [|a l Ha _ IH]; cbn; [reflexivity|]. rewrite Ha, IH. reflexivity.
Qed.

Lemma dotsFrom_drop n : forall s i,
  (n <= String.length s)%nat ->
  dotsFrom (strings.drop n s) (i + Z.of_nat n)
  = filter (fun d => i + Z.of_nat n <=? d) (dotsFrom s i).
Proof.
  induction n as [|n IH]; intros s i H.
  - cbn [strings.drop Z.of_nat]. rewrite Z.add_0_r. symmetry. apply filter_all.
    eapply Forall_impl; [|apply dotsFrom_bounds]. intros d Hd. cbv beta in Hd.
    apply Z.leb_le. lia.
  - destruct s as [|c s]; [cbn in H; lia|].
    cbn [strings.drop dotsFrom].
    replace (i + Z.of_nat (S n)) with (i + 1 + Z.of_nat n) by lia.
    rewrite IH by (cbn in H; lia).
    destruct (Ascii.eqb "." c); [|reflexivity].
    cbn [filter]. replace (i + 1 + Z.of_nat n <=? i) with false; [reflexivity|].
    symmetry. apply Z.leb_gt. lia.
Qed.

Lemma hd_filter_cases {A : Type} (f : A -> bool) (l : list A) (d0 : A) :
  (filter f l = [] /\ hd d0 (filter f l) = d0) \/
  (In (hd d0 (filter f l)) l /\ f (hd d0 (filter f l)) = true).
Proof.
  destruct (filter f l) as [|x l'] eqn:E; [left; split; reflexivity|].
  right. cbn [hd]. apply filter_In. rewrite E. left. reflexivity.
Qed.

Lemma hd_filter_least (f : Z -> bool) (l : list Z) (d0 d : Z) :
  StronglySorted Z.lt l -> In d l -> f d = true -> hd d0 (filter f l) <= d.
Proof.
  induction 1 as [|x l S IH F]; intros I Fd; [contradiction|].
  cbn [filter]. destruct (f x) eqn:Fx.
  - cbn [hd]. destruct I as [I|I]; [lia|].
    rewrite Forall_forall in F. specialize (F d I). lia.
  - destruct I as [I|I]; [congruence|]. apply IH; assumption.
Qed.

Lemma hd_filter_first (P : Z -> bool) (l : list Z) (d0 p : Z) :
  StronglySorted Z.lt l -> In p l -> P p = true ->
  hd d0 (filter (fun d => (p <=? d) && P d) l) = p.
Proof.
  intros S I Pp.
  assert (Fp : (fun d => (p <=? d) && P d) p = true)
    by (cbv beta; rewrite Z.leb_refl, Pp; reflexivity).
  pose proof (hd_filter_least _ l d0 p S I Fp) as Le.
  destruct (hd_filter_cases (fun d => (p <=? d) && P d) l d0) as [[E _]|[_ F]].
  - assert (In p (filter (fun d => (p <=? d) && P d) l)) by (apply filter_In; auto).
    rewrite E in H. contradiction.
  - cbv beta in F. apply andb_true_iff in F. destruct F as [F _].
    apply Z.leb_le in F. lia.
Qed.

Section Loop.
Variable subStr : string.

Lemma dot_bounds d : In d (dotsFrom subStr 0) -> 0 <= d < strings.len subStr.
Proof.
  intros I. pose proof (dotsFrom_bounds subStr 0) as F.
  rewrite Forall_forall in F. specialize (F d I). lia.
Qed.

Lemma nextDot_ge a : a <= strings.len subStr -> a <= nextDot subStr a.
Proof.
  intros H. unfold nextDot.
  destruct (hd_filter_cases (fun d => a <=? d) (dotsFrom subStr 0) (strings.len subStr))
    as [[_ E]|[_ F]]; [lia|]. cbv beta in F. apply Z.leb_le in F. exact F.
Qed.

Lemma nextDot_dotOrEnd a : dotOrEnd subStr (nextDot subStr a).
Proof.
  unfold nextDot, dotOrEnd.
  destruct (hd_filter_cases (fun d => a <=? d) (dotsFrom subStr 0) (strings.len subStr))
    as [[_ E]|[I _]]; auto.
Qed.

Lemma nextDot_le a d : In d (dotsFrom subStr 0) -> a <= d -> nextDot subStr a <= d.
Proof.
  intros I H. apply hd_filter_least; [apply dotsFrom_sorted|exact I|].
  apply Z.leb_le. exact H.
Qed.

Lemma clauseEnd_ge spans p : p <= strings.len subStr -> p <= clauseEnd subStr spans p.
Proof.
  intros H. unfold clauseEnd.
  destruct (hd_filter_cases (fun d => (p <=? d) && outside spans d) (dotsFrom subStr 0)
                            (strings.len subStr)) as [[_ E]|[_ F]]; [lia|].
  cbv beta in F. apply andb_true_iff in F. destruct F as [F _]. apply Z.leb_le in F. exact F.
Qed.

Lemma clauseEnd_self spans p :
  In p (dotsFrom subStr 0) -> outside spans p = true -> clauseEnd subStr spans p = p.
Proof. intros I O. apply hd_filter_first; [apply dotsFrom_sorted|exact I|exact O]. Qed.

Lemma clauseEnd_at_end spans : clauseEnd subStr spans (strings.len subStr) = strings.len subStr.
Proof.
  unfold clauseEnd. rewrite filter_none; [reflexivity|].
  apply Forall_forall. intros d I. apply dot_bounds in I.
  replace (strings.len subStr <=? d) with false; [reflexivity|].
  symmetry. apply Z.leb_gt. lia.
Qed.

Lemma slice_from_ok e :
  0 <= e <= strings.len subStr ->
  strings.slice_from subStr e = Ok (strings.drop (Z.to_nat e) subStr).
Proof.
  intros H. unfold strings.slice_from, strings.slice.
  replace ((0 <=? e) && (e <=? strings.len subStr) && (strings.len subStr <=? strings.len subStr))
    with true by (symmetry; rewrite !andb_true_iff, !Z.leb_le; lia).
  f_equal. remember (strings.drop (Z.to_nat e) subStr) as t.
  assert (String.length t = Z.to_nat (strings.len subStr - e)).
  { subst t. unfold strings.len in *. rewrite drop_length by lia. lia. }
  rewrite <- H0. clear. induction t as [|c t IH]; cbn; [reflexivity|]. rewrite IH. reflexivity.
Qed.

Lemma slice_ok sp :
  0 <= fst sp -> fst sp <= snd sp -> snd sp <= strings.len subStr ->
  strings.slice subStr (fst sp) (snd sp) = Ok (substr subStr (Some sp)).
Proof.
  intros A B C. destruct sp as [lo hi]. cbn [fst snd] in *. unfold strings.slice.
  replace ((0 <=? lo) && (lo <=? hi) && (hi <=? strings.len subStr))
    with true by (symmetry; rewrite !andb_true_iff, !Z.leb_le; lia).
  reflexivity.
Qed.

(** The search for the next period after the span that ends at [e]. *)
Lemma resume_after_span e :
  0 <= e <= strings.len subStr ->
  (let newPointEnd := strings.Index (strings.drop (Z.to_nat e) subStr) "." in
   if 0 <=? newPointEnd then e + newPointEnd else strings.len subStr) = nextDot subStr e.
Proof.
  intros H. cbv zeta. unfold strings.Index. rewrite index_from_dots.
  assert (K : dotsFrom (strings.drop (Z.to_nat e) subStr) 0
              = map (fun d => d + - e) (filter (fun d => e <=? d) (dotsFrom subStr 0))).
  { transitivity (dotsFrom (strings.drop (Z.to_nat e) subStr) (e + - e)); [f_equal; lia|].
    rewrite dotsFrom_shift. f_equal.
    pose proof (dotsFrom_drop (Z.to_nat e) subStr 0) as Dr.
    rewrite Z2Nat.id in Dr by lia. cbn [Z.add] in Dr. apply Dr.
    unfold strings.len in H. lia. }
  rewrite K. unfold nextDot.
  destruct (hd_filter_cases (fun d => e <=? d) (dotsFrom subStr 0) (strings.len subStr))
    as [[E1 E2]|[I F]].
  - rewrite E1. reflexivity.
  - destruct (filter (fun d => e <=? d) (dotsFrom subStr 0)) as [|x l];
      [cbn [hd] in I; apply dot_bounds in I; lia|].
    cbn [hd map] in *. cbv beta in F. apply Z.leb_le in F.
    replace (0 <=? x + - e) with true by (symmetry; apply Z.leb_le; lia). lia.
Qed.

Lemma first_period :
  (let pointEnd := strings.Index subStr "." in
   if pointEnd <? 0 then strings.len subStr else pointEnd) = nextDot subStr 0.
Proof.
  cbv zeta. unfold strings.Index, nextDot. rewrite index_from_dots.
  rewrite filter_all.
  - destruct (dotsFrom subStr 0) as [|x l] eqn:E; [reflexivity|].
    cbn [hd]. assert (I : In x (dotsFrom subStr 0)) by (rewrite E; left; reflexivity).
    apply dot_bounds in I. replace (x <? 0) with false; [reflexivity|].
    symmetry. apply Z.ltb_ge. lia.
  - apply Forall_forall. intros d I. apply dot_bounds in I. apply Z.leb_le. lia.
Qed.

Lemma spansFrom_starts lo spans :
  spansFrom lo (strings.len subStr) spans -> Forall (fun sp => lo <= fst sp) spans.
Proof.
  revert lo. induction spans as [|[s e] spans IH]; intros lo H; [constructor|].
  cbn in H. destruct H as (A & B & C & R). constructor; [exact A|].
  eapply Forall_impl; [|apply (IH e R)]. intros sp Hs. cbv beta in Hs. lia.
Qed.

Lemma outside_later p spans lo :
  spansFrom lo (strings.len subStr) spans -> p <= lo -> outside spans p = true.
Proof.
  intros H Hp. apply spansFrom_starts in H. unfold outside. apply forallb_forall.
  intros sp I. rewrite Forall_forall in H. specialize (H sp I).
  unfold inside. apply negb_true_iff. apply andb_false_iff. left. apply Z.ltb_ge. lia.
Qed.

End Loop.

Lemma nextDot_le_len subStr a : nextDot subStr a <= strings.len subStr.
Proof.
  destruct (nextDot_dotOrEnd subStr a) as [I|E]; [apply dot_bounds in I|]; lia.
Qed.

Lemma dotOrEnd_le subStr p : dotOrEnd subStr p -> p <= strings.len subStr.
Proof. intros [I|E]; [apply dot_bounds in I|]; lia. Qed.

(** A period inside the span: the clause ends where it ends when the
    search resumes after the span. *)
Lemma clauseEnd_inside subStr s e spans p :
  s < p -> p < e -> e <= strings.len subStr ->
  clauseEnd subStr ((s, e) :: spans) p = clauseEnd subStr spans (nextDot subStr e).
Proof.
  intros A B C. unfold clauseEnd. f_equal. apply filter_ext_in. intros d I.
  cbn [outside forallb]. fold (outside spans d). unfold inside. cbn [fst snd].
  pose proof (nextDot_ge subStr e C) as G.
  pose proof (nextDot_le subStr e d I) as M.
  destruct (outside spans d); rewrite ?andb_true_r, ?andb_false_r; [|reflexivity].
  destruct (Z.leb_spec p d), (Z.ltb_spec s d), (Z.ltb_spec d e),
           (Z.leb_spec (nextDot subStr e) d); cbn; try reflexivity; lia.
Qed.

(** A period that is not inside the span stays the candidate. *)
Lemma clauseEnd_skip subStr s e spans p :
  (s <? p) && (p <? e) = false -> s <= p -> s <= e ->
  spansFrom e (strings.len subStr) spans -> dotOrEnd subStr p ->
  clauseEnd subStr ((s, e) :: spans) p = clauseEnd subStr spans p.
Proof.
  intros NI A B R HP.
  assert (C : e <= strings.len subStr) by (destruct spans as [|[? ?] ?]; cbn in R; lia).
  destruct (Z.le_gt_cases e p) as [Hep|Hpe].
  - unfold clauseEnd. f_equal. apply filter_ext_in. intros d I.
    cbn [outside forallb]. fold (outside spans d). unfold inside. cbn [fst snd].
    destruct (Z.leb_spec p d), (Z.ltb_spec s d), (Z.ltb_spec d e);
      cbn; try reflexivity; lia.
  - assert (p = s).
    { apply andb_false_iff in NI. destruct NI as [NI|NI];
        [apply Z.ltb_ge in NI|apply Z.ltb_ge in NI]; lia. }
    subst p. destruct HP as [I|E]; [|lia].
    rewrite !clauseEnd_self; try assumption; [reflexivity| |].
    + eapply outside_later; [exact R|lia].
    + cbn [outside forallb]. unfold inside at 1. cbn [fst snd].
      rewrite Z.ltb_irrefl. cbn. eapply outside_later; [exact R|lia].
Qed.

(** The loop of [extractPossibleValues] keeps the code spans that start
    before the end of the clause. *)
Lemma enumLoop_spec subStr sepIdx : forall spans lo p enums field,
  0 <= lo ->
  spansFrom lo (strings.len subStr) spans ->
  dotOrEnd subStr p ->
  exists field',
    enumLoop subStr sepIdx spans p enums field
    = Ok ((enums ++ map (spanValue subStr)
                        (filter (fun sp => fst sp <=? clauseEnd subStr spans p) spans))%list,
          field').
Proof.
  induction spans as [|[s e] spans IH]; intros lo p enums field Hlo HS HP.
  - cbn. rewrite app_nil_r. eexists. reflexivity.
  - cbn [spansFrom] in HS. destruct HS as (A & B & C & R). cbn [enumLoop].
    pose proof (dotOrEnd_le _ _ HP) as PL.
    destruct ((s <? p) && (p <? e)) eqn:NI.
    + apply andb_true_iff in NI. destruct NI as [N1 N2].
      apply Z.ltb_lt in N1. apply Z.ltb_lt in N2.
      rewrite slice_from_ok by lia. cbn [bind].
      pose proof (resume_after_span subStr e ltac:(lia)) as RS. cbv zeta in RS. rewrite RS.
      pose proof (nextDot_ge subStr e C) as G.
      replace (nextDot subStr e <? s) with false by (symmetry; apply Z.ltb_ge; lia).
      pose proof (slice_ok subStr (s, e)) as SO. cbn [fst snd] in SO.
      rewrite SO by lia. cbn [bind].
      destruct (IH e (nextDot subStr e) (enums ++ [strings.Trim (substr subStr (Some (s, e))) trimSet])%list
                   (set_EnumEnd (sepIdx + e) field)) as [f' E];
        [lia|exact R|apply nextDot_dotOrEnd|].
      rewrite E. exists f'. f_equal. f_equal.
      rewrite (clauseEnd_inside subStr s e spans p N1 N2 C).
      cbn [filter fst].
      pose proof (clauseEnd_ge subStr spans (nextDot subStr e) (nextDot_le_len _ _)) as CG.
      replace (s <=? clauseEnd subStr spans (nextDot subStr e)) with true
        by (symmetry; apply Z.leb_le; lia).
      cbn [map]. rewrite <- app_assoc. reflexivity.
    + cbn [bind]. destruct (p <? s) eqn:Br.
      * apply Z.ltb_lt in Br. exists field. f_equal. f_equal.
        assert (RS : spansFrom s (strings.len subStr) ((s, e) :: spans))
          by (cbn; repeat split; try lia; exact R).
        destruct HP as [I|E]; [|lia].
        rewrite (clauseEnd_self subStr _ p I)
          by (eapply outside_later; [exact RS|lia]).
        rewrite filter_none; [cbn; rewrite app_nil_r; reflexivity|].
        pose proof (spansFrom_starts subStr s _ RS) as F.
        eapply Forall_impl; [|exact F]. intros sp Hs. cbv beta in *.
        apply Z.leb_gt. lia.
      * apply Z.ltb_ge in Br.
        pose proof (slice_ok subStr (s, e)) as SO. cbn [fst snd] in SO.
        rewrite SO by lia. cbn [bind].
        destruct (IH e p (enums ++ [strings.Trim (substr subStr (Some (s, e))) trimSet])%list
                     (set_EnumEnd (sepIdx + e) field)) as [f' E];
          [lia|exact R|exact HP|].
        rewrite E. exists f'. f_equal. f_equal.
        rewrite (clauseEnd_skip subStr s e spans p NI Br B R HP).
        cbn [filter fst].
        pose proof (clauseEnd_ge subStr spans p PL) as CG.
        replace (s <=? clauseEnd subStr spans p) with true
          by (symmetry; apply Z.leb_le; lia).
        cbn [map]. rewrite <- app_assoc. reflexivity.
Qed.

Lemma clauseEnd_terminator subStr spans :
  clauseEnd subStr spans (nextDot subStr 0) = terminator subStr spans.
Proof.
  unfold clauseEnd, terminator. f_equal. apply filter_ext_in. intros d I.
  pose proof (dot_bounds subStr d I) as Bd.
  pose proof (nextDot_le subStr 0 d I ltac:(lia)) as M.
  replace (nextDot subStr 0 <=? d) with true by (symmetry; apply Z.leb_le; lia).
  reflexivity.
Qed.

(** What a trigger phrase after the start of the line extracts. *)
Lemma extractPossibleValues_spec line field :
  0 < possibleValueSep line -> possibleValueSep line < strings.len line ->
  let subStr := strings.drop (Z.to_nat (possibleValueSep line)) line in
  let spans := FindAllStringIndex codeReg subStr in
  exists field',
    extractPossibleValues line field
    = Ok (map (spanValue subStr)
              (filter (fun sp => fst sp <=? terminator subStr spans) spans), field').
Proof.
  intros H0 H1 subStr spans. unfold extractPossibleValues.
  replace (possibleValueSep line <=? 0) with false by (symmetry; apply Z.leb_gt; lia).
  rewrite slice_from_ok by lia. cbn [bind]. fold subStr.
  pose proof (first_period subStr) as FP. cbv zeta in FP. rewrite FP.
  fold spans.
  destruct (enumLoop_spec subStr (possibleValueSep line) spans 0 (nextDot subStr 0) []
                          (set_EnumStart (possibleValueSep line) field)) as [f' E];
    [lia|apply FindAllStringIndex_spans|apply nextDot_dotOrEnd|].
  rewrite E. cbn [bind app]. rewrite clauseEnd_terminator.
  rewrite slice_from_ok by lia. cbn [bind].
  destruct (0 <=? possibleValueSep _); eexists; reflexivity.
Qed.

(** The values of a clause: the code spans that start before the first
    period lying in no code span. *)
Lemma clauseValues_spec subStr sepIdx field :
  exists field',
    clauseValues subStr sepIdx field
    = Ok (map (spanValue subStr)
              (filter (fun sp => fst sp <=? terminator subStr (FindAllStringIndex codeReg subStr))
                      (FindAllStringIndex codeReg subStr)), field').
Proof.
  unfold clauseValues.
  pose proof (first_period subStr) as FP. cbv zeta in FP. rewrite FP.
  destruct (enumLoop_spec subStr sepIdx (FindAllStringIndex codeReg subStr) 0
                          (nextDot subStr 0) [] field) as [f' E];
    [lia|apply FindAllStringIndex_spans|apply nextDot_dotOrEnd|].
  rewrite E. cbn [app]. rewrite clauseEnd_terminator. exists f'. reflexivity.
Qed.

(** C6. For every enum clause, the text from the trigger phrase on, the
    values extracted are the code spans that start before the first period
    lying in no code span (before the end of the clause when there is no
    such period): a period inside a quoted token never ends the scan. On
    the clause with the versions the result is exactly the three versions,
    in their order, and so it is on a field line that ends with this
    clause. [extractPossibleValues] applies this to the text of the line
    from the offset of the trigger phrase on. *)
Theorem enum_clause_ends_outside_code_spans :
  (forall subStr sepIdx field,
      exists field',
        clauseValues subStr sepIdx field
        = Ok (map (spanValue subStr)
                  (filter (fun sp => fst sp
                                     <=? terminator subStr (FindAllStringIndex codeReg subStr))
                          (FindAllStringIndex codeReg subStr)), field')) /\
  (forall sepIdx field,
      exists field',
        clauseValues "Possible values are `7.1`, `7.2` and `8.0`." sepIdx field
        = Ok (["7.1"; "7.2"; "8.0"], field')) /\
  (forall line field,
      extractPossibleValues line field
      = if possibleValueSep line <=? 0 then Ok ([], field)
        else
          subStr <- strings.slice_from line (possibleValueSep line) ;;
          '(enums, field) <- clauseValues subStr (possibleValueSep line)
                                          (set_EnumStart (possibleValueSep line) field) ;;
          after <- strings.slice_from line (possibleValueSep line + 1) ;;
          if 0 <=? possibleValueSep after
          then Ok (enums, add_ParseError multipleSections field)
          else Ok (enums, field)) /\
  (exists f, ExtractFieldFromLine versionsLine types.PosArgs 1 = Ok f /\
             PossibleValues f = ["7.1"; "7.2"; "8.0"]).
Proof.
  split; [exact clauseValues_spec|]. split; [|split].
  - intros sepIdx field.
    destruct (clauseValues_spec "Possible values are `7.1`, `7.2` and `8.0`." sepIdx field)
      as [field' E].
    exists field'. rewrite E. f_equal.
  - intros line field. reflexivity.
  - eexists. split; [vm_compute; reflexivity|reflexivity].
Qed.

End EnumClause.

(** * Where the extraction cannot panic *)

Section Totality.
Import regexp types parser.

Lemma exec_Cat a b pos rest caps k :
  exec (Cat a b) pos rest caps k
  = exec a pos rest caps (fun pos' rest' caps' => exec b pos' rest' caps' k).
Proof. reflexivity. Qed.

Lemma exec_Cap n a pos rest caps k :
  exec (Cap n a) pos rest caps k
  = exec a pos rest caps (fun pos' rest' caps' => k pos' rest' (set_cap n (pos, pos') caps')).
Proof. reflexivity. Qed.

Lemma nth_1_set_caps v w caps : nth 1 (set_cap 0 v (set_cap 1 w caps)) None = Some w.
Proof. destruct caps as [|c [|c' caps]]; reflexivity. Qed.

(** A match of the block type pattern has its group. *)
Lemma search_blockTypeReg : forall rest pos caps,
  search blockTypeReg pos rest = Some caps ->
  exists lo hi, nth 1 caps None = Some (lo, hi) /\
                pos <= lo /\ lo <= hi /\ hi <= pos + strings.len rest.
Proof.
  assert (At : forall rest pos caps0 c,
             exec blockTypeReg pos rest caps0
                  (fun pos' _ caps => Some (set_cap 0 (pos, pos') caps)) = Some c ->
             exists lo hi, nth 1 c None = Some (lo, hi) /\
                           pos <= lo /\ lo <= hi /\ hi <= pos + strings.len rest).
  { intros rest pos caps0 c E.
    change blockTypeReg with (Cat (Lit "`") (Cat (Cap 1 (Plus word)) (Lit "`"))) in E.
    rewrite exec_Cat in E. apply exec_advancing in E.
    destruct E as (p1 & r1 & c1 & (n1 & L1 & -> & ->) & E).
    rewrite exec_Cat, exec_Cap in E. apply exec_advancing in E.
    destruct E as (p2 & r2 & c2 & (n2 & L2 & -> & ->) & E).
    cbn [exec] in E. destruct (strings.HasPrefix _ "`") eqn:HP; [|discriminate].
    inversion E; subst. eexists _, _. split; [apply nth_1_set_caps|].
    rewrite drop_length in L2 by exact L1. unfold strings.len. lia. }
  induction rest as [|ch rest IH]; intros pos caps E; cbn [search] in E.
  - destruct (exec blockTypeReg pos EmptyString _ _) eqn:E1; [|discriminate].
    inversion E; subst. eapply At. exact E1.
  - destruct (exec blockTypeReg pos (String ch rest) _ _) eqn:E1.
    + inversion E; subst. eapply At. exact E1.
    + apply IH in E. destruct E as (lo & hi & N & A & B & C).
      exists lo, hi. split; [exact N|]. unfold strings.len in *. cbn [String.length]. lia.
Qed.

(** Every match [find_all] reports is the result of a search within the
    text. *)
Lemma find_all_searches r : forall fuel pos rest prevEnd caps,
  In caps (find_all fuel r pos rest prevEnd) ->
  exists pos' rest',
    pos <= pos' /\ pos' + strings.len rest' = pos + strings.len rest /\
    search r pos' rest' = Some caps.
Proof.
  induction fuel as [|fuel IH]; intros pos rest prevEnd caps I; cbn [find_all] in I;
    [contradiction|].
  destruct (search r pos rest) as [caps0|] eqn:E; [|contradiction].
  destruct (search_bounds _ _ _ _ E) as (lo & hi & N & A & B & C). rewrite N in I.
  assert (Here : exists pos' rest',
             pos <= pos' /\ pos' + strings.len rest' = pos + strings.len rest /\
             search r pos' rest' = Some caps0)
    by (exists pos, rest; repeat split; [lia|exact E]).
  destruct (hi =? pos) eqn:HP.
  - assert (More : In caps match rest with
                           | EmptyString => []
                           | String _ rest' => find_all fuel r (pos + 1) rest' hi
                           end ->
                   exists pos' rest',
                     pos <= pos' /\ pos' + strings.len rest' = pos + strings.len rest /\
                     search r pos' rest' = Some caps).
    { destruct rest as [|ch rest]; [contradiction|]. intros I'.
      apply IH in I'. destruct I' as (p' & r' & A' & B' & E').
      exists p', r'. unfold strings.len in *. cbn [String.length]. repeat split; [lia|lia|exact E']. }
    destruct (lo =? prevEnd); [exact (More I)|].
    destruct I as [I|I]; [subst; exact Here|exact (More I)].
  - apply Z.eqb_neq in HP. destruct I as [I|I]; [subst; exact Here|].
    apply IH in I. destruct I as (p' & r' & A' & B' & E').
    exists p', r'. unfold strings.len in *. rewrite drop_length in B' by lia.
    repeat split; [lia|lia|exact E'].
Qed.

Lemma index_from_bound sep : forall s i,
  strings.index_from s sep i = -1 \/
  (i <= strings.index_from s sep i /\
   strings.index_from s sep i + strings.len sep <= i + strings.len s).
Proof.
  induction s as [|c s IH]; intros i; unfold strings.index_from; fold strings.index_from.
  - destruct (strings.HasPrefix EmptyString sep) eqn:HP; [|left; reflexivity].
    right. apply HasPrefix_length in HP. unfold strings.len. lia.
  - destruct (strings.HasPrefix (String c s) sep) eqn:HP.
    + right. apply HasPrefix_length in HP. unfold strings.len. lia.
    + destruct (IH (i + 1)) as [E|[A B]]; [left; exact E|right].
      unfold strings.len in *. cbn [String.length]. lia.
Qed.

Lemma firstPhrase_bound lower seps :
  Forall (fun sep => 1 <= strings.len sep) seps ->
  firstPhrase lower seps < strings.len lower \/ firstPhrase lower seps <= 0.
Proof.
  induction 1 as [|sep seps Hs _ IH]; cbn [firstPhrase]; [right; lia|].
  destruct (0 <=? strings.Index lower sep) eqn:E; [|exact IH].
  unfold strings.Index in *. apply Z.leb_le in E.
  destruct (index_from_bound sep lower 0) as [N|[A B]]; lia.
Qed.

Lemma lowerASCII_length s : String.length (strings.lowerASCII s) = String.length s.
Proof. induction s as [|c s IH]; cbn; [reflexivity|]. rewrite IH. reflexivity. Qed.

Lemma ToLower_ASCII_length line :
  strings.isASCII line = true ->
  strings.len (strings.ToLower line) = strings.len line.
Proof.
  intros H. unfold strings.ToLower, strings.len. rewrite H, lowerASCII_length. reflexivity.
Qed.

Lemma extractBlockTypeName_returns line fieldName :
  strings.len (strings.ToLower line) <= strings.len line ->
  exists typeName, extractBlockTypeName line fieldName = Ok typeName.
Proof.
  intros H. unfold extractBlockTypeName.
  destruct (FindAllStringSubmatchIndex blockTypeReg (strings.ToLower line)) as [|m ms] eqn:E;
    [eexists; reflexivity|].
  assert (I : In m (FindAllStringSubmatchIndex blockTypeReg (strings.ToLower line)))
    by (rewrite E; left; reflexivity).
  apply find_all_searches in I. destruct I as (p' & r' & A & B & S).
  apply search_blockTypeReg in S. destruct S as (lo & hi & N & C1 & C2 & C3).
  rewrite N. pose proof (slice_ok line (lo, hi)) as SO. cbn [fst snd] in SO.
  rewrite SO by lia. eexists. reflexivity.
Qed.

Lemma extractPossibleValues_returns line field :
  strings.len (strings.ToLower line) <= strings.len line ->
  exists enums field', extractPossibleValues line field = Ok (enums, field').
Proof.
  intros H.
  destruct (Z.leb_spec (possibleValueSep line) 0) as [Le|Gt].
  - unfold extractPossibleValues. replace (possibleValueSep line <=? 0) with true
      by (symmetry; apply Z.leb_le; exact Le).
    eexists _, _. reflexivity.
  - assert (B : possibleValueSep line < strings.len line).
    { unfold possibleValueSep in *.
      destruct (firstPhrase_bound (strings.ToLower line) enumPhrases); [|lia|lia].
      repeat constructor; vm_compute; discriminate. }
    destruct (extractPossibleValues_spec line field Gt B) as [f' E].
    eexists _, f'. exact E.
Qed.

(** The extraction returns on every line that lower-casing does not
    lengthen, in particular on every ASCII line. *)
Lemma ExtractFieldFromLine_returns line position lineNumber :
  strings.len (strings.ToLower line) <= strings.len line ->
  exists f, ExtractFieldFromLine line position lineNumber = Ok f.
Proof.
  intros H. unfold ExtractFieldFromLine. cbv zeta.
  destruct (_ && String.eqb (Name _) ""); [eexists; reflexivity|].
  match goal with
  | |- exists f, bind ?c ?k = Ok f =>
    assert (C : exists g, c = Ok g)
  end.
  { destruct (3 <? len _); [|eexists; reflexivity].
    match goal with
    | |- context [extractPossibleValues line ?f0] =>
      destruct (extractPossibleValues_returns line f0 H) as (enums & f' & E)
    end.
    rewrite E. cbn [bind]. destruct (_ && _); eexists; reflexivity. }
  destruct C as [g C]. rewrite C. cbn [bind].
  destruct (guessBlockProperty line); [|eexists; reflexivity].
  destruct (extractBlockTypeName_returns line (Name g) H) as [t E].
  rewrite E. cbn [bind]. eexists. reflexivity.
Qed.

Lemma ExtractFieldFromLine_returns_ASCII line position lineNumber :
  strings.isASCII line = true ->
  exists f, ExtractFieldFromLine line position lineNumber = Ok f.
Proof.
  intros H. apply ExtractFieldFromLine_returns.
  rewrite (ToLower_ASCII_length line H). lia.
Qed.

End Totality.

(** * Whole sections *)

Section Documents.
Import types data.

(** The scan of a section lists [identity] once for the field and once for
    the block definition; the map keeps the later of the two, without a
    mark on either. *)
Lemma ParseFields_lists_name_twice :
  exists parsed,
    markdown.ParseFields refsThenDef = Ok parsed /\
    Names parsed = ["name"; "identity"; "identity"] /\
    gomap.keys (Objects parsed) = ["name"; "identity"] /\
    (forall p, gomap.get (Objects parsed) "identity" = Some p ->
               parser.ParseErrors (parser.Field p) = []).
Proof.
  eexists. split; [vm_compute; reflexivity|].
  split; [reflexivity|]. split; [reflexivity|].
  intros p H. vm_compute in H. injection H as <-. reflexivity.
Qed.

(** C8. The two sections hold the same lines, the block definition after
    the field that refers to it in one and before it in the other. After
    the scan, the conversion and the linking pass the trees differ: with
    the definition after the field the root entry [identity] is the
    definition; with the definition first it is the field, whose list of
    nested entries is empty, and no definition is left to link it to. *)
Theorem document_order_decides_entry :
  forall fuel,
    (exists t, linkedDocument (S (S fuel)) refsThenDef = Ok (Some t) /\
               nestedNames t "identity" = Some ["type"] /\
               entryLine t "identity" = Some 5) /\
    (exists t, linkedDocument (S (S fuel)) defThenRefs = Ok (Some t) /\
               nestedNames t "identity" = Some [] /\
               entryLine t "identity" = Some 7).
Proof.
  intro fuel. split; eexists; (split; [cbv; reflexivity|split; reflexivity]).
Qed.

End Documents.

(** * Positions and requirement flags *)

Section TypesFacts.
Import types.

(** X1. [PositionType.String] returns exactly for the values from zero
    on and panics on a negative one; the seven constants have seven names
    of their own, and "Unknown" stands for the other values from six on. *)
Theorem PositionType_String_panics_below_zero :
  (forall p, returned (PositionType_String p) = (0 <=? p)) /\
  map (fun p => PositionType_String (code p)) allPositions
  = map Ok ["Default"; "Example"; "Args"; "Attr"; "Timeout"; "Import"; "Other"] /\
  (forall p, PositionType_String p = Ok "Unknown" <-> (6 <= p /\ p <> 100)).
Proof.
  split; [|split; [reflexivity|]].
  - intros p. unfold PositionType_String. cbn [code List.length positionNames].
    destruct (p =? 100) eqn:E; [apply Z.eqb_eq in E; subst; reflexivity|].
    destruct (p <? Z.of_nat 6) eqn:L.
    + destruct (0 <=? p); reflexivity.
    + cbn. symmetry. apply Z.leb_le. apply Z.ltb_ge in L. lia.
  - intros p. unfold PositionType_String. cbn [code List.length positionNames].
    destruct (p =? 100) eqn:E.
    { apply Z.eqb_eq in E. subst. split; [discriminate|lia]. }
    apply Z.eqb_neq in E.
    destruct (p <? Z.of_nat 6) eqn:L.
    + apply Z.ltb_lt in L. destruct (0 <=? p) eqn:N.
      * apply Z.leb_le in N. split; [|lia].
        assert (C : p = 0 \/ p = 1 \/ p = 2 \/ p = 3 \/ p = 4 \/ p = 5) by lia.
        destruct C as [->|[->|[->|[->|[->| ->]]]]]; discriminate.
      * split; [discriminate|lia].
    + apply Z.ltb_ge in L. split; [intros _; lia|reflexivity].
Qed.

Lemma land_flag_other a b :
  flag a = true -> flag b = true -> Z.land a b = (if a =? b then a else 0).
Proof.
  unfold flag. intros A B.
  repeat match goal with
         | H : _ || _ = true |- _ => apply orb_true_iff in H; destruct H as [H|H]
         | H : (_ =? _) = true |- _ => apply Z.eqb_eq in H; subst
         end; reflexivity.
Qed.

(** X2. The requirement flags are independent bits: a status made of
    any of the three flags answers [IsRequired], [IsOptional] and
    [IsComputed] by whether the flag is among them. *)
Theorem RequiredType_flags_independent :
  forall flags,
    forallb flag flags = true ->
    IsRequired (statusOf flags) = existsb (Z.eqb RequiredRequired) flags /\
    IsOptional (statusOf flags) = existsb (Z.eqb RequiredOptional) flags /\
    IsComputed (statusOf flags) = existsb (Z.eqb RequiredComputed) flags.
Proof.
  assert (G : forall q flags, flag q = true -> forallb flag flags = true ->
              negb (Z.land (statusOf flags) q =? 0) = existsb (Z.eqb q) flags).
  { intros q flags Q. induction flags as [|a flags IH]; intros F; [reflexivity|].
    cbn in F. apply andb_true_iff in F. destruct F as [A F].
    cbn [statusOf fold_right existsb]. fold (statusOf flags).
    rewrite Z.land_lor_distr_l. specialize (IH F).
    rewrite (land_flag_other a q A Q).
    rewrite (Z.eqb_sym q a).
    destruct (a =? q) eqn:E.
    - apply Z.eqb_eq in E. subst a. cbn [orb].
      destruct (Z.lor q (Z.land (statusOf flags) q) =? 0) eqn:Z0; [|reflexivity].
      apply Z.eqb_eq in Z0. apply Z.lor_eq_0_iff in Z0. destruct Z0 as [Z0 _].
      unfold flag in Q. subst q. discriminate Q.
    - cbn [orb]. rewrite Z.lor_0_l. exact IH. }
  intros flags F. repeat split; apply G; try exact F; reflexivity.
Qed.

Lemma RequiredType_flags_independent_witness :
  IsRequired (statusOf [RequiredRequired; RequiredComputed]) = true /\
  IsOptional (statusOf [RequiredRequired; RequiredComputed]) = false /\
  IsComputed (statusOf [RequiredRequired; RequiredComputed]) = true.
Proof.
  exact (RequiredType_flags_independent [RequiredRequired; RequiredComputed] eq_refl).
Defined.
End TypesFacts.

(** * Enum values *)

Section EnumFacts.
Import parser.

Lemma existsb_eqb_In v l : existsb (String.eqb v) l = true <-> In v l.
Proof.
  rewrite existsb_exists. split.
  - intros (x & I & E). apply String.eqb_eq in E. subst. exact I.
  - intros I. exists v. split; [exact I|apply String.eqb_refl].
Qed.

Lemma existsb_app_one v seen t :
  existsb (String.eqb v) (seen ++ [t])%list = existsb (String.eqb v) seen || String.eqb v t.
Proof. rewrite existsb_app. cbn. rewrite orb_false_r. reflexivity. Qed.

Lemma filter_filter {A : Type} (f g : A -> bool) (l : list A) :
  filter f (filter g l) = filter (fun a => g a && f a) l.
Proof.
  induction l as [|a l IH]; cbn; [reflexivity|].
  destruct (g a); cbn; [destruct (f a)|]; rewrite ?IH; reflexivity.
Qed.

(** The loop shared by [AddEnum] and [SetGuessEnums], with the values
    already trimmed. *)
Lemma dedup_loop (ts : list string) : forall seen,
  fold_left (fun result t => if unseen result t then (result ++ [t])%list else result) ts seen
  = (seen ++ filter (unseen seen) (firstOccurrences ts))%list.
Proof.
  induction ts as [|t ts IH]; intros seen; cbn [fold_left firstOccurrences filter].
  - rewrite app_nil_r. reflexivity.
  - rewrite IH. destruct (unseen seen t) eqn:U.
    + rewrite <- app_assoc. cbn [app]. f_equal. f_equal.
      rewrite filter_filter. apply filter_ext. intros a.
      unfold unseen. rewrite existsb_app_one.
      destruct (String.eqb a ""), (existsb (String.eqb a) seen), (String.eqb a t);
        reflexivity.
    + f_equal. rewrite filter_filter. apply filter_ext_in. intros a I.
      destruct (String.eqb a t) eqn:E; cbn; [|reflexivity].
      apply String.eqb_eq in E. subst a. exact U.
Qed.
End EnumFacts.

Section FieldAnatomy.
Import regexp types parser.

Lemma sameButSpan_refl f : sameButSpan f f.
Proof. repeat split. Qed.

Lemma sameButSpan_trans f g h : sameButSpan f g -> sameButSpan g h -> sameButSpan f h.
Proof. unfold sameButSpan. intuition congruence. Qed.

Lemma enumLoop_span subStr sepIdx enumIndex :
  forall pointEnd enums field r f',
    enumLoop subStr sepIdx enumIndex pointEnd enums field = Ok (r, f') ->
    sameButSpan field f' /\ ParseErrors f' = ParseErrors field.
Proof.
  induction enumIndex as [|[start end_] rest IH]; intros pointEnd enums field r f' H.
  - cbn in H. inversion H; subst. split; [apply sameButSpan_refl|reflexivity].
  - cbn [enumLoop] in H. bind_ok H.
    destruct (a <? start).
    + inversion H; subst. split; [apply sameButSpan_refl|reflexivity].
    + bind_ok H. apply IH in H. destruct H as [S P]. split.
      * eapply sameButSpan_trans; [|exact S]. repeat split.
      * rewrite P. reflexivity.
Qed.

Lemma extractPossibleValues_span line field r f' :
  extractPossibleValues line field = Ok (r, f') ->
  sameButSpan field f' /\
  (ParseErrors f' = ParseErrors field \/
   ParseErrors f' = (ParseErrors field ++ [multipleSections])%list).
Proof.
  unfold extractPossibleValues. intros H.
  destruct (possibleValueSep line <=? 0).
  - inversion H; subst. split; [apply sameButSpan_refl|auto].
  - bind_ok H. bind_ok H. destruct a0 as [enums g]. bind_ok H.
    apply enumLoop_span in E0. destruct E0 as [S P]. cbn in P.
    assert (S' : sameButSpan field g).
    { eapply sameButSpan_trans; [|exact S]. repeat split. }
    destruct (0 <=? possibleValueSep a0); inversion H; subst.
    + split; [eapply sameButSpan_trans; [exact S'|repeat split]|].
      right. cbn. rewrite P. reflexivity.
    + split; [exact S'|left; exact P].
Qed.

Lemma FindStringSubmatch_len r s :
  len (FindStringSubmatch r s) = 0 \/ MatchString r s = true.
Proof.
  unfold FindStringSubmatch, MatchString.
  destruct (FindStringSubmatchIndex r s); [right|left]; reflexivity.
Qed.

Lemma ExtractFieldFromLine_anatomy line position n f :
  ExtractFieldFromLine line position n = Ok f ->
  let start := fieldStart line position n in
  let res := FindStringSubmatch fieldReg line in
  (fieldName line = "" /\ f = add_ParseError "no field name found" (set_Name "" start)) \/
  (fieldName line <> "" /\
   exists g enums f4,
     sameButSpan (if 2 <? len res then requiredStatus line (set_Name (fieldName line) start)
                  else set_Name (fieldName line) start) g /\
     (ParseErrors g = [] \/ ParseErrors g = [multipleSections]) /\
     (f4 = AddEnum g enums \/
      (PossibleValues (AddEnum g enums) = [] /\
       f4 = SetGuessEnums (AddEnum g enums) (FindAllString codeReg (nth 3 res "")))) /\
     ((guessBlockProperty line = false /\ f = f4) \/
      (guessBlockProperty line = true /\ exists typeName, f = set_Block typeName f4))).
Proof.
  unfold ExtractFieldFromLine. cbv zeta. fold (fieldStart line position n).
  set (start := fieldStart line position n).
  assert (P0 : ParseErrors start = []).
  { subst start. unfold fieldStart. destruct (String.eqb (getDefaultValue line) ""); reflexivity. }
  set (res := FindStringSubmatch fieldReg line).
  assert (N : (if (len res <=? 1) || String.eqb (nth 1 res "") ""
               then set_Name (FirstCodeValue line) start
               else set_Name (nth 1 res "") start) = set_Name (fieldName line) start).
  { unfold fieldName. fold res. destruct ((len res <=? 1) || String.eqb (nth 1 res "") "");
      reflexivity. }
  rewrite N. cbn [Name set_Name].
  destruct (String.eqb (fieldName line) "") eqn:EN.
  - apply String.eqb_eq in EN.
    destruct ((len res <=? 1) || String.eqb (nth 1 res "") "") eqn:C; cbn [andb].
    + intros H. inversion H; subst. left. rewrite EN. auto.
    + exfalso. unfold fieldName in EN. fold res in EN. rewrite C in EN.
      apply orb_false_iff in C. destruct C as [_ C]. apply String.eqb_neq in C. contradiction.
  - rewrite andb_false_r. apply String.eqb_neq in EN.
    set (f3 := if 2 <? len res then _ else _).
    assert (P3 : ParseErrors f3 = []).
    { subst f3. destruct (2 <? len res); [|exact P0].
      destruct (requiredStatus_keeps line (set_Name (fieldName line) start)) as (_ & P & _).
      rewrite P. exact P0. }
    clearbody f3.
    intros H. bind_ok H. right. split; [exact EN|].
    assert (A : exists g enums,
               sameButSpan f3 g /\
               (ParseErrors g = [] \/ ParseErrors g = [multipleSections]) /\
               (a = AddEnum g enums \/
                (PossibleValues (AddEnum g enums) = [] /\
                 a = SetGuessEnums (AddEnum g enums) (FindAllString codeReg (nth 3 res ""))))).
    { destruct (3 <? len res).
      - bind_ok E. destruct a0 as [enums g]. exists g, enums.
        apply extractPossibleValues_span in E0. destruct E0 as [S P].
        split; [exact S|]. split.
        { destruct P as [P|P]; rewrite P, P3; auto. }
        destruct (len (PossibleValues (AddEnum g enums)) =? 0) eqn:L; cbn [andb] in E.
        + destruct (0 <? strings.Index (nth 3 res "") "`"); inversion E; subst; [right|left; reflexivity].
          split; [|reflexivity].
          apply Z.eqb_eq in L. unfold len in L.
          destruct (PossibleValues (AddEnum g enums)); [reflexivity|cbn in L; lia].
        + inversion E; subst. left. reflexivity.
      - inversion E; subst. exists a, []. split; [apply sameButSpan_refl|].
        split; [left; exact P3|left; reflexivity]. }
    destruct A as (g & enums & S & P & A). exists g, enums, a.
    split; [exact S|]. split; [exact P|]. split; [exact A|].
    destruct (guessBlockProperty line).
    + bind_ok H. inversion H; subst. right. split; [reflexivity|]. exists a0. reflexivity.
    + inversion H; subst. left. auto.
Qed.

End FieldAnatomy.

Section EnumTheorems.
Import regexp types parser.

Lemma set_PossibleValues_twice l l' f :
  set_PossibleValues l (set_PossibleValues l' f) = set_PossibleValues l f.
Proof. reflexivity. Qed.

Lemma set_PossibleValues_same f : set_PossibleValues (PossibleValues f) f = f.
Proof. destruct f; reflexivity. Qed.

Lemma AddEnum_loop values : forall f,
  AddEnum f values
  = set_PossibleValues
      (fold_left (fun result t => if unseen result t then (result ++ [t])%list else result)
                 (trimmed values) (PossibleValues f)) f.
Proof.
  unfold AddEnum. induction values as [|v values IH]; intros f; cbn [fold_left trimmed map].
  - symmetry. apply set_PossibleValues_same.
  - rewrite IH. fold (unseen (PossibleValues f) (strings.Trim v trimSet)).
    destruct (unseen (PossibleValues f) (strings.Trim v trimSet)); reflexivity.
Qed.

Lemma firstOccurrences_In a l : In a (firstOccurrences l) <-> In a l.
Proof.
  induction l as [|b l IH]; cbn; [tauto|].
  rewrite filter_In, IH. split.
  - intros [E|[I _]]; auto.
  - intros [E|I]; [auto|].
    destruct (String.eqb a b) eqn:E; [apply String.eqb_eq in E; auto|right; auto].
Qed.

Lemma firstOccurrences_NoDup l : NoDup (firstOccurrences l).
Proof.
  induction l as [|b l IH]; cbn; constructor.
  - rewrite filter_In. intros [_ E]. rewrite String.eqb_refl in E. discriminate.
  - apply NoDup_filter. exact IH.
Qed.

Lemma firstOccurrences_fixed l : NoDup l -> firstOccurrences l = l.
Proof.
  induction 1 as [|a l N D IH]; cbn; [reflexivity|].
  rewrite IH. f_equal. apply filter_all. apply Forall_forall. intros b I.
  apply negb_true_iff. apply String.eqb_neq. intros ->. contradiction.
Qed.

Lemma unseen_spec seen v : unseen seen v = true <-> v <> "" /\ ~ In v seen.
Proof.
  unfold unseen. rewrite andb_true_iff, !negb_true_iff, String.eqb_neq.
  rewrite <- existsb_eqb_In. destruct (existsb (String.eqb v) seen); intuition congruence.
Qed.

(** X3. [AddEnum] appends, in the order of their first occurrence, the
    trimmed values that are not empty and not yet among the possible
    values; nothing else of the field changes, and a second call with the
    same values changes nothing. *)
Theorem AddEnum_appends_first_occurrences :
  forall (f : ParsedField) (values : list string),
    let added := filter (unseen (PossibleValues f)) (firstOccurrences (trimmed values)) in
    AddEnum f values = set_PossibleValues (PossibleValues f ++ added)%list f /\
    NoDup added /\
    AddEnum (AddEnum f values) values = AddEnum f values.
Proof.
  intros f values added.
  assert (E : forall f, AddEnum f values
                        = set_PossibleValues
                            (PossibleValues f
                             ++ filter (unseen (PossibleValues f))
                                       (firstOccurrences (trimmed values)))%list f).
  { intros g. rewrite AddEnum_loop, dedup_loop. reflexivity. }
  split; [apply E|]. split; [apply NoDup_filter, firstOccurrences_NoDup|].
  rewrite (E (AddEnum f values)), (E f). fold added.
  rewrite set_PossibleValues_twice.
  change (PossibleValues (set_PossibleValues (PossibleValues f ++ added)%list f))
    with (PossibleValues f ++ added)%list.
  rewrite filter_none; [rewrite app_nil_r; reflexivity|].
  apply Forall_forall. intros v I.
  destruct (unseen (PossibleValues f ++ added)%list v) eqn:U; [|reflexivity].
  apply unseen_spec in U. destruct U as [NE NI]. exfalso. apply NI.
  apply in_or_app. destruct (unseen (PossibleValues f) v) eqn:U'.
  - right. apply filter_In. auto.
  - left. destruct (in_dec string_dec v (PossibleValues f)) as [J|J]; [exact J|].
    assert (unseen (PossibleValues f) v = true) by (apply unseen_spec; auto). congruence.
Qed.
End EnumTheorems.

Section TrimFacts.

Lemma TrimRight_fixed cutset : forall s,
  strings.TrimRight (strings.TrimRight s cutset) cutset = strings.TrimRight s cutset.
Proof.
  induction s as [|c s IH]; [reflexivity|].
  cbn [strings.TrimRight].
  destruct (strings.TrimRight s cutset) as [|d r] eqn:E.
  - destruct (strings.mem c cutset) eqn:M; [reflexivity|].
    cbn [strings.TrimRight]. rewrite M. reflexivity.
  - cbn [strings.TrimRight]. cbn [strings.TrimRight] in IH.
    destruct (strings.TrimRight r cutset) as [|d' r'] eqn:E'.
    + destruct (strings.mem d cutset); [discriminate IH|]. rewrite IH. reflexivity.
    + rewrite IH. reflexivity.
Qed.

Lemma TrimLeft_keeps_right cutset : forall x,
  strings.TrimRight x cutset = x ->
  strings.TrimRight (strings.TrimLeft x cutset) cutset = strings.TrimLeft x cutset.
Proof.
  induction x as [|c x IH]; intros H; [reflexivity|].
  cbn [strings.TrimLeft]. destruct (strings.mem c cutset) eqn:M; [|exact H].
  apply IH. cbn [strings.TrimRight] in H.
  destruct (strings.TrimRight x cutset) as [|d r] eqn:E.
  - rewrite M in H. discriminate H.
  - injection H as H. exact H.
Qed.

Lemma TrimLeft_fixed cutset : forall s,
  strings.TrimLeft (strings.TrimLeft s cutset) cutset = strings.TrimLeft s cutset.
Proof.
  induction s as [|c s IH]; [reflexivity|].
  cbn [strings.TrimLeft]. destruct (strings.mem c cutset) eqn:M; [exact IH|].
  cbn [strings.TrimLeft]. rewrite M. reflexivity.
Qed.

Lemma Trim_fixed s cutset :
  strings.Trim (strings.Trim s cutset) cutset = strings.Trim s cutset.
Proof.
  unfold strings.Trim.
  rewrite (TrimLeft_keeps_right cutset _ (TrimRight_fixed cutset s)).
  apply TrimLeft_fixed.
Qed.

End TrimFacts.

Section GuessTheorems.
Import regexp types parser.

Lemma fold_left_trimmed {A : Type} (g : A -> string -> A) (values : list string) : forall a,
  fold_left (fun r v => g r (strings.Trim v trimSet)) values a
  = fold_left g (trimmed values) a.
Proof. induction values as [|v values IH]; intros a; cbn; [reflexivity|apply IH]. Qed.

Lemma filter_twice {A : Type} (f : A -> bool) (l : list A) :
  filter f (filter f l) = filter f l.
Proof.
  apply filter_all. apply Forall_forall. intros a I. apply filter_In in I. tauto.
Qed.

Lemma trimmed_fixed values kept :
  incl kept (trimmed values) -> trimmed kept = kept.
Proof.
  intros I. unfold trimmed. rewrite <- (map_id kept) at 2. apply map_ext_in.
  intros a J. apply I in J. unfold trimmed in J. apply in_map_iff in J.
  destruct J as (v & <- & _). apply Trim_fixed.
Qed.

(** X4. [SetGuessEnums] replaces the guessed values by the trimmed values
    that are not empty, each once, in the order of their first occurrence;
    setting the result again changes nothing. *)
Theorem SetGuessEnums_first_occurrences :
  forall (f : ParsedField) (values : list string),
    let kept := filter (unseen []) (firstOccurrences (trimmed values)) in
    SetGuessEnums f values = set_GuessEnums kept f /\
    NoDup kept /\
    SetGuessEnums f kept = SetGuessEnums f values.
Proof.
  intros f values kept.
  assert (E : forall f values,
             SetGuessEnums f values
             = set_GuessEnums (filter (unseen []) (firstOccurrences (trimmed values))) f).
  { intros g vs. unfold SetGuessEnums. f_equal.
    rewrite (fold_left_trimmed
               (fun result val =>
                  if negb (String.eqb val "") && negb (existsb (String.eqb val) result)
                  then (result ++ [val])%list else result)).
    apply (dedup_loop (trimmed vs) []). }
  assert (N : NoDup kept) by apply NoDup_filter, firstOccurrences_NoDup.
  split; [apply E|]. split; [exact N|].
  rewrite !E. fold kept. f_equal.
  rewrite (trimmed_fixed values kept).
  - rewrite (firstOccurrences_fixed kept N). apply filter_twice.
  - intros a I. apply filter_In in I. apply firstOccurrences_In. tauto.
Qed.
End GuessTheorems.

Section PathFacts.
Import regexp.

Lemma star_path greedy a k :
  (forall pos rest caps k c,
      exec a pos rest caps k = Some c ->
      exists pos' rest' caps', path a pos rest caps pos' rest' caps' /\ k pos' rest' caps' = Some c) ->
  forall fuel pos rest caps c,
    star greedy (exec a) k fuel pos rest caps = Some c ->
    exists pos' rest' caps',
      path (Star greedy a) pos rest caps pos' rest' caps' /\ k pos' rest' caps' = Some c.
Proof.
  intros HS. induction fuel as [|fuel IH]; intros pos rest caps c E; cbn [star] in E.
  - exists pos, rest, caps. split; [constructor|exact E].
  - assert (A : forall c', exec a pos rest caps
                     (fun pos' rest' caps' =>
                        if pos <? pos' then star greedy (exec a) k fuel pos' rest' caps' else None)
                   = Some c' ->
                 exists pos' rest' caps',
                   path (Star greedy a) pos rest caps pos' rest' caps' /\
                   k pos' rest' caps' = Some c').
    { intros c' E'. apply HS in E'. destruct E' as (p1 & r1 & c1 & A1 & E1).
      destruct (pos <? p1) eqn:L; [|discriminate]. apply Z.ltb_lt in L.
      apply IH in E1. destruct E1 as (p2 & r2 & c2 & A2 & E2).
      exists p2, r2, c2. split; [eapply path_Star_more; eassumption|exact E2]. }
    assert (B : forall c', k pos rest caps = Some c' ->
                 exists pos' rest' caps',
                   path (Star greedy a) pos rest caps pos' rest' caps' /\
                   k pos' rest' caps' = Some c').
    { intros c' E'. exists pos, rest, caps. split; [constructor|exact E']. }
    unfold orelse in E. destruct greedy.
    + destruct (exec a pos rest caps _) eqn:E1; [inversion E; subst; apply A; reflexivity|].
      apply B. exact E.
    + destruct (k pos rest caps) eqn:E1; [inversion E; subst; apply B; reflexivity|].
      apply A. exact E.
Qed.

Lemma exec_path r : forall pos rest caps k c,
  exec r pos rest caps k = Some c ->
  exists pos' rest' caps', path r pos rest caps pos' rest' caps' /\ k pos' rest' caps' = Some c.
Proof.
  induction r as [|s|neg rs| | | |a IHa b IHb|a IHa b IHb|greedy a IHa|n a IHa];
    intros pos rest caps k c E; cbn [exec] in E.
  - exists pos, rest, caps. split; [constructor|exact E].
  - destruct (strings.HasPrefix rest s) eqn:HP; [|discriminate].
    eexists _, _, caps. split; [constructor; exact HP|exact E].
  - destruct rest as [|ch rest]; [discriminate|].
    destruct (in_class neg rs ch) eqn:C; [|discriminate].
    eexists _, _, caps. split; [constructor; exact C|exact E].
  - destruct rest as [|ch rest]; [discriminate|].
    destruct (byte_of ch =? 10) eqn:C; [discriminate|].
    eexists _, _, caps. split; [constructor; exact C|exact E].
  - destruct (pos =? 0) eqn:P; [|discriminate]. apply Z.eqb_eq in P. subst.
    exists 0, rest, caps. split; [constructor|exact E].
  - destruct rest; [|discriminate].
    exists pos, EmptyString, caps. split; [constructor|exact E].
  - apply IHa in E. destruct E as (p1 & r1 & c1 & A1 & E1).
    apply IHb in E1. destruct E1 as (p2 & r2 & c2 & A2 & E2).
    exists p2, r2, c2. split; [econstructor; eassumption|exact E2].
  - unfold orelse in E. destruct (exec a pos rest caps k) eqn:E1.
    + inversion E; subst. apply IHa in E1. destruct E1 as (p1 & r1 & c1 & A1 & E2).
      exists p1, r1, c1. split; [apply path_Alt_l; exact A1|exact E2].
    + apply IHb in E. destruct E as (p1 & r1 & c1 & A1 & E2).
      exists p1, r1, c1. split; [apply path_Alt_r; exact A1|exact E2].
  - eapply star_path; [exact IHa|exact E].
  - apply IHa in E. destruct E as (p1 & r1 & c1 & A1 & E1).
    eexists p1, r1, _. split; [constructor; exact A1|exact E1].
Qed.

Lemma set_cap_length n v : forall caps,
  (n < List.length caps)%nat -> List.length (set_cap n v caps) = List.length caps.
Proof.
  induction n as [|n IH]; intros [|c caps] L; cbn in *; try lia.
  rewrite IH; lia.
Qed.

Lemma path_length r p0 r0 c0 p1 r1 c1 :
  path r p0 r0 c0 p1 r1 c1 ->
  (groups r < List.length c0)%nat -> List.length c1 = List.length c0.
Proof.
  induction 1; cbn [groups]; intros L; try reflexivity.
  - rewrite IHpath2, IHpath1; lia.
  - apply IHpath; lia.
  - apply IHpath; lia.
  - rewrite IHpath2; [apply IHpath1|rewrite IHpath1]; cbn [groups] in *; lia.
  - rewrite set_cap_length; [apply IHpath|rewrite IHpath]; lia.
Qed.

(** What [search] returns: the groups of a path that starts at the first
    offset from which [exec] finds one. *)
Lemma search_path r : forall rest pos caps,
  search r pos rest = Some caps ->
  exists n p1 r1 c1,
    (n <= String.length rest)%nat /\
    path r (pos + Z.of_nat n) (strings.drop n rest) (repeat None (S (groups r))) p1 r1 c1 /\
    caps = set_cap 0 (pos + Z.of_nat n, p1) c1.
Proof.
  induction rest as [|ch rest IH]; intros pos caps E; cbn [search] in E.
  - destruct (exec r pos EmptyString _ _) eqn:E1; [|discriminate].
    inversion E; subst. apply exec_path in E1.
    destruct E1 as (p1 & r1 & c1 & P & E1). inversion E1; subst.
    exists 0%nat, p1, r1, c1. rewrite Z.add_0_r. cbn. auto.
  - destruct (exec r pos (String ch rest) _ _) eqn:E1.
    + inversion E; subst. apply exec_path in E1.
      destruct E1 as (p1 & r1 & c1 & P & E1). inversion E1; subst.
      exists 0%nat, p1, r1, c1. rewrite Z.add_0_r. cbn [strings.drop]. split; [lia|auto].
    + apply IH in E. destruct E as (n & p1 & r1 & c1 & L & P & C).
      exists (S n), p1, r1, c1. cbn [strings.drop String.length].
      replace (pos + Z.of_nat (S n)) with (pos + 1 + Z.of_nat n) by lia.
      split; [lia|auto].
Qed.

Lemma FindStringSubmatch_length r s :
  MatchString r s = true ->
  List.length (FindStringSubmatch r s) = S (groups r).
Proof.
  unfold MatchString, FindStringSubmatch, FindStringSubmatchIndex.
  destruct (search r 0 s) as [caps|] eqn:E; [intros _|discriminate].
  apply search_path in E. destruct E as (n & p1 & r1 & c1 & L & P & ->).
  rewrite length_map. apply path_length in P; [|rewrite repeat_length; lia].
  rewrite set_cap_length; rewrite P, repeat_length; lia.
Qed.

End PathFacts.

Section FieldTheorems.
Import regexp types parser.

Lemma AddEnum_shape f values :
  AddEnum f values
  = set_PossibleValues
      (PossibleValues f
       ++ filter (unseen (PossibleValues f)) (firstOccurrences (trimmed values)))%list f.
Proof. rewrite AddEnum_loop, dedup_loop. reflexivity. Qed.

Lemma SetGuessEnums_shape f values :
  SetGuessEnums f values
  = set_GuessEnums (filter (unseen []) (firstOccurrences (trimmed values))) f.
Proof.
  unfold SetGuessEnums. f_equal.
  rewrite (fold_left_trimmed
             (fun result val =>
                if negb (String.eqb val "") && negb (existsb (String.eqb val) result)
                then (result ++ [val])%list else result)).
  apply (dedup_loop (trimmed values) []).
Qed.

Lemma fieldReg_len line :
  len (FindStringSubmatch fieldReg line) = if wellFormed line then 4 else 0.
Proof.
  unfold wellFormed. destruct (MatchString fieldReg line) eqn:M.
  - unfold len. rewrite (FindStringSubmatch_length _ _ M). reflexivity.
  - rewrite (MatchString_false _ _ M). reflexivity.
Qed.

Lemma fieldStart_fields line position n :
  Name (fieldStart line position n) = "" /\
  Line (fieldStart line position n) = n /\
  Position (fieldStart line position n) = position /\
  RequiredStatus (fieldStart line position n) = RequiredDefault /\
  Required (fieldStart line position n) = false /\
  Optional (fieldStart line position n) = false /\
  Content (fieldStart line position n) = line /\
  ForceNew (fieldStart line position n) = isForceNew line /\
  PossibleValues (fieldStart line position n) = [] /\
  GuessEnums (fieldStart line position n) = [] /\
  ParseErrors (fieldStart line position n) = [] /\
  Block (fieldStart line position n) = false /\
  BlockTypeName (fieldStart line position n) = "".
Proof.
  unfold fieldStart. destruct (String.eqb (getDefaultValue line) ""); repeat split.
Qed.

(** The fields of a result with a name, by the steps that set them. *)
Lemma ExtractFieldFromLine_named line position n f :
  ExtractFieldFromLine line position n = Ok f ->
  fieldName line <> "" ->
  exists enums,
    Name f = fieldName line /\ Content f = line /\ Line f = n /\ Position f = position /\
    ForceNew f = isForceNew line /\
    RequiredStatus f = (if wellFormed line
                        then RequiredStatus (requiredStatus line (newField line n position))
                        else RequiredDefault) /\
    Required f = (if wellFormed line
                  then Required (requiredStatus line (newField line n position)) else false) /\
    Optional f = (if wellFormed line
                  then Optional (requiredStatus line (newField line n position)) else false) /\
    (ParseErrors f = [] \/ ParseErrors f = [multipleSections]) /\
    PossibleValues f = filter (unseen []) (firstOccurrences (trimmed enums)) /\
    (GuessEnums f = [] \/
     (PossibleValues f = [] /\
      GuessEnums f = filter (unseen [])
                       (firstOccurrences
                          (trimmed (FindAllString codeReg
                                      (nth 3 (FindStringSubmatch fieldReg line) "")))))) /\
    Block f = guessBlockProperty line /\
    (Block f = false -> BlockTypeName f = "").
Proof.
  intros H NE. apply ExtractFieldFromLine_anatomy in H. cbv zeta in H.
  destruct H as [[E _]|(_ & g & enums & f4 & S & P & A & B)]; [contradiction|].
  exists enums.
  destruct (fieldStart_fields line position n)
    as (s1 & s2 & s3 & s4 & s5 & s6 & s7 & s8 & s9 & s10 & s11 & s12 & s13).
  set (start := fieldStart line position n) in *.
  set (f3 := if 2 <? len (FindStringSubmatch fieldReg line) then _ else _) in S.
  assert (F3 : Name f3 = fieldName line /\ Line f3 = n /\ Position f3 = position /\
               Content f3 = line /\ ForceNew f3 = isForceNew line /\
               PossibleValues f3 = [] /\ GuessEnums f3 = [] /\
               Block f3 = false /\ BlockTypeName f3 = "" /\
               RequiredStatus f3 = (if wellFormed line
                                    then RequiredStatus (requiredStatus line
                                                           (newField line n position))
                                    else RequiredDefault) /\
               Required f3 = (if wellFormed line
                              then Required (requiredStatus line (newField line n position))
                              else false) /\
               Optional f3 = (if wellFormed line
                              then Optional (requiredStatus line (newField line n position))
                              else false)).
  { subst f3. rewrite fieldReg_len. destruct (wellFormed line); cbn [Z.ltb Z.compare Pos.compare Pos.compare_cont].
    - unfold requiredStatus.
      repeat match goal with |- context [if ?c then _ else _] => destruct c end;
        cbn; repeat split; assumption.
    - cbn. repeat split; assumption. }
  destruct F3 as (a1 & a2 & a3 & a4 & a5 & a6 & a7 & a8 & a9 & a10 & a11 & a12).
  destruct S as (g1 & g2 & g3 & g4 & g5 & g6 & g7 & g8 & g9 & g10 & g11 & g12 & g13).
  assert (PV : PossibleValues (AddEnum g enums)
               = filter (unseen []) (firstOccurrences (trimmed enums))).
  { rewrite AddEnum_shape. cbn [PossibleValues set_PossibleValues]. rewrite g10, a6.
    reflexivity. }
  rewrite AddEnum_shape, SetGuessEnums_shape in A.
  rewrite AddEnum_shape in PV.
  destruct A as [A|[A0 A]];
    destruct B as [[B0 B]|(B0 & typeName & B)]; subst f f4; rewrite B0; cbn;
      rewrite ?g1, ?g2, ?g3, ?g4, ?g5, ?g6, ?g7, ?g9, ?g10, ?g11, ?g12, ?g13,
              ?a1, ?a2, ?a3, ?a4, ?a5, ?a6, ?a7, ?a8, ?a9, ?a10, ?a11, ?a12;
      cbn in PV; rewrite ?g10, ?a6 in PV; cbn in PV;
      repeat split; auto; try discriminate;
      cbn in A0; rewrite ?g10, ?a6 in A0; cbn in A0; auto.
Qed.

End FieldTheorems.

(** Runs the extraction on a concrete line: [E] is its result. *)
Ltac extracted line position n E :=
  let r := eval vm_compute in (parser.ExtractFieldFromLine line position n) in
  match r with
  | Ok ?f =>
    exists f;
    assert (E : parser.ExtractFieldFromLine line position n = Ok f) by (vm_compute; reflexivity)
  end.

Section FieldTheorems2.
Import regexp types parser.

Lemma ExtractFieldFromLine_unnamed line position n f :
  ExtractFieldFromLine line position n = Ok f ->
  fieldName line = "" ->
  f = add_ParseError "no field name found" (set_Name "" (fieldStart line position n)).
Proof.
  intros H E. apply ExtractFieldFromLine_anatomy in H. cbv zeta in H.
  destruct H as [[_ H]|[NE _]]; [exact H|contradiction].
Qed.

(** X5. A result of the extraction keeps the line, its number and the
    position as given, and its force-new flag is that of the line. Either
    it has a name, no error other than the one about several sections and
    the block flag of the line; or it has no name, and then it is the fresh
    field with the default value of the line, the force-new flag and the
    single error "no field name found": no requirement, possible values,
    guesses, enum span or block are extracted. The error "field name is
    empty" is never recorded. *)
Theorem ExtractFieldFromLine_name_or_error :
  forall line position n f,
    ExtractFieldFromLine line position n = Ok f ->
    Name f = fieldName line /\ Content f = line /\ Line f = n /\ Position f = position /\
    ForceNew f = isForceNew line /\
    ((Name f = "" /\
      f = mkParsedField "" n position RequiredDefault false false line
            (if String.eqb (getDefaultValue line) "" then None
             else Some (getDefaultValue line))
            (isForceNew line) [] [] 0 0 ["no field name found"] false "") \/
     (Name f <> "" /\ (ParseErrors f = [] \/ ParseErrors f = [multipleSections]) /\
      Block f = guessBlockProperty line)).
Proof.
  intros line position n f H.
  destruct (string_dec (fieldName line) "") as [E|NE].
  - rewrite (ExtractFieldFromLine_unnamed _ _ _ _ H E), E.
    unfold fieldStart, newField.
    destruct (String.eqb (getDefaultValue line) ""); cbn;
      repeat split; left; repeat split.
  - destruct (ExtractFieldFromLine_named _ _ _ _ H NE)
      as (enums & a1 & a2 & a3 & a4 & a5 & _ & _ & _ & a9 & _ & _ & a12 & _).
    repeat split; try assumption. right. rewrite a1. auto.
Qed.

Lemma ExtractFieldFromLine_name_or_error_witness :
  exists f,
    ExtractFieldFromLine "x. Defaults to 'a'" PosArgs 7 = Ok f /\
    Name f = "" /\ Line f = 7 /\ DefaultValue f = Some "a" /\
    PossibleValues f = [] /\ ParseErrors f = ["no field name found"].
Proof.
  extracted "x. Defaults to 'a'" PosArgs 7 E. split; [exact E|].
  destruct (ExtractFieldFromLine_name_or_error _ _ _ _ E)
    as (_ & _ & L & _ & _ & [(N & F)|(N & _)]).
  - rewrite F. vm_compute. repeat split.
  - exfalso. apply N. reflexivity.
Defined.

Lemma requiredStatus_stated line f :
  RequiredStatus (requiredStatus line f)
  = (if statedRequired line then RequiredRequired
     else if statedOptional line then RequiredOptional else RequiredStatus f) /\
  Required (requiredStatus line f) = (statedRequired line || Required f) /\
  Optional (requiredStatus line f) = (statedOptional line || Optional f).
Proof.
  unfold requiredStatus, statedRequired, statedOptional.
  destruct (strings.Contains line "(Required)"), (strings.Contains line "(Optional)"),
    (strings.Contains line "Required"), (strings.Contains line "Optional");
    cbn; rewrite ?orb_true_r; auto.
Qed.

(** X6. The requirement recorded for a line: the three fields agree, a
    field is never both required and optional, and "(Required)" anywhere in
    a well-formed line decides against "(Optional)". *)
Theorem ExtractFieldFromLine_status :
  forall line position n f,
    ExtractFieldFromLine line position n = Ok f ->
    Required f = IsRequired (RequiredStatus f) /\
    Optional f = IsOptional (RequiredStatus f) /\
    IsComputed (RequiredStatus f) = false /\
    Required f && Optional f = false /\
    Required f = (wellFormed line && negb (String.eqb (fieldName line) "")
                  && statedRequired line) /\
    Optional f = (wellFormed line && negb (String.eqb (fieldName line) "")
                  && statedOptional line).
Proof.
  intros line position n f H.
  destruct (string_dec (fieldName line) "") as [E|NE].
  - rewrite (ExtractFieldFromLine_unnamed _ _ _ _ H E).
    destruct (fieldStart_fields line position n)
      as (s1 & s2 & s3 & s4 & s5 & s6 & s7 & s8 & s9 & s10 & s11 & s12 & s13).
    remember (fieldStart line position n) as start eqn:Hs. clear Hs.
    cbn. rewrite s4, s5, s6, E. cbn. rewrite !andb_false_r. repeat split.
  - destruct (ExtractFieldFromLine_named _ _ _ _ H NE)
      as (enums & _ & _ & _ & _ & _ & a6 & a7 & a8 & _).
    apply String.eqb_neq in NE. rewrite NE, a6, a7, a8. cbn [negb]. rewrite !andb_true_r.
    destruct (requiredStatus_stated line (newField line n position)) as (r1 & r2 & r3).
    rewrite r1, r2, r3. cbn. rewrite !orb_false_r.
    destruct (wellFormed line); [|repeat split].
    unfold statedRequired, statedOptional.
    destruct (strings.Contains line "(Required)"), (strings.Contains line "(Optional)"),
      (strings.Contains line "Required"), (strings.Contains line "Optional");
      repeat split.
Qed.

Lemma ExtractFieldFromLine_status_witness :
  exists f,
    ExtractFieldFromLine "* `a` - (Optional) Only (Required) with `b`." PosArgs 1 = Ok f /\
    Required f = true /\ Optional f = false.
Proof.
  extracted "* `a` - (Optional) Only (Required) with `b`." PosArgs 1 E. split; [exact E|].
  destruct (ExtractFieldFromLine_status _ _ _ _ E) as (_ & _ & _ & _ & R & O).
  split; [rewrite R|rewrite O]; vm_compute; reflexivity.
Defined.

Lemma unseen_nil_NoDup l :
  NoDup (filter (unseen []) (firstOccurrences l)) /\
  ~ In "" (filter (unseen []) (firstOccurrences l)).
Proof.
  split; [apply NoDup_filter, firstOccurrences_NoDup|].
  intros I. apply filter_In in I. destruct I as [_ I]. discriminate I.
Qed.

(** X7. The values of a result: the possible values are not empty
    strings and none is listed twice, the same holds for the guessed
    values, and values are guessed only when no possible value was found. *)
Theorem ExtractFieldFromLine_values :
  forall line position n f,
    ExtractFieldFromLine line position n = Ok f ->
    NoDup (PossibleValues f) /\ ~ In "" (PossibleValues f) /\
    NoDup (GuessEnums f) /\ ~ In "" (GuessEnums f) /\
    (PossibleValues f = [] \/ GuessEnums f = []).
Proof.
  intros line position n f H.
  destruct (string_dec (fieldName line) "") as [E|NE].
  - rewrite (ExtractFieldFromLine_unnamed _ _ _ _ H E).
    destruct (fieldStart_fields line position n)
      as (s1 & s2 & s3 & s4 & s5 & s6 & s7 & s8 & s9 & s10 & s11 & s12 & s13).
    remember (fieldStart line position n) as start eqn:Hs. clear Hs.
    cbn. rewrite s9, s10. repeat split; auto; constructor.
  - destruct (ExtractFieldFromLine_named _ _ _ _ H NE)
      as (enums & _ & _ & _ & _ & _ & _ & _ & _ & _ & a10 & a11 & _).
    rewrite a10.
    destruct (unseen_nil_NoDup (trimmed enums)) as [N1 N2].
    split; [exact N1|]. split; [exact N2|].
    destruct a11 as [G|[P G]].
    + rewrite G. repeat split; auto; constructor.
    + rewrite G. rewrite a10 in P. rewrite P.
      destruct (unseen_nil_NoDup
                  (trimmed (FindAllString codeReg
                              (nth 3 (FindStringSubmatch fieldReg line) "")))) as [N3 N4].
      repeat split; auto.
Qed.

Lemma ExtractFieldFromLine_values_witness :
  exists f,
    ExtractFieldFromLine "* `tier` - (Optional) One of `A`, `B`, `A` or `'B'`. Possible values are `A`, `B`, `A` and `'B'`." PosArgs 1 = Ok f /\
    PossibleValues f = ["A"; "B"] /\ NoDup (PossibleValues f) /\ GuessEnums f = [].
Proof.
  extracted "* `tier` - (Optional) One of `A`, `B`, `A` or `'B'`. Possible values are `A`, `B`, `A` and `'B'`." PosArgs 1 E.
  split; [exact E|].
  split; [reflexivity|]. split; [|reflexivity].
  exact (proj1 (ExtractFieldFromLine_values _ _ _ _ E)).
Defined.

End FieldTheorems2.

(** * Searches in the tree *)
Section TreeFacts.
Import types data.

(** Induction over a property and the entries below it. *)
Lemma Property_tree_ind (P : Property -> Prop) :
  (forall p, (forall n k c, Nested p = Some n -> In (k, c) (Objects n) -> P c) -> P p) ->
  forall p, P p.
Proof.
  intros H. fix IH 1. intros p. apply H.
  destruct p as [a1 a2 a3 a4 a5 a6 a7 a8 a9 a10 nested a12 a13 a14 a15 a16 a17 a18 a19 a20].
  cbn [Nested]. intros n k c E.
  destruct nested as [[names objs]|]; [|discriminate E].
  injection E as <-. cbn [Objects].
  revert objs. fix IHo 1. intros [|[k' c'] objs'] I.
  - contradiction.
  - destruct I as [I|I].
    + injection I as _ E2. rewrite <- E2. apply IH.
    + exact (IHo objs' I).
Qed.

Lemma firstHit_some {A B : Type} (f : A -> option B) l b :
  firstHit f l = Some b -> exists k a, In (k, a) l /\ f a = Some b.
Proof.
  induction l as [|[k a] l IH]; cbn; [discriminate|].
  destruct (f a) eqn:E.
  - intros H. inversion H; subst. exists k, a. auto.
  - intros H. destruct (IH H) as (k' & a' & I & F). exists k', a'. auto.
Qed.

Lemma firstHit_none {A B : Type} (f : A -> option B) l :
  firstHit f l = None -> forall k a, In (k, a) l -> f a = None.
Proof.
  induction l as [|[k a] l IH]; cbn; [contradiction|].
  destruct (f a) eqn:E; [discriminate|].
  intros H k' a' [I|I]; [inversion I; subst; exact E|eapply IH; eassumption].
Qed.

Lemma Property_FindProperty_unfold name p :
  Property_FindProperty name p =
  if String.eqb (Name p) name then Some p
  else match Nested p with
       | Some n => firstHit (Property_FindProperty name) (Objects n)
       | None => None
       end.
Proof. destruct p; reflexivity. Qed.

Lemma Property_FindProperty_sound name : forall p r,
  Property_FindProperty name p = Some r -> Name r = name /\ within r p.
Proof.
  induction p as [p IH] using Property_tree_ind. intros r H.
  rewrite Property_FindProperty_unfold in H.
  destruct (String.eqb (Name p) name) eqn:E.
  - inversion H; subst. apply String.eqb_eq in E. split; [exact E|constructor].
  - destruct (Nested p) as [n|] eqn:N; [|discriminate].
    apply firstHit_some in H. destruct H as (k & c & I & F).
    destruct (IH n k c eq_refl I r F) as [A B].
    split; [exact A|]. eapply within_nested; eassumption.
Qed.

Lemma Property_FindProperty_complete name : forall p,
  Property_FindProperty name p = None -> forall r, within r p -> Name r <> name.
Proof.
  induction p as [p IH] using Property_tree_ind. intros H r W.
  rewrite Property_FindProperty_unfold in H.
  destruct (String.eqb (Name p) name) eqn:E; [discriminate|].
  inversion W; subst.
  - apply String.eqb_neq. exact E.
  - rewrite H0 in H. eapply IH; [exact H0|exact H1| |exact H2].
    eapply firstHit_none; eassumption.
Qed.

(** X8. [FindProperty] returns a property of the name asked for that
    lies in the tree, and it returns nil only when no property of the tree
    has that name. *)
Theorem FindProperty_finds_a_name :
  forall (props : Properties) (name : string),
    (forall r, FindProperty (Some props) name = Some r ->
               Name r = name /\ withinTree r props) /\
    (FindProperty (Some props) name = None ->
     forall r, withinTree r props -> Name r <> name).
Proof.
  intros props name. split.
  - intros r H. cbn in H. apply firstHit_some in H. destruct H as (k & c & I & F).
    apply Property_FindProperty_sound in F. destruct F as [A B].
    split; [exact A|]. exists k, c. auto.
  - intros H r (k & c & I & W). cbn in H.
    eapply Property_FindProperty_complete; [|exact W].
    eapply firstHit_none; eassumption.
Qed.
End TreeFacts.

Section SearchFacts.
Import types data.

Lemma Property_FindAllSubBlocks_unfold name needBlock p :
  Property_FindAllSubBlocks name needBlock p =
  if isBlockOf name p then [p]
  else if negb needBlock && isPlainNamed name p then [p]
  else match Nested p with
       | Some n =>
         flat_map (fun np => Property_FindAllSubBlocks name needBlock (snd np)) (Objects n)
       | None => []
       end.
Proof.
  destruct p; unfold isBlockOf, isPlainNamed; cbn. rewrite andb_assoc. reflexivity.
Qed.

Lemma flat_map_nil {A B : Type} (f : A -> list B) l :
  flat_map f l = [] -> forall a, In a l -> f a = [].
Proof.
  induction l as [|a l IH]; cbn; [contradiction|].
  intros H. apply app_eq_nil in H. destruct H as [H1 H2].
  intros b [<-|I]; [exact H1|apply IH; assumption].
Qed.

Lemma Property_FindAllSubBlocks_sound name needBlock : forall p r,
  In r (Property_FindAllSubBlocks name needBlock p) ->
  within r p /\
  (isBlockOf name r = true \/ (needBlock = false /\ isPlainNamed name r = true)).
Proof.
  induction p as [p IH] using Property_tree_ind. intros r H.
  rewrite Property_FindAllSubBlocks_unfold in H.
  destruct (isBlockOf name p) eqn:B.
  { destruct H as [<-|[]]. split; [constructor|auto]. }
  destruct (negb needBlock && isPlainNamed name p) eqn:N.
  { destruct H as [<-|[]]. apply andb_true_iff in N. destruct N as [N1 N2].
    apply negb_true_iff in N1. split; [constructor|auto]. }
  destruct (Nested p) as [n|] eqn:E; [|contradiction].
  apply in_flat_map in H. destruct H as ([k c] & I & H). cbn [snd] in H.
  destruct (IH n k c eq_refl I r H) as [W T].
  split; [eapply within_nested; eassumption|exact T].
Qed.

Lemma Property_FindAllSubBlocks_nil name needBlock : forall p,
  Property_FindAllSubBlocks name needBlock p = [] ->
  forall r, within r p ->
            isBlockOf name r = false /\ (needBlock = false -> isPlainNamed name r = false).
Proof.
  induction p as [p IH] using Property_tree_ind. intros H r W.
  rewrite Property_FindAllSubBlocks_unfold in H.
  destruct (isBlockOf name p) eqn:B; [discriminate|].
  destruct (negb needBlock && isPlainNamed name p) eqn:N; [discriminate|].
  inversion W; subst.
  - split; [exact B|]. intros ->. exact N.
  - rewrite H0 in H. eapply IH; [exact H0|exact H1| |exact H2].
    apply (flat_map_nil _ _ H (k, c) H1).
Qed.

(** X9. [FindAllSubBlocks] returns properties of the tree. They are
    blocks of the block type asked for; properties without block type that
    have the name are returned only when the tree has no such block. The
    result is empty only when the tree has neither. *)
Theorem FindAllSubBlocks_blocks_first :
  forall (props : Properties) (name : string),
    (forall r, In r (FindAllSubBlocks (Some props) name) ->
               withinTree r props /\
               (isBlockOf name r = true \/
                (isPlainNamed name r = true /\
                 forall r', withinTree r' props -> isBlockOf name r' = false))) /\
    (FindAllSubBlocks (Some props) name = [] ->
     forall r, withinTree r props ->
               isBlockOf name r = false /\ isPlainNamed name r = false).
Proof.
  intros props name. cbn [FindAllSubBlocks].
  set (blocks := flat_map (fun np => Property_FindAllSubBlocks name true (snd np))
                          (Objects props)).
  set (plain := flat_map (fun np => Property_FindAllSubBlocks name false (snd np))
                         (Objects props)).
  assert (NB : blocks = [] -> forall r', withinTree r' props -> isBlockOf name r' = false).
  { intros E r' (k & c & I & W).
    apply (Property_FindAllSubBlocks_nil name true c); [|exact W].
    apply (flat_map_nil _ _ E (k, c) I). }
  destruct (len blocks =? 0) eqn:L.
  - apply Z.eqb_eq in L. assert (E : blocks = []).
    { destruct blocks; [reflexivity|unfold len in L; cbn in L; lia]. }
    split.
    + intros r I. apply in_flat_map in I. destruct I as ([k c] & I & H). cbn [snd] in H.
      apply Property_FindAllSubBlocks_sound in H. destruct H as [W T].
      split; [exists k, c; auto|].
      destruct T as [T|[_ T]]; [left; exact T|right; auto].
    + intros P r (k & c & I & W).
      destruct (Property_FindAllSubBlocks_nil name false c) with (r := r) as [A B];
        [apply (flat_map_nil _ _ P (k, c) I)|exact W|]. auto.
  - split.
    + intros r I. apply in_flat_map in I. destruct I as ([k c] & I & H). cbn [snd] in H.
      apply Property_FindAllSubBlocks_sound in H. destruct H as [W T].
      split; [exists k, c; auto|].
      destruct T as [T|[T _]]; [left; exact T|discriminate T].
    + intros E. rewrite E in L. discriminate L.
Qed.

Lemma FindAllSubBlocks_blocks_first_witness :
  FindAllSubBlocks (Some (mkProperties ["identity"; "site"; "assigned"] linkedRoot)) "type"
  = [docField "type" 3 false] /\
  isPlainNamed "type" (docField "type" 3 false) = true.
Proof.
  split; [reflexivity|].
  destruct (proj1 (FindAllSubBlocks_blocks_first
                     (mkProperties ["identity"; "site"; "assigned"] linkedRoot) "type")
                  (docField "type" 3 false)) as [_ [B|[P _]]].
  - left. reflexivity.
  - discriminate B.
  - exact P.
Defined.

Lemma Property_HasCircularReference_unfold visited p :
  Property_HasCircularReference visited p =
  if existsb (String.eqb (Name p)) visited then true
  else if Block p then
    match Nested p with
    | Some n =>
      existsb (fun np => Property_HasCircularReference (Name p :: visited) (snd np))
              (Objects n)
    | None => false
    end
  else false.
Proof. destruct p; reflexivity. Qed.

Lemma existsb_eqb_name v l : existsb (String.eqb v) l = true <-> In v l.
Proof.
  rewrite existsb_exists. split.
  - intros (x & I & E). apply String.eqb_eq in E. subst. exact I.
  - intros I. exists v. split; [exact I|apply String.eqb_refl].
Qed.

Lemma circular_descent : forall p visited,
  Property_HasCircularReference visited p = true ->
  exists names r, descent visited p names r /\ In (Name r) names.
Proof.
  induction p as [p IH] using Property_tree_ind. intros visited H.
  rewrite Property_HasCircularReference_unfold in H.
  destruct (existsb (String.eqb (Name p)) visited) eqn:V.
  - apply existsb_eqb_name in V. exists visited, p. split; [constructor|exact V].
  - destruct (Block p) eqn:B; [|discriminate].
    destruct (Nested p) as [n|] eqn:N; [|discriminate].
    apply existsb_exists in H. destruct H as ([k c] & I & H). cbn [snd] in H.
    destruct (IH n k c eq_refl I _ H) as (names & r & D & R).
    exists names, r. split; [eapply descent_below; eassumption|exact R].
Qed.

Lemma descent_circular visited p names r :
  descent visited p names r -> In (Name r) names ->
  Property_HasCircularReference visited p = true.
Proof.
  induction 1 as [visited p|visited p n k c names r B N I D IH]; intros R;
    rewrite Property_HasCircularReference_unfold.
  - apply existsb_eqb_name in R. rewrite R. reflexivity.
  - destruct (existsb (String.eqb (Name p)) visited); [reflexivity|].
    rewrite B, N. apply existsb_exists. exists (k, c). split; [exact I|apply IH, R].
Qed.

Lemma firstCircular_spec objs :
  (exists p, In (firstCircular objs, p) objs /\ Block p = true /\
             Property_HasCircularReference [] p = true) \/
  (firstCircular objs = "" /\
   forall k p, In (k, p) objs -> Block p && Property_HasCircularReference [] p = false).
Proof.
  induction objs as [|[k p] objs IH]; cbn [firstCircular].
  - right. split; [reflexivity|intros k p []].
  - destruct (Block p && Property_HasCircularReference [] p) eqn:C.
    + left. apply andb_true_iff in C. exists p. cbn. tauto.
    + destruct IH as [(q & I & Q)|[E A]].
      * left. exists q. cbn. tauto.
      * right. split; [exact E|].
        intros k' p' [I|I]; [inversion I; subst; exact C|eapply A; eassumption].
Qed.

(** X10. [HasCircularReference] on a property is true exactly when
    some descent through blocks reaches a property that is named like a
    block passed on the way; a block with a field of its own name counts,
    whether or not the field is a block. On a collection the result is the
    key of such a block, or empty with no such block in the collection. *)
Theorem HasCircularReference_repeated_name :
  (forall visited p,
      Property_HasCircularReference visited p = true <->
      exists names r, descent visited p names r /\ In (Name r) names) /\
  (forall p n k c,
      Block p = true -> Nested p = Some n -> In (k, c) (Objects n) -> Name c = Name p ->
      Property_HasCircularReference [] p = true) /\
  (forall props : Properties,
      (exists p, In (HasCircularReference (Some props), p) (Objects props) /\
                 Block p = true /\ Property_HasCircularReference [] p = true) \/
      (HasCircularReference (Some props) = "" /\
       forall k p, In (k, p) (Objects props) ->
                   Block p && Property_HasCircularReference [] p = false)).
Proof.
  split; [|split].
  - intros visited p. split.
    + apply circular_descent.
    + intros (names & r & D & R). eapply descent_circular; eassumption.
  - intros p n k c B N I E.
    apply (descent_circular [] p [Name p] c).
    + eapply descent_below; [exact B|exact N|exact I|constructor].
    + rewrite E. left. reflexivity.
  - intros props. apply firstCircular_spec.
Qed.

Lemma HasCircularReference_repeated_name_witness :
  Property_HasCircularReference [] ownNameField = true /\
  HasCircularReference (Some (mkProperties ["identity"] [("identity", ownNameField)]))
  = "identity".
Proof.
  split; [|reflexivity].
  refine (proj1 (proj2 HasCircularReference_repeated_name) ownNameField _ "identity"
                plainIdentity eq_refl eq_refl _ eq_refl).
  left. reflexivity.
Defined.

End SearchFacts.

Section MergeFacts.
Import types data.

Lemma FindProperty_finds_a_name_witness :
  FindProperty (Some (mkProperties ["identity"; "site"; "assigned"] linkedRoot)) "type"
  = Some (docField "type" 3 false) /\
  withinTree (docField "type" 3 false)
             (mkProperties ["identity"; "site"; "assigned"] linkedRoot).
Proof.
  split; [reflexivity|].
  exact (proj2 (proj1 (FindProperty_finds_a_name
                         (mkProperties ["identity"; "site"; "assigned"] linkedRoot) "type")
                      (docField "type" 3 false) eq_refl)).
Defined.

Lemma merge_step_levelOk (props : Properties) k v :
  levelOk props -> gomap.get (Objects props) k = None ->
  levelOk (mkProperties (Names props ++ [k])%list (gomap.set (Objects props) k v)).
Proof.
  intros [N E] G. apply get_none_keys in G.
  unfold levelOk. cbn [Names Objects]. rewrite keys_set_absent by exact G. rewrite <- E.
  split; [|reflexivity].
  apply NoDup_app; [exact N|repeat constructor; intros []|].
  intros x I [<-|[]]. rewrite E in I. contradiction.
Qed.

Lemma merge_fold (l : list (string * Property)) : forall (props : Properties) links,
  NoDup (map fst l) ->
  exists r,
    fold_left
      (fun acc np =>
         let '(props, links) := acc in
         match gomap.get (Objects props) (fst np) with
         | Some _ => (props, (links ++ [(fst np, snd np)])%list)
         | None =>
           (mkProperties (Names props ++ [fst np])%list
                         (gomap.set (Objects props) (fst np) (snd np)), links)
         end)
      l (props, links)
    = (r, (links ++ filter (has props) l)%list) /\
    (levelOk props -> levelOk r) /\
    Names r = (Names props ++ map fst (filter (fun np => negb (has props np)) l))%list /\
    (forall k, gomap.get (Objects r) k
               = match gomap.get (Objects props) k with
                 | Some v => Some v
                 | None => gomap.get l k
                 end).
Proof.
  induction l as [|[k v] l IH]; intros props links ND;
    match goal with |- context [fold_left ?f] => set (step := f) in * end;
    cbn [fold_left filter map fst snd].
  - exists props. rewrite !app_nil_r.
    split; [reflexivity|]. split; [intros OK; exact OK|]. split; [reflexivity|].
    intros k. destruct (gomap.get (Objects props) k); reflexivity.
  - inversion ND as [|x xs NI ND']; subst.
    assert (S : step (props, links) (k, v)
                = match gomap.get (Objects props) k with
                  | Some _ => (props, (links ++ [(k, v)])%list)
                  | None => (mkProperties (Names props ++ [k])%list
                                          (gomap.set (Objects props) k v), links)
                  end) by reflexivity.
    rewrite S. clear S.
    assert (HK : has props (k, v)
                 = match gomap.get (Objects props) k with Some _ => true | None => false end)
      by reflexivity.
    rewrite !HK. clear HK.
    destruct (gomap.get (Objects props) k) as [e|] eqn:G; cbn [negb].
    + destruct (IH props (links ++ [(k, v)])%list ND') as (r & E & OKr & Nr & Gr).
      exists r. split; [etransitivity; [exact E|]; rewrite <- app_assoc; reflexivity|].
      split; [exact OKr|]. split; [exact Nr|].
      intros k0. rewrite Gr. destruct (gomap.get (Objects props) k0) eqn:G0; [reflexivity|].
      cbn [gomap.get]. destruct (String.eqb k k0) eqn:K; [|reflexivity].
      apply String.eqb_eq in K. subst. congruence.
    + set (props' := mkProperties (Names props ++ [k])%list (gomap.set (Objects props) k v)).
      destruct (IH props' links ND') as (r & E & OKr & Nr & Gr).
      assert (H : forall np, In np l -> has props' np = has props np).
      { intros [k1 v1] I. unfold has. cbn [fst Objects props'].
        rewrite get_set_other; [reflexivity|].
        intros ->. apply NI. apply in_map_iff. exists (k1, v1). auto. }
      exists r. split.
      { etransitivity; [exact E|]. f_equal. f_equal. apply filter_ext_in. exact H. }
      split; [intros OK; apply OKr; exact (merge_step_levelOk props k v OK G)|]. split.
      { rewrite Nr. cbn [Names props' map fst]. rewrite <- app_assoc. cbn [app].
        f_equal. f_equal. f_equal. apply filter_ext_in. intros np I. rewrite H by exact I.
        reflexivity. }
      intros k0. rewrite Gr. cbn [Objects props' gomap.get].
      destruct (String.eqb k k0) eqn:K.
      * apply String.eqb_eq in K. subst k0. rewrite get_set_same, G. reflexivity.
      * apply String.eqb_neq in K. rewrite get_set_other by exact K.
        destruct (gomap.get (Objects props) k0); reflexivity.
Qed.

(** X11. [Merge] keeps every entry of the receiver, whatever the receiver:
    it adds the entries of the other collection whose names are new, in the
    order of the loop, and hands the others to the entries of the same
    name. A receiver whose names are duplicate-free and equal to the keys
    of its map stays so. *)
Theorem Merge_keeps_the_receiver :
  forall props other : Properties,
    gomap.wf (Objects other) ->
    exists r,
      Merge (Some props) (Some other) = (Some r, filter (has props) (Objects other)) /\
      Names r = (Names props
                 ++ map fst (filter (fun np => negb (has props np)) (Objects other)))%list /\
      (forall k, gomap.get (Objects r) k
                 = match gomap.get (Objects props) k with
                   | Some v => Some v
                   | None => gomap.get (Objects other) k
                   end) /\
      (levelOk props -> levelOk r).
Proof.
  intros props other WF. unfold Merge.
  destruct (merge_fold (Objects other) props [] WF) as (r & E & OKr & Nr & Gr).
  exists r. rewrite E. cbn [fst snd app]. auto.
Qed.

Lemma Merge_keeps_the_receiver_witness :
  exists r,
    Merge (Some (mkProperties ["identity"] [("identity", identityDefinition)]))
          (Some (mkProperties ["site"; "identity"]
                   [("site", siteBlock); ("identity", identityReference)]))
    = (Some r, [("identity", identityReference)]) /\
    Names r = ["identity"; "site"] /\
    gomap.get (Objects r) "identity" = Some identityDefinition /\
    levelOk r.
Proof.
  destruct (Merge_keeps_the_receiver
              (mkProperties ["identity"] [("identity", identityDefinition)])
              (mkProperties ["site"; "identity"]
                 [("site", siteBlock); ("identity", identityReference)]))
    as (r & E & N & G & OK).
  - unfold gomap.wf. cbn. repeat constructor; cbn; intuition discriminate.
  - exists r. split; [exact E|]. split; [exact N|]. split; [rewrite G; reflexivity|].
    apply OK. split; [repeat constructor; intros []|reflexivity].
Defined.

End MergeFacts.

(** * What rule S006 reports *)
Section FindingFacts.
Import types data rule.

Lemma checkSchemaProperty_own path documentation name property f :
  ownFinding path documentation name property = Some f ->
  checkSchemaProperty path documentation name property = [f].
Proof.
  unfold ownFinding. rewrite checkSchemaProperty_unfold.
  destruct (computedOnly property); cbn [orb]; [discriminate|].
  destruct (String.eqb name "id"); cbn [orb]; [discriminate|].
  destruct (Deprecated property); [discriminate|].
  destruct (gomap.get (Objects documentation) name) as [d|].
  - unfold hasFields, emptyNested.
    destruct (Nested property) as [n|]; cbn [negb andb]; [|discriminate].
    assert (L : (0 <? len (Objects n)) = negb (len (Objects n) =? 0)).
    { unfold len. destruct (Objects n); reflexivity. }
    rewrite L. destruct (len (Objects n) =? 0); cbn [negb andb]; [discriminate|].
    destruct (Nested d) as [dn|].
    + destruct (len (Objects dn) =? 0); [|discriminate].
      destruct (Block d); cbn [negb]; intros H; inversion H; reflexivity.
    + destruct (Block d); cbn [negb]; intros H; inversion H; reflexivity.
  - intros H. inversion H. reflexivity.
Qed.

Lemma checkSchemaProperty_cases path documentation name property f :
  In f (checkSchemaProperty path documentation name property) ->
  ownFinding path documentation name property = Some f \/
  (computedOnly property = false /\ name <> "id" /\ Deprecated property = false /\
   exists docProperty nested docNested,
     gomap.get (Objects documentation) name = Some docProperty /\
     Nested property = Some nested /\ Nested docProperty = Some docNested /\
     Objects docNested <> [] /\
     In f (checkMissingInDoc (joinPath path name) (Some nested) docNested)).
Proof.
  unfold ownFinding. rewrite checkSchemaProperty_unfold.
  destruct (computedOnly property); cbn [orb]; [intros []|].
  destruct (String.eqb name "id") eqn:ID; cbn [orb]; [intros []|].
  apply String.eqb_neq in ID.
  destruct (Deprecated property); [intros []|].
  destruct (gomap.get (Objects documentation) name) as [d|].
  - unfold hasFields, emptyNested.
    destruct (Nested property) as [n|]; cbn [negb andb]; [|intros []].
    assert (L : (0 <? len (Objects n)) = negb (len (Objects n) =? 0)).
    { unfold len. destruct (Objects n); reflexivity. }
    rewrite L. destruct (len (Objects n) =? 0); cbn [negb andb]; [intros []|].
    destruct (Nested d) as [dn|] eqn:DN.
    + destruct (len (Objects dn) =? 0) eqn:Z0.
      * destruct (Block d); cbn [negb]; intros [<-|[]]; left; reflexivity.
      * intros I. right. split; [reflexivity|]. split; [exact ID|]. split; [reflexivity|].
        exists d, n, dn. split; [reflexivity|]. split; [reflexivity|].
        split; [exact DN|]. split; [|exact I].
        intros E. rewrite E in Z0. discriminate Z0.
    + destruct (Block d); cbn [negb]; intros [<-|[]]; left; reflexivity.
  - intros [<-|[]]. left. reflexivity.
Qed.

Lemma findings_sound rootSchema rootDoc f : forall property path schema documentation name,
  corresponds rootSchema rootDoc path schema documentation ->
  In (name, property) (Objects schema) ->
  In f (checkSchemaProperty path documentation name property) ->
  exists path' schema' documentation' name' property',
    corresponds rootSchema rootDoc path' schema' documentation' /\
    In (name', property') (Objects schema') /\
    ownFinding path' documentation' name' property' = Some f.
Proof.
  induction property as [property IH] using Property_tree_ind.
  intros path schema documentation name C I F.
  apply checkSchemaProperty_cases in F.
  destruct F as [F|(A1 & A2 & A3 & d & n & dn & G & N & DN & NE & F)].
  - exists path, schema, documentation, name, property. auto.
  - cbn [checkMissingInDoc] in F. apply in_flat_map in F.
    destruct F as ([k c] & Ic & F). cbn [fst snd] in F.
    apply (IH n k c N Ic (joinPath path name) n dn k); [|exact Ic|exact F].
    eapply corresponds_nested; eassumption.
Qed.

(** X12. The findings of [checkMissingInDoc] are exactly the findings
    that the entries of the schema make by themselves at the pairs of
    collections the check reaches: nothing is reported that does not come
    from such an entry, and nothing such an entry reports is dropped. *)
Theorem checkMissingInDoc_findings :
  forall (rootSchema rootDoc : Properties) (f : finding),
    In f (checkMissingInDoc "" (Some rootSchema) rootDoc) <->
    exists path schema documentation name property,
      corresponds rootSchema rootDoc path schema documentation /\
      In (name, property) (Objects schema) /\
      ownFinding path documentation name property = Some f.
Proof.
  intros rootSchema rootDoc f. split.
  - intros I. cbn [checkMissingInDoc] in I. apply in_flat_map in I.
    destruct I as ([k c] & Ic & F). cbn [fst snd] in F.
    apply (findings_sound rootSchema rootDoc f c "" rootSchema rootDoc k);
      [constructor|exact Ic|exact F].
  - intros (path & schema & documentation & name & property & C & I & O).
    apply (corresponds_incl _ _ _ _ _ C).
    cbn [checkMissingInDoc]. apply in_flat_map. exists (name, property).
    split; [exact I|]. cbn [fst snd].
    rewrite (checkSchemaProperty_own _ _ _ _ _ O). left. reflexivity.
Qed.

End FindingFacts.

Section SchemaCheckFacts.
Import types data rule.

Lemma collect_in {A : Type} (g : A -> Go (list finding)) l : forall fs f,
  collect g l = Ok fs -> In f fs ->
  exists a fs', In a l /\ g a = Ok fs' /\ In f fs'.
Proof.
  induction l as [|a l IH]; intros fs f H I; cbn [collect] in H.
  - inversion H; subst. contradiction.
  - bind_ok H. bind_ok H. inversion H; subst.
    apply in_app_or in I. destruct I as [I|I].
    + exists a, a0. cbn. auto.
    + destruct (IH _ _ eq_refl I) as (b & fs' & Ib & G & F). exists b, fs'. cbn. auto.
Qed.

Lemma collect_ok {A : Type} (g : A -> Go (list finding)) l :
  (forall a, In a l -> exists fs, g a = Ok fs) -> exists fs, collect g l = Ok fs.
Proof.
  induction l as [|a l IH]; intros H; cbn [collect].
  - eexists. reflexivity.
  - destruct (H a (or_introl eq_refl)) as (fs & E). rewrite E. cbn [bind].
    destruct IH as (fs' & E'); [intros b I; apply H; right; exact I|].
    rewrite E'. cbn [bind]. eexists. reflexivity.
Qed.

Lemma checkDocProperty_cases path schema name d fs f :
  checkDocProperty path schema name d = Ok fs -> In f fs ->
  name <> "id" /\ isSection path d = false /\ deprecatedNote d = false /\
  ((f = NotInSchema (joinPath path name) (Line d) /\
    gomap.get (Objects schema) name = None) \/
   (exists sp dn sn fs',
       gomap.get (Objects schema) name = Some sp /\ Block d = false /\
       Nested d = Some dn /\ Objects dn <> [] /\ Nested sp = Some sn /\
       checkMissingInSchema (joinPath path name) (Some dn) sn = Ok fs' /\ In f fs')).
Proof.
  rewrite checkDocProperty_unfold. fold (isSection path d). fold (deprecatedNote d).
  destruct (String.eqb name "id") eqn:ID; [intros H; inversion H; subst; intros []|].
  apply String.eqb_neq in ID.
  destruct (isSection path d); [intros H; inversion H; subst; intros []|].
  destruct (deprecatedNote d); [intros H; inversion H; subst; intros []|].
  intros H I. split; [exact ID|]. split; [reflexivity|]. split; [reflexivity|].
  destruct (gomap.get (Objects schema) name) as [sp|].
  - right. destruct (Block d) eqn:B; [inversion H; subst; contradiction|].
    destruct (Nested d) as [dn|] eqn:DN; [|inversion H; subst; contradiction].
    destruct (0 <? len (Objects dn)) eqn:L; [|inversion H; subst; contradiction].
    destruct (Nested sp) as [sn|] eqn:SN; [|inversion H; subst; contradiction].
    exists sp, dn, sn, fs. repeat split; try assumption.
    intros E. rewrite E in L. discriminate L.
  - left. cbv zeta in H. bind_ok H.
    destruct a; inversion H; subst; [contradiction|].
    destruct I as [<-|[]]. auto.
Qed.

Lemma schema_findings_sound rootDoc rootSchema f :
  forall d path documentation schema name fs,
    reaches rootDoc rootSchema path documentation schema ->
    In (name, d) (Objects documentation) ->
    checkDocProperty path schema name d = Ok fs -> In f fs ->
    exists path' documentation' schema' name' d',
      reaches rootDoc rootSchema path' documentation' schema' /\
      In (name', d') (Objects documentation') /\
      f = NotInSchema (joinPath path' name') (Line d') /\
      gomap.get (Objects schema') name' = None /\
      name' <> "id" /\ isSection path' d' = false /\ deprecatedNote d' = false.
Proof.
  induction d as [d IH] using Property_tree_ind.
  intros path documentation schema name fs R I H F.
  destruct (checkDocProperty_cases _ _ _ _ _ _ H F)
    as (ID & S & D & [[E G]|(sp & dn & sn & fs' & G & B & DN & NE & SN & C & F')]).
  - exists path, documentation, schema, name, d. auto 10.
  - cbn [checkMissingInSchema] in C.
    destruct (collect_in _ _ _ _ C F') as ([k c] & fs'' & Ic & Hc & Fc). cbn [fst snd] in Hc.
    apply (IH dn k c DN Ic (joinPath path name) dn sn k fs''); try assumption.
    eapply reaches_nested; eassumption.
Qed.

Lemma reaches_blockShaped rootDoc rootSchema path documentation schema :
  blockShaped rootDoc ->
  reaches rootDoc rootSchema path documentation schema ->
  path = "" /\ documentation = rootDoc /\ schema = rootSchema.
Proof.
  intros BS R. induction R as [|path documentation schema name d sp dn sn R IH I ID S D G B DN NE SN].
  - auto.
  - exfalso. destruct IH as (_ & -> & _).
    assert (E : emptyNested d = false).
    { unfold emptyNested. rewrite DN. unfold len.
      destruct (Objects dn); [contradiction|reflexivity]. }
    rewrite (BS name d I E) in B. discriminate B.
Qed.

(** X13. Every finding of [checkMissingInSchema] is about a documented
    property, reached by the check, that the schema collection at its place
    lacks and that is not [id], no root block section and not marked
    deprecated. On a documentation tree in which only blocks have fields,
    such a property is an entry of the root collection: the fields listed
    in block sections are not compared with the schema. *)
Theorem checkMissingInSchema_findings :
  forall (rootDoc rootSchema : Properties) (findings : list finding) (f : finding),
    checkMissingInSchema "" (Some rootDoc) rootSchema = Ok findings ->
    In f findings ->
    exists path documentation schema name docProperty,
      reaches rootDoc rootSchema path documentation schema /\
      In (name, docProperty) (Objects documentation) /\
      f = NotInSchema (joinPath path name) (Line docProperty) /\
      gomap.get (Objects schema) name = None /\
      name <> "id" /\ isSection path docProperty = false /\
      deprecatedNote docProperty = false /\
      (blockShaped rootDoc -> path = "" /\ documentation = rootDoc).
Proof.
  intros rootDoc rootSchema findings f H F. cbn [checkMissingInSchema] in H.
  destruct (collect_in _ _ _ _ H F) as ([k c] & fs & Ic & Hc & Fc). cbn [fst snd] in Hc.
  destruct (schema_findings_sound rootDoc rootSchema f c "" rootDoc rootSchema k fs)
    as (path & documentation & schema & name & d & R & I & E & G & ID & S & D);
    [constructor|exact Ic|exact Hc|exact Fc|].
  exists path, documentation, schema, name, d.
  split; [exact R|]. split; [exact I|]. split; [exact E|]. split; [exact G|].
  split; [exact ID|]. split; [exact S|]. split; [exact D|].
  intros BS. destruct (reaches_blockShaped _ _ _ _ _ BS R) as (A & B & _). auto.
Qed.

End SchemaCheckFacts.

Section SchemaCheckReturns.
Import types data rule.

Lemma checkMissingInSchema_findings_witness :
  exists path documentation schema name docProperty,
    reaches typoDoc witnessSchema path documentation schema /\
    In (name, docProperty) (Objects documentation) /\
    NotInSchema "zone" 4 = NotInSchema (joinPath path name) (Line docProperty) /\
    gomap.get (Objects schema) name = None /\
    name <> "id" /\ isSection path docProperty = false /\
    deprecatedNote docProperty = false /\
    (blockShaped typoDoc -> path = "" /\ documentation = typoDoc).
Proof.
  refine (checkMissingInSchema_findings typoDoc witnessSchema [NotInSchema "zone" 4]
                                        (NotInSchema "zone" 4) _ _).
  - vm_compute. reflexivity.
  - left. reflexivity.
Defined.

Lemma checkDocProperty_returns schema : forall d path name,
  (forall r, within r d ->
             strings.len (strings.ToLower (Content r)) <= strings.len (Content r)) ->
  exists fs, checkDocProperty path schema name d = Ok fs.
Proof.
  intros d. revert schema.
  induction d as [d IH] using Property_tree_ind. intros schema path name C.
  rewrite checkDocProperty_unfold.
  destruct (String.eqb name "id"); [eexists; reflexivity|].
  destruct (_ && _ && _); [eexists; reflexivity|].
  destruct (strings.Contains _ "deprecated"); [eexists; reflexivity|].
  destruct (gomap.get (Objects schema) name) as [sp|].
  - destruct (Block d); [eexists; reflexivity|].
    destruct (Nested d) as [dn|] eqn:DN; [|eexists; reflexivity].
    destruct (0 <? len (Objects dn)); [|eexists; reflexivity].
    destruct (Nested sp) as [sn|]; [|eexists; reflexivity].
    cbn [checkMissingInSchema]. apply collect_ok. intros [k c] I. cbn [fst snd].
    apply (IH dn k c eq_refl I). intros r W. apply C. eapply within_nested; eassumption.
  - cbv zeta.
    set (idx := strings.Index (strings.ToLower (Content d)) "not available for").
    destruct (0 <? idx) eqn:P.
    + apply Z.ltb_lt in P.
      assert (B : idx + 17 <= strings.len (strings.ToLower (Content d))).
      { destruct (index_from_bound "not available for" (strings.ToLower (Content d)) 0)
          as [E|[_ E]]; fold (strings.Index (strings.ToLower (Content d)) "not available for") in E;
          fold idx in E; [lia|]. exact E. }
      specialize (C d (within_self d)).
      unfold strings.slice_from, strings.slice.
      replace ((0 <=? idx) && (idx <=? strings.len (Content d))
               && (strings.len (Content d) <=? strings.len (Content d))) with true.
      * cbn [bind]. destruct (_ && _); eexists; reflexivity.
      * symmetry. rewrite !andb_true_iff, !Z.leb_le. lia.
    + cbn [bind]. eexists. reflexivity.
Qed.

(** X14. [Run] returns when lower-casing lengthens the content of no
    documented property. It panics on a documented property that the schema
    lacks and whose content, lower-cased, has "not available for" at an
    offset beyond the length of the content. *)
Theorem Run_returns_on_calm_documents :
  (forall schema documentation : Properties,
      calm documentation ->
      exists findings, Run (Some schema) (Some documentation) = Ok findings) /\
  Run (Some witnessSchema) (Some growingDoc) = Panic "slice bounds out of range".
Proof.
  split; [|vm_compute; reflexivity].
  intros schema documentation C. cbn [Run].
  destruct (collect_ok (fun np => checkDocProperty "" schema (fst np) (snd np))
                       (Objects documentation)) as (fs & E).
  - intros [k c] I. cbn [fst snd]. apply checkDocProperty_returns.
    intros r W. apply C. exists k, c. auto.
  - cbn [checkMissingInSchema]. rewrite E. cbn [bind]. eexists. reflexivity.
Qed.

Lemma Run_returns_on_calm_documents_witness :
  exists findings, Run (Some witnessSchema) (Some typoDoc) = Ok findings.
Proof.
  apply (proj1 Run_returns_on_calm_documents).
  intros r (k & c & I & W). cbn in I. destruct I as [I|[]]. inversion I; subst.
  inversion W; subst; [vm_compute; discriminate|cbn in H; discriminate H].
Defined.

End SchemaCheckReturns.

Section LinkedCheck.
Import types data rule.

Lemma fillBlockFields_reference fuel defs ref def path ref' :
  Block ref = true -> emptyNested ref = true ->
  gomap.get defs (blockName ref) = Some def -> isDefinition def = true ->
  fillBlockFields fuel defs ref path = Some ref' ->
  Block ref' = true /\
  exists docNested, Nested ref' = Some docNested /\ Objects docNested <> [].
Proof.
  intros B E G D H. destruct fuel as [|fuel]; [discriminate H|].
  cbn [fillBlockFields] in H. cbv zeta in H.
  unfold isDefinition in D. apply andb_true_iff in D. destruct D as [_ D].
  apply negb_true_iff in D. unfold emptyNested in D.
  destruct (Nested def) as [n|] eqn:N; [|discriminate D].
  assert (L : linkField defs ref = set_Nested (Some n) ref).
  { unfold linkField. rewrite B, E, G, N. reflexivity. }
  rewrite L in H. cbn [Nested set_Nested] in H.
  destruct (traverse _ (Objects n)) as [objs|] eqn:T; [|discriminate H].
  inversion H; subst. cbn [Block Nested set_Nested]. split; [exact B|].
  eexists. split; [reflexivity|]. cbn [Objects].
  apply traverse_keys in T. intros Z0. rewrite Z0 in T.
  destruct (Objects n); [cbn in D; discriminate D|cbn in T; discriminate T].
Qed.

(** X15. A block reference that is not linked is reported as a block
    missing from the documentation; once [fillBlockFields] has linked it to
    its definition, the fields of the definition are checked in place of
    that report. *)
Theorem linked_reference_is_checked :
  forall fuel defs ref def ref' path (documentation documentation' : Properties)
         parentPath name property nested,
    Block ref = true -> emptyNested ref = true ->
    gomap.get defs (blockName ref) = Some def -> isDefinition def = true ->
    fillBlockFields fuel defs ref path = Some ref' ->
    computedOnly property = false -> name <> "id" -> Deprecated property = false ->
    Nested property = Some nested -> Objects nested <> [] ->
    gomap.get (Objects documentation) name = Some ref ->
    gomap.get (Objects documentation') name = Some ref' ->
    checkSchemaProperty parentPath documentation name property = [BlockMissingFromDocs] /\
    exists docNested,
      Nested ref' = Some docNested /\
      checkSchemaProperty parentPath documentation' name property
      = checkMissingInDoc (joinPath parentPath name) (Some nested) docNested.
Proof.
  intros fuel defs ref def ref' path documentation documentation' parentPath name property
         nested B E G D H C ID Dep N NE Gd Gd'.
  apply String.eqb_neq in ID.
  split.
  - apply checkSchemaProperty_own. unfold ownFinding, hasFields.
    rewrite C, ID, Dep, Gd, E, B. cbn [orb].
    unfold emptyNested. rewrite N. unfold len.
    destruct (Objects nested); [contradiction|reflexivity].
  - destruct (fillBlockFields_reference _ _ _ _ _ _ B E G D H) as (B' & dn & DN & NE').
    exists dn. split; [exact DN|].
    rewrite checkSchemaProperty_unfold, C, ID, Dep, Gd', N, DN.
    rewrite (len_pos_nonempty _ NE), (len_zero_nonempty _ NE'). reflexivity.
Qed.

Lemma linked_reference_is_checked_witness :
  checkSchemaProperty "" linkedRootDoc "assigned" schemaAssigned = [BlockMissingFromDocs] /\
  exists docNested,
    Nested (entryOf linkedDoc "assigned") = Some docNested /\
    checkSchemaProperty "" linkedDoc "assigned" schemaAssigned
    = checkMissingInDoc (joinPath "" "assigned")
        (Some (mkProperties ["type"]
                 [("type", withFlags true false false (emptyProperty "type"))]))
        docNested.
Proof.
  refine (linked_reference_is_checked
            3 (blockDefinitions linkedRoot) (entryOf linkedRootDoc "assigned")
            identityDefinition (entryOf linkedDoc "assigned") ""
            linkedRootDoc linkedDoc "" "assigned" schemaAssigned _
            _ _ _ _ _ _ _ _ _ _ _ _);
    try (vm_compute; reflexivity); vm_compute; discriminate.
Defined.

End LinkedCheck.

(** * The scan of a section *)
Section ScanFacts.
Import types parser markdown.

Lemma in_set {V : Type} (m : list (string * V)) k v k' v' :
  In (k', v') (gomap.set m k v) -> (k', v') = (k, v) \/ In (k', v') m.
Proof.
  induction m as [|[k0 v0] m IH]; cbn.
  - intros [H|[]]. left. symmetry. exact H.
  - destruct (String.eqb k0 k); cbn; intros [H|H]; auto.
    destruct (IH H); auto.
Qed.

Lemma keys_set {V : Type} (m : list (string * V)) k v k' :
  In k' (gomap.keys (gomap.set m k v)) <-> k' = k \/ In k' (gomap.keys m).
Proof.
  destruct (in_dec string_dec k (gomap.keys m)) as [I|I].
  - rewrite keys_set_present by exact I. split; [auto|]. intros [->|H]; assumption.
  - rewrite keys_set_absent by exact I. rewrite in_app_iff. cbn. intuition.
Qed.

Lemma wf_set {V : Type} (m : list (string * V)) k v :
  gomap.wf m -> gomap.wf (gomap.set m k v).
Proof.
  unfold gomap.wf. intros W.
  destruct (in_dec string_dec k (gomap.keys m)) as [I|I].
  - rewrite keys_set_present by exact I. exact W.
  - rewrite keys_set_absent by exact I. apply NoDup_app; [exact W|repeat constructor; intros []|].
    intros x J [<-|[]]. contradiction.
Qed.

Lemma listed_empty : listed NewParsedProperties.
Proof.
  split; [|split].
  - intros k. cbn. tauto.
  - constructor.
  - intros k p [].
Qed.

Lemma listed_add props p :
  listed props -> listed (add props p).
Proof.
  intros H. pose proof H as (A & W & E). unfold add, AddProperty.
  destruct (String.eqb (Name (Field p)) "") eqn:N; [exact H|].
  apply String.eqb_neq in N. split; [|split]; cbn [Names Objects].
  - intros k. rewrite in_app_iff, keys_set, A. cbn. intuition.
  - apply wf_set. exact W.
  - intros k q I. apply in_set in I. destruct I as [I|I]; [|apply E; exact I].
    inversion I; subst. auto.
Qed.

Lemma add_entries props p k q :
  In (k, q) (Objects (add props p)) -> q = p \/ In (k, q) (Objects props).
Proof.
  unfold add, AddProperty. destruct (String.eqb (Name (Field p)) ""); cbn [Objects]; [auto|].
  intros I. apply in_set in I. destruct I as [I|I]; [inversion I|]; auto.
Qed.

Lemma scanned_add content props p :
  scanned content props -> anchored content p ->
  fieldEntry p \/ blockEntry content p ->
  scanned content (add props p).
Proof.
  intros [L E] A B. split; [apply listed_add; exact L|].
  intros k q I. apply add_entries in I. destruct I as [->|I]; [auto|apply E in I; exact I].
Qed.

Lemma addField_add props f :
  addField props f
  = add props (newProperty f "" (if Block f then Some NewParsedProperties else None)).
Proof. reflexivity. Qed.

Lemma commit_scanned content st :
  scanned content (properties st) ->
  (forall b, currentBlock st = Some b -> anchored content b /\ blockEntry content b) ->
  scanned content (commit st).
Proof.
  intros S B. unfold commit. destruct (currentBlock st) as [b|]; [|exact S].
  destruct (inBlock st); [|exact S].
  destruct (B b eq_refl) as [A E]. apply scanned_add; auto.
Qed.

End ScanFacts.

Section ScanInvariant.
Import types parser markdown.

Lemma ExtractFieldFromLine_echo line position n f :
  ExtractFieldFromLine line position n = Ok f ->
  Line f = n /\ Content f = line /\ Position f = position.
Proof.
  intros H. destruct (string_dec (fieldName line) "") as [E|NE].
  - rewrite (ExtractFieldFromLine_unnamed _ _ _ _ H E).
    destruct (fieldStart_fields line position n)
      as (s1 & s2 & s3 & s4 & s5 & s6 & s7 & _).
    cbn. auto.
  - destruct (ExtractFieldFromLine_named _ _ _ _ H NE)
      as (enums & a1 & a2 & a3 & a4 & _). auto.
Qed.

Lemma step_inv content st lineNum line st' :
  0 <= lineNum -> nth_error content (Z.to_nat lineNum) = Some line ->
  scanInv content st -> step st lineNum line = Ok st' -> scanInv content st'.
Proof.
  intros P N [S B]. unfold step. cbv zeta.
  destruct (_ || _); [intros H; inversion H; subst; split; assumption|].
  destruct (_ || _); [intros H; inversion H; subst; split; assumption|].
  destruct (IsBlockHead _).
  { intros H. bind_ok H. destruct a as [blockNames blockOf].
    pose proof (commit_scanned content st S B) as C.
    destruct blockNames as [|name names]; inversion H; subst; split; cbn; try exact C.
    - exact B.
    - intros b E'. inversion E'; subst. split.
      + exists line. cbn. auto.
      + split; [reflexivity|]. exists NewParsedProperties. split; [reflexivity|].
        split; [apply listed_empty|]. intros k q []. }
  destruct (String.eqb _ "---").
  { intros H. destruct (currentBlock st) as [b|] eqn:CB.
    - destruct (B b eq_refl) as [A Eb].
      destruct (inBlock st); inversion H; subst; split; cbn.
      + apply scanned_add; auto.
      + intros b' E'. discriminate E'.
      + exact S.
      + intros b' E'. inversion E'; subst. auto.
    - inversion H; subst. split; cbn; [exact S|]. intros b' E'. discriminate E'. }
  destruct (_ || _); [|intros H; inversion H; subst; split; assumption].
  intros H. bind_ok H. rename a into field.
  destruct (ExtractFieldFromLine_echo _ _ _ _ E) as (L & C & _).
  destruct (String.eqb (Name field) ""); [inversion H; subst; split; assumption|].
  set (entry := newProperty field "" (if Block field then Some NewParsedProperties else None)).
  assert (AE : anchored content entry).
  { exists line. cbn. rewrite L, C. auto. }
  assert (FE : fieldEntry entry) by reflexivity.
  destruct (currentBlock st) as [b|] eqn:CB.
  - destruct (B b eq_refl) as [A (Bb & n & Nb & Ln & En)].
    destruct (inBlock st); inversion H; subst; split; cbn.
    + exact S.
    + intros b' E'. inversion E'; subst. split; [exact A|].
      split; [exact Bb|]. rewrite Nb. exists (addField n field).
      split; [reflexivity|]. split; [rewrite addField_add; apply listed_add; exact Ln|].
      intros k q I. rewrite addField_add in I. apply add_entries in I.
      destruct I as [->|I]; [auto|apply En in I; exact I].
    + rewrite addField_add. apply scanned_add; auto.
    + intros b' E'. inversion E'; subst. split; [exact A|].
      split; [exact Bb|]. exists n. auto.
  - inversion H; subst. split; cbn.
    + rewrite addField_add. apply scanned_add; auto.
    + intros b' E'. discriminate E'.
Qed.

Lemma scanLines_inv content : forall rest done st st',
  content = (done ++ rest)%list ->
  scanInv content st ->
  scanLines st (Z.of_nat (List.length done)) rest = Ok st' ->
  scanInv content st'.
Proof.
  induction rest as [|line rest IH]; intros done st st' C I H; cbn [scanLines] in H.
  - inversion H; subst. exact I.
  - bind_ok H. apply (IH (done ++ [line])%list a st').
    + rewrite <- app_assoc. exact C.
    + eapply step_inv; [| |exact I|exact E]; [lia|].
      rewrite Nat2Z.id, C, nth_error_app2, Nat.sub_diag by lia. reflexivity.
    + rewrite length_app. cbn [List.length].
      replace (Z.of_nat (List.length done + 1)) with (Z.of_nat (List.length done) + 1) by lia.
      exact H.
Qed.

Lemma scan_result content parsed :
  ParseFields content = Ok parsed -> scanned content parsed.
Proof.
  intros H. unfold ParseFields in H. bind_ok H. inversion H; subst.
  assert (I : scanInv content a).
  { apply (scanLines_inv content content [] (mkScan NewParsedProperties None false) a);
      [reflexivity| |exact E].
    split; cbn.
    - split; [apply listed_empty|]. intros k p [].
    - intros b E'. discriminate E'. }
  destruct I as [S B]. apply commit_scanned; assumption.
Qed.

(** X16. In the collection [ParseFields] returns, the names listed are
    the keys of the map, no key is empty and every entry is filed under
    its own name, at the root and inside every block. [Line] and [Content]
    of every entry point back into the section: the content has a line at
    index [Line], and [Content] is that line, trimmed for a field. Only
    blocks have fields, and a field has none. *)
Theorem ParseFields_scanned :
  forall (content : list string) (parsed : ParsedProperties),
    ParseFields content = Ok parsed -> scanned content parsed.
Proof. exact scan_result. Qed.

Lemma ParseFields_scanned_witness :
  exists parsed, ParseFields refsThenDef = Ok parsed /\ scanned refsThenDef parsed.
Proof.
  assert (E : exists parsed, ParseFields refsThenDef = Ok parsed)
    by (eexists; vm_compute; reflexivity).
  destruct E as [parsed E]. exists parsed. split; [exact E|].
  exact (ParseFields_scanned refsThenDef parsed E).
Defined.

End ScanInvariant.

Section ConversionFacts.
Import types data.

Lemma get_map {A B : Type} (f : A -> B) (objs : list (string * A)) k :
  gomap.get (map (fun np => (fst np, f (snd np))) objs) k = option_map f (gomap.get objs k).
Proof.
  induction objs as [|[k' a] objs IH]; cbn; [reflexivity|].
  destruct (String.eqb k' k); [reflexivity|exact IH].
Qed.

Lemma collectNames_fold converted names : forall acc : Properties,
  let r := fold_left (fun result name =>
                        match gomap.get converted name with
                        | Some prop =>
                          mkProperties (Names result ++ [name])%list
                                       (gomap.set (Objects result) name prop)
                        | None => result
                        end) names acc in
  Names r = (Names acc ++ filter (bound converted) names)%list /\
  (gomap.wf (Objects acc) -> gomap.wf (Objects r)) /\
  forall k, gomap.get (Objects r) k
            = if existsb (String.eqb k) names
              then match gomap.get converted k with
                   | Some v => Some v
                   | None => gomap.get (Objects acc) k
                   end
              else gomap.get (Objects acc) k.
Proof.
  induction names as [|a names IH]; intros acc; cbn [fold_left filter existsb].
  - cbv zeta. rewrite app_nil_r. auto.
  - unfold bound at 1. destruct (gomap.get converted a) as [prop|] eqn:G.
    + destruct (IH (mkProperties (Names acc ++ [a])%list (gomap.set (Objects acc) a prop)))
        as (N & W & E). cbv zeta. cbn [Names Objects] in N, W, E.
      split; [rewrite N, <- app_assoc; reflexivity|].
      split; [intros W0; apply W, wf_set, W0|].
      intros k. rewrite E. destruct (String.eqb k a) eqn:K; cbn [orb].
      * apply String.eqb_eq in K. subst k. rewrite G, get_set_same.
        destruct (existsb (String.eqb a) names); reflexivity.
      * apply String.eqb_neq in K.
        rewrite get_set_other by (intros ->; apply K; reflexivity). reflexivity.
    + destruct (IH acc) as (N & W & E). cbv zeta.
      split; [exact N|]. split; [exact W|].
      intros k. rewrite E. destruct (String.eqb k a) eqn:K; cbn [orb]; [|reflexivity].
      apply String.eqb_eq in K. subst k. rewrite G.
      destruct (existsb (String.eqb a) names); reflexivity.
Qed.

Lemma collectNames_spec names converted :
  Names (collectNames names converted) = filter (bound converted) names /\
  gomap.wf (Objects (collectNames names converted)) /\
  forall k, gomap.get (Objects (collectNames names converted)) k
            = if existsb (String.eqb k) names then gomap.get converted k else None.
Proof.
  destruct (collectNames_fold converted names NewProperties) as (N & W & E).
  cbv zeta in N, W, E. fold (collectNames names converted) in N, W, E.
  split; [exact N|]. split; [apply W; constructor|].
  intros k. rewrite E. cbn. destruct (gomap.get converted k); reflexivity.
Qed.

(** X17. [convertParsedPropertiesToProperties] keeps the names in
    their order, repetitions included, leaving out a name without entry;
    the map of the result binds a name exactly when it is listed and has
    an entry, to the conversion of that entry. *)
Theorem convert_keeps_listed_entries :
  forall parsed : parser.ParsedProperties,
    exists r,
      convertParsedPropertiesToProperties (Some parsed) = Some r /\
      Names r = filter (bound (Objects parsed)) (Names parsed) /\
      gomap.wf (Objects r) /\
      forall k, gomap.get (Objects r) k
                = if existsb (String.eqb k) (Names parsed)
                  then option_map convertParsedPropertyToProperty
                                  (gomap.get (Objects parsed) k)
                  else None.
Proof.
  intros parsed. eexists. split; [reflexivity|].
  destruct (collectNames_spec
              (Names parsed)
              (map (fun np => (fst np, convertParsedPropertyToProperty (snd np)))
                   (Objects parsed))) as (N & W & E).
  split; [|split; [exact W|]].
  - rewrite N. apply filter_ext. intros a. unfold bound. rewrite get_map.
    destruct (gomap.get (Objects parsed) a); reflexivity.
  - intros k. rewrite E, get_map. reflexivity.
Qed.

End ConversionFacts.

Section DocumentCheck.
Import types data rule.

Lemma convert_unfold p :
  convertParsedPropertyToProperty p
  = mkProperty (parser.Name (parser.Field p)) (parser.Type_ p) (parser.Description p)
      (parser.Required (parser.Field p)) (parser.Optional (parser.Field p))
      (parser.Computed p) (parser.ForceNew (parser.Field p)) (parser.Deprecated p)
      (parser.PossibleValues (parser.Field p)) (parser.DefaultValue (parser.Field p))
      (convertParsedPropertiesToProperties (parser.Nested p))
      (parser.Block (parser.Field p)) 0 (parser.Path p) (parser.Line (parser.Field p))
      (parser.Position (parser.Field p)) (parser.Content (parser.Field p))
      (parser.ParseErrors (parser.Field p)) (parser.BlockTypeName (parser.Field p))
      (parser.GuessEnums (parser.Field p)).
Proof. destruct p as [f t d c dep path count [n|]]; reflexivity. Qed.

Lemma document_entries content doc :
  DocumentArguments content = Ok (Some doc) ->
  exists parsed,
    markdown.ParseFields content = Ok parsed /\ scanned content parsed /\
    gomap.wf (Objects doc) /\
    forall k p, In (k, p) (Objects doc) ->
                exists q, In (k, q) (Objects parsed) /\ p = convertParsedPropertyToProperty q.
Proof.
  unfold DocumentArguments. intros H. bind_ok H. inversion H; subst. clear H.
  exists a. split; [reflexivity|]. split; [apply scan_result; exact E|].
  destruct (collectNames_spec
              (Names a)
              (map (fun np => (fst np, convertParsedPropertyToProperty (snd np)))
                   (Objects a))) as (N & W & G).
  split; [exact W|]. intros k p I.
  apply (in_get_some _ _ _ W) in I. rewrite G, get_map in I.
  destruct (existsb (String.eqb k) (Names a)); [|discriminate I].
  destruct (gomap.get (Objects a) k) as [q|] eqn:Q; [|discriminate I].
  cbn in I. inversion I; subst. exists q. split; [apply get_some_in; exact Q|reflexivity].
Qed.

Lemma document_blockShaped content doc :
  DocumentArguments content = Ok (Some doc) -> blockShaped doc.
Proof.
  intros H. destruct (document_entries _ _ H) as (parsed & _ & [_ S] & _ & E).
  intros k p I NE. destruct (E k p I) as (q & Iq & ->).
  rewrite convert_unfold. cbn [Block].
  destruct (S k q Iq) as [_ [F|[B _]]]; [|exact B].
  exfalso. rewrite convert_unfold in NE. unfold emptyNested in NE. cbn [Nested] in NE.
  unfold fieldEntry in F. rewrite F in NE.
  destruct (parser.Block (parser.Field q)); cbn in NE; discriminate NE.
Qed.

Lemma ownFinding_kind path documentation name property p line :
  ownFinding path documentation name property <> Some (NotInSchema p line).
Proof.
  unfold ownFinding. destruct (_ || _ || _); [discriminate|].
  destruct (gomap.get _ _); [|discriminate].
  destruct (_ && _); [|discriminate]. destruct (Block _); discriminate.
Qed.

(** X18. On the documentation tree built from a section, every
    finding of [Run] about a documented property that the schema lacks
    names an entry of the root collection, with the line of that entry: the
    fields listed inside block sections are never reported. *)
Theorem scanned_document_checked_at_root :
  forall (content : list string) (doc schema : Properties) (findings : list finding)
         (path : string) (line : Z),
    DocumentArguments content = Ok (Some doc) ->
    Run (Some schema) (Some doc) = Ok findings ->
    In (NotInSchema path line) findings ->
    exists p, gomap.get (Objects doc) path = Some p /\ Line p = line /\
              gomap.get (Objects schema) path = None.
Proof.
  intros content doc schema findings path line D R I.
  pose proof (document_blockShaped _ _ D) as BS.
  destruct (document_entries _ _ D) as (_ & _ & _ & W & _).
  cbn [Run] in R. bind_ok R. inversion R; subst. clear R.
  apply in_app_or in I. destruct I as [I|I].
  - exfalso. cbn [checkMissingInDoc] in I. apply in_flat_map in I.
    destruct I as ([k c] & Ic & F). cbn [fst snd] in F.
    destruct (findings_sound schema doc _ c "" schema doc k (corresponds_root _ _) Ic F)
      as (p' & s' & d' & n' & pr' & _ & _ & O).
    exact (ownFinding_kind _ _ _ _ _ _ O).
  - cbn [checkMissingInSchema] in E.
    destruct (collect_in _ _ _ _ E I) as ([k c] & fs & Ic & Hc & Fc). cbn [fst snd] in Hc.
    destruct (schema_findings_sound doc schema _ c "" doc schema k fs
                                    (reaches_root _ _) Ic Hc Fc)
      as (path' & documentation & schema' & name & d & Rch & Id & Ef & G & _).
    destruct (reaches_blockShaped _ _ _ _ _ BS Rch) as (-> & -> & ->).
    cbn in Ef. inversion Ef; subst.
    exists d. split; [apply in_get_some; assumption|auto].
Qed.

Lemma scanned_document_checked_at_root_witness :
  exists p, gomap.get (Objects zoneDoc) "zone" = Some p /\ Line p = 0 /\
            gomap.get (Objects witnessSchema) "zone" = None.
Proof.
  refine (scanned_document_checked_at_root
            zoneSection zoneDoc witnessSchema
            [MissingFromDocs "name"; MissingFromDocs "identity"; NotInSchema "zone" 0]
            "zone" 0 _ _ _).
  - vm_compute. reflexivity.
  - vm_compute. reflexivity.
  - right. right. left. reflexivity.
Defined.

End DocumentCheck.

(** * Sections of ASCII lines *)
Section AsciiSections.
Import types parser markdown data rule.

Lemma trimSpaceLeft_ASCII : forall s,
  strings.isASCII s = true ->
  exists r, strings.trimSpaceLeft s = inl r /\ strings.isASCII r = true.
Proof.
  induction s as [|c s IH]; intros A; cbn [strings.trimSpaceLeft].
  - exists "". auto.
  - pose proof A as A'. cbn [strings.isASCII] in A'. apply andb_true_iff in A'.
    destruct A' as [C S]. apply Z.ltb_lt in C.
    replace (utf8.RuneSelf <=? byte_of c) with false by (symmetry; apply Z.leb_gt; exact C).
    destruct (strings.asciiSpace (byte_of c)); [apply IH; exact S|].
    exists (String c s). auto.
Qed.

Lemma trimSpaceRight_ASCII : forall s,
  strings.isASCII s = true ->
  exists r, strings.trimSpaceRight s = inl r /\ strings.isASCII r = true.
Proof.
  induction s as [|c s IH]; intros A; cbn [strings.trimSpaceRight].
  - exists "". auto.
  - cbn [strings.isASCII] in A. apply andb_true_iff in A.
    destruct A as [C S]. destruct (IH S) as (r & E & R). rewrite E.
    pose proof C as C'. apply Z.ltb_lt in C'.
    destruct r as [|d r].
    + replace (utf8.RuneSelf <=? byte_of c) with false by (symmetry; apply Z.leb_gt; exact C').
      destruct (strings.asciiSpace (byte_of c)).
      * exists "". auto.
      * exists (String c ""). cbn [strings.isASCII]. rewrite C. auto.
    + exists (String c (String d r)). cbn [strings.isASCII] in *. rewrite C, R. auto.
Qed.

Lemma TrimSpace_ASCII s :
  strings.isASCII s = true -> strings.isASCII (strings.TrimSpace s) = true.
Proof.
  intros A. unfold strings.TrimSpace.
  destruct (trimSpaceLeft_ASCII s A) as (r & E & R). rewrite E.
  destruct (trimSpaceRight_ASCII r R) as (r' & E' & R'). rewrite E'. exact R'.
Qed.

Lemma ProcessBlockDefinition_returns line position n :
  exists blockOf, ProcessBlockDefinition line position n = Ok (ExtractBlockNames line, blockOf).
Proof.
  unfold ProcessBlockDefinition. cbv zeta.
  assert (S : forall sep, (0 <? strings.Index line sep) = true ->
                          exists rest, strings.slice_from line (strings.Index line sep) = Ok rest).
  { intros sep P. apply Z.ltb_lt in P.
    destruct (index_from_bound sep line 0) as [E|[_ E]];
      fold (strings.Index line sep) in E; [lia|].
    unfold strings.slice_from, strings.slice.
    replace ((0 <=? strings.Index line sep) && (strings.Index line sep <=? strings.len line)
             && (strings.len line <=? strings.len line)) with true; [eexists; reflexivity|].
    symmetry. rewrite !andb_true_iff, !Z.leb_le.
    assert (0 <= strings.len sep) by (unfold strings.len; lia). lia. }
  destruct (0 <? strings.Index line " of ") eqn:P1.
  - destruct (S _ P1) as (rest & E). rewrite E. eexists. reflexivity.
  - destruct (0 <? strings.Index line " within ") eqn:P2.
    + destruct (S _ P2) as (rest & E). rewrite E. eexists. reflexivity.
    + eexists. reflexivity.
Qed.

Lemma step_returns st lineNum line :
  strings.isASCII line = true -> exists st', step st lineNum line = Ok st'.
Proof.
  intros A. apply TrimSpace_ASCII in A. unfold step. cbv zeta.
  destruct (_ || _); [eexists; reflexivity|].
  destruct (_ || _); [eexists; reflexivity|].
  destruct (IsBlockHead _).
  { destruct (ProcessBlockDefinition_returns (strings.TrimSpace line) PosArgs lineNum)
      as (blockOf & E). rewrite E. cbn [bind].
    destruct (ExtractBlockNames _); eexists; reflexivity. }
  destruct (String.eqb _ "---").
  { destruct (currentBlock st); [destruct (inBlock st)|]; eexists; reflexivity. }
  destruct (_ || _); [|eexists; reflexivity].
  destruct (ExtractFieldFromLine_returns_ASCII (strings.TrimSpace line) PosArgs lineNum A)
    as (f & E). rewrite E. cbn [bind].
  destruct (String.eqb (parser.Name f) ""); [eexists; reflexivity|].
  destruct (currentBlock st); [destruct (inBlock st)|]; eexists; reflexivity.
Qed.

Lemma scanLines_returns : forall content st lineNum,
  forallb strings.isASCII content = true ->
  exists st', scanLines st lineNum content = Ok st'.
Proof.
  induction content as [|line content IH]; intros st lineNum A; cbn [scanLines].
  - eexists. reflexivity.
  - cbn [forallb] in A. apply andb_true_iff in A. destruct A as [A1 A2].
    destruct (step_returns st lineNum line A1) as (st1 & E). rewrite E. cbn [bind].
    apply IH. exact A2.
Qed.

Lemma converted_entries names (objs : list (string * parser.ParsedProperty)) k c :
  In (k, c) (Objects (collectNames names
                        (map (fun np => (fst np, convertParsedPropertyToProperty (snd np)))
                             objs))) ->
  exists q, In (k, q) objs /\ c = convertParsedPropertyToProperty q.
Proof.
  destruct (collectNames_spec
              names (map (fun np => (fst np, convertParsedPropertyToProperty (snd np))) objs))
    as (_ & W & G).
  intros I. apply (in_get_some _ _ _ W) in I. rewrite G, get_map in I.
  destruct (existsb (String.eqb k) names); [|discriminate I].
  destruct (gomap.get objs k) as [q|] eqn:Q; [|discriminate I].
  cbn in I. inversion I; subst. exists q. split; [apply get_some_in; exact Q|reflexivity].
Qed.

Lemma converted_field_within q r :
  fieldEntry q -> within r (convertParsedPropertyToProperty q) ->
  r = convertParsedPropertyToProperty q.
Proof.
  intros F W. inversion W as [|p n k c N I W']; subst; [reflexivity|].
  exfalso. rewrite convert_unfold in N. cbn [Nested] in N.
  unfold fieldEntry in F. rewrite F in N.
  destruct (parser.Block (parser.Field q)); cbn in N; [|discriminate N].
  inversion N; subst. exact I.
Qed.

Lemma anchored_content content q :
  anchored content q ->
  exists l, In l content /\
            (parser.Content (parser.Field q) = l \/
             parser.Content (parser.Field q) = strings.TrimSpace l).
Proof.
  intros (l & _ & N & C). exists l. split; [eapply nth_error_In; exact N|exact C].
Qed.

Lemma document_contents content doc :
  DocumentArguments content = Ok (Some doc) ->
  forall r, withinTree r doc ->
            exists l, In l content /\ (Content r = l \/ Content r = strings.TrimSpace l).
Proof.
  intros D r (k & p & I & W).
  destruct (document_entries _ _ D) as (parsed & _ & [_ S] & _ & E).
  destruct (E k p I) as (q & Iq & ->). destruct (S k q Iq) as [A [F|(B & n & N & L & En)]].
  - apply (converted_field_within _ _ F) in W. subst r.
    rewrite convert_unfold. cbn [Content]. apply anchored_content. exact A.
  - inversion W as [|p' n' k' c N' I' W']; subst.
    + rewrite convert_unfold. cbn [Content]. apply anchored_content. exact A.
    + rewrite convert_unfold in N'. cbn [Nested] in N'. rewrite N in N'.
      cbn in N'. inversion N'; subst. clear N'.
      apply converted_entries in I'. destruct I' as (q' & Iq' & ->).
      destruct (En k' q' Iq') as [A' F'].
      apply (converted_field_within _ _ F') in W'. subst r.
      rewrite convert_unfold. cbn [Content]. apply anchored_content. exact A'.
Qed.

Lemma calm_returns schema documentation :
  calm documentation -> exists findings, Run (Some schema) (Some documentation) = Ok findings.
Proof.
  intros C. cbn [Run].
  destruct (collect_ok (fun np => checkDocProperty "" schema (fst np) (snd np))
                       (Objects documentation)) as (fs & E).
  - intros [k c] I. cbn [fst snd]. apply checkDocProperty_returns.
    intros r W. apply C. exists k, c. auto.
  - cbn [checkMissingInSchema]. rewrite E. cbn [bind]. eexists. reflexivity.
Qed.

(** X19. On a section whose lines are ASCII the scan returns, and rule
    S006 returns on the documentation tree built from it, whatever the
    schema: no slice goes out of range. *)
Theorem ascii_section_is_checked :
  forall content : list string,
    forallb strings.isASCII content = true ->
    exists doc,
      DocumentArguments content = Ok (Some doc) /\
      forall schema, exists findings, Run (Some schema) (Some doc) = Ok findings.
Proof.
  intros content A.
  destruct (scanLines_returns content (mkScan NewParsedProperties None false) 0 A)
    as (st & E).
  assert (D : exists doc, DocumentArguments content = Ok (Some doc)).
  { unfold DocumentArguments, ParseFields. rewrite E. cbn [bind]. eexists. reflexivity. }
  destruct D as (doc & D). exists doc. split; [exact D|].
  intros schema. apply calm_returns. intros r W.
  destruct (document_contents _ _ D r W) as (l & I & C).
  assert (Al : strings.isASCII l = true).
  { rewrite forallb_forall in A. apply A. exact I. }
  assert (Ar : strings.isASCII (Content r) = true).
  { destruct C as [-> | ->]; [exact Al|apply TrimSpace_ASCII; exact Al]. }
  rewrite (ToLower_ASCII_length _ Ar). lia.
Qed.

Lemma ascii_section_is_checked_witness :
  exists doc,
    DocumentArguments refsThenDef = Ok (Some doc) /\
    forall schema, exists findings, Run (Some schema) (Some doc) = Ok findings.
Proof.
  apply ascii_section_is_checked. vm_compute. reflexivity.
Defined.

End AsciiSections.

Section RunFacts.
Import regexp.

Lemma oneChar_Class neg rs : oneChar (Class neg rs) (in_class neg rs).
Proof. split; reflexivity. Qed.

Lemma oneChar_AnyNotNL : oneChar AnyNotNL (fun ch => negb (byte_of ch =? 10)).
Proof.
  split; [reflexivity|]. intros pos ch rest caps k. cbn [exec].
  destruct (byte_of ch =? 10); reflexivity.
Qed.

Lemma oneChar_space : oneChar (Lit " ") isSpace.
Proof.
  split; [reflexivity|]. intros pos ch rest caps k. cbn [exec strings.HasPrefix].
  unfold isSpace. rewrite Ascii.eqb_sym.
  destruct (Ascii.eqb ch " "); [|reflexivity].
  destruct rest; reflexivity.
Qed.

Lemma length_append (w tail : string) :
  String.length (w ++ tail) = (String.length w + String.length tail)%nat.
Proof. induction w as [|ch w IH]; cbn; [reflexivity|]. rewrite IH. reflexivity. Qed.

(** A greedy star runs to the end of a run of accepted characters when
    what follows the star matches there. *)
Lemma greedy_run a accepts K : oneChar a accepts ->
  forall w tail pos caps fuel c,
    all accepts w = true -> stops accepts tail = true ->
    (String.length w <= fuel)%nat ->
    K (pos + strings.len w) tail caps = Some c ->
    star true (exec a) K fuel pos (w ++ tail) caps = Some c.
Proof.
  intros [E0 E1]. induction w as [|ch w IH]; intros tail pos caps fuel c A St F H.
  - cbn [append]. unfold strings.len in H. cbn in H. rewrite Z.add_0_r in H.
    destruct fuel as [|fuel]; cbn [star]; [exact H|].
    destruct tail as [|t tail].
    + rewrite E0. cbn. exact H.
    + rewrite E1. cbn in St. apply negb_true_iff in St. rewrite St. cbn. exact H.
  - cbn [all] in A. apply andb_true_iff in A. destruct A as [A1 A2].
    destruct fuel as [|fuel]; [cbn in F; lia|]. cbn [star append].
    rewrite E1, A1.
    replace (pos <? pos + 1) with true by (symmetry; apply Z.ltb_lt; lia).
    rewrite (IH tail (pos + 1) caps fuel c A2 St); [reflexivity|cbn in F; lia|].
    unfold strings.len in *. cbn [String.length] in H.
    replace (pos + 1 + Z.of_nat (String.length w))
      with (pos + Z.of_nat (S (String.length w))) by lia. exact H.
Qed.

(** A lazy star stops at the first offset where what follows it
    matches. *)
Lemma lazy_run a accepts K : oneChar a accepts ->
  forall w tail pos caps fuel c,
    all accepts w = true ->
    (forall i, (i < String.length w)%nat ->
               K (pos + Z.of_nat i) (strings.drop i (w ++ tail)) caps = None) ->
    (String.length w <= fuel)%nat ->
    K (pos + strings.len w) tail caps = Some c ->
    star false (exec a) K fuel pos (w ++ tail) caps = Some c.
Proof.
  intros [E0 E1]. induction w as [|ch w IH]; intros tail pos caps fuel c A N F H.
  - cbn [append]. unfold strings.len in H. cbn in H. rewrite Z.add_0_r in H.
    destruct fuel as [|fuel]; cbn [star]; [exact H|]. rewrite H. reflexivity.
  - cbn [all] in A. apply andb_true_iff in A. destruct A as [A1 A2].
    destruct fuel as [|fuel]; [cbn in F; lia|]. cbn [star append].
    pose proof (N 0%nat) as N0. cbn [strings.drop append] in N0.
    rewrite Z.add_0_r in N0. rewrite N0 by (cbn; lia). cbn [orelse].
    rewrite E1, A1.
    replace (pos <? pos + 1) with true by (symmetry; apply Z.ltb_lt; lia).
    apply (IH tail (pos + 1) caps fuel c A2); [|cbn in F; lia|].
    + intros i L. specialize (N (S i)). cbn [strings.drop append String.length] in N.
      replace (pos + 1 + Z.of_nat i) with (pos + Z.of_nat (S i)) by lia.
      apply N. lia.
    + unfold strings.len in *. cbn [String.length] in H.
      replace (pos + 1 + Z.of_nat (String.length w))
        with (pos + Z.of_nat (S (String.length w))) by lia. exact H.
Qed.

End RunFacts.

Section CodeValueFacts.
Import regexp parser.

Lemma byte_of_inj a b : byte_of a = byte_of b -> a = b.
Proof.
  unfold byte_of. intros H. apply N2Z.inj in H.
  rewrite <- (ascii_N_embedding a), <- (ascii_N_embedding b), H. reflexivity.
Qed.

Lemma in_class_one neg c ch :
  in_class neg [(c, c)] ch = xorb neg (Ascii.eqb ch c).
Proof.
  unfold in_class. cbn [existsb fst snd]. rewrite orb_false_r. f_equal.
  destruct (Ascii.eqb ch c) eqn:E.
  - apply Ascii.eqb_eq in E. subst. rewrite Z.leb_refl. reflexivity.
  - apply Ascii.eqb_neq in E.
    destruct (byte_of c <=? byte_of ch) eqn:L1; [|reflexivity].
    destruct (byte_of ch <=? byte_of c) eqn:L2; [|reflexivity].
    exfalso. apply E. apply byte_of_inj. apply Z.leb_le in L1, L2. lia.
Qed.

Lemma NoneOf_backtick ch : in_class true [("`", "`")%char] ch = notBacktick ch.
Proof. rewrite in_class_one. reflexivity. Qed.

Lemma oneChar_notBacktick : oneChar (NoneOf "`") notBacktick.
Proof.
  split; [reflexivity|]. intros pos ch rest caps k.
  change (NoneOf "`") with (Class true [("`", "`")%char]). cbn [exec].
  rewrite NoneOf_backtick. reflexivity.
Qed.

Lemma HasPrefix_backtick ch rest :
  strings.HasPrefix (String ch rest) "`" = negb (notBacktick ch).
Proof.
  cbn [strings.HasPrefix]. unfold notBacktick. rewrite Ascii.eqb_sym, negb_involutive.
  destruct rest; apply andb_true_r.
Qed.

(** Where [strings.Index] finds the first backtick. *)
Lemma index_backtick : forall s i,
  (strings.index_from s "`" i = -1 /\ all notBacktick s = true) \/
  exists pre tail,
    s = pre ++ String "`" tail /\ all notBacktick pre = true /\
    strings.index_from s "`" i = i + strings.len pre.
Proof.
  induction s as [|ch s IH]; intros i.
  - left. split; reflexivity.
  - unfold strings.index_from. fold strings.index_from. rewrite HasPrefix_backtick.
    destruct (notBacktick ch) eqn:B; cbn [negb].
    + destruct (IH (i + 1)) as [[E A]|(pre & tail & E & A & I)].
      * left. split; [exact E|]. cbn [all]. rewrite B, A. reflexivity.
      * right. exists (String ch pre), tail. cbn [append all]. rewrite B, A, I.
        split; [rewrite E; reflexivity|]. split; [reflexivity|].
        unfold strings.len. cbn [String.length]. lia.
    + right. exists "", s. unfold notBacktick in B. apply negb_false_iff in B.
      apply Ascii.eqb_eq in B. subst ch. cbn. split; [reflexivity|].
      split; [reflexivity|]. unfold strings.len. cbn. lia.
Qed.

Lemma drop_append (pre rest : string) :
  strings.drop (String.length pre) (pre ++ rest) = rest.
Proof. induction pre as [|ch pre IH]; cbn; [reflexivity|exact IH]. Qed.

Lemma take_append (pre rest : string) :
  strings.take (String.length pre) (pre ++ rest) = pre.
Proof. induction pre as [|ch pre IH]; cbn; [reflexivity|rewrite IH; reflexivity]. Qed.

(** What [firstCodeValue] of rule S006 returns when it returns a value. *)
Lemma firstCodeValue_shape text :
  rule.firstCodeValue text <> "" ->
  exists pre mid post,
    text = pre ++ String "`" (mid ++ String "`" post) /\
    all notBacktick pre = true /\ all notBacktick mid = true /\ mid <> "" /\
    rule.firstCodeValue text = mid.
Proof.
  unfold rule.firstCodeValue, strings.Index. cbv zeta.
  destruct (index_backtick text 0) as [[E _]|(pre & tail & E & A & I)].
  { rewrite E. cbn. intros H. contradiction H. reflexivity. }
  rewrite I. rewrite Z.add_0_l.
  assert (P : (strings.len pre =? -1) = false)
    by (apply Z.eqb_neq; unfold strings.len; lia).
  rewrite P.
  assert (D : strings.drop (Z.to_nat (strings.len pre + 1)) text = tail).
  { rewrite E. unfold strings.len.
    replace (Z.to_nat (Z.of_nat (String.length pre) + 1))
      with (String.length pre + 1)%nat by lia.
    rewrite <- drop_drop. rewrite drop_append. reflexivity. }
  rewrite D.
  destruct (index_backtick tail 0) as [[E' _]|(mid & post & E' & A' & I')].
  { rewrite E'. cbn. intros H. contradiction H. reflexivity. }
  rewrite I', Z.add_0_l.
  assert (P' : (strings.len mid =? -1) = false)
    by (apply Z.eqb_neq; unfold strings.len; lia).
  rewrite P'. unfold strings.len. rewrite Nat2Z.id, E', take_append.
  intros NE. exists pre, mid, post. rewrite E, E'. auto.
Qed.

Lemma search_skips r pre : forall rest pos,
  (forall ch tail p caps k, notBacktick ch = true ->
                            exec r p (String ch tail) caps k = None) ->
  all notBacktick pre = true ->
  search r pos (pre ++ rest) = search r (pos + strings.len pre) rest.
Proof.
  induction pre as [|ch pre IH]; intros rest pos F A.
  - unfold strings.len. cbn. rewrite Z.add_0_r. reflexivity.
  - cbn [all] in A. apply andb_true_iff in A. destruct A as [A1 A2].
    cbn [append search]. rewrite (F ch _ _ _ _ A1). rewrite IH by assumption.
    unfold strings.len. cbn [String.length]. f_equal. lia.
Qed.

Lemma codeReg_needs_backtick ch tail p caps k :
  notBacktick ch = true -> exec codeReg p (String ch tail) caps k = None.
Proof.
  intros B. unfold codeReg. cbn [Seq]. rewrite exec_Cat. cbn [exec].
  rewrite HasPrefix_backtick, B. reflexivity.
Qed.

Lemma exec_codeReg mid post pos caps k c :
  all notBacktick mid = true -> mid <> "" ->
  k (pos + strings.len mid + 2) post
    (set_cap 1 (pos + 1, pos + 1 + strings.len mid) caps) = Some c ->
  exec codeReg pos (String "`" (mid ++ String "`" post)) caps k = Some c.
Proof.
  intros A NE H. destruct mid as [|m mid]; [contradiction NE; reflexivity|].
  cbn [all] in A. apply andb_true_iff in A. destruct A as [A1 A2].
  unfold codeReg. cbn [Seq]. rewrite exec_Cat.
  change (exec (Lit "`") pos (String "`" (String m mid ++ String "`" post)) caps
            (fun pos' rest' caps' =>
               exec (Cat (Cap 1 (Plus (NoneOf "`"))) (Lit "`")) pos' rest' caps' k))
    with (exec (Cat (Cap 1 (Plus (NoneOf "`"))) (Lit "`")) (pos + 1)
               (String m mid ++ String "`" post) caps k).
  rewrite exec_Cat, exec_Cap. unfold Plus. rewrite exec_Cat.
  destruct oneChar_notBacktick as [_ E1]. cbn [append]. rewrite E1, A1.
  cbn [exec].
  apply (greedy_run (NoneOf "`") notBacktick _ oneChar_notBacktick mid (String "`" post)).
  - exact A2.
  - reflexivity.
  - rewrite length_append. lia.
  - cbn [strings.HasPrefix]. rewrite Ascii.eqb_refl. cbn [andb].
    replace (strings.HasPrefix post "") with true by (destruct post; reflexivity).
    cbn [strings.drop String.length].
    unfold strings.len in *. cbn [String.length] in *.
    replace (pos + 1 + 1 + Z.of_nat (String.length mid) + Z.of_nat 1)
      with (pos + Z.of_nat (S (String.length mid)) + 2) by lia.
    replace (pos + 1 + 1 + Z.of_nat (String.length mid))
      with (pos + 1 + Z.of_nat (S (String.length mid))) by lia.
    exact H.
Qed.

(** X20. Whenever [firstCodeValue] of rule S006 returns a value, it is
    the value [FirstCodeValue] of the parser returns for the same text;
    the two differ on a text whose first backtick is followed at once by
    another one. *)
Theorem first_code_values_agree :
  (forall text, rule.firstCodeValue text <> "" ->
                FirstCodeValue text = rule.firstCodeValue text) /\
  rule.firstCodeValue "``x`" = "" /\ FirstCodeValue "``x`" = "x".
Proof.
  split; [|split; vm_compute; reflexivity].
  intros text NE.
  destruct (firstCodeValue_shape text NE) as (pre & mid & post & E & A & A' & NM & V).
  rewrite V. unfold FirstCodeValue, FindStringSubmatch, FindStringSubmatchIndex. cbv zeta.
  rewrite E, (search_skips codeReg pre _ 0 codeReg_needs_backtick A).
  assert (S : search codeReg (0 + strings.len pre) (String "`" (mid ++ String "`" post))
              = Some [Some (strings.len pre, strings.len pre + strings.len mid + 2);
                      Some (strings.len pre + 1, strings.len pre + 1 + strings.len mid)]).
  { rewrite Z.add_0_l.
    assert (X : exec codeReg (strings.len pre) (String "`" (mid ++ String "`" post))
                     (repeat None (S (groups codeReg)))
                     (fun pos' _ caps => Some (set_cap 0 (strings.len pre, pos') caps))
                = Some [Some (strings.len pre, strings.len pre + strings.len mid + 2);
                        Some (strings.len pre + 1, strings.len pre + 1 + strings.len mid)]).
    { apply exec_codeReg; [exact A'|exact NM|reflexivity]. }
    cbn [search]. rewrite X. reflexivity. }
  rewrite S. cbn [map List.length len nth]. unfold parser.len. cbn [List.length].
  cbn [Z.ltb Z.of_nat Z.compare Pos.of_succ_nat Pos.succ Pos.compare Pos.compare_cont].
  unfold substr, strings.len.
  replace (Z.to_nat (Z.of_nat (String.length pre) + 1 + Z.of_nat (String.length mid)
                     - (Z.of_nat (String.length pre) + 1)))
    with (String.length mid) by lia.
  replace (Z.to_nat (Z.of_nat (String.length pre) + 1))
    with (String.length pre + 1)%nat by lia.
  rewrite <- drop_drop, drop_append. cbn [strings.drop]. apply take_append.
Qed.

Lemma first_code_values_agree_witness :
  rule.firstCodeValue "not available for `sku` of kind `B`" <> "" /\
  FirstCodeValue "not available for `sku` of kind `B`" = "sku".
Proof.
  assert (NE : rule.firstCodeValue "not available for `sku` of kind `B`" <> "")
    by (vm_compute; discriminate).
  split; [exact NE|].
  rewrite (proj1 first_code_values_agree _ NE). reflexivity.
Defined.

End CodeValueFacts.

Section PathComplete.
Import regexp.

Lemma path_advance r p0 r0 c0 p1 r1 c1 :
  path r p0 r0 c0 p1 r1 c1 -> advance p0 r0 p1 r1.
Proof.
  induction 1; try apply advance_refl; try (eapply advance_trans; eassumption);
    try assumption.
  - exists (String.length s). split; [apply HasPrefix_length; assumption|].
    split; reflexivity.
  - exists 1%nat. cbn. repeat split; lia.
  - exists 1%nat. cbn. repeat split; lia.
Qed.

Lemma nth_set_cap_other n m v : forall caps,
  n <> m -> nth n (set_cap m v caps) None = nth n caps None.
Proof.
  revert n. induction m as [|m IH]; intros n caps NE.
  - destruct caps as [|c caps]; destruct n as [|n]; try contradiction; cbn;
      [destruct n; reflexivity|reflexivity].
  - destruct caps as [|c caps]; destruct n as [|n]; cbn; try reflexivity.
    + rewrite IH by lia. destruct n; reflexivity.
    + apply IH. lia.
Qed.

(** A path changes only the groups of its pattern. *)
Lemma path_keeps r p0 r0 c0 p1 r1 c1 n :
  path r p0 r0 c0 p1 r1 c1 -> sets r n = false -> nth n c1 None = nth n c0 None.
Proof.
  induction 1; cbn [sets]; intros S; try reflexivity.
  - apply orb_false_iff in S. destruct S as [Sa Sb]. rewrite IHpath2, IHpath1; auto.
  - apply orb_false_iff in S. destruct S as [Sa Sb]. auto.
  - apply orb_false_iff in S. destruct S as [Sa Sb]. auto.
  - rewrite IHpath2, IHpath1; auto.
  - apply orb_false_iff in S. destruct S as [Sa Sb]. apply Nat.eqb_neq in Sa.
    rewrite nth_set_cap_other by auto. auto.
Qed.

(** Backtracking finds a match wherever a path leads to an offset at
    which the rest of the pattern matches. *)
Lemma path_complete r p0 r0 c0 p1 r1 c1 :
  path r p0 r0 c0 p1 r1 c1 ->
  (forall k c, k p1 r1 c1 = Some c -> exists c', exec r p0 r0 c0 k = Some c') /\
  match r with
  | Star greedy a =>
    forall k c fuel, (String.length r0 <= fuel)%nat -> k p1 r1 c1 = Some c ->
                     exists c', star greedy (exec a) k fuel p0 r0 c0 = Some c'
  | _ => True
  end.
Proof.
  induction 1 as [pos rest caps|s pos rest caps HP|neg rs pos ch rest caps IC
                  |pos ch rest caps NL|rest caps|pos caps
                  |a b p0 r0 c0 p1 r1 c1 p2 r2 c2 Pa [IHa _] Pb [IHb _]
                  |a b p0 r0 c0 p1 r1 c1 Pa [IHa _]
                  |a b p0 r0 c0 p1 r1 c1 Pb [IHb _]
                  |greedy a pos rest caps
                  |greedy a p0 r0 c0 p1 r1 c1 p2 r2 c2 Pa [IHa _] L Ps [_ IHs]
                  |n a p0 r0 c0 p1 r1 c1 Pa [IHa _]].
  - split; [|exact I]. intros k c H. exists c. exact H.
  - split; [|exact I]. intros k c H. exists c. cbn [exec]. rewrite HP. exact H.
  - split; [|exact I]. intros k c H. exists c. cbn [exec]. rewrite IC. exact H.
  - split; [|exact I]. intros k c H. exists c. cbn [exec]. rewrite NL. exact H.
  - split; [|exact I]. intros k c H. exists c. exact H.
  - split; [|exact I]. intros k c H. exists c. exact H.
  - split; [|exact I]. intros k c H. cbn [exec].
    destruct (IHb k c H) as (c' & E). apply (IHa _ c' E).
  - split; [|exact I]. intros k c H. cbn [exec]. destruct (IHa k c H) as (c' & E).
    rewrite E. exists c'. reflexivity.
  - split; [|exact I]. intros k c H. cbn [exec]. destruct (IHb k c H) as (c' & E).
    destruct (exec a p0 r0 c0 k) as [x|]; [exists x|exists c']; cbn; auto.
  - assert (G : forall k c fuel, k pos rest caps = Some c ->
                exists c', star greedy (exec a) k fuel pos rest caps = Some c').
    { intros k c fuel H. destruct fuel as [|fuel]; cbn [star]; [exists c; exact H|].
      destruct greedy.
      - destruct (exec a pos rest caps _) as [x|]; [exists x|exists c]; cbn; auto.
      - rewrite H. exists c. reflexivity. }
    split; [intros k c H; cbn [exec]; eapply G; exact H|].
    intros k c fuel _ H. eapply G; exact H.
  - assert (G : forall k c fuel, (String.length r0 <= fuel)%nat -> k p2 r2 c2 = Some c ->
                exists c', star greedy (exec a) k fuel p0 r0 c0 = Some c').
    { intros k c fuel F H.
      destruct (path_advance _ _ _ _ _ _ _ Pa) as (m & Lm & Er & Ep).
      assert (M : (0 < m)%nat) by lia.
      destruct fuel as [|fuel]; [lia|]. cbn [star].
      assert (F' : (String.length r1 <= fuel)%nat).
      { rewrite Er, drop_length by exact Lm. lia. }
      destruct (IHs k c fuel F' H) as (c' & E).
      destruct (IHa (fun pos' rest' caps' =>
                       if p0 <? pos' then star greedy (exec a) k fuel pos' rest' caps'
                       else None) c') as (c'' & E').
      { replace (p0 <? p1) with true by (symmetry; apply Z.ltb_lt; exact L). exact E. }
      rewrite E'. destruct greedy; cbn [orelse].
      - exists c''. reflexivity.
      - destruct (k p0 r0 c0) as [x|]; [exists x|exists c'']; reflexivity. }
    split; [intros k c H; cbn [exec]; eapply G; [reflexivity|exact H]|].
    exact G.
  - split; [|exact I]. intros k c H. cbn [exec]. eapply IHa. exact H.
Qed.

End PathComplete.

Section ShapeFacts.
Import regexp parser.

Lemma range_one c ch :
  (byte_of c <=? byte_of ch) && (byte_of ch <=? byte_of c) = Ascii.eqb ch c.
Proof.
  destruct (Ascii.eqb ch c) eqn:E.
  - apply Ascii.eqb_eq in E. subst. rewrite Z.leb_refl. reflexivity.
  - apply Ascii.eqb_neq in E.
    destruct (byte_of c <=? byte_of ch) eqn:L1; [|reflexivity].
    destruct (byte_of ch <=? byte_of c) eqn:L2; [|reflexivity].
    exfalso. apply E. apply byte_of_inj. apply Z.leb_le in L1, L2. lia.
Qed.

Lemma OneOf_bullet ch : in_class false [("*", "*"); ("-", "-")]%char ch = isBullet ch.
Proof.
  unfold in_class, isBullet. cbn [existsb fst snd xorb]. rewrite !range_one.
  rewrite orb_false_r. reflexivity.
Qed.

Lemma byte_of_range ch : 0 <= byte_of ch < 256.
Proof.
  unfold byte_of. pose proof (N_ascii_bounded ch) as B. lia.
Qed.

Lemma byte_of_ascii_of b : 0 <= b < 256 -> byte_of (ascii_of b) = b.
Proof.
  intros B. unfold byte_of, ascii_of. rewrite N_ascii_embedding; lia.
Qed.

Lemma ascii_of_byte_of ch : ascii_of (byte_of ch) = ch.
Proof. unfold byte_of, ascii_of. rewrite N2Z.id. apply ascii_N_embedding. Qed.

Lemma isWord_byte ch :
  isWord ch = true <->
  (97 <= byte_of ch <= 122 \/ 65 <= byte_of ch <= 90 \/ 48 <= byte_of ch <= 57
   \/ byte_of ch = 95).
Proof.
  unfold isWord, in_class. cbn [existsb fst snd xorb].
  change (byte_of "a") with 97. change (byte_of "z") with 122.
  change (byte_of "A") with 65. change (byte_of "Z") with 90.
  change (byte_of "0") with 48. change (byte_of "9") with 57.
  change (byte_of "_") with 95.
  rewrite !orb_true_iff, !andb_true_iff, !Z.leb_le. cbn. lia.
Qed.

Lemma isWord_plain ch :
  isWord ch = true ->
  notBacktick ch = true /\ isSpace ch = false /\ (byte_of ch =? 10) = false /\
  (byte_of ch <? 128) = true.
Proof.
  intros W. apply isWord_byte in W.
  assert (N : forall c, byte_of ch <> byte_of c -> Ascii.eqb ch c = false).
  { intros c NE. apply Ascii.eqb_neq. intros ->. apply NE. reflexivity. }
  unfold notBacktick, isSpace. rewrite (N "`"%char), (N " "%char).
  - repeat split; [apply Z.eqb_neq|apply Z.ltb_lt]; lia.
  - change (byte_of " ") with 32. lia.
  - change (byte_of "`") with 96. lia.
Qed.

Lemma isWord_lower ch : isWord ch = true -> isWord (lower ch) = true.
Proof.
  intros W. unfold lower.
  destruct ((65 <=? byte_of ch) && (byte_of ch <=? 90)) eqn:U; [|exact W].
  apply andb_true_iff in U. destruct U as [U1 U2]. apply Z.leb_le in U1, U2.
  apply isWord_byte. rewrite byte_of_ascii_of by lia. lia.
Qed.

Lemma lowerASCII_word w : all isWord w = true -> all isWord (strings.lowerASCII w) = true.
Proof.
  induction w as [|ch w IH]; cbn [all strings.lowerASCII]; [reflexivity|].
  intros A. apply andb_true_iff in A. destruct A as [A1 A2].
  fold (lower ch). rewrite (isWord_lower ch A1), IH by exact A2. reflexivity.
Qed.

Lemma lowerASCII_append a b :
  strings.lowerASCII (a ++ b) = strings.lowerASCII a ++ strings.lowerASCII b.
Proof.
  induction a as [|ch a IH]; cbn [append strings.lowerASCII]; [reflexivity|].
  rewrite IH. reflexivity.
Qed.

Lemma isASCII_append a b :
  strings.isASCII (a ++ b) = strings.isASCII a && strings.isASCII b.
Proof.
  induction a as [|ch a IH]; cbn [append strings.isASCII]; [reflexivity|].
  rewrite IH. apply andb_assoc.
Qed.

Lemma bytes_app a b : bytes (a ++ b)%list = bytes a ++ bytes b.
Proof. induction a as [|x a IH]; cbn; [reflexivity|rewrite IH; reflexivity]. Qed.

(** Lower-casing leaves the offsets of an ASCII prefix in place, whatever
    follows it. *)
Lemma ToLower_prefix pre : forall rest,
  strings.isASCII pre = true ->
  exists rest', strings.ToLower (pre ++ rest) = strings.lowerASCII pre ++ rest'.
Proof.
  intros rest A. unfold strings.ToLower.
  destruct (strings.isASCII (pre ++ rest)).
  { exists (strings.lowerASCII rest). apply lowerASCII_append. }
  exists (strings.Map unicode.ToLower rest).
  induction pre as [|ch pre IH]; [reflexivity|].
  cbn [strings.isASCII] in A. apply andb_true_iff in A. destruct A as [A1 A2].
  cbn [append strings.lowerASCII]. rewrite <- (IH A2). clear IH.
  unfold strings.Map. cbn [String.length byte_list utf8.runes utf8.DecodeRune].
  change utf8.RuneSelf with 128 in A1. rewrite A1. cbn [skipn flat_map].
  rewrite bytes_app. f_equal.
  apply Z.ltb_lt in A1. pose proof (byte_of_range ch) as B.
  unfold unicode.ToLower.
  replace (byte_of ch <=? 127) with true by (symmetry; apply Z.leb_le; lia).
  destruct ((65 <=? byte_of ch) && (byte_of ch <=? 90)) eqn:U.
  - apply andb_true_iff in U. destruct U as [U1 U2]. apply Z.leb_le in U1, U2.
    replace (0 <=? byte_of ch + 32) with true by (symmetry; apply Z.leb_le; lia).
    unfold utf8.EncodeRune.
    replace ((0 <=? byte_of ch + 32) && (byte_of ch + 32 <? 128)) with true; [reflexivity|].
    symmetry. apply andb_true_iff. split; [apply Z.leb_le|apply Z.ltb_lt]; lia.
  - replace (0 <=? byte_of ch) with true by (symmetry; apply Z.leb_le; lia).
    unfold utf8.EncodeRune.
    replace ((0 <=? byte_of ch) && (byte_of ch <? 128)) with true.
    + cbn [bytes]. rewrite ascii_of_byte_of. reflexivity.
    + symmetry. apply andb_true_iff. split; [apply Z.leb_le|apply Z.ltb_lt]; lia.
Qed.

End ShapeFacts.

Section ShapeMatch.
Import regexp types parser.

Lemma exec_Bol0 rest caps k : exec Bol 0 rest caps k = k 0 rest caps.
Proof. reflexivity. Qed.

Lemma exec_Class neg rs pos ch rest caps k :
  exec (Class neg rs) pos (String ch rest) caps k
  = if in_class neg rs ch then k (pos + 1) rest caps else None.
Proof. reflexivity. Qed.

Lemma exec_Lit s pos rest caps k :
  exec (Lit s) pos rest caps k
  = if strings.HasPrefix rest s
    then k (pos + strings.len s) (strings.drop (String.length s) rest) caps
    else None.
Proof. reflexivity. Qed.

Lemma exec_Star greedy a pos rest caps k :
  exec (Star greedy a) pos rest caps k
  = star greedy (exec a) k (String.length rest) pos rest caps.
Proof. reflexivity. Qed.

Lemma HasPrefix_nil s : strings.HasPrefix s "" = true.
Proof. destruct s; reflexivity. Qed.

Lemma spaces_length n : String.length (spaces n) = n.
Proof. induction n as [|n IH]; cbn; [reflexivity|rewrite IH; reflexivity]. Qed.

Lemma spaces_all n : all isSpace (spaces n) = true.
Proof. induction n as [|n IH]; cbn; [reflexivity|exact IH]. Qed.

Lemma spaces_notBacktick n : all notBacktick (spaces n) = true.
Proof. induction n as [|n IH]; cbn; [reflexivity|exact IH]. Qed.

Lemma spaces_ASCII n : strings.isASCII (spaces n) = true.
Proof. induction n as [|n IH]; cbn; [reflexivity|exact IH]. Qed.

Lemma spaces_lower n : strings.lowerASCII (spaces n) = spaces n.
Proof. induction n as [|n IH]; cbn; [reflexivity|rewrite IH; reflexivity]. Qed.

Lemma word_ASCII w : all isWord w = true -> strings.isASCII w = true.
Proof.
  induction w as [|ch w IH]; cbn [all strings.isASCII]; [reflexivity|].
  intros A. apply andb_true_iff in A. destruct A as [A1 A2].
  destruct (isWord_plain ch A1) as (_ & _ & _ & L).
  change utf8.RuneSelf with 128. rewrite L, IH by exact A2. reflexivity.
Qed.

Lemma word_notNL w : all isWord w = true -> all (fun ch => negb (byte_of ch =? 10)) w = true.
Proof.
  induction w as [|ch w IH]; cbn [all]; [reflexivity|].
  intros A. apply andb_true_iff in A. destruct A as [A1 A2].
  destruct (isWord_plain ch A1) as (_ & _ & N & _). rewrite N, IH by exact A2. reflexivity.
Qed.

Lemma isBullet_plain ch :
  isBullet ch = true -> notBacktick ch = true /\ lower ch = ch /\ (byte_of ch <? 128) = true.
Proof.
  unfold isBullet. intros B. apply orb_true_iff in B.
  destruct B as [B|B]; apply Ascii.eqb_eq in B; subst ch; repeat split.
Qed.

(** Within a word followed by [tail], every offset starts with a word
    character. *)
Lemma drop_in_word w tail : forall i,
  all isWord w = true -> (i < String.length w)%nat ->
  exists ch rest, strings.drop i (w ++ tail) = String ch rest /\ isWord ch = true.
Proof.
  induction w as [|c w IH]; intros i A L; [cbn [String.length] in L; lia|].
  cbn [all] in A. apply andb_true_iff in A. destruct A as [A1 A2].
  destruct i as [|i]; cbn [append strings.drop].
  - exists c, (w ++ tail). auto.
  - apply IH; [exact A2|cbn [String.length] in L; lia].
Qed.

Lemma path_spaces n : forall pos tail caps,
  exists pos', path (Star true sp) pos (spaces n ++ tail) caps pos' tail caps.
Proof.
  induction n as [|n IH]; intros pos tail caps.
  - exists pos. apply path_Star_stop.
  - destruct (IH (pos + 1) tail caps) as (pos' & P). exists pos'.
    apply (path_Star_more true sp pos (String " " (spaces n ++ tail)) caps
                          (pos + 1) (spaces n ++ tail) caps pos' tail caps);
      [|lia|exact P].
    apply (path_Lit " " pos (String " " (spaces n ++ tail)) caps).
    cbn. apply HasPrefix_nil.
Qed.

(** The rest of [fieldReg] matches what follows the name. *)
Lemma afterName_path gap description pos caps :
  exists pos' rest' caps',
    path afterName pos
         (String "`" (spaces (S gap) ++ String "-" (String " " description)))
         caps pos' rest' caps'.
Proof.
  destruct (path_spaces gap (pos + 1 + 1) (String "-" (String " " description)) caps)
    as (p1 & P1).
  do 3 eexists. unfold afterName. cbn [Seq].
  eapply path_Cat.
  { apply path_Lit. cbn; first [reflexivity|apply HasPrefix_nil]. }
  cbn [strings.drop String.length]. unfold strings.len. cbn [String.length Z.of_nat Pos.of_succ_nat].
  eapply path_Cat.
  { unfold Plus. eapply path_Cat; [|exact P1].
    apply (path_Lit " " (pos + 1) (String " " (spaces gap ++ _)) caps).
    cbn; first [reflexivity|apply HasPrefix_nil]. }
  eapply path_Cat.
  { apply path_Lit. cbn; first [reflexivity|apply HasPrefix_nil]. }
  cbn [strings.drop String.length].
  eapply path_Cat.
  { unfold Plus. eapply path_Cat; [|apply path_Star_stop].
    apply path_Lit. cbn; first [reflexivity|apply HasPrefix_nil]. }
  cbn [strings.drop String.length].
  eapply path_Cat; [apply path_Alt_r, path_Empty|].
  eapply path_Cat; [apply path_Alt_r, path_Empty|].
  apply path_Cap, path_Star_stop.
Qed.

Lemma nth_set_cap_same n v : forall caps,
  nth n (set_cap n v caps) None = Some v.
Proof.
  induction n as [|n IH]; intros [|c caps]; cbn; auto.
Qed.

(** [fieldReg] on a line of the documented shape: it matches from the
    start, and its first group is the name. *)
Lemma fieldReg_on_fieldLine bullet indent name gap description :
  isBullet bullet = true -> all isWord name = true ->
  exists c,
    search fieldReg 0 (fieldLine bullet indent name gap description) = Some c /\
    nth 1 c None = Some (Z.of_nat indent + 2, Z.of_nat indent + 2 + strings.len name).
Proof.
  intros B W.
  set (tail := String "`" (spaces (S gap) ++ String "-" (String " " description))).
  set (k := fun (pos' : Z) (_ : string) (caps : captures) => Some (set_cap 0 (0, pos') caps)).
  set (caps0 := repeat (@None (Z * Z)) (S (groups fieldReg))).
  set (p := Z.of_nat indent + 2).
  set (caps1 := set_cap 1 (p, p + strings.len name) caps0).
  destruct (afterName_path gap description (p + strings.len name) caps1)
    as (p' & r' & c' & P).
  assert (K : k p' r' c' = Some (set_cap 0 (0, p') c')) by reflexivity.
  destruct (proj1 (path_complete _ _ _ _ _ _ _ P) k _ K) as (c & E).
  exists c. split.
  - assert (X : exec fieldReg 0 (fieldLine bullet indent name gap description) caps0 k
                = Some c).
    { change fieldReg
        with (Cat Bol (Cat (Class false [("*", "*"); ("-", "-")]%char)
                (Cat (Star true sp) (Cat (Lit "`")
                   (Cat (Cap 1 (Star false AnyNotNL)) afterName))))).
      unfold fieldLine.
      rewrite exec_Cat, exec_Bol0. cbv beta.
      rewrite exec_Cat, exec_Class, OneOf_bullet, B. cbv beta.
      rewrite exec_Cat, exec_Star.
      apply (greedy_run sp isSpace _ oneChar_space (spaces indent)).
      + apply spaces_all.
      + reflexivity.
      + rewrite length_append. lia.
      + rewrite exec_Cat, exec_Lit. cbn [strings.HasPrefix]. rewrite Ascii.eqb_refl, HasPrefix_nil.
        cbn [andb strings.drop String.length]. rewrite exec_Cat, exec_Cap, exec_Star.
        replace (0 + 1 + strings.len (spaces indent) + strings.len "`") with p
          by (unfold strings.len; rewrite spaces_length; cbn [String.length]; subst p; lia).
        apply (lazy_run AnyNotNL _ _ oneChar_AnyNotNL name).
        * apply word_notNL. exact W.
        * intros i L.
          destruct (drop_in_word name tail i W L) as (ch & rest & D & Wc).
          fold tail. rewrite D. unfold afterName. cbn [Seq]. rewrite exec_Cat, exec_Lit.
          rewrite HasPrefix_backtick.
          destruct (isWord_plain ch Wc) as (NB & _). rewrite NB. reflexivity.
        * rewrite length_append. lia.
        * exact E. }
    unfold fieldLine in *. cbn [search]. fold caps0. fold k. rewrite X. reflexivity.
  - apply exec_path in E. destruct E as (p2 & r2 & c2 & P2 & E).
    assert (C : c = set_cap 0 (0, p2) c2) by (subst k; cbv beta in E; congruence).
    rewrite C.
    rewrite nth_set_cap_other by lia.
    rewrite (path_keeps _ _ _ _ _ _ _ 1%nat P2) by reflexivity.
    subst caps1. apply nth_set_cap_same.
Qed.

End ShapeMatch.

Section ShapeTheorems.
Import regexp types parser.

Lemma append_assoc_string (a b c : string) : (a ++ b) ++ c = a ++ (b ++ c).
Proof. induction a as [|ch a IH]; cbn; [reflexivity|rewrite IH; reflexivity]. Qed.

Lemma drop_spaces n b ch tail :
  strings.drop (S (S n)) (String b (spaces n ++ String ch tail)) = tail.
Proof.
  change (strings.drop (S n) (spaces n ++ String ch tail) = tail).
  induction n as [|n IH]; cbn [spaces append strings.drop]; [reflexivity|exact IH].
Qed.

(** The name the extraction settles on for a line of the documented
    shape. *)
Lemma fieldName_fieldLine bullet indent name gap description :
  isBullet bullet = true -> all isWord name = true -> name <> "" ->
  fieldName (fieldLine bullet indent name gap description) = name /\
  wellFormed (fieldLine bullet indent name gap description) = true.
Proof.
  intros B W NE.
  destruct (fieldReg_on_fieldLine bullet indent name gap description B W) as (c & Sc & N).
  assert (WF : wellFormed (fieldLine bullet indent name gap description) = true).
  { unfold wellFormed, MatchString, FindStringSubmatchIndex. rewrite Sc. reflexivity. }
  split; [|exact WF].
  unfold fieldName. cbv zeta. rewrite fieldReg_len, WF.
  unfold FindStringSubmatch, FindStringSubmatchIndex. rewrite Sc.
  change EmptyString with (substr (fieldLine bullet indent name gap description) None) at 1 3.
  rewrite map_nth, N.
  assert (V : substr (fieldLine bullet indent name gap description)
                     (Some (Z.of_nat indent + 2, Z.of_nat indent + 2 + strings.len name))
              = name).
  { unfold substr, strings.len.
    replace (Z.to_nat (Z.of_nat indent + 2 + Z.of_nat (String.length name)
                       - (Z.of_nat indent + 2))) with (String.length name) by lia.
    replace (Z.to_nat (Z.of_nat indent + 2)) with (S (S indent)) by lia.
    unfold fieldLine. rewrite drop_spaces. apply take_append. }
  rewrite V.
  destruct (String.eqb name "") eqn:E; [apply String.eqb_eq in E; contradiction|].
  reflexivity.
Qed.

Lemma blockTypeReg_needs_backtick ch tail p caps k :
  notBacktick ch = true -> exec blockTypeReg p (String ch tail) caps k = None.
Proof.
  intros B. unfold blockTypeReg. cbn [Seq]. rewrite exec_Cat, exec_Lit.
  rewrite HasPrefix_backtick, B. reflexivity.
Qed.

Lemma oneChar_word : oneChar word isWord.
Proof. split; reflexivity. Qed.

Lemma exec_blockTypeReg mid post pos caps k c :
  all isWord mid = true -> mid <> "" ->
  k (pos + strings.len mid + 2) post
    (set_cap 1 (pos + 1, pos + 1 + strings.len mid) caps) = Some c ->
  exec blockTypeReg pos (String "`" (mid ++ String "`" post)) caps k = Some c.
Proof.
  intros A NE H. destruct mid as [|m mid]; [contradiction NE; reflexivity|].
  cbn [all] in A. apply andb_true_iff in A. destruct A as [A1 A2].
  unfold blockTypeReg. cbn [Seq]. rewrite exec_Cat, exec_Lit.
  cbn [strings.HasPrefix]. rewrite Ascii.eqb_refl, HasPrefix_nil.
  cbn [andb strings.drop String.length].
  rewrite exec_Cat, exec_Cap. unfold Plus. rewrite exec_Cat.
  destruct oneChar_word as [_ E1]. cbn [append]. rewrite E1, A1.
  rewrite exec_Star.
  apply (greedy_run word isWord _ oneChar_word mid (String "`" post)).
  - exact A2.
  - reflexivity.
  - rewrite length_append. lia.
  - rewrite exec_Lit. cbn [strings.HasPrefix]. rewrite Ascii.eqb_refl, HasPrefix_nil.
    cbn [andb strings.drop String.length].
    unfold strings.len in *. cbn [String.length] in *.
    replace (pos + Z.of_nat 1 + 1 + Z.of_nat (String.length mid) + Z.of_nat 1)
      with (pos + Z.of_nat (S (String.length mid)) + 2) by lia.
    replace (pos + Z.of_nat 1 + 1 + Z.of_nat (String.length mid))
      with (pos + 1 + Z.of_nat (S (String.length mid))) by lia.
    replace (pos + Z.of_nat 1) with (pos + 1) by lia.
    exact H.
Qed.

(** [extractBlockTypeName] takes the first identifier in backticks of the
    lower-cased line, whatever the words before [block] are. *)
Lemma extractBlockTypeName_first line fieldName pre mid post :
  strings.ToLower line = pre ++ String "`" (mid ++ String "`" post) ->
  all notBacktick pre = true -> all isWord mid = true -> mid <> "" ->
  extractBlockTypeName line fieldName
  = strings.slice line (strings.len pre + 1) (strings.len pre + 1 + strings.len mid).
Proof.
  intros E A W NE. unfold extractBlockTypeName, FindAllStringSubmatchIndex. rewrite E.
  cbn [find_all].
  rewrite (search_skips blockTypeReg pre _ 0 blockTypeReg_needs_backtick A).
  assert (Sb : search blockTypeReg (0 + strings.len pre)
                     (String "`" (mid ++ String "`" post))
              = Some [Some (strings.len pre, strings.len pre + strings.len mid + 2);
                      Some (strings.len pre + 1, strings.len pre + 1 + strings.len mid)]).
  { rewrite Z.add_0_l. cbn [search].
    rewrite (exec_blockTypeReg mid post (strings.len pre) _ _
               [Some (strings.len pre, strings.len pre + strings.len mid + 2);
                Some (strings.len pre + 1, strings.len pre + 1 + strings.len mid)]);
      [reflexivity|exact W|exact NE|reflexivity]. }
  rewrite Sb. cbn [nth].
  assert (H : (strings.len pre + strings.len mid + 2 =? 0) = false)
    by (apply Z.eqb_neq; unfold strings.len; lia).
  rewrite H. reflexivity.
Qed.

Lemma notBacktick_append a b :
  all notBacktick (a ++ b) = all notBacktick a && all notBacktick b.
Proof.
  induction a as [|ch a IH]; cbn [append all]; [reflexivity|].
  rewrite IH. apply andb_assoc.
Qed.

Lemma extractBlockTypeName_fieldLine bullet indent name gap description fieldName :
  isBullet bullet = true -> all isWord name = true -> name <> "" ->
  extractBlockTypeName (fieldLine bullet indent name gap description) fieldName = Ok name.
Proof.
  intros B W NE.
  destruct (isBullet_plain bullet B) as (NB & LB & AB).
  set (rest := spaces (S gap) ++ String "-" (String " " description)).
  assert (L : fieldLine bullet indent name gap description
              = String bullet (spaces indent ++ String "`" (name ++ "`")) ++ rest).
  { unfold fieldLine. cbn [append]. f_equal. rewrite append_assoc_string. cbn [append].
    do 2 f_equal. rewrite append_assoc_string. reflexivity. }
  assert (A : strings.isASCII (String bullet (spaces indent ++ String "`" (name ++ "`")))
              = true).
  { cbn [strings.isASCII]. change utf8.RuneSelf with 128. rewrite AB.
    rewrite isASCII_append, spaces_ASCII. cbn [strings.isASCII andb].
    rewrite isASCII_append, (word_ASCII name W). reflexivity. }
  destruct (ToLower_prefix _ rest A) as (rest' & T).
  rewrite <- L in T.
  assert (T' : strings.ToLower (fieldLine bullet indent name gap description)
               = String bullet (spaces indent)
                 ++ String "`" (strings.lowerASCII name ++ String "`" rest')).
  { rewrite T. cbn [strings.lowerASCII append]. fold (lower bullet). rewrite LB. f_equal.
    rewrite lowerASCII_append, spaces_lower. cbn [strings.lowerASCII].
    rewrite append_assoc_string. cbn [append]. do 2 f_equal.
    rewrite lowerASCII_append. cbn [strings.lowerASCII].
    rewrite append_assoc_string. reflexivity. }
  rewrite (extractBlockTypeName_first _ fieldName _ _ _ T').
  - unfold strings.slice, strings.len. cbn [String.length].
    rewrite spaces_length, lowerASCII_length.
    assert (Len : String.length (fieldLine bullet indent name gap description)
                  = (S (indent + S (String.length name + S (S (gap + 2
                                   + String.length description)))))%nat).
    { unfold fieldLine. cbn [String.length]. rewrite length_append. cbn [String.length].
      rewrite length_append. cbn [String.length].
      rewrite (length_append (spaces (S gap))), !spaces_length.
      cbn [String.length]. lia. }
    rewrite Len.
    replace ((0 <=? Z.of_nat (S indent) + 1)
             && (Z.of_nat (S indent) + 1 <=? Z.of_nat (S indent) + 1
                                              + Z.of_nat (String.length name))
             && (Z.of_nat (S indent) + 1 + Z.of_nat (String.length name)
                 <=? Z.of_nat (S (indent + S (String.length name + S (S (gap + 2
                                   + String.length description)))))))
      with true.
    + f_equal.
      replace (Z.to_nat (Z.of_nat (S indent) + 1 + Z.of_nat (String.length name)
                         - (Z.of_nat (S indent) + 1))) with (String.length name) by lia.
      replace (Z.to_nat (Z.of_nat (S indent) + 1)) with (S (S indent)) by lia.
      unfold fieldLine. rewrite drop_spaces. apply take_append.
    + symmetry. rewrite !andb_true_iff, !Z.leb_le. lia.
  - cbn [append all]. rewrite NB. apply spaces_notBacktick.
  - apply lowerASCII_word. exact W.
  - intros E. apply NE. destruct name; [reflexivity|discriminate E].
Qed.

End ShapeTheorems.

Section ShapeExtraction.
Import regexp types parser.

(** The block type name of a result is what [extractBlockTypeName]
    returned for the line. *)
Lemma ExtractFieldFromLine_typeName line position n f :
  ExtractFieldFromLine line position n = Ok f ->
  guessBlockProperty line = true -> Block f = true ->
  exists fieldName, extractBlockTypeName line fieldName = Ok (BlockTypeName f).
Proof.
  unfold ExtractFieldFromLine. cbv zeta. intros H G Bf.
  match type of H with (if ?c then _ else _) = _ => destruct c end.
  - inversion H; subst f. exfalso. revert Bf.
    destruct (String.eqb (getDefaultValue line) "");
      destruct (_ || _); cbn; discriminate.
  - bind_ok H. rewrite G in H. bind_ok H. inversion H; subst f.
    eexists. cbn [BlockTypeName set_Block]. exact E0.
Qed.

(** X21. On a line of the documented shape (a bullet, an identifier in
    backticks, a dash between spaces, the description) the field is named
    by the identifier, and a field taken for a block gets its own name as
    block type name, whatever block the description names. *)
Theorem fieldLine_names_itself bullet indent name gap description position n f :
  isBullet bullet = true -> all isWord name = true -> name <> "" ->
  ExtractFieldFromLine (fieldLine bullet indent name gap description) position n = Ok f ->
  Name f = name /\ (Block f = true -> BlockTypeName f = name).
Proof.
  intros B W NE H.
  destruct (fieldName_fieldLine bullet indent name gap description B W NE) as [FN _].
  assert (NF : fieldName (fieldLine bullet indent name gap description) <> "")
    by (rewrite FN; exact NE).
  destruct (ExtractFieldFromLine_named _ _ _ _ H NF)
    as (enums & N & _ & _ & _ & _ & _ & _ & _ & _ & _ & _ & Bl & _).
  split; [rewrite N; exact FN|].
  intros Bf. rewrite Bf in Bl. symmetry in Bl.
  destruct (ExtractFieldFromLine_typeName _ _ _ _ H Bl Bf) as (x & T).
  rewrite (extractBlockTypeName_fieldLine bullet indent name gap description x B W NE) in T.
  inversion T. reflexivity.
Qed.

Lemma fieldLine_names_itself_witness :
  exists f,
    ExtractFieldFromLine
      "* `identity` - (Optional) A `managed_identity` block as defined below." PosArgs 7
    = Ok f /\
    Name f = "identity" /\ Block f = true /\ BlockTypeName f = "identity".
Proof.
  let r := eval vm_compute in
      (ExtractFieldFromLine
         "* `identity` - (Optional) A `managed_identity` block as defined below." PosArgs 7) in
  match r with
  | Ok ?f =>
    exists f;
    assert (E : ExtractFieldFromLine
                  (fieldLine "*" 1 "identity" 0
                             "(Optional) A `managed_identity` block as defined below.")
                  PosArgs 7 = Ok f) by (vm_compute; reflexivity);
    assert (Bf : Block f = true) by reflexivity;
    split; [exact E|];
    destruct (fieldLine_names_itself "*" 1 "identity" 0
                "(Optional) A `managed_identity` block as defined below." PosArgs 7 f
                eq_refl eq_refl ltac:(discriminate) E) as [N T];
    split; [exact N|split; [exact Bf|exact (T Bf)]]
  end.
Defined.

End ShapeExtraction.

(** ** The structured parser next to the field parser *)
Section StructuredEnums.
Import regexp types.

Lemma TrimLeft_ext a b : (forall c, strings.mem c a = strings.mem c b) ->
  forall s, strings.TrimLeft s a = strings.TrimLeft s b.
Proof.
  intros H. induction s as [|c s IH]; cbn; [reflexivity|].
  rewrite H, IH. reflexivity.
Qed.

Lemma TrimRight_ext a b : (forall c, strings.mem c a = strings.mem c b) ->
  forall s, strings.TrimRight s a = strings.TrimRight s b.
Proof.
  intros H. induction s as [|c s IH]; cbn; [reflexivity|].
  rewrite H, IH. reflexivity.
Qed.

Lemma Trim_sets s : strings.Trim s structured.trimSet = strings.Trim s parser.trimSet.
Proof.
  assert (H : forall c, strings.mem c structured.trimSet = strings.mem c parser.trimSet).
  { intros c. cbn.
    repeat match goal with |- context [Ascii.eqb c ?x] => destruct (Ascii.eqb c x) end;
      reflexivity. }
  unfold strings.Trim. rewrite (TrimRight_ext _ _ H). apply TrimLeft_ext. exact H.
Qed.

(** The two loops over the code spans collect the same values and panic
    together. *)
Lemma enumLoop_same subStr sepIdx : forall enumIndex pointEnd enums field,
  structured.enumLoop subStr enumIndex pointEnd enums
  = (r <- parser.enumLoop subStr sepIdx enumIndex pointEnd enums field ;; Ok (fst r)).
Proof.
  induction enumIndex as [|[start end_] rest IH]; intros pointEnd enums field;
    cbn [structured.enumLoop parser.enumLoop]; [reflexivity|].
  destruct ((start <? pointEnd) && (pointEnd <? end_)).
  - destruct (strings.slice_from subStr end_) as [tail|m]; cbn [bind]; [|reflexivity].
    assert (P : (if strings.Index tail "." <? 0 then strings.len subStr
                 else strings.Index tail "." + end_)
                = (if 0 <=? strings.Index tail "." then end_ + strings.Index tail "."
                   else strings.len subStr)).
    { destruct (strings.Index tail "." <? 0) eqn:A; destruct (0 <=? strings.Index tail ".") eqn:B;
        try reflexivity; [apply Z.ltb_lt in A; apply Z.leb_le in B; lia|lia|].
      apply Z.ltb_ge in A. apply Z.leb_gt in B. lia. }
    rewrite P. destruct (_ <? start); [reflexivity|].
    destruct (strings.slice subStr start end_) as [tok|m]; cbn [bind]; [|reflexivity].
    rewrite Trim_sets. apply IH.
  - cbn [bind]. destruct (pointEnd <? start); [reflexivity|].
    destruct (strings.slice subStr start end_) as [tok|m]; cbn [bind]; [|reflexivity].
    rewrite Trim_sets. apply IH.
Qed.

(** X22. [StructuredParser.extractPossibleValues] panics on the lines on
    which [extractPossibleValues] of the field parser does; where the field
    parser records no error it returns the same values, and where the
    field parser records the error of a second section and keeps the
    values, it returns nil. *)
Theorem structured_enums_or_nil line field :
  match parser.extractPossibleValues line field with
  | Ok (enums, field') =>
    (parser.ParseErrors field' = parser.ParseErrors field /\
     structured.extractPossibleValues line = Ok enums) \/
    (parser.ParseErrors field'
     = (parser.ParseErrors field ++ [parser.multipleSections])%list /\
     structured.extractPossibleValues line = Ok [])
  | Panic msg => structured.extractPossibleValues line = Panic msg
  end.
Proof.
  unfold parser.extractPossibleValues, structured.extractPossibleValues. cbv zeta.
  change structured.possibleValueSep with parser.possibleValueSep.
  destruct (parser.possibleValueSep line <=? 0) eqn:L.
  - replace (0 <? parser.possibleValueSep line) with false
      by (symmetry; apply Z.ltb_ge; apply Z.leb_le in L; exact L).
    left. auto.
  - replace (0 <? parser.possibleValueSep line) with true
      by (symmetry; apply Z.ltb_lt; apply Z.leb_gt in L; exact L).
    destruct (strings.slice_from line (parser.possibleValueSep line)) as [subStr|m];
      cbn [bind]; [|reflexivity].
    rewrite (enumLoop_same subStr (parser.possibleValueSep line) _ _ _
               (parser.set_EnumStart (parser.possibleValueSep line) field)).
    destruct (parser.enumLoop _ _ _ _ _ _) as [[enums field']|m] eqn:E; cbn [bind fst];
      [|reflexivity].
    assert (P : parser.ParseErrors field' = parser.ParseErrors field).
    { destruct (enumLoop_keeps _ _ _ _ _ _ _ _ E) as (_ & K & _). exact K. }
    destruct (strings.slice_from line (parser.possibleValueSep line + 1)) as [after|m];
      cbn [bind]; [|reflexivity].
    destruct (0 <=? parser.possibleValueSep after); [right|left]; split; auto.
    cbn [parser.ParseErrors parser.add_ParseError]. rewrite P. reflexivity.
Qed.

Lemma structured_enums_or_nil_witness :
  exists enums field',
    parser.extractPossibleValues
      "The kind. Possible values are `A`, `B`. Must be one of `C`."
      (parser.newField "" 0 PosArgs) = Ok (enums, field') /\
    enums = ["A"; "B"] /\
    structured.extractPossibleValues
      "The kind. Possible values are `A`, `B`. Must be one of `C`." = Ok [].
Proof.
  let r := eval vm_compute in
      (parser.extractPossibleValues
         "The kind. Possible values are `A`, `B`. Must be one of `C`."
         (parser.newField "" 0 PosArgs)) in
  match r with
  | Ok (?enums, ?f') =>
    exists enums, f';
    assert (E : parser.extractPossibleValues
                  "The kind. Possible values are `A`, `B`. Must be one of `C`."
                  (parser.newField "" 0 PosArgs) = Ok (enums, f'))
      by (vm_compute; reflexivity);
    pose proof (structured_enums_or_nil
                  "The kind. Possible values are `A`, `B`. Must be one of `C`."
                  (parser.newField "" 0 PosArgs)) as T;
    rewrite E in T;
    destruct T as [[P _]|[_ S]];
      [exfalso; vm_compute in P; discriminate P
      |split; [exact E|split; [reflexivity|exact S]]]
  end.
Defined.

End StructuredEnums.

Section StructuredScan.
Import regexp structured.

Lemma positionAt_next : forall lines i current,
  (i < List.length lines)%nat ->
  positionAt lines (S i) current
  = if detectPosition (nth i lines "") =? -1 then positionAt lines i current
    else detectPosition (nth i lines "").
Proof.
  induction lines as [|line lines IH]; intros i current L; [cbn in L; lia|].
  destruct i as [|i].
  - cbn [positionAt nth]. destruct lines; reflexivity.
  - cbn [List.length] in L. change (positionAt (line :: lines) (S (S i)) current)
      with (positionAt lines (S i)
              (if detectPosition line =? -1 then current else detectPosition line)).
    rewrite IH by lia. reflexivity.
Qed.

(** What a field that [parseFieldLine] returns carries. *)
Lemma parseFieldLine_some line n pos f :
  parseFieldLine line n pos = Ok (Some f) ->
  Name f = nth 1 (FindStringSubmatch fieldReg line) "" /\ Name f <> "" /\
  Line f = n /\ Position f = pos /\ Content f = line /\ Nested f = None /\
  Path f = "" /\ Description f = "" /\
  Default f = getDefaultValue line /\ ForceNew f = isForceNew line /\
  Required f = (if 2 <? len (FindStringSubmatch fieldReg line) then requiredOf line
                else RequiredDefault).
Proof.
  unfold parseFieldLine. cbv zeta.
  destruct ((len (FindStringSubmatch fieldReg line) <=? 1)
            || String.eqb (nth 1 (FindStringSubmatch fieldReg line) "") "") eqn:C;
    [discriminate|].
  apply orb_false_iff in C. destruct C as [_ C]. rewrite C.
  apply String.eqb_neq in C. intros H. bind_ok H. bind_ok H.
  inversion H; subst f. cbn. repeat split; auto.
Qed.

Lemma parseLines_inv all : forall rest k pos acc p,
  (k + List.length rest = List.length all)%nat ->
  (forall i, (i < List.length rest)%nat -> nth i rest "" = nth (k + i) all "") ->
  pos = positionAt all k PosArgs ->
  parsedUpTo all k acc ->
  parseLines rest (Z.of_nat k) pos acc = Ok p ->
  parsedUpTo all (List.length all) p.
Proof.
  induction rest as [|line rest IH]; intros k pos acc p L N P I H.
  - cbn in H. inversion H; subst p. cbn in L. rewrite Nat.add_0_r in L. subst k. exact I.
  - cbn [List.length] in L.
    assert (Here : line = nth k all "").
    { specialize (N 0%nat). cbn [nth List.length] in N. rewrite Nat.add_0_r in N.
      apply N. lia. }
    assert (N' : forall i, (i < List.length rest)%nat -> nth i rest "" = nth (S k + i) all "").
    { intros i Li. specialize (N (S i)). cbn [nth List.length] in N.
      rewrite N by lia. f_equal. lia. }
    assert (Nx : positionAt all (S k) PosArgs
                 = if detectPosition line =? -1 then pos else detectPosition line).
    { rewrite positionAt_next by lia. rewrite <- Here, <- P. reflexivity. }
    assert (Z1 : Z.of_nat k + 1 = Z.of_nat (S k)) by lia.
    assert (Keep : (forall g, parsedAt all k g -> False) -> parsedUpTo all (S k) acc).
    { intros No. destruct I as (W & O & E). split; [exact W|]. split; [exact O|].
      intros name f G. destruct (E name f G) as (E1 & E2 & i & Li & Pa & La).
      split; [exact E1|]. split; [exact E2|]. exists i. split; [lia|]. split; [exact Pa|].
      intros j g Lj Pj. destruct (Nat.eq_dec j k) as [->|NE].
      - exfalso. exact (No g Pj).
      - apply (La j g); [lia|exact Pj]. }
    cbn [parseLines] in H. cbv zeta in H.
    destruct (detectPosition line =? -1) eqn:D; cbn [negb] in H.
    + destruct (isBlockHeader line) eqn:B.
      * rewrite Z1 in H. apply (IH (S k) pos acc p); auto; [lia|].
        apply Keep. intros g (_ & _ & B' & _). rewrite <- Here in B'. congruence.
      * bind_ok H. destruct a as [f|].
        -- rewrite Z1 in H.
           apply (IH (S k) pos _ p) in H; auto; [lia|].
           destruct (parseFieldLine_some _ _ _ _ E) as (_ & NE & _).
           destruct I as (W & O & En). split; [apply wf_set; exact W|]. split.
           { intros name. cbn [Order Fields]. rewrite in_app_iff, keys_set, O. cbn.
             intuition. }
           intros name g G. cbn [Fields] in G.
           destruct (string_dec (Name f) name) as [EQ|NQ].
           ++ rewrite <- EQ, get_set_same in G. inversion G; subst g.
              split; [exact EQ|]. split; [rewrite <- EQ; exact NE|].
              exists k. split; [lia|]. split.
              { split; [lia|]. rewrite <- Here. apply Z.eqb_eq in D.
                split; [exact D|]. split; [exact B|]. rewrite <- P. exact E. }
              intros j g' Lj. lia.
           ++ rewrite get_set_other in G by exact NQ.
              destruct (En name g G) as (E1 & E2 & i & Li & Pa & La).
              split; [exact E1|]. split; [exact E2|]. exists i. split; [lia|].
              split; [exact Pa|]. intros j g' Lj Pj.
              destruct (Nat.eq_dec j k) as [->|NJ]; [|apply (La j g'); [lia|exact Pj]].
              destruct Pj as (_ & _ & _ & Pj). rewrite <- Here, <- P, E in Pj.
              inversion Pj; subst g'. rewrite E1. exact NQ.
        -- rewrite Z1 in H. apply (IH (S k) pos acc p); auto; [lia|].
           apply Keep. intros g (_ & _ & _ & Pg). rewrite <- Here, <- P, E in Pg.
           discriminate Pg.
    + rewrite Z1 in H. apply (IH (S k) (detectPosition line) acc p); auto; [lia|].
      apply Keep. intros g (_ & D' & _). rewrite <- Here in D'. rewrite D' in D.
      discriminate D.
Qed.

Lemma ParseFields_parsedUpTo content p :
  ParseFields content = Ok p ->
  parsedUpTo (Split content newline) (List.length (Split content newline)) p.
Proof.
  unfold ParseFields. intros H. change (String (ascii_of 10) EmptyString) with newline in H.
  set (lines := Split content newline) in *.
  apply (parseLines_inv lines lines 0 PosArgs (mkParsedProperties [] []) p).
  - reflexivity.
  - intros i _. reflexivity.
  - destruct lines; reflexivity.
  - split; [constructor|]. split; [intros name; cbn; tauto|].
    intros name f G. discriminate G.
  - exact H.
Qed.

End StructuredScan.

Section EnhancedFacts.
Import structured enhanced.

Lemma fileField_sections parsed sd name f :
  gomap.get (Fields parsed) name = Some f ->
  exists sd', fileField parsed sd name = Ok sd' /\
    Arguments sd' = (if Position f =? PosArgs then fileUnder (Arguments sd) name f
                     else Arguments sd) /\
    Attributes sd' = (if Position f =? PosAttributes then fileUnder (Attributes sd) name f
                      else Attributes sd) /\
    Timeouts sd' = (if Position f =? PosTimeouts then fileUnder (Timeouts sd) name f
                    else Timeouts sd).
Proof.
  intros G. unfold fileField. rewrite G.
  destruct (Position f =? PosArgs) eqn:A.
  - apply Z.eqb_eq in A. rewrite A. cbn [Z.eqb PosArgs PosAttributes PosTimeouts].
    destruct (negb (String.eqb (BlockType f) "")); eexists; split; try reflexivity;
      cbn; auto.
  - destruct (Position f =? PosAttributes) eqn:B.
    + apply Z.eqb_eq in B. rewrite B. cbn [Z.eqb PosArgs PosAttributes PosTimeouts].
      destruct (negb (String.eqb (BlockType f) "")); eexists; split; try reflexivity;
        cbn; auto.
    + destruct (Position f =? PosTimeouts) eqn:C;
        destruct (negb (String.eqb (BlockType f) "")); eexists; split; try reflexivity;
          cbn; auto.
Qed.

Lemma sectionOf_Arguments : sectionOf Arguments PosArgs.
Proof.
  intros parsed sd name f sd' G H.
  destruct (fileField_sections parsed sd name f G) as (sd2 & E & A & _).
  rewrite E in H. inversion H; subst sd2. exact A.
Qed.

Lemma sectionOf_Attributes : sectionOf Attributes PosAttributes.
Proof.
  intros parsed sd name f sd' G H.
  destruct (fileField_sections parsed sd name f G) as (sd2 & E & _ & A & _).
  rewrite E in H. inversion H; subst sd2. exact A.
Qed.

Lemma sectionOf_Timeouts : sectionOf Timeouts PosTimeouts.
Proof.
  intros parsed sd name f sd' G H.
  destruct (fileField_sections parsed sd name f G) as (sd2 & E & _ & _ & A).
  rewrite E in H. inversion H; subst sd2. exact A.
Qed.

Lemma fileFields_returns parsed : forall order sd,
  (forall name, In name order -> exists f, gomap.get (Fields parsed) name = Some f) ->
  exists sd', fileFields parsed sd order = Ok sd'.
Proof.
  induction order as [|name order IH]; intros sd All; cbn [fileFields].
  - exists sd. reflexivity.
  - destruct (All name (or_introl eq_refl)) as (f & G).
    destruct (fileField_sections parsed sd name f G) as (sd1 & E & _).
    rewrite E. cbn [bind]. apply IH. intros n I. apply All. right. exact I.
Qed.

(** Every occurrence of a name in the order is filed under the position
    of the entry of that name. *)
Lemma fileFields_section sec pos parsed : sectionOf sec pos ->
  forall order sd sd',
    fileFields parsed sd order = Ok sd' -> boundAs parsed (sec sd) ->
    Order (sec sd') = (Order (sec sd) ++ filter (filedAs parsed pos) order)%list /\
    boundAs parsed (sec sd').
Proof.
  intros St. induction order as [|name order IH]; intros sd sd' H B; cbn [fileFields] in H.
  - inversion H; subst sd'. cbn [filter]. rewrite app_nil_r. auto.
  - bind_ok H. rename a into sd1.
    destruct (gomap.get (Fields parsed) name) as [f|] eqn:G;
      [|unfold fileField in E; rewrite G in E; discriminate E].
    pose proof (St parsed sd name f sd1 G E) as S1.
    assert (B1 : boundAs parsed (sec sd1)).
    { rewrite S1. destruct (Position f =? pos); [|exact B].
      intros n I. cbn [fileUnder Order Fields] in *. apply in_app_iff in I.
      destruct (string_dec name n) as [<-|NE].
      - rewrite get_set_same. symmetry. exact G.
      - rewrite get_set_other by exact NE. destruct I as [I|[I|[]]]; [apply B; exact I|].
        contradiction. }
    destruct (IH sd1 sd' H B1) as [O B']. split; [|exact B'].
    rewrite O, S1. cbn [filter]. unfold filedAs at 2. rewrite G.
    destruct (Position f =? pos); [|reflexivity].
    cbn [fileUnder Order]. rewrite <- app_assoc. reflexivity.
Qed.

Lemma convertFields_spec parsed : forall order props,
  (forall name, In name order -> exists f, gomap.get (Fields parsed) name = Some f) ->
  exists r, convertFields parsed order props = Ok r /\
            Names r = (Names props ++ order)%list /\
            (forall name f, In name order -> gomap.get (Fields parsed) name = Some f ->
                            gomap.get (Objects r) name = Some (toProperty f)) /\
            (forall name, ~ In name order ->
                          gomap.get (Objects r) name
                          = gomap.get (Objects props) name).
Proof.
  induction order as [|name order IH]; intros props All; cbn [convertFields].
  - exists props. rewrite app_nil_r. split; [reflexivity|]. split; [reflexivity|].
    split; [intros n f []|reflexivity].
  - destruct (All name (or_introl eq_refl)) as (f & G). rewrite G.
    destruct (IH (mkProperties (Names props ++ [name])%list
                               (gomap.set (Objects props) name (toProperty f))))
      as (r & E & N & O1 & O2).
    { intros n I. apply All. right. exact I. }
    exists r. split; [exact E|]. split.
    { rewrite N. cbn [Names]. rewrite <- app_assoc. reflexivity. }
    split.
    + intros n g I Gn. destruct (in_dec string_dec n order) as [Io|No].
      * apply O1; assumption.
      * destruct I as [<-|I]; [|contradiction].
        rewrite O2 by exact No. cbn [Objects]. rewrite get_set_same. congruence.
    + intros n No. rewrite O2 by (intros I; apply No; right; exact I).
      cbn [Objects]. apply get_set_other. intros ->. apply No. left. reflexivity.
Qed.

End EnhancedFacts.

Section EnhancedTheorems.
Import structured enhanced.

Lemma empty_boundAs parsed : boundAs parsed (mkParsedProperties [] []).
Proof. intros name []. Qed.

Lemma filedAs_entry parsed pos name :
  In name (filter (filedAs parsed pos) (Order parsed)) ->
  exists f, gomap.get (Fields parsed) name = Some f /\ Position f = pos.
Proof.
  intros I. apply filter_In in I. destruct I as [_ F]. unfold filedAs in F.
  destruct (gomap.get (Fields parsed) name) as [f|]; [|discriminate].
  exists f. split; [reflexivity|]. apply Z.eqb_eq. exact F.
Qed.

(** X24. [ParseDocumentStructure] returns whenever the structured parser
    does. It files every occurrence of a name in the parsed order under the
    position of the entry of that name, which is the field of the last line
    parsed under the name: a name whose entry is an attribute is listed
    among the attributes once for each of its lines and is not among the
    arguments, and conversely; the names of the document arguments and
    attributes are these lists. *)
Theorem ParseDocumentStructure_files_by_entry content parsed :
  ParseFields content = Ok parsed ->
  exists e,
    ParseDocumentStructure content = Ok e /\ ParsedDocument e = parsed /\
    Order (Arguments (StructuredData e)) = filter (filedAs parsed PosArgs) (Order parsed) /\
    Order (Attributes (StructuredData e))
    = filter (filedAs parsed PosAttributes) (Order parsed) /\
    Order (Timeouts (StructuredData e)) = filter (filedAs parsed PosTimeouts) (Order parsed) /\
    Names (DocumentArguments e) = Order (Arguments (StructuredData e)) /\
    Names (DocumentAttributes e) = Order (Attributes (StructuredData e)) /\
    forall name f,
      gomap.get (Fields parsed) name = Some f ->
      (Position f = PosArgs ->
       ~ In name (Names (DocumentAttributes e)) /\
       gomap.get (Objects (DocumentArguments e)) name = Some (toProperty f)) /\
      (Position f = PosAttributes ->
       ~ In name (Names (DocumentArguments e)) /\
       gomap.get (Objects (DocumentAttributes e)) name = Some (toProperty f)).
Proof.
  intros H. destruct (ParseFields_parsedUpTo content parsed H) as (W & O & En).
  assert (All : forall name, In name (Order parsed) ->
                             exists f, gomap.get (Fields parsed) name = Some f).
  { intros name I. apply O in I.
    destruct (gomap.get (Fields parsed) name) as [f|] eqn:G; [exists f; reflexivity|].
    apply get_none_keys in G. contradiction. }
  set (empty := mkParsedProperties (F := ParsedField) [] []).
  destruct (fileFields_returns parsed (Order parsed)
              (mkStructuredDocumentData empty empty empty []) All) as (sd & E).
  destruct (fileFields_section Arguments PosArgs parsed sectionOf_Arguments _ _ _ E
              (empty_boundAs parsed)) as [OA BA].
  destruct (fileFields_section Attributes PosAttributes parsed sectionOf_Attributes _ _ _ E
              (empty_boundAs parsed)) as [OB BB].
  destruct (fileFields_section Timeouts PosTimeouts parsed sectionOf_Timeouts _ _ _ E
              (empty_boundAs parsed)) as [OT _].
  cbn [Order Arguments Attributes Timeouts empty app] in OA, OB, OT.
  assert (AllA : forall name, In name (Order (Arguments sd)) ->
                              exists f, gomap.get (Fields (Arguments sd)) name = Some f).
  { intros name I. rewrite (BA name I). rewrite OA in I.
    destruct (filedAs_entry _ _ _ I) as (f & G & _). exists f. exact G. }
  assert (AllB : forall name, In name (Order (Attributes sd)) ->
                              exists f, gomap.get (Fields (Attributes sd)) name = Some f).
  { intros name I. rewrite (BB name I). rewrite OB in I.
    destruct (filedAs_entry _ _ _ I) as (f & G & _). exists f. exact G. }
  destruct (convertFields_spec (Arguments sd) (Order (Arguments sd)) data.NewProperties AllA)
    as (da & EA & NA & PA & _).
  destruct (convertFields_spec (Attributes sd) (Order (Attributes sd)) data.NewProperties AllB)
    as (db & EB & NB & PB & _).
  cbn [Names data.NewProperties app] in NA, NB.
  exists (mkEnhanced parsed sd da db). split.
  { unfold ParseDocumentStructure. rewrite H. cbn [bind]. fold empty. rewrite E. cbn [bind].
    unfold toProperties. rewrite EA. cbn [bind]. rewrite EB. reflexivity. }
  cbn [ParsedDocument StructuredData DocumentArguments DocumentAttributes].
  split; [reflexivity|]. split; [exact OA|]. split; [exact OB|]. split; [exact OT|].
  split; [exact NA|]. split; [exact NB|].
  intros name f G.
  assert (I : In name (Order parsed)).
  { apply O. destruct (in_dec string_dec name (gomap.keys (Fields parsed))) as [I|I];
      [exact I|]. apply get_none_keys in I. congruence. }
  split; intros P.
  - split.
    + rewrite NB, OB. intros J. destruct (filedAs_entry _ _ _ J) as (g & Gg & Pg).
      rewrite G in Gg. inversion Gg; subst g. rewrite P in Pg. discriminate Pg.
    + assert (J : In name (Order (Arguments sd))).
      { rewrite OA. apply filter_In. split; [exact I|]. unfold filedAs. rewrite G.
        apply Z.eqb_eq. exact P. }
      apply PA; [exact J|]. rewrite (BA name J). exact G.
  - split.
    + rewrite NA, OA. intros J. destruct (filedAs_entry _ _ _ J) as (g & Gg & Pg).
      rewrite G in Gg. inversion Gg; subst g. rewrite P in Pg. discriminate Pg.
    + assert (J : In name (Order (Attributes sd))).
      { rewrite OB. apply filter_In. split; [exact I|]. unfold filedAs. rewrite G.
        apply Z.eqb_eq. exact P. }
      apply PB; [exact J|]. rewrite (BB name J). exact G.
Qed.

Lemma ParseDocumentStructure_files_by_entry_witness :
  exists e,
    ParseDocumentStructure
      (String.concat newline
         ["## Arguments Reference"; "* `name` - (Required) The name.";
          "## Attributes Reference"; "* `name` - The name of it."]) = Ok e /\
    Order (ParsedDocument e) = ["name"; "name"] /\
    Names (DocumentArguments e) = [] /\
    Names (DocumentAttributes e) = ["name"; "name"].
Proof.
  let r := eval vm_compute in
      (ParseFields (String.concat newline
                      ["## Arguments Reference"; "* `name` - (Required) The name.";
                       "## Attributes Reference"; "* `name` - The name of it."])) in
  match r with
  | Ok ?p =>
    assert (E : ParseFields (String.concat newline
                  ["## Arguments Reference"; "* `name` - (Required) The name.";
                   "## Attributes Reference"; "* `name` - The name of it."]) = Ok p)
      by (vm_compute; reflexivity);
    destruct (ParseDocumentStructure_files_by_entry _ p E)
      as (e & R & PD & OA & OB & _ & NA & NB & _);
    exists e; split; [exact R|]; rewrite NA, NB, OA, OB, PD;
      split; [reflexivity|]; split; reflexivity
  end.
Defined.

End EnhancedTheorems.

Section StructuredField.
Import regexp types structured.

Lemma requiredOf_stated line :
  requiredOf line
  = if statedRequired line then RequiredRequired
    else if statedOptional line then RequiredOptional else RequiredDefault.
Proof.
  unfold requiredOf, statedRequired, statedOptional.
  destruct (strings.Contains line "(Required)"), (strings.Contains line "(Optional)"),
    (strings.Contains line "Required"), (strings.Contains line "Optional"); reflexivity.
Qed.

(** A slice of positive length is not empty. *)
Lemma slice_nonempty s lo hi t : strings.slice s lo hi = Ok t -> lo < hi -> t <> "".
Proof.
  unfold strings.slice. destruct ((0 <=? lo) && (lo <=? hi) && (hi <=? strings.len s)) eqn:C;
    [|discriminate].
  apply andb_true_iff in C. destruct C as [C C3]. apply andb_true_iff in C.
  destruct C as [C1 C2]. apply Z.leb_le in C1, C2, C3. intros H L. inversion H; subst t.
  unfold strings.len in C3.
  assert (D : (0 < String.length (strings.drop (Z.to_nat lo) s))%nat)
    by (rewrite drop_length; lia).
  destruct (strings.drop (Z.to_nat lo) s) as [|c d]; [cbn in D; lia|].
  destruct (Z.to_nat (hi - lo)) as [|n] eqn:N; [lia|]. cbn. discriminate.
Qed.

(** The group of the block pattern takes at least one character. *)
Lemma blockProp_group p0 r0 c0 p1 r1 c1 :
  path blockTypeReg p0 r0 c0 p1 r1 c1 ->
  exists lo hi, nth 1 c1 None = Some (lo, hi) /\ lo < hi.
Proof.
  unfold blockTypeReg, blockPropRegs, parser.blockPropRegs. cbn [nth Seq].
  intros P.
  inversion P as [| | | | | |? ? ? ? ? pa ra ca ? ? ? Pa P1| | | | |]; subst; clear P Pa.
  inversion P1 as [| | | | | |? ? ? ? ? pb rb cb ? ? ? Pb P2| | | | |]; subst; clear P1 Pb.
  inversion P2 as [| | | | | |? ? ? ? ? pc rc cc ? ? ? Pc P3| | | | |]; subst; clear P2 Pc.
  inversion P3 as [| | | | | |? ? ? ? ? pd rd cd ? ? ? Pd P4| | | | |]; subst; clear P3.
  inversion Pd as [| | | | | | | | | | |? ? ? ? ? ? ? ce Pe]; subst; clear Pd.
  unfold Plus in Pe.
  inversion Pe as [| | | | | |? ? ? ? ? pf rf cf ? ? ? Pf Pg| | | | |]; subst; clear Pe.
  apply path_advance in Pg.
  assert (Lf : pc < pf).
  { unfold NoneOf in Pf. inversion Pf; subst. lia. }
  destruct Pg as (n & _ & _ & Ep).
  exists pc, pd. split; [|lia].
  rewrite (path_keeps _ _ _ _ _ _ _ 1%nat P4) by reflexivity.
  apply nth_set_cap_same.
Qed.

Lemma parseFieldLine_blockType line n pos g :
  parseFieldLine line n pos = Ok (Some g) ->
  (BlockType g = "" <-> guessBlockProperty line = false).
Proof.
  unfold parseFieldLine. cbv zeta.
  destruct ((len (FindStringSubmatch fieldReg line) <=? 1)
            || String.eqb (nth 1 (FindStringSubmatch fieldReg line) "") "") eqn:C;
    [discriminate|].
  apply orb_false_iff in C. destruct C as [_ C]. rewrite C.
  apply String.eqb_neq in C. intros H. bind_ok H. bind_ok H. rename a0 into blockType.
  inversion H; subst g. cbn [BlockType]. clear H E.
  destruct (guessBlockProperty line); [|inversion E0; subst; tauto].
  split; [|discriminate]. intros B. exfalso. subst blockType.
  destruct (FindAllStringSubmatchIndex blockTypeReg (strings.ToLower line))
    as [|m ms] eqn:F.
  - inversion E0 as [N]. apply C. exact N.
  - assert (I : In m (FindAllStringSubmatchIndex blockTypeReg (strings.ToLower line)))
      by (rewrite F; left; reflexivity).
    unfold FindAllStringSubmatchIndex in I. apply find_all_searches in I.
    destruct I as (pos' & rest' & _ & _ & S').
    apply search_path in S'. destruct S' as (k & p1 & r1 & c1 & _ & P & ->).
    destruct (blockProp_group _ _ _ _ _ _ P) as (lo & hi & N & L).
    rewrite nth_set_cap_other in E0 by lia. rewrite N in E0.
    exact (slice_nonempty _ _ _ _ E0 L eq_refl).
Qed.

(** X25. [StructuredParser.parseFieldLine] returns no field exactly on the
    lines on which [ExtractFieldFromLine] falls back on the first code value
    ([fieldReg] does not match, or its first group is empty). On the other
    lines, whenever both return, the two fields agree on the name, the
    line, the content, the force-new flag, the default value, on being
    required and optional, and on being a block. *)
Theorem parseFieldLine_agrees line n pos position :
  (parseFieldLine line n pos = Ok None <->
   wellFormed line = false \/ nth 1 (FindStringSubmatch parser.fieldReg line) "" = "") /\
  forall g f,
    parseFieldLine line n pos = Ok (Some g) ->
    parser.ExtractFieldFromLine line position n = Ok f ->
    Name g = parser.Name f /\ Line g = parser.Line f /\ Content g = parser.Content f /\
    ForceNew g = parser.ForceNew f /\
    parser.DefaultValue f = (if String.eqb (Default g) "" then None else Some (Default g)) /\
    (Required g = RequiredRequired <-> parser.Required f = true) /\
    (Required g = RequiredOptional <-> parser.Optional f = true) /\
    (BlockType g = "" <-> parser.Block f = false).
Proof.
  assert (Cond : (len (FindStringSubmatch fieldReg line) <=? 1)
                 || String.eqb (nth 1 (FindStringSubmatch fieldReg line) "") "" = true
                 <-> wellFormed line = false
                     \/ nth 1 (FindStringSubmatch parser.fieldReg line) "" = "").
  { change (len (FindStringSubmatch fieldReg line))
      with (parser.len (FindStringSubmatch parser.fieldReg line)).
    change fieldReg with parser.fieldReg.
    rewrite fieldReg_len, orb_true_iff, String.eqb_eq.
    destruct (wellFormed line); cbn; intuition discriminate. }
  split.
  - split.
    + intros H. apply Cond. unfold parseFieldLine in H. cbv zeta in H.
      destruct (_ || _) eqn:C; [reflexivity|].
      apply orb_false_iff in C. destruct C as [_ C]. rewrite C in H.
      bind_ok H. bind_ok H. discriminate H.
    + intros H. apply Cond in H. unfold parseFieldLine. cbv zeta. rewrite H. reflexivity.
  - intros g f G F.
    assert (NC : ~ (wellFormed line = false
                    \/ nth 1 (FindStringSubmatch parser.fieldReg line) "" = "")).
    { intros C. apply Cond in C. unfold parseFieldLine in G. cbv zeta in G.
      rewrite C in G. discriminate G. }
    assert (WF : wellFormed line = true)
      by (destruct (wellFormed line); [reflexivity|exfalso; apply NC; left; reflexivity]).
    assert (N1 : nth 1 (FindStringSubmatch parser.fieldReg line) "" <> "")
      by (intros E; apply NC; right; exact E).
    assert (FN : fieldName line = nth 1 (FindStringSubmatch parser.fieldReg line) "").
    { unfold fieldName. cbv zeta. rewrite fieldReg_len, WF.
      apply String.eqb_neq in N1. rewrite N1. reflexivity. }
    assert (NE : fieldName line <> "") by (rewrite FN; exact N1).
    destruct (parseFieldLine_some _ _ _ _ G)
      as (g1 & g2 & g3 & g4 & g5 & g6 & g7 & g8 & g9 & g10 & g11).
    destruct (ExtractFieldFromLine_named _ _ _ _ F NE)
      as (enums & f1 & f2 & f3 & f4 & f5 & f6 & f7 & f8 & _ & _ & _ & f12 & _).
    destruct (ExtractFieldFromLine_fields _ _ _ _ F) as [fd _].
    rewrite WF in f7, f8.
    destruct (requiredStatus_stated line (parser.newField line n position)) as (_ & r2 & r3).
    rewrite r2 in f7. rewrite r3 in f8. cbn [parser.newField parser.Required parser.Optional]
      in f7, f8. rewrite orb_false_r in f7, f8.
    change (len (FindStringSubmatch fieldReg line))
      with (parser.len (FindStringSubmatch parser.fieldReg line)) in g11.
    rewrite fieldReg_len, WF in g11. cbn [Z.ltb Z.compare Pos.compare Pos.compare_cont] in g11.
    rewrite requiredOf_stated in g11.
    split; [rewrite g1, f1, FN; reflexivity|].
    split; [rewrite g3, f3; reflexivity|].
    split; [rewrite g5, f2; reflexivity|].
    split; [rewrite g10, f5; unfold isForceNew, parser.isForceNew;
            destruct (_ && _); reflexivity|].
    split; [rewrite fd, g9; reflexivity|].
    split; [|split].
    + rewrite g11, f7. unfold statedRequired, statedOptional.
      destruct (strings.Contains line "(Required)"), (strings.Contains line "(Optional)"),
        (strings.Contains line "Required"), (strings.Contains line "Optional");
        cbn; intuition discriminate.
    + rewrite g11, f8. unfold statedRequired, statedOptional.
      destruct (strings.Contains line "(Required)"), (strings.Contains line "(Optional)"),
        (strings.Contains line "Required"), (strings.Contains line "Optional");
        cbn; intuition discriminate.
    + rewrite f12. apply (parseFieldLine_blockType _ _ _ _ G).
Qed.

Lemma parseFieldLine_agrees_witness :
  exists g f,
    parseFieldLine "* `sku` - (Required) The SKU. Changing this forces a new resource."
                   3 PosArgs = Ok (Some g) /\
    parser.ExtractFieldFromLine
      "* `sku` - (Required) The SKU. Changing this forces a new resource." types.PosArgs 3
    = Ok f /\
    Name g = "sku" /\ Name g = parser.Name f /\ ForceNew g = true /\
    ForceNew g = parser.ForceNew f /\ Required g = RequiredRequired /\
    parser.Required f = true.
Proof.
  let r := eval vm_compute in
      (parseFieldLine "* `sku` - (Required) The SKU. Changing this forces a new resource."
                      3 PosArgs) in
  let r' := eval vm_compute in
      (parser.ExtractFieldFromLine
         "* `sku` - (Required) The SKU. Changing this forces a new resource."
         types.PosArgs 3) in
  match r with
  | Ok (Some ?g) =>
    match r' with
    | Ok ?f =>
      exists g, f;
      assert (G : parseFieldLine
                    "* `sku` - (Required) The SKU. Changing this forces a new resource."
                    3 PosArgs = Ok (Some g)) by (vm_compute; reflexivity);
      assert (F : parser.ExtractFieldFromLine
                    "* `sku` - (Required) The SKU. Changing this forces a new resource."
                    types.PosArgs 3 = Ok f) by (vm_compute; reflexivity);
      destruct (proj2 (parseFieldLine_agrees _ 3 PosArgs types.PosArgs) g f G F)
        as (a1 & _ & _ & a4 & _ & a6 & _);
      split; [exact G|]; split; [exact F|]; split; [reflexivity|]; split; [exact a1|];
      split; [reflexivity|]; split; [exact a4|]; split; [reflexivity|];
      apply a6; reflexivity
    end
  end.
Defined.

End StructuredField.

Section BlockHeadFacts.
Import regexp parser.

Lemma search_codeReg_first pre mid post :
  all notBacktick pre = true -> all notBacktick mid = true -> mid <> "" ->
  search codeReg 0 (pre ++ String "`" (mid ++ String "`" post))
  = Some [Some (strings.len pre, strings.len pre + strings.len mid + 2);
          Some (strings.len pre + 1, strings.len pre + 1 + strings.len mid)].
Proof.
  intros A A' NM.
  rewrite (search_skips codeReg pre _ 0 codeReg_needs_backtick A), Z.add_0_l.
  cbn [search].
  rewrite (exec_codeReg mid post (strings.len pre) _ _
             [Some (strings.len pre, strings.len pre + strings.len mid + 2);
              Some (strings.len pre + 1, strings.len pre + 1 + strings.len mid)]);
    [reflexivity|exact A'|exact NM|reflexivity].
Qed.

Lemma word_notBacktick w : all isWord w = true -> all notBacktick w = true.
Proof.
  induction w as [|ch w IH]; cbn [all]; [reflexivity|].
  intros A. apply andb_true_iff in A. destruct A as [A1 A2].
  destruct (isWord_plain ch A1) as (N & _). rewrite N, IH by exact A2. reflexivity.
Qed.

Lemma all_take f n : forall s, all f s = true -> all f (strings.take n s) = true.
Proof.
  induction n as [|n IH]; intros [|c s] A; cbn [strings.take all] in *; try reflexivity.
  apply andb_true_iff in A. destruct A as [A1 A2]. rewrite A1, IH by exact A2. reflexivity.
Qed.

Lemma take_short n : forall a b,
  (n <= String.length a)%nat -> strings.take n (a ++ b) = strings.take n a.
Proof.
  induction n as [|n IH]; intros [|c a] b L; cbn [strings.take append String.length] in *;
    try reflexivity; [lia|]. rewrite IH by lia. reflexivity.
Qed.

Lemma take_long n : forall a b,
  (String.length a <= n)%nat ->
  strings.take n (a ++ b) = a ++ strings.take (n - String.length a) b.
Proof.
  induction n as [|n IH]; intros [|c a] b L; cbn [append String.length] in *.
  - reflexivity.
  - lia.
  - rewrite Nat.sub_0_r. reflexivity.
  - cbn [strings.take append]. rewrite IH by lia. reflexivity.
Qed.

(** No code span is found in a text without backticks. *)
Lemma search_no_backtick s : forall pos,
  all notBacktick s = true -> search codeReg pos s = None.
Proof.
  induction s as [|ch s IH]; intros pos A.
  - reflexivity.
  - cbn [all] in A. apply andb_true_iff in A. destruct A as [A1 A2].
    cbn [search]. rewrite (codeReg_needs_backtick ch s _ _ _ A1). apply IH. exact A2.
Qed.

Lemma star_no_backtick greedy (K : cont) :
  (forall p r c, all notBacktick r = true -> K p r c = None) ->
  forall fuel pos w caps,
    all notBacktick w = true ->
    star greedy (exec (NoneOf "`")) K fuel pos w caps = None.
Proof.
  intros HK. destruct oneChar_notBacktick as [E0 E1].
  induction fuel as [|fuel IH]; intros pos w caps A; cbn [star].
  - apply HK. exact A.
  - assert (Again : exec (NoneOf "`") pos w caps
                         (fun pos' rest' caps' =>
                            if pos <? pos'
                            then star greedy (exec (NoneOf "`")) K fuel pos' rest' caps'
                            else None) = None).
    { destruct w as [|ch w]; [apply E0|]. rewrite E1.
      cbn [all] in A. apply andb_true_iff in A. destruct A as [A1 A2]. rewrite A1.
      destruct (pos <? pos + 1); [apply IH; exact A2|reflexivity]. }
    rewrite Again, (HK _ _ _ A). destruct greedy; reflexivity.
Qed.

(** One backtick does not make a code span. *)
Lemma search_one_backtick a b : forall pos,
  all notBacktick a = true -> all notBacktick b = true ->
  search codeReg pos (a ++ String "`" b) = None.
Proof.
  intros pos A B.
  rewrite (search_skips codeReg a _ pos codeReg_needs_backtick A).
  cbn [search].
  assert (X : forall caps k, exec codeReg (pos + strings.len a) (String "`" b) caps k = None).
  { intros caps k. unfold codeReg. cbn [Seq]. rewrite exec_Cat, exec_Lit.
    cbn [strings.HasPrefix]. rewrite Ascii.eqb_refl, HasPrefix_nil.
    cbn [andb strings.drop String.length].
    rewrite exec_Cat, exec_Cap. unfold Plus. rewrite exec_Cat.
    destruct oneChar_notBacktick as [E0 E1].
    destruct b as [|ch b]; [apply E0|]. rewrite E1.
    cbn [all] in B. apply andb_true_iff in B. destruct B as [B1 B2]. rewrite B1.
    rewrite exec_Star. apply star_no_backtick; [|exact B2].
    intros p r c Ar. rewrite exec_Lit.
    destruct r as [|rc r]; [reflexivity|].
    cbn [all] in Ar. apply andb_true_iff in Ar. destruct Ar as [Ar _].
    rewrite HasPrefix_backtick, Ar. reflexivity. }
  rewrite X. apply search_no_backtick. exact B.
Qed.

Lemma TrimRight_free cutset : forall w,
  all (free cutset) w = true -> strings.TrimRight w cutset = w.
Proof.
  induction w as [|c w IH]; cbn [all strings.TrimRight]; [reflexivity|].
  intros A. apply andb_true_iff in A. destruct A as [A1 A2]. rewrite IH by exact A2.
  unfold free in A1. apply negb_true_iff in A1. rewrite A1. destruct w; reflexivity.
Qed.

Lemma TrimRight_snoc cutset c : forall a,
  strings.mem c cutset = true ->
  strings.TrimRight (a ++ String c EmptyString) cutset = strings.TrimRight a cutset.
Proof.
  intros a M. induction a as [|d a IH]; cbn [append strings.TrimRight].
  - rewrite M. reflexivity.
  - rewrite IH. reflexivity.
Qed.

(** Trimming takes the backticks off an identifier. *)
Lemma Trim_backticked w :
  all isWord w = true -> w <> "" ->
  strings.Trim (String "`" (w ++ String "`" EmptyString)) "`'" = w.
Proof.
  intros W NE.
  assert (F : all (free "`'") w = true).
  { clear NE. induction w as [|ch w IH]; cbn [all]; [reflexivity|].
    cbn [all] in W. apply andb_true_iff in W. destruct W as [W1 W2].
    rewrite IH by exact W2. rewrite andb_true_r.
    apply isWord_byte in W1. unfold free. cbn [strings.mem].
    assert (N : forall c, byte_of ch <> byte_of c -> Ascii.eqb ch c = false).
    { intros c Hc. apply Ascii.eqb_neq. intros ->. apply Hc. reflexivity. }
    rewrite (N "`"%char), (N "'"%char); [reflexivity| |].
    - change (byte_of "'") with 39. lia.
    - change (byte_of "`") with 96. lia. }
  unfold strings.Trim.
  change (String "`" (w ++ String "`" EmptyString))
    with ((String "`" w) ++ String "`" EmptyString).
  rewrite TrimRight_snoc by reflexivity.
  cbn [strings.TrimRight]. rewrite (TrimRight_free _ w F).
  destruct w as [|ch w]; [contradiction NE; reflexivity|].
  cbn [strings.TrimLeft strings.mem]. rewrite Ascii.eqb_refl. cbn [orb].
  cbn [all] in F. apply andb_true_iff in F. destruct F as [F1 _].
  unfold free in F1. apply negb_true_iff in F1. cbn [strings.mem] in F1. rewrite F1.
  reflexivity.
Qed.

End BlockHeadFacts.

Ltac path_cat H Pa Pb :=
  inversion H as [| | | | | |? ? ? ? ? ? ? ? ? ? ? Pa Pb| | | | |]; subst; clear H.

Section BlockHeadShape.
Import regexp parser.

Lemma HasPrefix_split p : forall s,
  strings.HasPrefix s p = true -> s = p ++ strings.drop (String.length p) s.
Proof.
  induction p as [|c p IH]; intros s H; [reflexivity|].
  destruct s as [|d s]; [discriminate H|]. cbn [strings.HasPrefix] in H.
  apply andb_true_iff in H. destruct H as [E H]. apply Ascii.eqb_eq in E. subst d.
  cbn [append String.length strings.drop]. f_equal. apply IH. exact H.
Qed.

Lemma all_append f a b : all f (a ++ b) = all f a && all f b.
Proof.
  induction a as [|c a IH]; cbn [append all]; [reflexivity|].
  rewrite IH. apply andb_assoc.
Qed.

(** The text a pattern without backticks passes over has none. *)
Lemma avoids_text r p0 r0 c0 p1 r1 c1 :
  path r p0 r0 c0 p1 r1 c1 -> avoids r = true ->
  exists t, r0 = t ++ r1 /\ all notBacktick t = true.
Proof.
  induction 1 as [pos rest caps|s pos rest caps HP|neg rs pos ch rest caps IC
                  |pos ch rest caps NL|rest caps|pos caps
                  |a b p0 r0 c0 p1 r1 c1 p2 r2 c2 Pa IHa Pb IHb
                  |a b p0 r0 c0 p1 r1 c1 Pa IHa
                  |a b p0 r0 c0 p1 r1 c1 Pb IHb
                  |greedy a pos rest caps
                  |greedy a p0 r0 c0 p1 r1 c1 p2 r2 c2 Pa IHa L Ps IHs
                  |n a p0 r0 c0 p1 r1 c1 Pa IHa]; cbn [avoids]; intros A;
    try (exists EmptyString; split; reflexivity).
  - exists s. split; [apply HasPrefix_split; exact HP|exact A].
  - exists (String ch EmptyString). split; [reflexivity|]. cbn [all]. rewrite andb_true_r.
    unfold notBacktick. apply negb_true_iff. apply Ascii.eqb_neq. intros ->.
    rewrite IC in A. discriminate A.
  - discriminate A.
  - apply andb_true_iff in A. destruct A as [Aa Ab].
    destruct (IHa Aa) as (t1 & E1 & N1). destruct (IHb Ab) as (t2 & E2 & N2).
    exists (t1 ++ t2). rewrite append_assoc_string, <- E2, <- E1, all_append, N1, N2. auto.
  - apply andb_true_iff in A. destruct A as [Aa Ab]. apply IHa. exact Aa.
  - apply andb_true_iff in A. destruct A as [Aa Ab]. apply IHb. exact Ab.
  - destruct (IHa A) as (t1 & E1 & N1). destruct (IHs A) as (t2 & E2 & N2).
    exists (t1 ++ t2). rewrite append_assoc_string, <- E2, <- E1, all_append, N1, N2. auto.
  - apply IHa. exact A.
Qed.

(** The text a starred class passes over is in the class. *)
Lemma class_run greedy neg rs p0 r0 c0 p1 r1 c1 :
  path (Star greedy (Class neg rs)) p0 r0 c0 p1 r1 c1 ->
  exists t, r0 = t ++ r1 /\ all (in_class neg rs) t = true.
Proof.
  remember (Star greedy (Class neg rs)) as r eqn:R.
  induction 1 as [| | | | | | | | |g a pos rest caps
                  |g a p0 r0 c0 p1 r1 c1 p2 r2 c2 Pa _ L Ps IHs|]; try discriminate R.
  - exists EmptyString. split; reflexivity.
  - inversion R; subst g a. destruct (IHs eq_refl) as (t & E & A).
    inversion Pa; subst. exists (String c t). cbn [append all].
    split; [reflexivity|]. apply andb_true_iff. split; assumption.
Qed.

(** The first code span of a block head is an identifier. *)
Lemma blockHead_firstSpan line :
  IsBlockHead line = true -> exists pre w post, firstSpan line pre w post.
Proof.
  unfold IsBlockHead, MatchString, FindStringSubmatchIndex.
  destruct (search blockHeadReg 0 line) as [caps|] eqn:S; [intros _|discriminate].
  apply search_path in S. destruct S as (n & p1 & r1 & c1 & _ & P & _).
  unfold blockHeadReg in P. cbn [Seq] in P.
  path_cat P Pbol Q1.
  assert (N0 : n = 0%nat) by (inversion Pbol; lia).
  subst n. cbn [strings.drop] in *. inversion Pbol; subst. clear Pbol.
  path_cat Q1 Particle Q2.
  eapply avoids_text in Particle; [|reflexivity].
  destruct Particle as (t1 & E1 & A1).
  path_cat Q2 Pgap Q3.
  eapply avoids_text in Pgap; [|reflexivity].
  destruct Pgap as (t2 & E2 & A2).
  path_cat Q3 Pspans Q4. clear Q4. unfold Plus in Pspans.
  path_cat Pspans Pspan Q5. clear Q5.
  inversion Pspan as [| | | | | | | | | | |? ? ? ? ? ? ? ? Pg]; subst. clear Pspan.
  path_cat Pg Ptick Pg1. inversion Ptick as [|? ? ? ? HP| | | | | | | | | |]; subst.
  clear Ptick.
  apply HasPrefix_split in HP. cbn [String.length strings.drop append] in HP.
  path_cat Pg1 Pword Pg2. path_cat Pword Pfirst Prun.
  unfold word in Pfirst. inversion Pfirst as [| |? ? ? ch rest ? IC| | | | | | | | |]; subst.
  clear Pfirst. apply class_run in Prun. destruct Prun as (t3 & E3 & A3).
  path_cat Pg2 Ptick Pg3. inversion Ptick as [|? ? ? ? HP'| | | | | | | | | |]; subst.
  apply HasPrefix_split in HP'. cbn [String.length strings.drop append] in HP'.
  clear Ptick Pg3.
  destruct r4 as [|b4 r4]; [discriminate HP|]. injection HP as ->. subst r4.
  destruct r5 as [|b5 post]; [discriminate HP'|]. injection HP' as ->.
  exists (t1 ++ t2), (String ch t3), post.
  split; [|split; [|split]].
  - rewrite append_assoc_string. reflexivity.
  - rewrite all_append, A1, A2. reflexivity.
  - cbn [all]. apply andb_true_iff. split; [exact IC|exact A3].
  - discriminate.
Qed.

End BlockHeadShape.

Section BlockHeadNames.
Import regexp parser.

Lemma snoc_assoc (w : string) c post :
  w ++ String c post = (w ++ String c EmptyString) ++ post.
Proof. rewrite append_assoc_string. reflexivity. Qed.

Lemma names_before_span line pre w post :
  firstSpan line pre w post ->
  strings.Index line "block" < spanEnd pre w -> ExtractBlockNames line = [].
Proof.
  intros (E & A & W & NE) L. unfold ExtractBlockNames. cbv zeta.
  destruct (negb (MatchString blockHeadReg line)); [reflexivity|].
  destruct (strings.Index line "block" <=? 0) eqn:I; [reflexivity|].
  apply Z.leb_gt in I. unfold spanEnd, strings.len in L.
  set (n := Z.to_nat (strings.Index line "block")).
  assert (Ln : (0 < n <= String.length pre + S (String.length w))%nat) by (subst n; lia).
  assert (S0 : search codeReg 0 (strings.take n line) = None).
  { rewrite E.
    change (pre ++ String "`" (w ++ String "`" post))
      with (pre ++ (String "`" w ++ String "`" post)).
    rewrite <- append_assoc_string.
    rewrite take_short by (rewrite !length_append; cbn [String.length]; lia).
    destruct (Nat.le_gt_cases n (String.length pre)) as [Le|Gt].
    - rewrite take_short by exact Le. apply search_no_backtick. apply all_take. exact A.
    - rewrite take_long by lia.
      destruct (n - String.length pre)%nat as [|m] eqn:M; [lia|].
      cbn [strings.take]. apply search_one_backtick; [exact A|].
      apply all_take. apply word_notBacktick. exact W. }
  unfold FindAllString, FindAllStringIndex, FindAllStringSubmatchIndex.
  cbn [find_all]. rewrite S0. reflexivity.
Qed.

Lemma names_after_span line pre w post :
  firstSpan line pre w post -> IsBlockHead line = true ->
  spanEnd pre w <= strings.Index line "block" ->
  hd_error (ExtractBlockNames line) = Some w.
Proof.
  intros (E & A & W & NE) B L. unfold ExtractBlockNames. cbv zeta.
  unfold IsBlockHead in B. rewrite B. cbn [negb].
  unfold spanEnd, strings.len in L.
  replace (strings.Index line "block" <=? 0) with false by (symmetry; apply Z.leb_gt; lia).
  set (n := Z.to_nat (strings.Index line "block")).
  assert (Ln : (String.length pre + S (String.length w) + 1 <= n)%nat) by (subst n; lia).
  assert (T : exists post',
             strings.take n line = pre ++ String "`" (w ++ String "`" post')).
  { exists (strings.take (n - (String.length pre + S (String.length w) + 1)) post).
    rewrite E.
    change (pre ++ String "`" (w ++ String "`" post))
      with (pre ++ (String "`" w ++ String "`" EmptyString ++ post)).
    rewrite <- append_assoc_string, <- append_assoc_string.
    rewrite take_long by (rewrite !length_append; cbn [String.length]; lia).
    rewrite !length_append. cbn [String.length].
    rewrite !append_assoc_string. cbn [append]. reflexivity. }
  destruct T as (post' & T). rewrite T.
  unfold FindAllString, FindAllStringIndex, FindAllStringSubmatchIndex.
  cbn [find_all].
  rewrite (search_codeReg_first pre w post' A (word_notBacktick w W) NE).
  cbn [nth].
  replace (strings.len pre + strings.len w + 2 =? 0) with false
    by (symmetry; apply Z.eqb_neq; unfold strings.len; lia).
  cbn [flat_map nth app map].
  assert (V : substr (pre ++ String "`" (w ++ String "`" post'))
                     (Some (strings.len pre, strings.len pre + strings.len w + 2))
              = String "`" (w ++ String "`" EmptyString)).
  { unfold substr, strings.len. rewrite Nat2Z.id, drop_append.
    replace (Z.to_nat (Z.of_nat (String.length pre) + Z.of_nat (String.length w) + 2
                       - Z.of_nat (String.length pre)))
      with (String.length (String "`" (w ++ String "`" EmptyString)))
      by (cbn [String.length]; rewrite length_append; cbn [String.length]; lia).
    rewrite (snoc_assoc w "`" post').
    apply (take_append (String "`" (w ++ String "`" EmptyString)) post'). }
  rewrite V, (Trim_backticked w W NE). cbn [filter].
  destruct (String.eqb w "") eqn:Q; [apply String.eqb_eq in Q; contradiction|].
  reflexivity.
Qed.

(** X26. The first code span of a block head is an identifier.
    [ExtractBlockNames] returns that identifier first when the first
    [block] of the line comes after the span, and no name at all when it
    does not: a block whose name contains [block] is given no name. A line
    that is no block head has no names. *)
Theorem ExtractBlockNames_first_span :
  (forall line, IsBlockHead line = true -> exists pre w post, firstSpan line pre w post) /\
  (forall line pre w post,
      IsBlockHead line = true -> firstSpan line pre w post ->
      (spanEnd pre w <= strings.Index line "block" ->
       hd_error (ExtractBlockNames line) = Some w) /\
      (strings.Index line "block" < spanEnd pre w -> ExtractBlockNames line = [])) /\
  (forall line, IsBlockHead line = false -> ExtractBlockNames line = []).
Proof.
  split; [exact blockHead_firstSpan|]. split.
  - intros line pre w post B F. split.
    + apply (names_after_span line pre w post); assumption.
    + apply (names_before_span line pre w post); assumption.
  - intros line B. unfold ExtractBlockNames. unfold IsBlockHead in B. rewrite B. reflexivity.
Qed.

Lemma ExtractBlockNames_first_span_witness :
  IsBlockHead "A `block_device` block supports the following:" = true /\
  ExtractBlockNames "A `block_device` block supports the following:" = [] /\
  hd_error (ExtractBlockNames "An `identity` block supports the following:")
  = Some "identity".
Proof.
  assert (B : IsBlockHead "A `block_device` block supports the following:" = true)
    by (vm_compute; reflexivity).
  assert (B' : IsBlockHead "An `identity` block supports the following:" = true)
    by (vm_compute; reflexivity).
  split; [exact B|]. split.
  - refine (proj2 (proj1 (proj2 ExtractBlockNames_first_span) _ "A " "block_device"
                         " block supports the following:" B _) _).
    + split; [reflexivity|]. split; [reflexivity|]. split; [reflexivity|discriminate].
    + vm_compute. reflexivity.
  - refine (proj1 (proj1 (proj2 ExtractBlockNames_first_span) _ "An " "identity"
                         " block supports the following:" B' _) _).
    + split; [reflexivity|]. split; [reflexivity|]. split; [reflexivity|discriminate].
    + vm_compute. discriminate.
Defined.

End BlockHeadNames.

(** ** Lines that start with a trigger phrase *)
Section LineStart.
Import regexp types parser.

Lemma earliest_at_zero lower : forall seps best,
  fold_left (fun best sep =>
               let i := strings.Index lower sep in
               if (0 <=? i) && ((best <? 0) || (i <? best)) then i else best)
            seps best = 0 ->
  best = 0 \/ exists sep, In sep seps /\ strings.Index lower sep = 0.
Proof.
  induction seps as [|sep seps IH]; intros best H; cbn [fold_left] in H; [left; exact H|].
  apply IH in H. destruct H as [H|(s & I & E)].
  - cbv zeta in H.
    destruct ((0 <=? strings.Index lower sep)
              && ((best <? 0) || (strings.Index lower sep <? best)));
      [right; exists sep; split; [left; reflexivity|exact H]|left; exact H].
  - right. exists s. split; [right; exact I|exact E].
Qed.

Lemma Index_zero_prefix s sep : strings.Index s sep = 0 -> strings.HasPrefix s sep = true.
Proof.
  unfold strings.Index. destruct (strings.HasPrefix s sep) eqn:HP; [reflexivity|].
  destruct s as [|c s]; unfold strings.index_from; fold strings.index_from; rewrite HP.
  - discriminate.
  - destruct (index_from_bound sep s (0 + 1)) as [E|[L _]]; rewrite ?E; lia.
Qed.

(** A trigger phrase starts with a letter, not with a bullet. *)
Lemma enumPhrase_head sep s :
  In sep enumPhrases -> strings.HasPrefix s sep = true ->
  exists ch rest, s = String ch rest /\ isBullet ch = false.
Proof.
  intros I HP. destruct s as [|ch rest].
  - exfalso. cbn in I. decompose [or] I; subst; try discriminate HP. contradiction.
  - exists ch, rest. split; [reflexivity|].
    cbn in I. decompose [or] I; subst; try contradiction;
      cbn [strings.HasPrefix] in HP; apply andb_true_iff in HP; destruct HP as [E _];
      apply Ascii.eqb_eq in E; subst ch; reflexivity.
Qed.

(** Lower-casing keeps a bullet at the start of a line. *)
Lemma ToLower_bullet ch rest :
  isBullet ch = true -> exists rest', strings.ToLower (String ch rest) = String ch rest'.
Proof.
  intros B. destruct (isBullet_plain ch B) as (_ & L & A).
  destruct (ToLower_prefix (String ch EmptyString) rest) as (rest' & E).
  { cbn [strings.isASCII]. change utf8.RuneSelf with 128. rewrite A. reflexivity. }
  exists rest'. cbn [append] in E. rewrite E. cbn [strings.lowerASCII append].
  fold (lower ch). rewrite L. reflexivity.
Qed.

Lemma search_Bol_later r : forall rest pos,
  0 < pos -> search (Cat Bol r) pos rest = None.
Proof.
  induction rest as [|ch rest IH]; intros pos L; cbn [search exec];
    replace (pos =? 0) with false by (symmetry; apply Z.eqb_neq; lia).
  - reflexivity.
  - apply IH. lia.
Qed.

(** [fieldReg] matches only lines that start with a bullet. *)
Lemma wellFormed_bullet line :
  wellFormed line = true -> exists ch rest, line = String ch rest /\ isBullet ch = true.
Proof.
  unfold wellFormed, MatchString, FindStringSubmatchIndex.
  destruct (search fieldReg 0 line) as [caps|] eqn:S; [intros _|discriminate].
  change fieldReg
    with (Cat Bol (Cat (Class false [("*", "*"); ("-", "-")]%char)
            (Cat (Star true sp) (Cat (Lit "`")
               (Cat (Cap 1 (Star false AnyNotNL))
                    (Seq [Lit "`"; Plus sp; Lit "-"; Plus sp;
                          Quest (Cap 2 (Alt (Lit "(Required)") (Lit "(Optional)")));
                          Quest sp; Cap 3 (Star true AnyNotNL)])))))) in S.
  destruct line as [|ch rest].
  - cbn [search] in S. rewrite exec_Cat, exec_Bol0 in S. cbv beta in S.
    rewrite exec_Cat in S. cbn [exec] in S. discriminate S.
  - exists ch, rest. split; [reflexivity|].
    cbn [search] in S. rewrite exec_Cat, exec_Bol0 in S. cbv beta in S.
    rewrite exec_Cat, exec_Class, OneOf_bullet in S.
    destruct (isBullet ch); [reflexivity|].
    rewrite search_Bol_later in S by lia. discriminate S.
Qed.

(** A line whose earliest trigger phrase is at offset 0 is no field
    line. *)
Lemma trigger_at_start_unmatched line :
  earliestTrigger line = 0 -> wellFormed line = false.
Proof.
  intros H. unfold earliestTrigger in H. apply earliest_at_zero in H.
  destruct H as [H|(sep & I & E)]; [discriminate H|].
  apply Index_zero_prefix in E.
  destruct (enumPhrase_head sep _ I E) as (ch & rest & EL & NB).
  destruct (wellFormed line) eqn:W; [|reflexivity].
  destruct (wellFormed_bullet line W) as (b & r & -> & B).
  destruct (ToLower_bullet b r B) as (r' & T). rewrite T in EL.
  inversion EL; subst. rewrite B in NB. discriminate NB.
Qed.

(** On a line that [fieldReg] does not match the enum extraction is not
    entered. *)
Lemma ExtractFieldFromLine_unmatched line position n f :
  wellFormed line = false ->
  ExtractFieldFromLine line position n = Ok f ->
  PossibleValues f = [] /\ GuessEnums f = [] /\ EnumStart f = 0 /\ EnumEnd f = 0 /\
  ~ In multipleSections (ParseErrors f).
Proof.
  intros W. unfold wellFormed in W. unfold ExtractFieldFromLine. cbv zeta.
  rewrite (MatchString_false _ _ W). cbn [len List.length nth Z.of_nat Z.leb Z.ltb Z.compare orb].
  destruct (String.eqb (getDefaultValue line) ""); cbn [andb Name set_Name set_ForceNew newField];
    destruct (String.eqb (FirstCodeValue line) ""); cbn [bind];
      try (intros H; inversion H; subst f; cbn;
           repeat split; try reflexivity; intros [E|[]]; discriminate E);
      destruct (guessBlockProperty line);
      try (intros H; inversion H; subst f; cbn; repeat split; try reflexivity; intros []);
      intros H; bind_ok H; inversion H; subst f; cbn; repeat split; try reflexivity;
        intros [].
Qed.

(** C10. On every line whose earliest trigger phrase starts at offset 0
    the field pattern does not match, the enum extraction is not entered,
    and the result of the extraction has no possible values (and no guessed
    values, no enum offsets, no error of the enum extraction), although a
    trigger phrase and code spans may be present; when the line is ASCII
    the extraction returns such a result. *)
Theorem trigger_at_line_start_extracts_nothing line position n :
  earliestTrigger line = 0 ->
  wellFormed line = false /\
  (forall f, ExtractFieldFromLine line position n = Ok f ->
             PossibleValues f = [] /\ GuessEnums f = [] /\
             EnumStart f = 0 /\ EnumEnd f = 0 /\ ~ In multipleSections (ParseErrors f)) /\
  (strings.isASCII line = true -> exists f, ExtractFieldFromLine line position n = Ok f).
Proof.
  intros H. pose proof (trigger_at_start_unmatched line H) as W.
  split; [exact W|]. split.
  - intros f E. exact (ExtractFieldFromLine_unmatched line position n f W E).
  - apply ExtractFieldFromLine_returns_ASCII.
Qed.

Lemma trigger_at_line_start_extracts_nothing_witness :
  earliestTrigger versionsAtStart = 0 /\
  exists f, ExtractFieldFromLine versionsAtStart PosArgs 1 = Ok f /\
            Name f = "7.1" /\ PossibleValues f = [].
Proof.
  assert (H : earliestTrigger versionsAtStart = 0) by (vm_compute; reflexivity).
  split; [exact H|].
  destruct (trigger_at_line_start_extracts_nothing versionsAtStart PosArgs 1 H)
    as (_ & V & R).
  destruct (R eq_refl) as [f E]. exists f. split; [exact E|].
  split; [|exact (proj1 (V f E))].
  assert (C : ExtractFieldFromLine versionsAtStart PosArgs 1
              = Ok (set_Name "7.1" (newField versionsAtStart 1 PosArgs)))
    by (vm_compute; reflexivity).
  rewrite C in E. inversion E. reflexivity.
Defined.

End LineStart.

Section MatchTexts.
Import regexp parser.

Lemma take_drop n : forall s, s = strings.take n s ++ strings.drop n s.
Proof.
  induction n as [|n IH]; intros [|c s]; cbn [strings.take strings.drop append];
    try reflexivity. f_equal. apply IH.
Qed.

(** A pattern matches a text exactly when one of its paths starts at
    some offset of the text. *)
Lemma search_complete r : forall rest pos n p1 r1 c1,
  (n <= String.length rest)%nat ->
  path r (pos + Z.of_nat n) (strings.drop n rest) (repeat None (S (groups r))) p1 r1 c1 ->
  exists caps, search r pos rest = Some caps.
Proof.
  induction rest as [|ch rest IH]; intros pos n p1 r1 c1 L P; cbn [search].
  - assert (n = 0%nat) by (cbn in L; lia). subst n. cbn [strings.drop] in P.
    rewrite Z.add_0_r in P.
    destruct (proj1 (path_complete _ _ _ _ _ _ _ P)
                    (fun pos' _ caps => Some (set_cap 0 (pos, pos') caps)) _ eq_refl)
      as (c' & E).
    rewrite E. exists c'. reflexivity.
  - destruct (exec r pos (String ch rest) _ _) as [c|] eqn:E; [exists c; reflexivity|].
    destruct n as [|n].
    + cbn [strings.drop] in P. rewrite Z.add_0_r in P.
      destruct (proj1 (path_complete _ _ _ _ _ _ _ P)
                      (fun pos' _ caps => Some (set_cap 0 (pos, pos') caps)) _ eq_refl)
        as (c' & E').
      rewrite E' in E. discriminate E.
    + cbn [strings.drop String.length] in *.
      apply (IH (pos + 1) n p1 r1 c1); [lia|].
      replace (pos + 1 + Z.of_nat n) with (pos + Z.of_nat (S n)) by lia. exact P.
Qed.

Lemma MatchString_path r s :
  MatchString r s = true <->
  exists n p1 r1 c1,
    (n <= String.length s)%nat /\
    path r (Z.of_nat n) (strings.drop n s) (repeat None (S (groups r))) p1 r1 c1.
Proof.
  unfold MatchString, FindStringSubmatchIndex. split.
  - destruct (search r 0 s) as [caps|] eqn:E; [intros _|discriminate].
    apply search_path in E. destruct E as (n & p1 & r1 & c1 & L & P & _).
    exists n, p1, r1, c1. rewrite Z.add_0_l in P. auto.
  - intros (n & p1 & r1 & c1 & L & P).
    destruct (search_complete r s 0 n p1 r1 c1 L) as (caps & E);
      [rewrite Z.add_0_l; exact P|].
    rewrite E. reflexivity.
Qed.

(** *** From a path to the text *)

Lemma Lit_text s p0 r0 c0 p1 r1 c1 : path (Lit s) p0 r0 c0 p1 r1 c1 -> r0 = s ++ r1.
Proof. intros P. inversion P; subst. apply HasPrefix_split. assumption. Qed.

Lemma any_run greedy p0 r0 c0 p1 r1 c1 :
  path (Star greedy AnyNotNL) p0 r0 c0 p1 r1 c1 ->
  exists w, r0 = w ++ r1 /\ all noNewline w = true.
Proof.
  remember (Star greedy AnyNotNL) as r eqn:R.
  induction 1 as [| | | | | | | | |g a pos rest caps
                  |g a p0 r0 c0 p1 r1 c1 p2 r2 c2 Pa _ L Ps IHs|]; try discriminate R.
  - exists EmptyString. split; reflexivity.
  - inversion R; subst g a. destruct (IHs eq_refl) as (t & E & A).
    inversion Pa; subst. exists (String c t). cbn [append all].
    split; [reflexivity|]. apply andb_true_iff. split; [|exact A].
    unfold noNewline. apply negb_true_iff. assumption.
Qed.

Lemma Quest_Lit_text s p0 r0 c0 p1 r1 c1 :
  path (Quest (Lit s)) p0 r0 c0 p1 r1 c1 -> exists x, r0 = x ++ r1 /\ (x = "" \/ x = s).
Proof.
  unfold Quest. intros P. inversion P as [| | | | | | |? ? ? ? ? ? ? ? Pa|? ? ? ? ? ? ? ? Pb| | |];
    subst.
  - exists s. split; [apply (Lit_text _ _ _ _ _ _ _ Pa)|right; reflexivity].
  - inversion Pb; subst. exists EmptyString. split; [reflexivity|left; reflexivity].
Qed.

Lemma closing_text p0 r0 c0 p1 r1 c1 :
  path (Cap 1 (Alt (Lit ".") Eol)) p0 r0 c0 p1 r1 c1 -> closes r0.
Proof.
  intros P. inversion P as [| | | | | | | | | | |? ? ? ? ? ? ? ? Pa]; subst.
  inversion Pa as [| | | | | | |? ? ? ? ? ? ? ? Pl|? ? ? ? ? ? ? ? Pe| | |]; subst.
  - right. apply Lit_text in Pl. cbn [append] in Pl. eexists. exact Pl.
  - left. inversion Pe; subst. reflexivity.
Qed.

Lemma period_class ch : in_class true [(".", ".")%char] ch = notPeriod ch.
Proof. rewrite in_class_one. reflexivity. Qed.

Lemma period_run greedy p0 r0 c0 p1 r1 c1 :
  path (Star greedy (NoneOf ".")) p0 r0 c0 p1 r1 c1 ->
  exists w, r0 = w ++ r1 /\ all notPeriod w = true.
Proof.
  intros P. apply class_run in P. destruct P as (w & E & A). exists w. split; [exact E|].
  clear E. change (all (in_class true [(".", ".")%char]) w = true) in A.
  induction w as [|ch w IH]; [reflexivity|].
  cbn [all] in *. apply andb_true_iff in A. destruct A as [A1 A2].
  rewrite period_class in A1. rewrite A1, IH by exact A2. reflexivity.
Qed.

(** *** From the text to a path *)

Lemma HasPrefix_append s x : strings.HasPrefix (s ++ x) s = true.
Proof.
  induction s as [|c s IH]; cbn [append strings.HasPrefix]; [apply HasPrefix_nil|].
  rewrite Ascii.eqb_refl, IH. reflexivity.
Qed.

Lemma Lit_path s x pos caps :
  path (Lit s) pos (s ++ x) caps (pos + strings.len s) x caps.
Proof.
  pose proof (path_Lit s pos (s ++ x) caps (HasPrefix_append s x)) as P.
  rewrite drop_append in P. exact P.
Qed.

Lemma any_path greedy w : forall tail pos caps,
  all noNewline w = true ->
  path (Star greedy AnyNotNL) pos (w ++ tail) caps (pos + strings.len w) tail caps.
Proof.
  induction w as [|ch w IH]; intros tail pos caps A.
  - unfold strings.len. cbn. rewrite Z.add_0_r. apply path_Star_stop.
  - cbn [all] in A. apply andb_true_iff in A. destruct A as [A1 A2].
    cbn [append].
    replace (pos + strings.len (String ch w)) with (pos + 1 + strings.len w)
      by (unfold strings.len; cbn [String.length]; lia).
    apply (path_Star_more greedy AnyNotNL pos _ caps (pos + 1) (w ++ tail) caps);
      [|lia|apply IH; exact A2].
    apply path_AnyNotNL. unfold noNewline in A1. apply negb_true_iff in A1. exact A1.
Qed.

Lemma period_path greedy w : forall tail pos caps,
  all notPeriod w = true ->
  path (Star greedy (NoneOf ".")) pos (w ++ tail) caps (pos + strings.len w) tail caps.
Proof.
  induction w as [|ch w IH]; intros tail pos caps A.
  - unfold strings.len. cbn. rewrite Z.add_0_r. apply path_Star_stop.
  - cbn [all] in A. apply andb_true_iff in A. destruct A as [A1 A2].
    cbn [append].
    replace (pos + strings.len (String ch w)) with (pos + 1 + strings.len w)
      by (unfold strings.len; cbn [String.length]; lia).
    apply (path_Star_more greedy (NoneOf ".") pos _ caps (pos + 1) (w ++ tail) caps);
      [|lia|apply IH; exact A2].
    apply path_Class. change (in_class true [(".", ".")%char] ch = true).
    rewrite period_class. exact A1.
Qed.

Lemma Quest_Lit_path s x r0 pos caps :
  x = "" \/ x = s ->
  exists pos', path (Quest (Lit s)) pos (x ++ r0) caps pos' r0 caps.
Proof.
  intros [->| ->]; eexists; unfold Quest.
  - apply path_Alt_r. apply path_Empty.
  - apply path_Alt_l. apply Lit_path.
Qed.

Lemma closing_path rest pos caps :
  closes rest ->
  exists pos' rest' caps', path (Cap 1 (Alt (Lit ".") Eol)) pos rest caps pos' rest' caps'.
Proof.
  intros [->|(rest' & ->)]; do 3 eexists; apply path_Cap.
  - apply path_Alt_r. apply path_Eol.
  - apply path_Alt_l. apply (Lit_path "." rest').
Qed.

End MatchTexts.

Section ForceNewTexts.
Import regexp parser.

Lemma Cat_path a b p0 r0 c0 p2 r2 c2 :
  path (Cat a b) p0 r0 c0 p2 r2 c2 ->
  exists p1 r1 c1, path a p0 r0 c0 p1 r1 c1 /\ path b p1 r1 c1 p2 r2 c2.
Proof.
  intros P. inversion P as [| | | | | |? ? ? ? ? q1 s1 d1 ? ? ? Pa Pb| | | | |]; subst.
  exists q1, s1, d1. split; assumption.
Qed.

Ltac next_part P Pa r := apply Cat_path in P; destruct P as (? & r & ? & Pa & P).

Lemma ForceNewReg_text line :
  MatchString ForceNewReg line = true <-> forceNewText line.
Proof.
  rewrite MatchString_path. split.
  - intros (n & p1 & r1 & c1 & _ & P).
    unfold ForceNewReg in P. cbn [Seq] in P.
    next_part P P0 t1. next_part P P1 t2. next_part P P2 t3. next_part P P3 t4.
    next_part P P4 t5. next_part P P5 t6. next_part P P6 t7.
    apply (Quest_Lit_text " ") in P0. destruct P0 as (w0 & E0 & _).
    apply Lit_text in P1. apply any_run in P2. destruct P2 as (mid & E2 & A2).
    apply Lit_text in P3. apply Quest_Lit_text in P4. destruct P4 as (s & E4 & S4).
    apply Lit_text in P5. apply period_run in P6. destruct P6 as (t & E6 & A6).
    apply closing_text in P.
    exists (strings.take n line ++ w0), mid, s, t, t7.
    repeat split; try assumption.
    rewrite append_assoc_string.
    rewrite (take_drop n line) at 1. f_equal.
    rewrite E0, P1, E2, P3, E4, P5, E6. reflexivity.
  - intros (pre & mid & s & t & rest & E & A2 & S4 & A6 & C).
    exists (String.length pre). subst line. rewrite drop_append.
    destruct C as [->|(rest' & ->)]; destruct S4 as [->| ->]; do 3 eexists;
      (split; [rewrite length_append; lia|]);
      unfold ForceNewReg; cbn [Seq];
      (eapply path_Cat; [apply path_Alt_r, path_Empty|]);
      (eapply path_Cat; [apply (Lit_path "Changing")|]);
      (eapply path_Cat; [apply (any_path true mid); exact A2|]);
      (eapply path_Cat; [apply (Lit_path "force")|]);
      (eapply path_Cat;
        [first [apply path_Alt_l, (Lit_path "s")|apply path_Alt_r, path_Empty]|]);
      (eapply path_Cat; [apply (Lit_path " a ")|]);
      (eapply path_Cat; [apply (period_path true t); exact A6|]);
      apply path_Cap;
      first [apply path_Alt_l, (Lit_path "." rest')|apply path_Alt_r, path_Eol].
Qed.

Lemma partForceNewReg_text line :
  MatchString partForceNewReg line = true <-> conditionalText line.
Proof.
  rewrite MatchString_path. split.
  - intros (n & p1 & r1 & c1 & _ & P).
    unfold partForceNewReg in P. cbn [Seq] in P.
    next_part P P0 t1. next_part P P1 t2. next_part P P2 t3. next_part P P3 t4.
    next_part P P4 t5. next_part P P5 t6. next_part P P6 t7. next_part P P7 t8.
    next_part P P8 t9.
    apply (Quest_Lit_text " ") in P0. destruct P0 as (w0 & E0 & _).
    apply Lit_text in P1. apply any_run in P2. destruct P2 as (mid & E2 & A2).
    apply Lit_text in P3. apply Quest_Lit_text in P4. destruct P4 as (s & E4 & S4).
    apply Lit_text in P5. apply period_run in P6. destruct P6 as (t & E6 & A6).
    apply Lit_text in P7. apply period_run in P8. destruct P8 as (u & E8 & A8).
    apply closing_text in P.
    exists (strings.take n line ++ w0), mid, s, t, u, t9.
    repeat split; try assumption.
    rewrite append_assoc_string.
    rewrite (take_drop n line) at 1. f_equal.
    rewrite E0, P1, E2, P3, E4, P5, E6, P7, E8. reflexivity.
  - intros (pre & mid & s & t & u & rest & E & A2 & S4 & A6 & A8 & C).
    exists (String.length pre). subst line. rewrite drop_append.
    destruct C as [->|(rest' & ->)]; destruct S4 as [->| ->]; do 3 eexists;
      (split; [rewrite length_append; lia|]);
      unfold partForceNewReg; cbn [Seq];
      (eapply path_Cat; [apply path_Alt_r, path_Empty|]);
      (eapply path_Cat; [apply (Lit_path "Changing")|]);
      (eapply path_Cat; [apply (any_path true mid); exact A2|]);
      (eapply path_Cat; [apply (Lit_path "force")|]);
      (eapply path_Cat;
        [first [apply path_Alt_l, (Lit_path "s")|apply path_Alt_r, path_Empty]|]);
      (eapply path_Cat; [apply (Lit_path " a ")|]);
      (eapply path_Cat; [apply (period_path true t); exact A6|]);
      (eapply path_Cat; [apply (Lit_path " created when ")|]);
      (eapply path_Cat; [apply (period_path true u); exact A8|]);
      apply path_Cap;
      first [apply path_Alt_l, (Lit_path "." rest')|apply path_Alt_r, path_Eol].
Qed.

(** C5, as stated, fails: the force-new pattern of the code asks for
    neither [resource] nor [created], and a sentence about a reboot is
    reported as force-new although the pattern in the words of the
    specification does not match it. *)
Lemma isForceNew_without_resource_created :
  isForceNew rebootLine = true /\
  MatchString specForceNewPattern rebootLine = false.
Proof. split; vm_compute; reflexivity. Qed.

(** C5, amended. ForceNew is reported for the unconditional sentence and
    not for the "created when" sentence; in general it is reported exactly
    when the line contains [Changing], text without a line break, [force]
    or [forces], [ a ], text without a period and then a period or the end
    of the line, and does not contain the same with [ created when ] and
    more text without a period before that period or end. *)
Theorem isForceNew_by_text :
  isForceNew unconditionalLine = true /\
  isForceNew conditionalLine = false /\
  (forall line,
      isForceNew line = true <-> forceNewText line /\ ~ conditionalText line).
Proof.
  split; [vm_compute; reflexivity|].
  split; [vm_compute; reflexivity|].
  intros line. unfold isForceNew.
  rewrite andb_true_iff, negb_true_iff, ForceNewReg_text, <- partForceNewReg_text.
  destruct (MatchString partForceNewReg line); split; intros [F N]; split;
    try assumption; try discriminate; try reflexivity.
  exfalso. apply N. reflexivity.
Qed.

End ForceNewTexts.

(** ** The order the structured parser lists *)
Section StructuredOrder.
Import regexp structured.

Lemma parsedNames_next lines k :
  parsedNames lines (S k) = (parsedNames lines k ++ nameAt lines k)%list.
Proof.
  unfold parsedNames. rewrite seq_S, flat_map_app. cbn [flat_map Nat.add].
  rewrite app_nil_r. reflexivity.
Qed.

Lemma parseLines_order all : forall rest k pos acc p,
  (k + List.length rest = List.length all)%nat ->
  (forall i, (i < List.length rest)%nat -> nth i rest "" = nth (k + i) all "") ->
  pos = positionAt all k PosArgs ->
  Order acc = parsedNames all k ->
  parseLines rest (Z.of_nat k) pos acc = Ok p ->
  Order p = parsedNames all (List.length all).
Proof.
  induction rest as [|line rest IH]; intros k pos acc p L N P I H.
  - cbn in H. inversion H; subst p. cbn in L. rewrite Nat.add_0_r in L. subst k. exact I.
  - cbn [List.length] in L.
    assert (Here : line = nth k all "").
    { specialize (N 0%nat). cbn [nth List.length] in N. rewrite Nat.add_0_r in N.
      apply N. lia. }
    assert (N' : forall i, (i < List.length rest)%nat -> nth i rest "" = nth (S k + i) all "").
    { intros i Li. specialize (N (S i)). cbn [nth List.length] in N.
      rewrite N by lia. f_equal. lia. }
    assert (Nx : positionAt all (S k) PosArgs
                 = if detectPosition line =? -1 then pos else detectPosition line).
    { rewrite positionAt_next by lia. rewrite <- Here, <- P. reflexivity. }
    assert (Z1 : Z.of_nat k + 1 = Z.of_nat (S k)) by lia.
    assert (NA : nameAt all k
                 = if (detectPosition line =? -1) && negb (isBlockHeader line) then
                     match parseFieldLine line (Z.of_nat k) pos with
                     | Ok (Some f) => [Name f]
                     | _ => []
                     end
                   else []).
    { unfold nameAt. cbv zeta. rewrite <- Here, <- P. reflexivity. }
    cbn [parseLines] in H. cbv zeta in H.
    destruct (detectPosition line =? -1) eqn:D; cbn [negb andb] in H, NA.
    + destruct (isBlockHeader line) eqn:B; cbn [negb] in NA.
      * rewrite Z1 in H. apply (IH (S k) pos acc p); auto; [lia|].
        rewrite parsedNames_next, NA, app_nil_r. exact I.
      * bind_ok H. destruct a as [f|].
        -- rewrite Z1 in H. apply (IH (S k) pos _ p) in H; auto; [lia|].
           cbn [Order]. rewrite parsedNames_next, NA, I. reflexivity.
        -- rewrite Z1 in H. apply (IH (S k) pos acc p); auto; [lia|].
           rewrite parsedNames_next, NA, app_nil_r. exact I.
    + rewrite Z1 in H. apply (IH (S k) (detectPosition line) acc p); auto; [lia|].
      rewrite parsedNames_next, NA, app_nil_r. exact I.
Qed.

Lemma ParseFields_order content p :
  ParseFields content = Ok p ->
  Order p = parsedNames (Split content newline) (List.length (Split content newline)).
Proof.
  unfold ParseFields. intros H. change (String (ascii_of 10) EmptyString) with newline in H.
  set (lines := Split content newline) in *.
  apply (parseLines_order lines lines 0 PosArgs (mkParsedProperties [] []) p).
  - reflexivity.
  - intros i _. reflexivity.
  - destruct lines; reflexivity.
  - reflexivity.
  - exact H.
Qed.

Lemma parsedAt_nameAt lines i f : parsedAt lines i f -> nameAt lines i = [Name f].
Proof.
  intros (_ & D & B & E). unfold nameAt. cbv zeta. rewrite D, B, E. reflexivity.
Qed.

Lemma parsedAt_listed lines i f :
  parsedAt lines i f -> In (Name f) (parsedNames lines (List.length lines)).
Proof.
  intros Pa. unfold parsedNames. apply in_flat_map. exists i. split.
  - apply in_seq. destruct Pa as (L & _). lia.
  - rewrite (parsedAt_nameAt _ _ _ Pa). left. reflexivity.
Qed.

(** X23. In the collection [StructuredParser.ParseFields] returns, the
    listed names are the keys of the map, and the entry under a name is the
    field of the last line of the content parsed under that name: a field
    line that is neither a heading nor a block header, with the position of
    the last heading above it (arguments when there is none). The order
    lists the names of the parsed lines, line by line, so a name parsed on
    several lines is listed once per line, and every parsed line has its
    name in the order and in the map. *)
Theorem structured_ParseFields_last_line content p :
  ParseFields content = Ok p ->
  parsedUpTo (Split content newline) (List.length (Split content newline)) p /\
  Order p = parsedNames (Split content newline) (List.length (Split content newline)) /\
  (forall i f, parsedAt (Split content newline) i f ->
               In (Name f) (Order p) /\
               exists g, gomap.get (Fields p) (Name f) = Some g).
Proof.
  intros H. pose proof (ParseFields_parsedUpTo content p H) as U.
  pose proof (ParseFields_order content p H) as O.
  split; [exact U|]. split; [exact O|].
  intros i f Pa. assert (I : In (Name f) (Order p)).
  { rewrite O. exact (parsedAt_listed _ _ _ Pa). }
  split; [exact I|].
  destruct U as (_ & K & _). apply K in I.
  destruct (gomap.get (Fields p) (Name f)) as [g|] eqn:G; [exists g; reflexivity|].
  apply get_none_keys in G. contradiction.
Qed.

Lemma structured_ParseFields_last_line_witness :
  exists p,
    ParseFields (String.concat newline
                   ["## Arguments Reference"; "* `name` - (Required) The name.";
                    "## Attributes Reference"; "* `name` - The name of it."]) = Ok p /\
    gomap.keys (Fields p) = ["name"] /\ Order p = ["name"; "name"] /\
    parsedUpTo ["## Arguments Reference"; "* `name` - (Required) The name.";
                "## Attributes Reference"; "* `name` - The name of it."] 4 p /\
    parsedNames ["## Arguments Reference"; "* `name` - (Required) The name.";
                 "## Attributes Reference"; "* `name` - The name of it."] 4
    = ["name"; "name"].
Proof.
  let r := eval vm_compute in
      (ParseFields (String.concat newline
                      ["## Arguments Reference"; "* `name` - (Required) The name.";
                       "## Attributes Reference"; "* `name` - The name of it."])) in
  match r with
  | Ok ?p =>
    exists p;
    assert (E : ParseFields (String.concat newline
                  ["## Arguments Reference"; "* `name` - (Required) The name.";
                   "## Attributes Reference"; "* `name` - The name of it."]) = Ok p)
      by (vm_compute; reflexivity);
    split; [exact E|]; split; [reflexivity|]; split; [reflexivity|];
    split; [exact (proj1 (structured_ParseFields_last_line _ p E))
           |vm_compute; reflexivity]
  end.
Defined.

End StructuredOrder.
